(** * JSON-RPC WebSocket client of px-api: a shallow embedding

    This development embeds the class [JrpcWebSocketClient] of
    [clients/typescript] (the block that follows the path-type tables) and
    the domain wrapper [SetupClient.subscribe], and states the transport
    properties of the design document over it.  It goes on with the
    constructor, the path methods of [SetupClient] and further properties of
    the connection, of requests and of batches.

    The client is single threaded: every method body and every event handler
    runs to completion before the next one starts.  The embedding is
    therefore a deterministic transition function [step] over a [World]
    holding the six private fields of the class together with the part of
    the host runtime the class talks to: the sockets it created, the timers
    it armed, the promises it handed out, and a trace of what it did.

    Closures are represented by data.  The pair [{resolve, reject}] stored in
    [pendingRequests] becomes a [Pending] record naming the promise and, for
    [request], the timeout handle its wrappers clear; a [setTimeout] callback
    becomes a [TimerCallback]; the code after [await this.connect()] becomes
    a [Continuation].

    Conventions: numbers are integral and modelled by [Z]; where the client
    prints one it prints the double nearest to it, as [Number::toString]
    does.  Values of type [unknown] are [JsVal].  An incoming frame is taken
    after [JSON.parse]: as the value parsed, whatever it is ([Parsed]), since
    the annotation [JrpcResponse | JrpcNotification] is erased at run time;
    or, when the value has that declared type, as a record of the type
    ([ParsedObject], [ParsedArray]).  The two readings agree on the values
    that have the type. *)

From Stdlib Require Import ZArith String List Bool Lia DecimalString PeanoNat.
From Stdlib Require Import Sorted Permutation.
Import ListNotations.
Open Scope string_scope.
Open Scope Z_scope.

Set Implicit Arguments.
Set Warnings "-register-all".

(** ** Values, errors and envelopes *)

(** A JavaScript value of static type [unknown]. *)
Inductive JsVal :=
| VUndefined
| VNull
| VBool (b : bool)
| VNumber (n : Z)
| VString (s : string)
| VArray (items : list JsVal)
| VObject (fields : list (string * JsVal)).

(** *** Numbers as the client prints them *)

(** The decimal digits of an integer. *)
Definition decimal (z : Z) : string := NilZero.string_of_int (Z.to_int z).

(** The double nearest to the integer [a >= 0], ties to the even mantissa;
    [None] beyond the largest double, where [JSON.parse] yields
    [Infinity]. *)
Definition nearest_double (a : Z) : option Z :=
  if a <? 2 ^ 53 then Some a
  else
    let sh := Z.log2 a - 52 in
    let q := Z.shiftr a sh in
    let r := a - Z.shiftl q sh in
    let half := Z.shiftl 1 (sh - 1) in
    let q' := if (half <? r) || ((half =? r) && Z.odd q) then q + 1 else q in
    let d := Z.shiftl q' sh in
    if d <? 2 ^ 1024 then Some d else None.

(** Whether the integer [c] is read back as the double [d]: it lies within
    half a unit in the last place of [d], the ends included when the
    mantissa of [d] is even. *)
Definition rounds_to (d c : Z) : bool :=
  if d <? 2 ^ 53 then c =? d
  else
    let sh := Z.log2 d - 52 in
    let m := Z.shiftr d sh in
    let ulp := Z.shiftl 1 sh in
    let lo4 := 4 * d - (if m =? 2 ^ 52 then ulp else 2 * ulp) in
    let hi4 := 4 * d + 2 * ulp in
    if Z.even m then (lo4 <=? 4 * c) && (4 * c <=? hi4)
    else (lo4 <? 4 * c) && (4 * c <? hi4).

(** The integer with the fewest significant digits that is read back as
    [d], the nearest to [d] among those; [fuel] is the number of trailing
    zeros tried first. *)
Fixpoint shortest (fuel : nat) (d : Z) : Z :=
  match fuel with
  | O => d
  | S j =>
      let p := 10 ^ Z.of_nat j in
      let c1 := (d / p) * p in
      let c2 := c1 + p in
      let ok1 := (0 <? c1) && rounds_to d c1 in
      let ok2 := rounds_to d c2 in
      if ok1 && ok2 then
        if d - c1 <? c2 - d then c1
        else if c2 - d <? d - c1 then c2
        else if Z.even (c1 / p) then c1 else c2
      else if ok1 then c1
      else if ok2 then c2
      else shortest j d
  end.

Fixpoint strip_zeros (fuel : nat) (c : Z) : Z :=
  match fuel with
  | O => c
  | S fuel' =>
      if (c mod 10 =? 0) && negb (c =? 0) then strip_zeros fuel' (c / 10) else c
  end.

(** [d.ddde+n], the form of a number of more than 21 digits. *)
Definition exponent_form (c : Z) : string :=
  let n := String.length (decimal c) in
  let s := decimal (strip_zeros n c) in
  let e := decimal (Z.of_nat n - 1) in
  match s with
  | String d1 EmptyString => String d1 ("e+" ++ e)
  | String d1 rest => String d1 ("." ++ rest ++ "e+" ++ e)
  | EmptyString => EmptyString
  end.

(** [Number::toString] of the number that [JSON.parse] makes of the integer
    [z]: [-32602] is printed as such, [2^64] as [18446744073709552000] and
    [10^21] as [1e+21]. *)
Definition showZ (z : Z) : string :=
  if z =? 0 then "0"
  else
    let sign := if z <? 0 then "-" else EmptyString in
    match nearest_double (Z.abs z) with
    | None => sign ++ "Infinity"
    | Some d =>
        let c := shortest (S (String.length (decimal d))) d in
        sign ++ (if (String.length (decimal c) <=? 21)%nat
                 then decimal c else exponent_form c)
    end.

(** *** Values of unknown type at run time *)

(** An own property of an object made by [JSON.parse], which lists every
    key once. *)
Fixpoint field (key : string) (fields : list (string * JsVal)) : option JsVal :=
  match fields with
  | [] => None
  | (k, v) :: rest => if String.eqb k key then Some v else field key rest
  end.

(** [key in value] for a key that no prototype defines; [None] when the
    operator throws a [TypeError], which it does on anything but an
    object. *)
Definition has_property (key : string) (v : JsVal) : option bool :=
  match v with
  | VObject fields =>
      Some (match field key fields with Some _ => true | None => false end)
  | VArray _ => Some false
  | _ => None
  end.

(** [value.key] for a value that is neither [null] nor [undefined] and a key
    that no prototype defines: the own property, or [undefined]. *)
Definition Get (v : JsVal) (key : string) : JsVal :=
  match v with
  | VObject fields =>
      match field key fields with Some x => x | None => VUndefined end
  | _ => VUndefined
  end.

(** [ToBoolean] *)
Definition truthy (v : JsVal) : bool :=
  match v with
  | VUndefined | VNull => false
  | VBool b => b
  | VNumber n => negb (n =? 0)
  | VString s => negb (String.eqb s EmptyString)
  | VArray _ | VObject _ => true
  end.

(** [ToString], which a template literal applies to each substitution;
    [None] when it throws a [TypeError].  An array is joined with commas,
    [null] and [undefined] elements being left empty.  An object is
    [[object Object]], unless it has an own property [toString]: after
    [JSON.parse] that property is no function, [Object.prototype.valueOf]
    returns the object itself, and the conversion fails. *)
Fixpoint ToString (v : JsVal) : option string :=
  match v with
  | VUndefined => Some "undefined"
  | VNull => Some "null"
  | VBool b => Some (if b then "true" else "false")
  | VNumber n => Some (showZ n)
  | VString s => Some s
  | VArray items =>
      (fix join (l : list JsVal) : option string :=
         match l with
         | [] => Some EmptyString
         | x :: rest =>
             match match x with
                   | VUndefined | VNull => Some EmptyString
                   | _ => ToString x
                   end, join rest with
             | Some a, Some b =>
                 Some (match rest with [] => a | _ :: _ => a ++ "," ++ b end)
             | _, _ => None
             end
         end) items
  | VObject fields =>
      match field "toString" fields with
      | Some _ => None
      | None => Some "[object Object]"
      end
  end.

(** Thrown or rejected values.  [Error] is what the class itself builds with
    [new Error(...)]; the other two are raised by the host when [send] is
    called through a null reference or on a socket that is still
    connecting. *)
Inductive JsError :=
| Error (message : string)
| TypeError (message : string)
| DOMException (name : string).

(** [interface JrpcError] *)
Record JrpcError := mkJrpcError {
  code : Z;
  message : string;
  data : option JsVal }.

(** [interface JrpcRequest]; the constant [jsonrpc: '2.0'] is left out. *)
Record JrpcRequest := mkJrpcRequest {
  req_method : string;
  req_params : JsVal;
  req_id : Z }.

(** The argument of [handleSingleMessage], of type
    [JrpcResponse | JrpcNotification]: every property of either interface,
    present or absent. *)
Record Message := mkMessage {
  msg_id : option Z;
  msg_method : option string;
  msg_params : option JsVal;
  msg_result : option JsVal;
  msg_error : option JrpcError }.

(** What [JSON.parse(data)] does in [handleMessage]: it throws, or it
    returns a value.  [Parsed] holds the value as it is; [ParsedArray] and
    [ParsedObject] hold a value that has the declared type, read as such. *)
Inductive Frame :=
| Malformed
| ParsedArray (items : list Message)
| ParsedObject (message : Message)
| Parsed (value : JsVal).

(** What is handed to [ws.send] before [JSON.stringify]. *)
Inductive Wire :=
| WireRequest (r : JrpcRequest)
| WireBatch (rs : list JrpcRequest).

(** [type WebSocketState] *)
Inductive WebSocketState :=
| state_connecting
| state_connected
| state_disconnected
| state_error.

(** [WebSocket.readyState] *)
Inductive ReadyState := CONNECTING | OPEN | CLOSING | CLOSED.

(** [Required<ClientOptions>] without the url. *)
Record ClientOptions := mkOptions {
  opt_reconnect : bool;
  opt_reconnectDelay : Z;
  opt_timeout : Z }.

(** The defaults the constructor spreads the caller's options over. *)
Definition default_options : ClientOptions :=
  {| opt_reconnect := true; opt_reconnectDelay := 3000; opt_timeout := 30000 |}.

(** ** Runtime objects *)

Definition SocketId := nat.
Definition TimerId := nat.
Definition PromiseId := nat.

Inductive Outcome :=
| Fulfilled (v : JsVal)
| Rejected (e : JsError).

(** A value of [pendingRequests].  For [request] the stored functions first
    clear [timeoutId] and then settle the promise; for [batch] they are the
    promise's own [resolve] and [reject], so there is no handle. *)
Record Pending := mkPending {
  pend_promise : PromiseId;
  pend_timer : option TimerId }.

(** The two closures the class passes to [setTimeout]. *)
Inductive TimerCallback :=
| RequestTimeout (id : Z) (method : string) (p : PromiseId)
| ReconnectAttempt.

(** The code that runs once the promise of [connect] settles. *)
Inductive Continuation :=
| KRequest (method : string) (params : JsVal) (p : PromiseId)
| KBatch (requests : list (string * JsVal)) (c : PromiseId)
| KReconnectCatch.

(** The state [Promise.all] keeps for one call: the promise it returned, its
    inputs in order, and the slot each input's value is written to. *)
Record AllRecord := mkAll {
  all_target : PromiseId;
  all_members : list PromiseId;
  all_values : list (option JsVal) }.

(** Who called a promise's [resolve] or [reject]. *)
Inductive Via :=
| ByResponse (id : Z)
| ByDisconnect (id : Z)
| ByTimeout (id : Z)
| BySendFailure
| ByConnectFailure
| ByAll.

(** Observable actions, newest first in the trace.  [CallbackInvoked] is the
    action of running a subscriber callback on a notification; it is part of
    the vocabulary so that properties about it can be stated.  [ConsoleWarn]
    is [console.warn] with a number as second argument, [ConsoleWarnValue]
    with any other value. *)
Inductive Effect :=
| Sent (s : SocketId) (frame : Wire)
| CloseCalled (s : SocketId)
| ConsoleWarn (text : string) (id : Z)
| ConsoleError (text : string)
| ConsoleLog (text : string)
| AssignedId (id : Z)
| Invoked (via : Via) (p : PromiseId) (o : Outcome)
| CallbackInvoked (method : string) (params : JsVal)
| ConsoleWarnValue (text : string) (value : JsVal).

Record World := mkWorld {
  (* private fields of JrpcWebSocketClient *)
  ws : option SocketId;
  requestId : Z;
  pendingRequests : list (Z * Pending);
  state : WebSocketState;
  options : ClientOptions;
  reconnectTimer : option TimerId;
  (* host runtime *)
  sockets : list ReadyState;
  timers : list (TimerId * (Z * TimerCallback));
  nextTimer : TimerId;
  nextPromise : PromiseId;
  settled : list (PromiseId * Outcome);
  combinators : list AllRecord;
  awaiting : list (SocketId * Continuation);
  trace : list Effect }.

(** [new JrpcWebSocketClient(options)] in a fresh runtime. *)
Definition initial (o : ClientOptions) : World :=
  {| ws := None; requestId := 0; pendingRequests := [];
     state := state_disconnected; options := o; reconnectTimer := None;
     sockets := []; timers := []; nextTimer := O; nextPromise := O;
     settled := []; combinators := []; awaiting := []; trace := [] |}.

(** *** Field updates *)

Definition set_ws v w :=
  mkWorld v (requestId w) (pendingRequests w) (state w) (options w)
    (reconnectTimer w) (sockets w) (timers w) (nextTimer w) (nextPromise w)
    (settled w) (combinators w) (awaiting w) (trace w).
Definition set_requestId v w :=
  mkWorld (ws w) v (pendingRequests w) (state w) (options w)
    (reconnectTimer w) (sockets w) (timers w) (nextTimer w) (nextPromise w)
    (settled w) (combinators w) (awaiting w) (trace w).
Definition set_pendingRequests v w :=
  mkWorld (ws w) (requestId w) v (state w) (options w)
    (reconnectTimer w) (sockets w) (timers w) (nextTimer w) (nextPromise w)
    (settled w) (combinators w) (awaiting w) (trace w).
Definition set_state v w :=
  mkWorld (ws w) (requestId w) (pendingRequests w) v (options w)
    (reconnectTimer w) (sockets w) (timers w) (nextTimer w) (nextPromise w)
    (settled w) (combinators w) (awaiting w) (trace w).
Definition set_reconnectTimer v w :=
  mkWorld (ws w) (requestId w) (pendingRequests w) (state w) (options w)
    v (sockets w) (timers w) (nextTimer w) (nextPromise w)
    (settled w) (combinators w) (awaiting w) (trace w).
Definition set_sockets v w :=
  mkWorld (ws w) (requestId w) (pendingRequests w) (state w) (options w)
    (reconnectTimer w) v (timers w) (nextTimer w) (nextPromise w)
    (settled w) (combinators w) (awaiting w) (trace w).
Definition set_timers v w :=
  mkWorld (ws w) (requestId w) (pendingRequests w) (state w) (options w)
    (reconnectTimer w) (sockets w) v (nextTimer w) (nextPromise w)
    (settled w) (combinators w) (awaiting w) (trace w).
Definition set_nextTimer v w :=
  mkWorld (ws w) (requestId w) (pendingRequests w) (state w) (options w)
    (reconnectTimer w) (sockets w) (timers w) v (nextPromise w)
    (settled w) (combinators w) (awaiting w) (trace w).
Definition set_nextPromise v w :=
  mkWorld (ws w) (requestId w) (pendingRequests w) (state w) (options w)
    (reconnectTimer w) (sockets w) (timers w) (nextTimer w) v
    (settled w) (combinators w) (awaiting w) (trace w).
Definition set_settled v w :=
  mkWorld (ws w) (requestId w) (pendingRequests w) (state w) (options w)
    (reconnectTimer w) (sockets w) (timers w) (nextTimer w) (nextPromise w)
    v (combinators w) (awaiting w) (trace w).
Definition set_combinators v w :=
  mkWorld (ws w) (requestId w) (pendingRequests w) (state w) (options w)
    (reconnectTimer w) (sockets w) (timers w) (nextTimer w) (nextPromise w)
    (settled w) v (awaiting w) (trace w).
Definition set_awaiting v w :=
  mkWorld (ws w) (requestId w) (pendingRequests w) (state w) (options w)
    (reconnectTimer w) (sockets w) (timers w) (nextTimer w) (nextPromise w)
    (settled w) (combinators w) v (trace w).
Definition set_trace v w :=
  mkWorld (ws w) (requestId w) (pendingRequests w) (state w) (options w)
    (reconnectTimer w) (sockets w) (timers w) (nextTimer w) (nextPromise w)
    (settled w) (combinators w) (awaiting w) v.

Definition log (e : Effect) (w : World) : World := set_trace (e :: trace w) w.

(** ** [Map<number, ...>]: an association list in insertion order *)

Section JsMap.
Variable V : Type.

Fixpoint map_get (k : Z) (m : list (Z * V)) : option V :=
  match m with
  | [] => None
  | (k', v) :: rest => if k' =? k then Some v else map_get k rest
  end.

(** [set] overwrites in place or appends. *)
Fixpoint map_set (k : Z) (v : V) (m : list (Z * V)) : list (Z * V) :=
  match m with
  | [] => [(k, v)]
  | (k', v') :: rest =>
      if k' =? k then (k, v) :: rest else (k', v') :: map_set k v rest
  end.

Definition map_delete (k : Z) (m : list (Z * V)) : list (Z * V) :=
  filter (fun kv => negb (fst kv =? k)) m.

Definition map_keys (m : list (Z * V)) : list Z := map fst m.
Definition map_values (m : list (Z * V)) : list V := map snd m.
End JsMap.

(** The same for tables keyed by runtime handles. *)
Section Handles.
Variable V : Type.

Fixpoint handle_get (k : nat) (m : list (nat * V)) : option V :=
  match m with
  | [] => None
  | (k', v) :: rest => if Nat.eqb k' k then Some v else handle_get k rest
  end.

Definition handle_remove (k : nat) (m : list (nat * V)) : list (nat * V) :=
  filter (fun kv => negb (Nat.eqb (fst kv) k)) m.
End Handles.

(** ** Host runtime: timers, sockets, promises *)

(** [setTimeout(cb, delay)]; the handle returned is [nextTimer w]. *)
Definition setTimeout (cb : TimerCallback) (delay : Z) (w : World) : World :=
  set_nextTimer (S (nextTimer w))
    (set_timers (timers w ++ [(nextTimer w, (delay, cb))]) w).

(** [clearTimeout(t)]: nothing happens when [t] already ran or was cleared. *)
Definition clearTimeout (t : TimerId) (w : World) : World :=
  set_timers (handle_remove t (timers w)) w.

Definition readyState (w : World) (s : SocketId) : option ReadyState :=
  nth_error (sockets w) s.

Fixpoint set_nth (A : Type) (n : nat) (x : A) (l : list A) : list A :=
  match l, n with
  | [], _ => []
  | _ :: rest, O => x :: rest
  | y :: rest, S n' => y :: set_nth n' x rest
  end.

Definition set_readyState (s : SocketId) (r : ReadyState) (w : World) : World :=
  set_sockets (set_nth s r (sockets w)) w.

(** [this.ws && this.ws.readyState === WebSocket.OPEN] *)
Definition ws_open (w : World) : bool :=
  match ws w with
  | Some s => match readyState w s with Some OPEN => true | _ => false end
  | None => false
  end.

(** [ws.close()]: an open or connecting socket starts closing; the close
    event is delivered later by the host. *)
Definition ws_close (s : SocketId) (w : World) : World :=
  let w1 := log (CloseCalled s) w in
  match readyState w1 s with
  | Some CONNECTING | Some OPEN => set_readyState s CLOSING w1
  | _ => w1
  end.

(** [this.ws.send(frame)].  The result is the exception raised, if any:
    a null [this.ws] gives a [TypeError], a connecting socket an
    [InvalidStateError]; a closing or closed socket discards the data. *)
Definition ws_send (frame : Wire) (w : World) : World * option JsError :=
  match ws w with
  | None => (w, Some (TypeError "Cannot read properties of null (reading 'send')"))
  | Some s =>
      match readyState w s with
      | Some CONNECTING => (w, Some (DOMException "InvalidStateError"))
      | Some OPEN => (log (Sent s frame) w, None)
      | _ => (w, None)
      end
  end.

(** The state of a promise: [None] while pending. *)
Definition promiseState (w : World) (p : PromiseId) : option Outcome :=
  handle_get p (settled w).

(** [new Promise(...)]: the new promise is [nextPromise w]. *)
Definition newPromise (w : World) : World :=
  set_nextPromise (S (nextPromise w)) w.

(** A call of the [resolve] or [reject] function of [p] that has no further
    reaction inside the client.  Only the first call settles the promise. *)
Definition settle_plain (via : Via) (p : PromiseId) (o : Outcome) (w : World) : World :=
  let w1 := log (Invoked via p o) w in
  match promiseState w p with
  | Some _ => w1
  | None => set_settled ((p, o) :: settled w1) w1
  end.

Definition is_member (p : PromiseId) (r : AllRecord) : bool :=
  existsb (Nat.eqb p) (all_members r).

(** Write [v] into the slot of every position that holds promise [p]. *)
Fixpoint fill (p : PromiseId) (v : JsVal)
    (members : list PromiseId) (slots : list (option JsVal)) : list (option JsVal) :=
  match members, slots with
  | m :: ms, s :: ss => (if Nat.eqb m p then Some v else s) :: fill p v ms ss
  | _, _ => slots
  end.

Fixpoint collect (slots : list (option JsVal)) : option (list JsVal) :=
  match slots with
  | [] => Some []
  | Some v :: rest =>
      match collect rest with Some vs => Some (v :: vs) | None => None end
  | None :: rest => None
  end.

(** The reaction [Promise.all] attached to its inputs: a fulfilled input
    fills its slot and, when no slot is left empty, resolves the combined
    promise with the array of slots; a rejected input rejects the combined
    promise at once. *)
Definition react_one (p : PromiseId) (o : Outcome) (r : AllRecord)
    : AllRecord * option Outcome :=
  if is_member p r then
    match o with
    | Fulfilled v =>
        let slots := fill p v (all_members r) (all_values r) in
        (mkAll (all_target r) (all_members r) slots,
         match collect slots with
         | Some vs => Some (Fulfilled (VArray vs))
         | None => None
         end)
    | Rejected e => (r, Some (Rejected e))
    end
  else (r, None).

Fixpoint react (p : PromiseId) (o : Outcome) (rs : list AllRecord) (w : World)
    : list AllRecord * World :=
  match rs with
  | [] => ([], w)
  | r :: rest =>
      let (r', out) := react_one p o r in
      let w1 := match out with
                | Some o' => settle_plain ByAll (all_target r) o' w
                | None => w
                end in
      let (rest', w2) := react p o rest w1 in
      (r' :: rest', w2)
  end.

(** A call of the [resolve] or [reject] function of [p], followed by the
    reactions of every [Promise.all] that has [p] among its inputs. *)
Definition settle (via : Via) (p : PromiseId) (o : Outcome) (w : World) : World :=
  match promiseState w p with
  | Some _ => log (Invoked via p o) w
  | None =>
      let w1 := settle_plain via p o w in
      let (rs, w2) := react p o (combinators w1) w1 in
      set_combinators rs w2
  end.

(** ** The methods of [JrpcWebSocketClient] *)

(** The stored [reject] of a pending entry: the [request] wrapper clears its
    timeout first. *)
Definition clear_pending_timer (pending : Pending) (w : World) : World :=
  match pend_timer pending with
  | Some t => clearTimeout t w
  | None => w
  end.

Definition pending_reject (via : Via) (pending : Pending) (e : JsError) (w : World) : World :=
  settle via (pend_promise pending) (Rejected e) (clear_pending_timer pending w).

Definition pending_resolve (via : Via) (pending : Pending) (v : JsVal) (w : World) : World :=
  settle via (pend_promise pending) (Fulfilled v) (clear_pending_timer pending w).

(** [disconnect()] *)
Definition reject_all (w : World) : World :=
  fold_left
    (fun acc kv => pending_reject (ByDisconnect (fst kv)) (snd kv) (Error "Connection closed") acc)
    (pendingRequests w) w.

Definition disconnect (w : World) : World :=
  let w1 := match reconnectTimer w with
            | Some t => set_reconnectTimer None (clearTimeout t w)
            | None => w
            end in
  let w2 := match ws w1 with
            | Some s => set_ws None (ws_close s w1)
            | None => w1
            end in
  let w3 := set_state state_disconnected w2 in
  set_pendingRequests [] (reject_all w3).

(** [getState()] *)
Definition getState (w : World) : WebSocketState := state w.

(** The part of [request] after the optional [await]: [p] is the promise the
    caller holds. *)
Definition request_body (method : string) (params : JsVal) (p : PromiseId) (w : World) : World :=
  let id := requestId w + 1 in
  let w1 := log (AssignedId id) (set_requestId id w) in
  let timeoutId := nextTimer w1 in
  let w2 := setTimeout (RequestTimeout id method p) (opt_timeout (options w1)) w1 in
  let w3 := set_pendingRequests
              (map_set id (mkPending p (Some timeoutId)) (pendingRequests w2)) w2 in
  match ws_send (WireRequest (mkJrpcRequest method params id)) w3 with
  | (w4, None) => w4
  | (w4, Some e) => settle BySendFailure p (Rejected e) w4
  end.

(** [requests.map(req => ({..., id: ++this.requestId}))] *)
Fixpoint assign_ids (requests : list (string * JsVal)) (w : World)
    : list JrpcRequest * World :=
  match requests with
  | [] => ([], w)
  | (m, ps) :: rest =>
      let id := requestId w + 1 in
      let w1 := log (AssignedId id) (set_requestId id w) in
      let (rs, w2) := assign_ids rest w1 in
      (mkJrpcRequest m ps id :: rs, w2)
  end.

(** [batchRequests.map(req => new Promise(...))]: one fresh promise per
    element, stored without a timeout. *)
Fixpoint register_all (rs : list JrpcRequest) (w : World) : list PromiseId * World :=
  match rs with
  | [] => ([], w)
  | r :: rest =>
      let p := nextPromise w in
      let w1 := set_pendingRequests
                  (map_set (req_id r) (mkPending p None) (pendingRequests w))
                  (newPromise w) in
      let (ps, w2) := register_all rest w1 in
      (p :: ps, w2)
  end.

(** [Promise.all(promises)] settling the promise [c] of the caller. *)
Definition promise_all (c : PromiseId) (members : list PromiseId) (w : World) : World :=
  let w1 := set_combinators
              (combinators w ++ [mkAll c members (map (fun _ => None) members)]) w in
  match members with
  | [] => settle_plain ByAll c (Fulfilled (VArray [])) w1
  | _ => w1
  end.

(** The part of [batch] after the optional [await]. *)
Definition batch_body (requests : list (string * JsVal)) (c : PromiseId) (w : World) : World :=
  let (batchRequests, w1) := assign_ids requests w in
  let (promises, w2) := register_all batchRequests w1 in
  match ws_send (WireBatch batchRequests) w2 with
  | (w3, None) => promise_all c promises w3
  | (w3, Some e) => settle BySendFailure c (Rejected e) w3
  end.

(** What runs after [await this.connect()] once the promise is resolved. *)
Definition resume (k : Continuation) (w : World) : World :=
  match k with
  | KRequest method params p => request_body method params p w
  | KBatch requests c => batch_body requests c w
  | KReconnectCatch => w
  end.

(** The executor inside [connect]: a new socket becomes [this.ws]; [k] is
    what awaits the returned promise, if anything. *)
Definition open_socket (k : option Continuation) (w : World) : World :=
  let w1 := set_state state_connecting w in
  let s := length (sockets w1) in
  let w2 := set_ws (Some s) (set_sockets (sockets w1 ++ [CONNECTING]) w1) in
  match k with
  | Some k' => set_awaiting (awaiting w2 ++ [(s, k')]) w2
  | None => w2
  end.

(** [connect()], with what the caller chains on the promise it returns: on
    an open socket the promise is resolved at once, so [k] runs at once. *)
Definition connect (k : option Continuation) (w : World) : World :=
  if ws_open w then
    match k with Some k' => resume k' w | None => w end
  else open_socket k w.

(** [request(method, params)]: the promise returned is [nextPromise w]. *)
Definition request (method : string) (params : JsVal) (w : World) : World :=
  let p := nextPromise w in
  let w1 := newPromise w in
  if ws_open w1 then request_body method params p w1
  else connect (Some (KRequest method params p)) w1.

(** [batch(requests)]: the promise returned is [nextPromise w]. *)
Definition batch (requests : list (string * JsVal)) (w : World) : World :=
  let c := nextPromise w in
  let w1 := newPromise w in
  if ws_open w1 then batch_body requests c w1
  else connect (Some (KBatch requests c)) w1.

(** [handleSingleMessage(message)] on a message that has the declared
    type. *)
Definition handleSingleMessage (msg : Message) (w : World) : World :=
  match msg_id msg with
  | None => w
  | Some id =>
      match map_get id (pendingRequests w) with
      | None => log (ConsoleWarn "Received response for unknown request:" id) w
      | Some pending =>
          let w1 := set_pendingRequests (map_delete id (pendingRequests w)) w in
          match msg_error msg with
          | Some err =>
              pending_reject (ByResponse id) pending
                (Error (message err ++ " (code: " ++ showZ (code err) ++ ")")) w1
          | None =>
              pending_resolve (ByResponse id) pending
                (match msg_result msg with Some v => v | None => VUndefined end) w1
          end
      end
  end.

(** How a call ends: it returns, or it throws; either way in the state it
    reached. *)
Inductive Completion :=
| Normal (w : World)
| Thrown (w : World).

(** [this.pendingRequests.get(id)] for a key of any type: the keys are
    numbers, so nothing but a number is found. *)
Definition lookup_pending (id : JsVal) (w : World) : option (Z * Pending) :=
  match id with
  | VNumber n =>
      match map_get n (pendingRequests w) with
      | Some pending => Some (n, pending)
      | None => None
      end
  | _ => None
  end.

(** [console.warn('Received response for unknown request:', id)] *)
Definition warn_unknown (id : JsVal) : Effect :=
  match id with
  | VNumber n => ConsoleWarn "Received response for unknown request:" n
  | _ => ConsoleWarnValue "Received response for unknown request:" id
  end.

(** [handleSingleMessage(message)] on whatever [JSON.parse] returned.  The
    test ['id' in message] throws on a value that is no object; [message.error]
    is tested for truthiness; the text of the error is built, by two string
    conversions that may throw, after the entry was deleted and before
    [reject] is called. *)
Definition handleSingleMessage_raw (message : JsVal) (w : World) : Completion :=
  match has_property "id" message with
  | None => Thrown w
  | Some false => Normal w
  | Some true =>
      let id := Get message "id" in
      match lookup_pending id w with
      | None => Normal (log (warn_unknown id) w)
      | Some (n, pending) =>
          let w1 := set_pendingRequests (map_delete n (pendingRequests w)) w in
          let error := Get message "error" in
          if truthy error then
            match ToString (Get error "message"), ToString (Get error "code") with
            | Some m, Some c =>
                Normal (pending_reject (ByResponse n) pending
                          (Error (m ++ " (code: " ++ c ++ ")")) w1)
            | _, _ => Thrown w1
            end
          else Normal (pending_resolve (ByResponse n) pending (Get message "result") w1)
      end
  end.

(** [for (const item of message) this.handleSingleMessage(item)]: an item
    that throws ends the loop. *)
Fixpoint handleItems (items : list JsVal) (w : World) : Completion :=
  match items with
  | [] => Normal w
  | item :: rest =>
      match handleSingleMessage_raw item w with
      | Normal w' => handleItems rest w'
      | Thrown w' => Thrown w'
      end
  end.

(** [catch (error) { console.error('Failed to parse message:', error) }] *)
Definition caught (c : Completion) : World :=
  match c with
  | Normal w => w
  | Thrown w => log (ConsoleError "Failed to parse message:") w
  end.

(** [handleMessage(data)] *)
Definition handleMessage (data : Frame) (w : World) : World :=
  match data with
  | Malformed => log (ConsoleError "Failed to parse message:") w
  | ParsedArray items => fold_left (fun acc item => handleSingleMessage item acc) items w
  | ParsedObject msg => handleSingleMessage msg w
  | Parsed (VArray items) => caught (handleItems items w)
  | Parsed message => caught (handleSingleMessage_raw message w)
  end.

Definition is_error (s : WebSocketState) : bool :=
  match s with state_error => true | _ => false end.

(** [handleDisconnect()] *)
Definition handleDisconnect (w : World) : World :=
  if opt_reconnect (options w) && negb (is_error (state w)) then
    set_reconnectTimer (Some (nextTimer w))
      (setTimeout ReconnectAttempt (opt_reconnectDelay (options w)) w)
  else w.

(** [SetupClient.subscribe(topic)] *)
Definition SetupClient_subscribe (topic : option string) (w : World) : World :=
  request "setup_subscribe"
    (VObject [("topic", match topic with Some t => VString t | None => VUndefined end)]) w.

(** ** Handlers installed by [connect] and callbacks given to [setTimeout] *)

Definition abort (e : JsError) (k : Continuation) (w : World) : World :=
  match k with
  | KRequest _ _ p => settle ByConnectFailure p (Rejected e) w
  | KBatch _ c => settle ByConnectFailure c (Rejected e) w
  | KReconnectCatch => log (ConsoleError "Reconnection failed:") w
  end.

(** Settling the promise of the [connect] call that created socket [s]:
    whatever awaits it runs, once. *)
Definition settle_connect (s : SocketId) (f : Continuation -> World -> World) (w : World) : World :=
  let mine := filter (fun sk => Nat.eqb (fst sk) s) (awaiting w) in
  let others := filter (fun sk => negb (Nat.eqb (fst sk) s)) (awaiting w) in
  fold_left (fun acc sk => f (snd sk) acc) mine (set_awaiting others w).

(** [ws.onopen] *)
Definition onopen (s : SocketId) (w : World) : World :=
  let w1 := set_state state_connected w in
  let w2 := match reconnectTimer w1 with
            | Some t => set_reconnectTimer None (clearTimeout t w1)
            | None => w1
            end in
  settle_connect s resume w2.

(** [ws.onerror] *)
Definition onerror (s : SocketId) (w : World) : World :=
  settle_connect s (abort (Error "WebSocket error: [object Event]"))
    (set_state state_error w).

(** [ws.onmessage] *)
Definition onmessage (data : Frame) (w : World) : World := handleMessage data w.

(** [ws.onclose] *)
Definition onclose (w : World) : World :=
  handleDisconnect (set_state state_disconnected w).

(** The callback of a timer, run when it expires. *)
Definition run_timer (cb : TimerCallback) (w : World) : World :=
  match cb with
  | RequestTimeout id method p =>
      settle (ByTimeout id) p (Rejected (Error ("Request timeout: " ++ method)))
        (set_pendingRequests (map_delete id (pendingRequests w)) w)
  | ReconnectAttempt =>
      connect (Some KReconnectCatch) (log (ConsoleLog "Attempting to reconnect...") w)
  end.

(** ** Runs *)

(** What can happen to a client: a caller invokes a public method, the host
    delivers a socket event to the handlers of the socket it belongs to, or a
    timer expires.  A failed connection delivers [error] and then [close]. *)
Inductive Event :=
| CallConnect
| CallDisconnect
| CallRequest (method : string) (params : JsVal)
| CallBatch (requests : list (string * JsVal))
| SocketOpen (s : SocketId)
| SocketMessage (s : SocketId) (data : Frame)
| SocketClose (s : SocketId)
| SocketFail (s : SocketId)
| TimerFire (t : TimerId).

Definition step (w : World) (e : Event) : World :=
  match e with
  | CallConnect => connect None w
  | CallDisconnect => disconnect w
  | CallRequest method params => request method params w
  | CallBatch requests => batch requests w
  | SocketOpen s =>
      match readyState w s with
      | Some CONNECTING => onopen s (set_readyState s OPEN w)
      | _ => w
      end
  | SocketMessage s data =>
      match readyState w s with
      | Some OPEN => onmessage data w
      | _ => w
      end
  | SocketClose s =>
      match readyState w s with
      | Some CLOSED | None => w
      | Some _ => onclose (set_readyState s CLOSED w)
      end
  | SocketFail s =>
      match readyState w s with
      | Some CLOSED | None => w
      | Some _ => onclose (onerror s (set_readyState s CLOSED w))
      end
  | TimerFire t =>
      match handle_get t (timers w) with
      | Some (_, cb) => run_timer cb (clearTimeout t w)
      | None => w
      end
  end.

Definition run (w : World) (events : list Event) : World := fold_left step events w.

(** ** The constructor and the setup domain client *)

(** The argument of the constructor, [ClientOptions] without the url: an
    optional property is left out or holds a value of its type. *)
Record ClientOptionsArg := mkArg {
  arg_reconnect : option bool;
  arg_reconnectDelay : option Z;
  arg_timeout : option Z }.

(** [{ ...defaults, ...options }]: a property of [options] that is present
    replaces the default. *)
Definition spread (defaults : ClientOptions) (options : ClientOptionsArg) : ClientOptions :=
  {| opt_reconnect :=
       match arg_reconnect options with Some b => b | None => opt_reconnect defaults end;
     opt_reconnectDelay :=
       match arg_reconnectDelay options with
       | Some d => d
       | None => opt_reconnectDelay defaults
       end;
     opt_timeout :=
       match arg_timeout options with Some t => t | None => opt_timeout defaults end |}.

(** [new JrpcWebSocketClient(options)] *)
Definition JrpcWebSocketClient_new (options : ClientOptionsArg) : World :=
  initial (spread default_options options).

(** [new PxClient(options)]: [super(options)], then one domain client per
    field, each holding [this]; the domain clients have no state of their
    own. *)
Definition PxClient_new (options : ClientOptionsArg) : World :=
  JrpcWebSocketClient_new options.

(** [SetupClient.get(path)] *)
Definition SetupClient_get (path : string) (w : World) : World :=
  request "setup_get" (VObject [("path", VString path)]) w.

(** [SetupClient.set(path, value)] *)
Definition SetupClient_set (path : string) (value : JsVal) (w : World) : World :=
  request "setup_set" (VObject [("path", VString path); ("value", value)]) w.

(** [SetupClient.batchSet(operations)] *)
Definition SetupClient_batchSet (operations : list (string * JsVal)) (w : World) : World :=
  batch
    (map (fun op => ("setup_set", VObject [("path", VString (fst op)); ("value", snd op)]))
       operations) w.

(** [SetupClient.batchGet(paths)] *)
Definition SetupClient_batchGet (paths : list string) (w : World) : World :=
  batch (map (fun path => ("setup_get", VObject [("path", VString path)])) paths) w.

(** * Vocabulary of the properties

    Readings of the trace, the invariants of the table and of the promise
    store, and the concrete runs used below. *)

(** [w'] differs from [w] at most in the promise store, the [Promise.all]
    records and the trace. *)
Definition promises_only (w w' : World) : Prop :=
  exists st cs tr,
    w' = mkWorld (ws w) (requestId w) (pendingRequests w) (state w) (options w)
           (reconnectTimer w) (sockets w) (timers w) (nextTimer w) (nextPromise w)
           st cs (awaiting w) tr.

(** Every promise settled in [w] is settled the same way in [w']. *)
Definition keeps_settled (w w' : World) : Prop :=
  forall q x, promiseState w q = Some x -> promiseState w' q = Some x.

Definition connection_closed : JsError := Error "Connection closed".

Definition reject_entries (entries : list (Z * Pending)) (w : World) : World :=
  fold_left
    (fun acc kv => pending_reject (ByDisconnect (fst kv)) (snd kv) (Error "Connection closed") acc)
    entries w.

(** The stored functions of an entry touch timers and promises only. *)
Definition client_kept (w w' : World) : Prop :=
  ws w' = ws w /\ requestId w' = requestId w /\ pendingRequests w' = pendingRequests w /\
  state w' = state w /\ options w' = options w /\ reconnectTimer w' = reconnectTimer w /\
  sockets w' = sockets w /\ nextTimer w' = nextTimer w /\ nextPromise w' = nextPromise w /\
  awaiting w' = awaiting w.

Definition result_or_undefined (msg : Message) : JsVal :=
  match msg_result msg with Some v => v | None => VUndefined end.

Definition error_text (err : JrpcError) : string :=
  message err ++ " (code: " ++ showZ (code err) ++ ")".

(** *** Typed messages as values *)

Definition opt_field (key : string) (v : option JsVal) : list (string * JsVal) :=
  match v with
  | Some x => [(key, x)]
  | None => []
  end.

(** The object a [JrpcError] is at run time. *)
Definition JrpcError_value (e : JrpcError) : JsVal :=
  VObject (("code", VNumber (code e)) :: ("message", VString (message e))
           :: opt_field "data" (data e)).

(** The object a [JrpcResponse | JrpcNotification] is at run time: the
    properties that are present, each with its value. *)
Definition Message_value (msg : Message) : JsVal :=
  VObject (opt_field "id" (option_map VNumber (msg_id msg))
           ++ opt_field "method" (option_map VString (msg_method msg))
           ++ opt_field "params" (msg_params msg)
           ++ opt_field "result" (msg_result msg)
           ++ opt_field "error" (option_map JrpcError_value (msg_error msg))).

(** The frame a typed frame is once the types are erased. *)
Definition erase (data : Frame) : Frame :=
  match data with
  | ParsedArray items => Parsed (VArray (map Message_value items))
  | ParsedObject msg => Parsed (Message_value msg)
  | _ => data
  end.

(** The request id on whose behalf a settling function is called. *)
Definition by_id (via : Via) : option Z :=
  match via with
  | ByResponse i | ByDisconnect i | ByTimeout i => Some i
  | _ => None
  end.

Definition consumes (id : Z) (e : Effect) : bool :=
  match e with
  | Invoked via _ _ => match by_id via with Some i => i =? id | None => false end
  | _ => false
  end.

(** How many times the settling functions of the pending call [id] ran. *)
Definition invocations (id : Z) (tr : list Effect) : nat :=
  length (filter (consumes id) tr).

Definition assigned_of (e : Effect) : list Z :=
  match e with AssignedId id => [id] | _ => [] end.

(** The ids handed out by [++this.requestId], newest first. *)
Definition assigned (tr : list Effect) : list Z := flat_map assigned_of tr.

Definition is_callback (e : Effect) : bool :=
  match e with CallbackInvoked _ _ => true | _ => false end.

(** The subscriber callbacks that ran. *)
Definition callbacks (tr : list Effect) : list Effect := filter is_callback tr.

(** Effects that assign no id, consume no pending call and run no callback. *)
Definition quiet (e : Effect) : bool :=
  match e with
  | AssignedId _ | CallbackInvoked _ _ => false
  | Invoked via _ _ => match by_id via with Some _ => false | None => true end
  | _ => true
  end.

(** [w'] extends the trace of [w] by [d]. *)
Definition trace_grows (d : list Effect) (w w' : World) : Prop :=
  trace w' = (d ++ trace w)%list.

(** A step that leaves ids, table and timers alone and adds quiet effects. *)
Definition quiet_step (w w' : World) : Prop :=
  requestId w' = requestId w /\ pendingRequests w' = pendingRequests w /\
  timers w' = timers w /\ nextTimer w' = nextTimer w /\
  exists d, trace_grows d w w' /\ forallb quiet d = true.

(** What holds of an armed request timeout: its id was assigned, none of
    the settling functions of the id has run, and the entry of the id, when
    the table has one, holds the promise and the handle of the timer.  The
    entry is missing only after a frame failed in handling. *)
Definition timer_ok (w : World) (t : TimerId) (id : Z) (p : PromiseId) : Prop :=
  0 < id <= requestId w
  /\ invocations id (trace w) = O
  /\ match map_get id (pendingRequests w) with
     | Some pending => pending = mkPending p (Some t)
     | None => In (ConsoleError "Failed to parse message:") (trace w)
     end.

Record Inv (w : World) : Prop := mkInv {
  inv_rid : 0 <= requestId w;
  inv_sorted : StronglySorted Z.gt (assigned (trace w));
  inv_head : hd 0 (assigned (trace w)) = requestId w;
  inv_assigned : forall id, In id (assigned (trace w)) -> 0 < id <= requestId w;
  inv_keys : forall k, In k (map_keys (pendingRequests w)) -> 0 < k <= requestId w;
  inv_nodup : NoDup (map_keys (pendingRequests w));
  inv_registered : forall k,
    In k (map_keys (pendingRequests w)) -> In k (assigned (trace w));
  inv_fresh : forall k, In k (map_keys (pendingRequests w)) -> invocations k (trace w) = O;
  inv_future : forall k, requestId w < k -> invocations k (trace w) = O;
  inv_once : forall k, (invocations k (trace w) <= 1)%nat;
  inv_timers : forall t d id m p,
    In (t, (d, RequestTimeout id m p)) (timers w) -> timer_ok w t id p;
  inv_timer_unique : forall t d m p t' d' m' p' id,
    In (t, (d, RequestTimeout id m p)) (timers w) ->
    In (t', (d', RequestTimeout id m' p')) (timers w) -> t' = t;
  inv_timer_ids : forall t, In t (map fst (timers w)) -> (t < nextTimer w)%nat;
  inv_timer_nodup : NoDup (map fst (timers w));
  inv_callbacks : callbacks (trace w) = [] }.

(** The trace only grows. *)
Definition extends_trace (w w' : World) : Prop :=
  exists d, trace_grows d w w'.

(** A piece of code that keeps the invariant. *)
Definition preserves (w w' : World) : Prop :=
  (Inv w -> Inv w') /\ extends_trace w w'.

(** The loop of [disconnect] seen as consuming one entry after the other. *)
Definition consume_entry (acc : World) (kv : Z * Pending) : World :=
  pending_reject (ByDisconnect (fst kv)) (snd kv) (Error "Connection closed")
    (set_pendingRequests (map_delete (fst kv) (pendingRequests acc)) acc).

(** What one call of [handleSingleMessage] does to the client: nothing; a
    warning; the entry of a pending call is deleted and its promise settled;
    or the entry is deleted and the call throws. *)
Inductive handled (w : World) : Completion -> Prop :=
| handled_skip : handled w (Normal w)
| handled_throw : handled w (Thrown w)
| handled_warn : forall id, handled w (Normal (log (warn_unknown id) w))
| handled_settle : forall id pending o,
    map_get id (pendingRequests w) = Some pending ->
    handled w
      (Normal (settle (ByResponse id) (pend_promise pending) o
                 (clear_pending_timer pending
                    (set_pendingRequests (map_delete id (pendingRequests w)) w))))
| handled_drop : forall id pending,
    map_get id (pendingRequests w) = Some pending ->
    handled w (Thrown (set_pendingRequests (map_delete id (pendingRequests w)) w)).

(** The statements of [disconnect] before its loop. *)
Definition before_drain (w : World) : World :=
  let w1 := match reconnectTimer w with
            | Some t => set_reconnectTimer None (clearTimeout t w)
            | None => w
            end in
  let w2 := match ws w1 with
            | Some s => set_ws None (ws_close s w1)
            | None => w1
            end in
  set_state state_disconnected w2.

Definition ping : Event := CallRequest "ping" (VObject []).

(** A client with default options whose socket 0 is open. *)
Definition connected_events : list Event := [CallConnect; SocketOpen 0%nat].

Abbreviation connected_client := (run (initial default_options) connected_events).

(** ... with one [request("ping", {})] outstanding: id 1, promise 0, timer 0. *)
Definition ping_events : list Event := [CallConnect; SocketOpen 0%nat; ping].

Abbreviation ping_outstanding := (run (initial default_options) ping_events).

(** ... with three requests outstanding. *)
Definition three_events : list Event := [CallConnect; SocketOpen 0%nat; ping; ping; ping].

Abbreviation three_outstanding := (run (initial default_options) three_events).

Definition response (id : Z) (v : JsVal) : Message :=
  mkMessage (Some id) None None (Some v) None.

Definition invalid_params : JrpcError := mkJrpcError (-32602) "Invalid params" None.

Definition error_response (id : Z) : Message :=
  mkMessage (Some id) None None None (Some invalid_params).



(** [{"id": id, "error": {"code": -32602, "message": {"toString": null}}}]:
    the message of the error cannot be converted to a string. *)
Definition unprintable_error (id : Z) : JsVal :=
  VObject [("id", VNumber id);
           ("error", VObject [("code", VNumber (-32602));
                              ("message", VObject [("toString", VNull)])])].


Definition update_params : JsVal :=
  VObject [("path", VString "/x"); ("value", VNumber 1)].

(** The notification [{"method":"setup_update","params":{"path":"/x","value":1}}]. *)
Definition setup_update : Message :=
  mkMessage None (Some "setup_update") (Some update_params) None None.

(** The same response delivered twice. *)
Definition pong_twice_events : list Event :=
  [CallConnect; SocketOpen 0%nat; ping;
   SocketMessage 0%nat (ParsedObject (response 1 (VString "pong")));
   SocketMessage 0%nat (ParsedObject (response 1 (VString "pong")))].

Abbreviation pong_twice := (run (initial default_options) pong_twice_events).

(** The world after [setup.subscribe("/x")] was answered with
    [{subscription_id: "abc"}]. *)
Definition subscribed : World :=
  handleMessage
    (ParsedObject (response 1 (VObject [("subscription_id", VString "abc")])))
    (SetupClient_subscribe (Some "/x") connected_client).

Definition table_promises (w : World) : list PromiseId :=
  map (fun kv => pend_promise (snd kv)) (pendingRequests w).

Definition continuation_promises (k : Continuation) : list PromiseId :=
  match k with
  | KRequest _ _ p => [p]
  | KBatch _ c => [c]
  | KReconnectCatch => []
  end.

Definition awaiting_promises (l : list (SocketId * Continuation)) : list PromiseId :=
  flat_map (fun sk => continuation_promises (snd sk)) l.

Definition callback_promises (cb : TimerCallback) : list PromiseId :=
  match cb with
  | RequestTimeout _ _ p => [p]
  | ReconnectAttempt => []
  end.

(** The promises the armed request timeouts will reject. *)
Definition timer_promises (w : World) : list PromiseId :=
  flat_map (fun tc => callback_promises (snd (snd tc))) (timers w).

Definition targets (w : World) : list PromiseId := map all_target (combinators w).

Definition members (w : World) : list PromiseId := flat_map all_members (combinators w).

Definition fulfilled_value (s : option Outcome) : option JsVal :=
  match s with Some (Fulfilled v) => Some v | _ => None end.

(** A [Promise.all] record agrees with the promise store [st]: a slot is
    filled exactly when its input is fulfilled, with that value; the combined
    promise is fulfilled with the array of slots once all are filled, is
    rejected with the reason of a rejected input, and is pending otherwise. *)
Definition coherent (st : PromiseId -> option Outcome) (r : AllRecord) : Prop :=
  Forall2 (fun m s => s = fulfilled_value (st m)) (all_members r) (all_values r) /\
  match st (all_target r) with
  | None =>
      (forall m e, In m (all_members r) -> st m <> Some (Rejected e))
      /\ collect (all_values r) = None
  | Some (Fulfilled x) => exists vs, collect (all_values r) = Some vs /\ x = VArray vs
  | Some (Rejected e) => exists m, In m (all_members r) /\ st m = Some (Rejected e)
  end.

(** Who may settle which promise.  [aw] lists the promises held by suspended
    or running calls of [request] and [batch]; a promise in the table is
    settled through its entry, the promise of a request also by its
    timeout; a combined promise is settled by [Promise.all] only. *)
Record PInvL (aw : list PromiseId) (w : World) : Prop := mkPInvL {
  pl_fresh_aw : forall p, In p aw -> (p < nextPromise w)%nat;
  pl_fresh_table : forall p, In p (table_promises w) -> (p < nextPromise w)%nat;
  pl_fresh_timers : forall p, In p (timer_promises w) -> (p < nextPromise w)%nat;
  pl_fresh_targets : forall p, In p (targets w) -> (p < nextPromise w)%nat;
  pl_fresh_members : forall p, In p (members w) -> (p < nextPromise w)%nat;
  pl_fresh_settled : forall p, (nextPromise w <= p)%nat -> promiseState w p = None;
  pl_nodup : NoDup (aw ++ targets w);
  pl_table : forall p, In p (table_promises w) -> ~ In p aw /\ ~ In p (targets w);
  pl_timers : forall p, In p (timer_promises w) -> ~ In p aw /\ ~ In p (targets w);
  pl_members : forall p, In p (members w) -> ~ In p aw /\ ~ In p (targets w);
  pl_unsettled : forall p, In p aw -> promiseState w p = None;
  pl_coherent : forall r, In r (combinators w) -> coherent (promiseState w) r }.

Definition PInv (w : World) : Prop := PInvL (awaiting_promises (awaiting w)) w.

(** [w'] has the promises of [w], and its table and its timers hold no
    other promise. *)
Definition same_promises (w w' : World) : Prop :=
  ((forall p, In p (table_promises w') -> In p (table_promises w)) /\
   (forall p, In p (timer_promises w') -> In p (timer_promises w))) /\
  combinators w' = combinators w /\ settled w' = settled w /\
  nextPromise w' = nextPromise w.



(** ... and the three results arriving in the order c, a, b. *)
Definition batch_results_events : list Event :=
  [CallConnect; SocketOpen 0%nat;
   CallBatch [("a", VNull); ("b", VNull); ("c", VNull)];
   SocketMessage 0%nat (ParsedObject (response 3 (VString "C")));
   SocketMessage 0%nat (ParsedObject (response 1 (VString "A")));
   SocketMessage 0%nat (ParsedObject (response 2 (VString "B")))].

(** *** Frames, connection attempts and timers *)

Definition sent_of (e : Effect) : list (SocketId * Wire) :=
  match e with Sent s f => [(s, f)] | _ => [] end.

(** The frames handed to [send] on an open socket, newest first. *)
Definition sent (tr : list Effect) : list (SocketId * Wire) := flat_map sent_of tr.

Definition frame_requests (f : Wire) : list JrpcRequest :=
  match f with WireRequest r => [r] | WireBatch rs => rs end.

(** The requests put on the wire, oldest first, whatever frame carried them. *)
Definition wire_requests (tr : list Effect) : list JrpcRequest :=
  flat_map (fun sf => frame_requests (snd sf)) (rev (sent tr)).

(** [requests] with the ids [first], [first + 1], ... in order. *)
Fixpoint numbered (first : Z) (requests : list (string * JsVal)) : list JrpcRequest :=
  match requests with
  | [] => []
  | (m, ps) :: rest => mkJrpcRequest m ps first :: numbered (first + 1) rest
  end.

(** One result response per value, for the ids [first], [first + 1], ... *)
Fixpoint responses (first : Z) (results : list JsVal) : list Message :=
  match results with
  | [] => []
  | v :: rest => response first v :: responses (first + 1) rest
  end.

(** [w'] has the options of [w], no socket less, and no timer, suspended
    call or reconnect handle that [w] has not. *)
Definition shrinks (w w' : World) : Prop :=
  options w' = options w /\
  (length (sockets w) <= length (sockets w'))%nat /\
  incl (awaiting w') (awaiting w) /\
  incl (timers w') (timers w) /\
  (reconnectTimer w' = reconnectTimer w \/ reconnectTimer w' = None).

(** Suspended calls wait for sockets that exist; every timer carries the
    delay the options give for it; reconnect timers exist only when the
    [reconnect] option is on. *)
Record CInv (w : World) : Prop := mkCInv {
  c_awaiting : forall s k, In (s, k) (awaiting w) -> (s < length (sockets w))%nat;
  c_request_delay : forall t d id m p,
    In (t, (d, RequestTimeout id m p)) (timers w) -> d = opt_timeout (options w);
  c_reconnect_delay : forall t d,
    In (t, (d, ReconnectAttempt)) (timers w) ->
    d = opt_reconnectDelay (options w) /\ opt_reconnect (options w) = true;
  c_reconnectTimer : forall t,
    reconnectTimer w = Some t -> opt_reconnect (options w) = true }.

(** A piece of code that keeps the options and [CInv]. *)
Definition ckeeps (w w' : World) : Prop :=
  options w' = options w /\
  (length (sockets w) <= length (sockets w'))%nat /\
  (CInv w -> CInv w').

(** The ids put on the wire, oldest first. *)
Definition wire_ids (tr : list Effect) : list Z := map req_id (wire_requests tr).

(** The ids on the wire are strictly increasing and none exceeds the
    counter. *)
Definition WInv (w : World) : Prop :=
  StronglySorted Z.lt (wire_ids (trace w))
  /\ forall id, In id (wire_ids (trace w)) -> 0 < id <= requestId w.

(** A piece of code that sends nothing and leaves the counter alone. *)
Definition wire_quiet (w w' : World) : Prop :=
  sent (trace w') = sent (trace w) /\ requestId w' = requestId w.

(** A piece of code that keeps [WInv] and never lowers the counter. *)
Definition wire_step (w w' : World) : Prop :=
  requestId w <= requestId w' /\ (0 <= requestId w -> WInv w -> WInv w').

(** What a frame can do: the connection, the counter, the options and the
    suspended calls stay as they are, nothing is sent, no entry and no
    timer is added, and every settled promise keeps its outcome. *)
Definition frame_kept (w w' : World) : Prop :=
  (ws w' = ws w /\ state w' = state w /\ requestId w' = requestId w
   /\ sockets w' = sockets w /\ reconnectTimer w' = reconnectTimer w
   /\ options w' = options w /\ awaiting w' = awaiting w)
  /\ sent (trace w') = sent (trace w)
  /\ incl (pendingRequests w') (pendingRequests w)
  /\ incl (timers w') (timers w)
  /\ keeps_settled w w'.



(** *** Further concrete clients and runs *)

(** [{url, timeout: 5000}] *)
Definition short_timeout : ClientOptionsArg := mkArg None None (Some 5000).

(** [{url, reconnect: false}] *)
Definition no_reconnect : ClientOptionsArg := mkArg (Some false) None None.

(** A client without reconnect whose socket opened and closed again. *)
Definition closed_events : list Event := [CallConnect; SocketOpen 0%nat; SocketClose 0%nat].

(** A client with default options whose socket closed: a reconnect timer
    with handle 0 is armed. *)
Abbreviation closed_client := (run (initial default_options) closed_events).

(** A new client on which [request("ping", {})] was called: the call waits
    for socket 0. *)
Definition waiting_events : list Event := [ping].

Abbreviation waiting_client := (run (initial default_options) waiting_events).

Definition three_requests : list (string * JsVal) :=
  [("a", VNull); ("b", VNull); ("c", VNull)].


(** * Properties *)

(** ** Finite maps *)

Section JsMapFacts.
Variable V : Type.
Implicit Types (m : list (Z * V)) (k : Z) (v : V).

Lemma map_get_set_same : forall m k v, map_get k (map_set k v m) = Some v.
Proof.
  induction m as [|[k' v'] m IH]; intros k v; simpl.
  - now rewrite Z.eqb_refl.
  - destruct (k' =? k) eqn:E; simpl.
    + now rewrite Z.eqb_refl.
    + now rewrite E.
Qed.

Lemma map_get_set_other : forall m k k' v,
  k' <> k -> map_get k' (map_set k v m) = map_get k' m.
Proof.
  induction m as [|[k0 v0] m IH]; intros k k' v Hne; simpl.
  - destruct (k =? k') eqn:E; [apply Z.eqb_eq in E; congruence | reflexivity].
  - destruct (k0 =? k) eqn:E; simpl.
    + apply Z.eqb_eq in E; subst k0.
      destruct (k =? k') eqn:E'; [apply Z.eqb_eq in E'; congruence | reflexivity].
    + destruct (k0 =? k'); [reflexivity | now apply IH].
Qed.

Lemma map_get_delete_same : forall m k, map_get k (map_delete k m) = None.
Proof.
  induction m as [|[k' v'] m IH]; intros k; simpl; [reflexivity|].
  destruct (k' =? k) eqn:E; simpl; [apply IH|].
  rewrite E. apply IH.
Qed.

Lemma map_get_delete_other : forall m k k',
  k' <> k -> map_get k' (map_delete k m) = map_get k' m.
Proof.
  induction m as [|[k0 v0] m IH]; intros k k' Hne; simpl; [reflexivity|].
  destruct (k0 =? k) eqn:E; simpl.
  - apply Z.eqb_eq in E; subst k0.
    destruct (k =? k') eqn:E'; [apply Z.eqb_eq in E'; congruence | now apply IH].
  - destruct (k0 =? k'); [reflexivity | now apply IH].
Qed.

Lemma map_get_In : forall m k v, map_get k m = Some v -> In (k, v) m.
Proof.
  induction m as [|[k' v'] m IH]; intros k v; simpl; [discriminate|].
  destruct (k' =? k) eqn:E.
  - apply Z.eqb_eq in E. intros [= ->]. left; congruence.
  - intros H; right; now apply IH.
Qed.

Lemma map_get_keys : forall m k, map_get k m <> None <-> In k (map_keys m).
Proof.
  induction m as [|[k' v'] m IH]; intros k; simpl.
  - split; [congruence | tauto].
  - destruct (k' =? k) eqn:E.
    + apply Z.eqb_eq in E. split; [now left | congruence].
    + apply Z.eqb_neq in E. rewrite IH. unfold map_keys. tauto.
Qed.

Lemma map_get_NoDup : forall m k v,
  NoDup (map_keys m) -> In (k, v) m -> map_get k m = Some v.
Proof.
  induction m as [|[k' v'] m IH]; intros k v Hnd Hin; simpl in *; [tauto|].
  inversion Hnd as [|? ? Hnotin Hnd']; subst.
  destruct Hin as [[= -> ->] | Hin].
  - now rewrite Z.eqb_refl.
  - destruct (k' =? k) eqn:E; [|now apply IH].
    apply Z.eqb_eq in E; subst k'. exfalso; apply Hnotin.
    unfold map_keys. change k with (fst (k, v)). now apply in_map.
Qed.

Lemma map_keys_set : forall m k v x,
  In x (map_keys (map_set k v m)) <-> x = k \/ In x (map_keys m).
Proof.
  induction m as [|[k' v'] m IH]; intros k v x; simpl.
  - intuition.
  - destruct (k' =? k) eqn:E; simpl.
    + apply Z.eqb_eq in E; subst k'. intuition.
    + rewrite IH. unfold map_keys. intuition.
Qed.

Lemma map_keys_set_NoDup : forall m k v,
  NoDup (map_keys m) -> NoDup (map_keys (map_set k v m)).
Proof.
  induction m as [|[k' v'] m IH]; intros k v Hnd; simpl.
  - constructor; [simpl; tauto | constructor].
  - inversion Hnd as [|? ? Hnotin Hnd']; subst.
    destruct (k' =? k) eqn:E; simpl.
    + apply Z.eqb_eq in E; subst k'. now constructor.
    + apply Z.eqb_neq in E. constructor; [|now apply IH].
      intros Hin. apply map_keys_set in Hin. destruct Hin; [congruence | tauto].
Qed.

Lemma map_keys_delete : forall m k x,
  In x (map_keys (map_delete k m)) <-> x <> k /\ In x (map_keys m).
Proof.
  induction m as [|[k' v'] m IH]; intros k x; simpl.
  - tauto.
  - destruct (k' =? k) eqn:E; simpl.
    + apply Z.eqb_eq in E; subst k'. rewrite IH. unfold map_keys.
      intuition congruence.
    + apply Z.eqb_neq in E. rewrite IH. unfold map_keys.
      intuition congruence.
Qed.

Lemma map_keys_delete_NoDup : forall m k,
  NoDup (map_keys m) -> NoDup (map_keys (map_delete k m)).
Proof.
  induction m as [|[k' v'] m IH]; intros k Hnd; simpl; [constructor|].
  inversion Hnd as [|? ? Hnotin Hnd']; subst.
  destruct (k' =? k) eqn:E; simpl; [now apply IH|].
  constructor; [|now apply IH].
  intros Hin. apply map_keys_delete in Hin. tauto.
Qed.

Lemma map_delete_In : forall m k x v,
  In (x, v) (map_delete k m) <-> x <> k /\ In (x, v) m.
Proof.
  intros m k x v. unfold map_delete. rewrite filter_In. simpl.
  rewrite negb_true_iff, Z.eqb_neq. tauto.
Qed.
End JsMapFacts.

Section HandleFacts.
Variable V : Type.
Implicit Types (m : list (nat * V)) (k : nat) (v : V).

Lemma handle_remove_In : forall m k x v,
  In (x, v) (handle_remove k m) <-> x <> k /\ In (x, v) m.
Proof.
  intros m k x v. unfold handle_remove. rewrite filter_In. simpl.
  rewrite negb_true_iff, Nat.eqb_neq. tauto.
Qed.

Lemma handle_get_In : forall m k v, handle_get k m = Some v -> In (k, v) m.
Proof.
  induction m as [|[k' v'] m IH]; intros k v; simpl; [discriminate|].
  destruct (Nat.eqb k' k) eqn:E.
  - apply Nat.eqb_eq in E. intros [= ->]. left; congruence.
  - intros H; right; now apply IH.
Qed.

Lemma handle_remove_keys : forall m k x,
  In x (map fst (handle_remove k m)) -> x <> k /\ In x (map fst m).
Proof.
  intros m k x Hin. apply in_map_iff in Hin. destruct Hin as ([x' v] & <- & Hin).
  apply handle_remove_In in Hin. simpl. split; [tauto|].
  change x' with (fst (x', v)). apply in_map. tauto.
Qed.

Lemma handle_remove_NoDup : forall m k,
  NoDup (map fst m) -> NoDup (map fst (handle_remove k m)).
Proof.
  induction m as [|[k' v'] m IH]; intros k Hnd; simpl; [constructor|].
  inversion Hnd as [|? ? Hnotin Hnd']; subst.
  destruct (Nat.eqb k' k) eqn:E; simpl; [now apply IH|].
  constructor; [|now apply IH].
  intros Hin. apply handle_remove_keys in Hin. tauto.
Qed.
End HandleFacts.

(** ** Promises *)

Lemma promises_only_refl : forall w, promises_only w w.
Proof. intros []; do 3 eexists; reflexivity. Qed.

Lemma promises_only_trans : forall w1 w2 w3,
  promises_only w1 w2 -> promises_only w2 w3 -> promises_only w1 w3.
Proof.
  intros w1 w2 w3 (st & cs & tr & ->) (st' & cs' & tr' & ->).
  do 3 eexists; reflexivity.
Qed.

Lemma settle_plain_only : forall via p o w, promises_only w (settle_plain via p o w).
Proof.
  intros via p o w. unfold settle_plain.
  destruct (promiseState w p); destruct w; do 3 eexists; reflexivity.
Qed.

Lemma react_only : forall p o rs w, promises_only w (snd (react p o rs w)).
Proof.
  intros p o rs; induction rs as [|r rs IH]; intros w; simpl.
  - apply promises_only_refl.
  - destruct (react_one p o r) as [r' out].
    set (w1 := match out with Some o' => _ | None => w end).
    specialize (IH w1). destruct (react p o rs w1) as [rest' w2]. simpl in *.
    apply promises_only_trans with w1; [|exact IH].
    subst w1. destruct out; [apply settle_plain_only | apply promises_only_refl].
Qed.

Lemma settle_only : forall via p o w, promises_only w (settle via p o w).
Proof.
  intros via p o w. unfold settle.
  destruct (promiseState w p).
  - destruct w; do 3 eexists; reflexivity.
  - pose proof (settle_plain_only via p o w) as H1.
    pose proof (react_only p o (combinators (settle_plain via p o w)) (settle_plain via p o w)) as H2.
    destruct (react p o _ _) as [rs w2]. simpl in H2.
    pose proof (promises_only_trans H1 H2) as (st & cs & tr & ->).
    do 3 eexists; reflexivity.
Qed.

Lemma keeps_settled_refl : forall w, keeps_settled w w.
Proof. intros w q x H; exact H. Qed.

Lemma keeps_settled_trans : forall w1 w2 w3,
  keeps_settled w1 w2 -> keeps_settled w2 w3 -> keeps_settled w1 w3.
Proof. intros w1 w2 w3 H12 H23 q x H; apply H23, H12, H. Qed.

Lemma promiseState_settle_plain : forall via p o w q,
  promiseState (settle_plain via p o w) q =
  if Nat.eqb p q
  then match promiseState w p with Some x => Some x | None => Some o end
  else promiseState w q.
Proof.
  intros via p o w q. unfold settle_plain.
  destruct (promiseState w p) as [x|] eqn:Hp.
  - destruct (Nat.eqb p q) eqn:E; [apply Nat.eqb_eq in E; subst q|]; exact Hp || reflexivity.
  - unfold promiseState; simpl. destruct (Nat.eqb p q); reflexivity.
Qed.

Lemma settle_plain_keeps : forall via p o w, keeps_settled w (settle_plain via p o w).
Proof.
  intros via p o w q x H. rewrite promiseState_settle_plain.
  destruct (Nat.eqb p q) eqn:E; [|exact H].
  apply Nat.eqb_eq in E; subst q. now rewrite H.
Qed.

Lemma react_keeps : forall p o rs w, keeps_settled w (snd (react p o rs w)).
Proof.
  intros p o rs; induction rs as [|r rs IH]; intros w; simpl.
  - apply keeps_settled_refl.
  - destruct (react_one p o r) as [r' out].
    set (w1 := match out with Some o' => _ | None => w end).
    specialize (IH w1). destruct (react p o rs w1) as [rest' w2]. simpl in *.
    apply keeps_settled_trans with w1; [|exact IH].
    subst w1. destruct out; [apply settle_plain_keeps | apply keeps_settled_refl].
Qed.

Lemma promiseState_set_combinators : forall cs w q,
  promiseState (set_combinators cs w) q = promiseState w q.
Proof. reflexivity. Qed.

Lemma settle_keeps : forall via p o w, keeps_settled w (settle via p o w).
Proof.
  intros via p o w. unfold settle.
  destruct (promiseState w p) eqn:Hp.
  - intros q x H; exact H.
  - pose proof (settle_plain_keeps via p o w) as H1.
    pose proof (react_keeps p o (combinators (settle_plain via p o w)) (settle_plain via p o w)) as H2.
    destruct (react p o _ _) as [rs w2]. simpl in H2.
    intros q x H. rewrite promiseState_set_combinators. apply H2, H1, H.
Qed.

(** After [resolve] or [reject] of a pending promise was called, the promise
    is settled with the outcome passed. *)
Lemma settle_pending : forall via p o w,
  promiseState w p = None -> promiseState (settle via p o w) p = Some o.
Proof.
  intros via p o w Hp. unfold settle. rewrite Hp.
  pose proof (react_keeps p o (combinators (settle_plain via p o w)) (settle_plain via p o w)) as H2.
  destruct (react p o _ _) as [rs w2]. simpl in H2.
  rewrite promiseState_set_combinators. apply H2.
  rewrite promiseState_settle_plain, Nat.eqb_refl, Hp. reflexivity.
Qed.

(** A rejection settles promises with its own reason only: the promise
    rejected and, through [Promise.all], the combined promises it is an
    input of. *)
Lemma react_rejected : forall e p rs w q,
  promiseState (snd (react p (Rejected e) rs w)) q = promiseState w q \/
  promiseState w q = None /\
  promiseState (snd (react p (Rejected e) rs w)) q = Some (Rejected e).
Proof.
  intros e p rs; induction rs as [|r rs IH]; intros w q; simpl.
  - now left.
  - unfold react_one. destruct (is_member p r).
    + specialize (IH (settle_plain ByAll (all_target r) (Rejected e) w) q).
      destruct (react p (Rejected e) rs _) as [rest' w2]. simpl in *.
      rewrite promiseState_settle_plain in IH.
      destruct (Nat.eqb (all_target r) q) eqn:E.
      * apply Nat.eqb_eq in E; subst q.
        destruct (promiseState w (all_target r)) eqn:Ht.
        -- destruct IH as [IH | [IH _]]; [now left | discriminate].
        -- destruct IH as [IH | [IH _]]; [right; now split | discriminate].
      * exact IH.
    + specialize (IH w q). destruct (react p (Rejected e) rs w) as [rest' w2].
      exact IH.
Qed.

Lemma settle_rejected : forall via e p w q,
  promiseState (settle via p (Rejected e) w) q = promiseState w q \/
  promiseState w q = None /\
  promiseState (settle via p (Rejected e) w) q = Some (Rejected e).
Proof.
  intros via e p w q. unfold settle.
  destruct (promiseState w p) eqn:Hp; [now left|].
  pose proof (react_rejected e p (combinators (settle_plain via p (Rejected e) w))
                (settle_plain via p (Rejected e) w) q) as H.
  destruct (react p (Rejected e) _ _) as [rs w2]. simpl in H.
  rewrite promiseState_set_combinators.
  rewrite promiseState_settle_plain in H.
  destruct (Nat.eqb p q) eqn:E.
  - apply Nat.eqb_eq in E; subst q. rewrite Hp in *.
    destruct H as [H | [H _]]; [right; now split | discriminate].
  - exact H.
Qed.

(** ** Draining the table *)

Lemma promiseState_clear_pending_timer : forall pending w q,
  promiseState (clear_pending_timer pending w) q = promiseState w q.
Proof. intros [p [t|]] w q; reflexivity. Qed.

Lemma pending_reject_keeps : forall via pending e w,
  keeps_settled w (pending_reject via pending e w).
Proof.
  intros via pending e w q x H. unfold pending_reject.
  apply settle_keeps. now rewrite promiseState_clear_pending_timer.
Qed.

Lemma pending_resolve_keeps : forall via pending v w,
  keeps_settled w (pending_resolve via pending v w).
Proof.
  intros via pending v w q x H. unfold pending_resolve.
  apply settle_keeps. now rewrite promiseState_clear_pending_timer.
Qed.

Lemma reject_entries_keeps : forall entries w, keeps_settled w (reject_entries entries w).
Proof.
  induction entries as [|kv entries IH]; intros w; simpl.
  - apply keeps_settled_refl.
  - eapply keeps_settled_trans; [apply pending_reject_keeps | apply IH].
Qed.

Lemma reject_entries_reason : forall entries w q,
  promiseState (reject_entries entries w) q = promiseState w q \/
  promiseState w q = None /\
  promiseState (reject_entries entries w) q = Some (Rejected connection_closed).
Proof.
  induction entries as [|kv entries IH]; intros w q; simpl.
  - now left.
  - set (w1 := pending_reject _ _ _ w).
    destruct (IH w1 q) as [H | [H1 H2]].
    + fold (reject_entries entries w1). rewrite H. subst w1. unfold pending_reject.
      destruct (settle_rejected (ByDisconnect (fst kv)) (Error "Connection closed")
                  (pend_promise (snd kv)) (clear_pending_timer (snd kv) w) q) as [E | [E1 E2]].
      * left. now rewrite E, promiseState_clear_pending_timer.
      * right. rewrite promiseState_clear_pending_timer in E1. now split.
    + right. split; [|exact H2].
      destruct (promiseState w q) eqn:Hq; [|reflexivity].
      apply (pending_reject_keeps (ByDisconnect (fst kv)) (snd kv) (Error "Connection closed")) in Hq.
      fold w1 in Hq. congruence.
Qed.

Lemma reject_entries_settles : forall entries w kv,
  In kv entries -> promiseState (reject_entries entries w) (pend_promise (snd kv)) <> None.
Proof.
  induction entries as [|kv0 entries IH]; intros w kv Hin; simpl in *; [tauto|].
  destruct Hin as [-> | Hin]; [|now apply IH].
  set (w1 := pending_reject _ _ _ w).
  assert (H : exists x, promiseState w1 (pend_promise (snd kv)) = Some x).
  { subst w1. unfold pending_reject.
    destruct (promiseState (clear_pending_timer (snd kv) w) (pend_promise (snd kv))) eqn:Hp.
    - exists o. now apply settle_keeps.
    - eexists. now apply settle_pending. }
  destruct H as [x Hx]. apply (reject_entries_keeps entries) in Hx.
  fold (reject_entries entries w1). congruence.
Qed.

Lemma client_kept_refl : forall w, client_kept w w.
Proof. intros w; repeat split. Qed.

Lemma client_kept_trans : forall w1 w2 w3,
  client_kept w1 w2 -> client_kept w2 w3 -> client_kept w1 w3.
Proof.
  unfold client_kept. intros w1 w2 w3 H1 H2.
  decompose [and] H1; decompose [and] H2; repeat split; congruence.
Qed.

Lemma promises_only_kept : forall w w', promises_only w w' -> client_kept w w'.
Proof. intros w w' (st & cs & tr & ->); repeat split. Qed.

Lemma pending_reject_kept : forall via pending e w,
  client_kept w (pending_reject via pending e w).
Proof.
  intros via pending e w. unfold pending_reject.
  apply client_kept_trans with (clear_pending_timer pending w).
  - destruct pending as [p [t|]]; repeat split.
  - apply promises_only_kept, settle_only.
Qed.

Lemma pending_resolve_kept : forall via pending v w,
  client_kept w (pending_resolve via pending v w).
Proof.
  intros via pending v w. unfold pending_resolve.
  apply client_kept_trans with (clear_pending_timer pending w).
  - destruct pending as [p [t|]]; repeat split.
  - apply promises_only_kept, settle_only.
Qed.

Lemma reject_entries_kept : forall entries w, client_kept w (reject_entries entries w).
Proof.
  induction entries as [|kv entries IH]; intros w; simpl.
  - apply client_kept_refl.
  - eapply client_kept_trans; [apply pending_reject_kept | apply IH].
Qed.

Lemma reject_all_entries : forall w, reject_all w = reject_entries (pendingRequests w) w.
Proof. reflexivity. Qed.

(** The part of [disconnect] before the loop leaves table and promises alone. *)
Lemma disconnect_unfold : forall w,
  exists w3,
    disconnect w = set_pendingRequests [] (reject_entries (pendingRequests w) w3) /\
    pendingRequests w3 = pendingRequests w /\ settled w3 = settled w /\
    timers w3 = match reconnectTimer w with
                | Some t => handle_remove t (timers w)
                | None => timers w
                end /\
    trace w3 = (match ws w with Some s => [CloseCalled s] | None => [] end ++ trace w)%list /\
    requestId w3 = requestId w /\ combinators w3 = combinators w /\
    nextTimer w3 = nextTimer w /\ nextPromise w3 = nextPromise w /\
    awaiting w3 = awaiting w /\ state w3 = state_disconnected.
Proof.
  intros w. unfold disconnect.
  set (w1 := match reconnectTimer w with Some t => _ | None => w end).
  set (w2 := match ws w1 with Some s => _ | None => w1 end).
  exists (set_state state_disconnected w2).
  assert (E1 : ws w1 = ws w /\ pendingRequests w1 = pendingRequests w /\ settled w1 = settled w
               /\ trace w1 = trace w /\ requestId w1 = requestId w
               /\ combinators w1 = combinators w /\ nextTimer w1 = nextTimer w
               /\ nextPromise w1 = nextPromise w /\ awaiting w1 = awaiting w
               /\ timers w1 = match reconnectTimer w with
                              | Some t => handle_remove t (timers w)
                              | None => timers w
                              end).
  { subst w1. destruct (reconnectTimer w); repeat split; reflexivity. }
  destruct E1 as (Ews & Ep & Es & Et & Er & Ec & Ent & Enp & Ea & Eti).
  assert (E2 : pendingRequests w2 = pendingRequests w1 /\ settled w2 = settled w1
               /\ timers w2 = timers w1 /\ requestId w2 = requestId w1
               /\ combinators w2 = combinators w1 /\ nextTimer w2 = nextTimer w1
               /\ nextPromise w2 = nextPromise w1 /\ awaiting w2 = awaiting w1
               /\ trace w2 = (match ws w1 with Some s => [CloseCalled s] | None => [] end ++ trace w1)%list).
  { subst w2. destruct (ws w1) as [s|]; [|repeat split; reflexivity].
    unfold ws_close. destruct (readyState (log (CloseCalled s) w1) s) as [[]|];
      repeat split; reflexivity. }
  destruct E2 as (Ep2 & Es2 & Eti2 & Er2 & Ec2 & Ent2 & Enp2 & Ea2 & Et2).
  rewrite reject_all_entries. simpl.
  rewrite Ep2, Ep, Es2, Es, Eti2, Eti, Et2, Et, Ews, Er2, Er, Ec2, Ec, Ent2, Ent, Enp2, Enp, Ea2, Ea.
  repeat split; reflexivity.
Qed.

(** C7.  [disconnect()] leaves [pendingRequests] empty, and every entry of
    the table whose promise was still pending has that promise rejected with
    [Error('Connection closed')] when [disconnect()] returns.  This holds in
    every world, for any number of entries. *)
Theorem disconnect_rejects_every_pending_call : forall w id pending,
  In (id, pending) (pendingRequests w) ->
  promiseState w (pend_promise pending) = None ->
  promiseState (disconnect w) (pend_promise pending) = Some (Rejected (Error "Connection closed"))
  /\ pendingRequests (disconnect w) = []
  /\ getState (disconnect w) = state_disconnected.
Proof.
  intros w id pending Hin Hp.
  destruct (disconnect_unfold w) as (w3 & -> & Ep & Es & Hrest).
  split; [|split; [reflexivity|]].
  - change (promiseState (reject_entries (pendingRequests w) w3) (pend_promise pending)
            = Some (Rejected connection_closed)).
    assert (Hp3 : promiseState w3 (pend_promise pending) = None)
      by (unfold promiseState; now rewrite Es).
    destruct (reject_entries_reason (pendingRequests w) w3 (pend_promise pending)) as [H | [_ H]];
      [|exact H].
    exfalso. apply (reject_entries_settles (pendingRequests w) w3 (id, pending) Hin).
    simpl. congruence.
  - unfold getState. simpl.
    destruct (reject_entries_kept (pendingRequests w) w3) as (_ & _ & _ & -> & _).
    tauto.
Qed.

(** ** Routing one incoming message *)



Lemma handleSingleMessage_known : forall w msg id pending,
  msg_id msg = Some id ->
  map_get id (pendingRequests w) = Some pending ->
  handleSingleMessage msg w =
  let w1 := set_pendingRequests (map_delete id (pendingRequests w)) w in
  match msg_error msg with
  | Some err => pending_reject (ByResponse id) pending (Error (error_text err)) w1
  | None => pending_resolve (ByResponse id) pending (result_or_undefined msg) w1
  end.
Proof.
  intros w msg id pending Hid Hget. unfold handleSingleMessage.
  rewrite Hid, Hget. reflexivity.
Qed.

Lemma handleSingleMessage_table : forall w msg id pending,
  msg_id msg = Some id ->
  map_get id (pendingRequests w) = Some pending ->
  pendingRequests (handleSingleMessage msg w) = map_delete id (pendingRequests w).
Proof.
  intros w msg id pending Hid Hget.
  rewrite (handleSingleMessage_known w msg Hid Hget). cbv zeta.
  destruct (msg_error msg) as [err|].
  - now destruct (pending_reject_kept (ByResponse id) pending (Error (error_text err))
               (set_pendingRequests (map_delete id (pendingRequests w)) w)) as (_ & _ & -> & _).
  - now destruct (pending_resolve_kept (ByResponse id) pending (result_or_undefined msg)
               (set_pendingRequests (map_delete id (pendingRequests w)) w)) as (_ & _ & -> & _).
Qed.

Lemma handleSingleMessage_raw_known : forall w fields id pending,
  field "id" fields = Some (VNumber id) ->
  map_get id (pendingRequests w) = Some pending ->
  handleSingleMessage_raw (VObject fields) w =
  let w1 := set_pendingRequests (map_delete id (pendingRequests w)) w in
  let error := Get (VObject fields) "error" in
  if truthy error then
    match ToString (Get error "message"), ToString (Get error "code") with
    | Some m, Some c =>
        Normal (pending_reject (ByResponse id) pending
                  (Error (m ++ " (code: " ++ c ++ ")")) w1)
    | _, _ => Thrown w1
    end
  else Normal (pending_resolve (ByResponse id) pending (Get (VObject fields) "result") w1).
Proof.
  intros w fields id pending Hid Hget.
  unfold handleSingleMessage_raw, has_property, lookup_pending.
  replace (Get (VObject fields) "id") with (VNumber id)
    by (unfold Get; now rewrite Hid).
  rewrite Hid, Hget. reflexivity.
Qed.



(** C9.  A message without an [id] member is dropped by
    [handleSingleMessage] before the table is consulted: the world after the
    frame is the world before it, so the table is the same, every entry is
    still there and its promise is still pending. *)
Theorem notification_leaves_the_table_alone : forall w s msg,
  msg_id msg = None ->
  let w' := step w (SocketMessage s (ParsedObject msg)) in
  handleSingleMessage msg w = w
  /\ pendingRequests w' = pendingRequests w
  /\ forall id pending,
       map_get id (pendingRequests w) = Some pending ->
       promiseState w (pend_promise pending) = None ->
       map_get id (pendingRequests w') = Some pending
       /\ promiseState w' (pend_promise pending) = None.
Proof.
  intros w s msg Hid w'.
  assert (H : handleSingleMessage msg w = w)
    by (unfold handleSingleMessage; now rewrite Hid).
  assert (Hw : w' = w).
  { subst w'. simpl. destruct (readyState w s) as [[]|]; try reflexivity.
    unfold onmessage, handleMessage. exact H. }
  rewrite Hw. repeat split; assumption.
Qed.

(** ** Reading the trace *)

Lemma invocations_app : forall id d tr,
  invocations id (d ++ tr) = (invocations id d + invocations id tr)%nat.
Proof. intros. unfold invocations. now rewrite filter_app, length_app. Qed.

Lemma assigned_app : forall d tr, assigned (d ++ tr) = (assigned d ++ assigned tr)%list.
Proof. intros. unfold assigned. apply flat_map_app. Qed.

Lemma callbacks_app : forall d tr, callbacks (d ++ tr) = (callbacks d ++ callbacks tr)%list.
Proof. intros. unfold callbacks. apply filter_app. Qed.

Lemma quiet_invocations : forall id d, forallb quiet d = true -> invocations id d = O.
Proof.
  induction d as [|e d IH]; simpl; intros H; [reflexivity|].
  apply andb_true_iff in H. destruct H as [He Hd].
  unfold invocations in *. simpl.
  destruct e as [| | | | | |via p o| |]; simpl in *; try discriminate; try now apply IH.
  destruct (by_id via); [discriminate | now apply IH].
Qed.

Lemma quiet_assigned : forall d, forallb quiet d = true -> assigned d = [].
Proof.
  induction d as [|e d IH]; simpl; intros H; [reflexivity|].
  apply andb_true_iff in H. destruct H as [He Hd].
  destruct e; simpl in *; try discriminate; now apply IH.
Qed.

Lemma quiet_callbacks : forall d, forallb quiet d = true -> callbacks d = [].
Proof.
  induction d as [|e d IH]; simpl; intros H; [reflexivity|].
  apply andb_true_iff in H. destruct H as [He Hd].
  destruct e; simpl in *; try discriminate; now apply IH.
Qed.

Lemma quiet_step_refl : forall w, quiet_step w w.
Proof. intros w. repeat split. now exists []. Qed.

Lemma quiet_step_trans : forall w1 w2 w3,
  quiet_step w1 w2 -> quiet_step w2 w3 -> quiet_step w1 w3.
Proof.
  intros w1 w2 w3 (E1 & E2 & E3 & E4 & d & Hd & Qd) (F1 & F2 & F3 & F4 & d' & Hd' & Qd').
  repeat split; try congruence.
  exists (d' ++ d)%list. split.
  - unfold trace_grows in *. rewrite Hd', Hd. now rewrite app_assoc.
  - rewrite forallb_app. now rewrite Qd, Qd'.
Qed.

Lemma quiet_step_log : forall e w, quiet e = true -> quiet_step w (log e w).
Proof.
  intros e w He. repeat split. exists [e]. split; [reflexivity|].
  simpl. now rewrite He.
Qed.

Lemma quiet_step_settle_plain : forall via p o w,
  by_id via = None -> quiet_step w (settle_plain via p o w).
Proof.
  intros via p o w Hv. unfold settle_plain.
  assert (Q : quiet (Invoked via p o) = true) by (simpl; now rewrite Hv).
  destruct (promiseState w p).
  - now apply quiet_step_log.
  - repeat split. exists [Invoked via p o]. split; [reflexivity|].
    simpl. simpl in Q. now rewrite Q.
Qed.

Lemma quiet_step_react : forall p o rs w, quiet_step w (snd (react p o rs w)).
Proof.
  intros p o rs; induction rs as [|r rs IH]; intros w; simpl.
  - apply quiet_step_refl.
  - destruct (react_one p o r) as [r' out].
    set (w1 := match out with Some o' => _ | None => w end).
    specialize (IH w1). destruct (react p o rs w1) as [rest' w2]. simpl in *.
    apply quiet_step_trans with w1; [|exact IH].
    subst w1. destruct out; [now apply quiet_step_settle_plain | apply quiet_step_refl].
Qed.

(** What a call of a settling function adds to the trace: the call itself,
    then the calls [Promise.all] makes in reaction. *)
Lemma settle_trace : forall via p o w,
  exists d, trace_grows (d ++ [Invoked via p o]) w (settle via p o w)
            /\ forallb quiet d = true.
Proof.
  intros via p o w. unfold settle.
  destruct (promiseState w p) eqn:Hp.
  - exists []. split; reflexivity.
  - pose proof (quiet_step_react p o (combinators (settle_plain via p o w))
                  (settle_plain via p o w)) as (_ & _ & _ & _ & d & Hd & Qd).
    destruct (react p o _ _) as [rs w2]. simpl in *.
    exists d. split; [|exact Qd].
    unfold trace_grows in *. simpl. rewrite Hd.
    unfold settle_plain. rewrite Hp. simpl. now rewrite <- app_assoc.
Qed.

Lemma quiet_step_settle : forall via p o w,
  by_id via = None -> quiet_step w (settle via p o w).
Proof.
  intros via p o w Hv.
  destruct (settle_trace via p o w) as (d & Hd & Qd).
  destruct (settle_only via p o w) as (st & cs & tr & E).
  rewrite E in *. repeat split.
  exists (d ++ [Invoked via p o])%list. split; [exact Hd|].
  rewrite forallb_app, Qd. simpl. now rewrite Hv.
Qed.

(** ** The invariant of the correlation table *)

Lemma preserves_refl : forall w, preserves w w.
Proof. intros w. split; [tauto | now exists []]. Qed.

Lemma preserves_trans : forall w1 w2 w3,
  preserves w1 w2 -> preserves w2 w3 -> preserves w1 w3.
Proof.
  intros w1 w2 w3 [I1 (d & Hd)] [I2 (d' & Hd')]. split; [tauto|].
  exists (d' ++ d)%list. unfold trace_grows in *. rewrite Hd', Hd. now rewrite app_assoc.
Qed.

Lemma Inv_initial : forall o, Inv (initial o).
Proof.
  intros o. constructor; simpl; try tauto; try constructor; try lia; try reflexivity.
Qed.

(** An armed timeout stays in order when the trace grows and neither the
    entry of its id nor the calls made for its id change. *)
Lemma timer_ok_kept : forall w w' t id p,
  timer_ok w t id p ->
  requestId w <= requestId w' ->
  invocations id (trace w') = invocations id (trace w) ->
  map_get id (pendingRequests w') = map_get id (pendingRequests w) ->
  extends_trace w w' ->
  timer_ok w' t id p.
Proof.
  intros w w' t id p (Hb & Hz & Hm) Hr Hi Hg (d & Hd). unfold timer_ok.
  split; [lia|]. split; [congruence|]. rewrite Hg.
  destruct (map_get id (pendingRequests w)); [exact Hm|].
  rewrite Hd. apply in_or_app. now right.
Qed.

Lemma quiet_step_preserves : forall w w', quiet_step w w' -> preserves w w'.
Proof.
  intros w w' (E1 & E2 & E3 & E4 & d & Hd & Qd). split; [|now exists d].
  assert (Ha : assigned (trace w') = assigned (trace w))
    by (rewrite Hd, assigned_app, (quiet_assigned d Qd); reflexivity).
  assert (Hi : forall k, invocations k (trace w') = invocations k (trace w))
    by (intros k; rewrite Hd, invocations_app, (quiet_invocations k d Qd); reflexivity).
  assert (Hc : callbacks (trace w') = callbacks (trace w))
    by (rewrite Hd, callbacks_app, (quiet_callbacks d Qd); reflexivity).
  intros []. constructor; rewrite ?E1, ?E2, ?E3, ?E4, ?Ha, ?Hc; try assumption.
  - intros k Hk. rewrite Hi. auto.
  - intros k Hk. rewrite Hi. auto.
  - intros k. rewrite Hi. auto.
  - intros t d0 id m p Hin.
    apply (timer_ok_kept (inv_timers0 _ _ _ _ _ Hin)); [lia | apply Hi | now rewrite E2|].
    now exists d.
Qed.

Lemma clearTimeout_preserves : forall t w, preserves w (clearTimeout t w).
Proof.
  intros t w. split; [|now exists []].
  intros []. constructor; simpl; try assumption.
  - intros t' d id m p Hin. apply handle_remove_In in Hin. destruct Hin as [_ Hin].
    exact (inv_timers0 _ _ _ _ _ Hin).
  - intros t1 d1 m1 p1 t2 d2 m2 p2 id H1 H2.
    apply handle_remove_In in H1. apply handle_remove_In in H2.
    destruct H1 as [_ H1]. destruct H2 as [_ H2]. eauto.
  - intros t' Hin. apply handle_remove_keys in Hin. destruct Hin as [_ Hin]. auto.
  - now apply handle_remove_NoDup.
Qed.

Lemma NoDup_snoc_fresh : forall (l : list nat) n,
  NoDup l -> (forall x, In x l -> (x < n)%nat) -> NoDup (l ++ [n]).
Proof.
  induction l as [|a l IH]; intros n Hnd Hlt; simpl.
  - constructor; [simpl; tauto | constructor].
  - inversion Hnd as [|? ? Hnotin Hnd']; subst. constructor.
    + rewrite in_app_iff. simpl. intros [H | [H | []]]; [tauto|].
      specialize (Hlt a (or_introl eq_refl)). lia.
    + apply IH; [assumption|]. intros x Hx. apply Hlt. now right.
Qed.

Lemma setTimeout_reconnect_preserves : forall d w,
  preserves w (setTimeout ReconnectAttempt d w).
Proof.
  intros d w. split; [|now exists []].
  intros []. constructor; simpl; try assumption.
  - intros t' d' id m p Hin. apply in_app_iff in Hin.
    destruct Hin as [Hin | [Hin | []]]; [exact (inv_timers0 _ _ _ _ _ Hin) | discriminate].
  - intros t1 d1 m1 p1 t2 d2 m2 p2 id H1 H2.
    apply in_app_iff in H1. apply in_app_iff in H2.
    destruct H1 as [H1 | [H1 | []]]; [|discriminate].
    destruct H2 as [H2 | [H2 | []]]; [eauto | discriminate].
  - intros t' Hin. rewrite map_app, in_app_iff in Hin. simpl in Hin.
    destruct Hin as [Hin | [<- | []]]; [|lia].
    specialize (inv_timer_ids0 t' Hin). lia.
  - rewrite map_app. simpl. now apply NoDup_snoc_fresh.
Qed.

Lemma invocations_settled : forall via p o id d tr,
  forallb quiet d = true ->
  invocations id ((d ++ [Invoked via p o]) ++ tr) =
  ((match by_id via with Some i => if Z.eqb i id then 1 else 0 | None => 0 end)
   + invocations id tr)%nat.
Proof.
  intros via p o id d tr Qd.
  rewrite !invocations_app, (quiet_invocations id d Qd). simpl.
  unfold invocations at 1. simpl.
  destruct (by_id via) as [i|]; [|reflexivity].
  destruct (i =? id); reflexivity.
Qed.

(** Consuming the pending call [id]: its entry, if any, is deleted from the
    table, its timeout is cleared, and a settling function of its promise is
    called once.  [pending] names the timeout that is cleared. *)
Lemma consume_preserves_gen : forall w id pending via p o,
  by_id via = Some id ->
  (Inv w ->
   0 < id <= requestId w /\ invocations id (trace w) = O
   /\ forall t d m q, In (t, (d, RequestTimeout id m q)) (timers w) ->
        pend_timer pending = Some t) ->
  preserves w
    (settle via p o
       (clear_pending_timer pending
          (set_pendingRequests (map_delete id (pendingRequests w)) w))).
Proof.
  intros w id pending via p o Hvia Hpre.
  set (w1 := clear_pending_timer pending _).
  destruct (settle_trace via p o w1) as (d & Hd & Qd).
  destruct (settle_only via p o w1) as (st & cs & tr & E).
  assert (Ht1 : trace w1 = trace w) by (subst w1; destruct pending as [q [t|]]; reflexivity).
  assert (Hp1 : pendingRequests w1 = map_delete id (pendingRequests w))
    by (subst w1; destruct pending as [q [t|]]; reflexivity).
  assert (Hr1 : requestId w1 = requestId w)
    by (subst w1; destruct pending as [q [t|]]; reflexivity).
  assert (Hn1 : nextTimer w1 = nextTimer w)
    by (subst w1; destruct pending as [q [t|]]; reflexivity).
  assert (Hti1 : timers w1 = match pend_timer pending with
                             | Some t => handle_remove t (timers w)
                             | None => timers w
                             end)
    by (subst w1; destruct pending as [q [t|]]; reflexivity).
  unfold trace_grows in Hd. rewrite Ht1 in Hd.
  split; [|eexists; exact Hd].
  rewrite E in Hd. simpl in Hd. rewrite E. clear E.
  assert (Ha : assigned tr = assigned (trace w)).
  { rewrite Hd, !assigned_app, (quiet_assigned d Qd). reflexivity. }
  assert (Hc : callbacks tr = callbacks (trace w)).
  { rewrite Hd, !callbacks_app, (quiet_callbacks d Qd). reflexivity. }
  assert (Hi : forall k, invocations k tr =
                         ((if Z.eqb id k then 1 else 0) + invocations k (trace w))%nat).
  { intros k. rewrite Hd, (invocations_settled via p o k d (trace w) Qd), Hvia. reflexivity. }
  assert (Hsub : forall x, In x (timers w1) -> In x (timers w)).
  { intros [t' x] Hin. rewrite Hti1 in Hin.
    destruct (pend_timer pending); [apply handle_remove_In in Hin; tauto | exact Hin]. }
  intros HI. destruct (Hpre HI) as (Hb & Hz & Htm). destruct HI.
  constructor; simpl; rewrite ?Hr1, ?Hp1, ?Hn1, ?Ha, ?Hc; try assumption.
  - intros k Hk. apply map_keys_delete in Hk. now apply inv_keys0.
  - now apply map_keys_delete_NoDup.
  - intros k Hk. apply map_keys_delete in Hk. now apply inv_registered0.
  - intros k Hk. apply map_keys_delete in Hk. destruct Hk as [Hne Hk].
    rewrite Hi. destruct (id =? k) eqn:Eq; [apply Z.eqb_eq in Eq; congruence|].
    simpl. auto.
  - intros k Hk. rewrite Hi.
    destruct (id =? k) eqn:Eq; [|simpl; auto].
    apply Z.eqb_eq in Eq. subst k. lia.
  - intros k. rewrite Hi.
    destruct (id =? k) eqn:Eq; [|simpl; auto].
    apply Z.eqb_eq in Eq. subst k. rewrite Hz. lia.
  - intros t' d' id' m p' Hin.
    pose proof (Hsub _ Hin) as Hin'.
    destruct (inv_timers0 _ _ _ _ _ Hin') as (Hb' & Hz' & Hm').
    destruct (Z.eq_dec id' id) as [-> | Hne].
    + exfalso. rewrite Hti1, (Htm _ _ _ _ Hin') in Hin.
      apply handle_remove_In in Hin. tauto.
    + unfold timer_ok. simpl. rewrite ?Hr1, ?Hp1, Hi.
      assert (Eq : (id =? id') = false) by (apply Z.eqb_neq; congruence).
      rewrite Eq. rewrite (map_get_delete_other _ Hne).
      split; [exact Hb'|]. split; [exact Hz'|].
      destruct (map_get id' (pendingRequests w)); [exact Hm'|].
      rewrite Hd. apply in_or_app. now right.
  - intros t1 d1 m1 p1 t2 d2 m2 p2 id' H1 H2.
    exact (inv_timer_unique0 _ _ _ _ _ _ _ _ _ (Hsub _ H1) (Hsub _ H2)).
  - intros t' Hin. rewrite Hti1 in Hin. apply inv_timer_ids0.
    destruct (pend_timer pending); [apply handle_remove_keys in Hin; tauto | exact Hin].
  - rewrite Hti1. destruct (pend_timer pending); [now apply handle_remove_NoDup | assumption].
Qed.

(** Consuming the entry [id] of the table. *)
Lemma consume_preserves : forall w id pending via p o,
  map_get id (pendingRequests w) = Some pending ->
  by_id via = Some id ->
  preserves w
    (settle via p o
       (clear_pending_timer pending
          (set_pendingRequests (map_delete id (pendingRequests w)) w))).
Proof.
  intros w id pending via p o Hget Hvia. apply consume_preserves_gen; [exact Hvia|].
  intros HI.
  assert (Hk : In id (map_keys (pendingRequests w))) by (apply map_get_keys; congruence).
  split; [exact (inv_keys HI id Hk)|]. split; [exact (inv_fresh HI id Hk)|].
  intros t d m q Hin. destruct (inv_timers HI _ _ _ _ _ Hin) as (_ & _ & Hm).
  rewrite Hget in Hm. now rewrite Hm.
Qed.

(** A call that throws after it deleted the entry [id], and the [catch]
    that logs the failure. *)
Lemma drop_preserves : forall w id,
  preserves w
    (log (ConsoleError "Failed to parse message:")
       (set_pendingRequests (map_delete id (pendingRequests w)) w)).
Proof.
  intros w id. split; [|exists [ConsoleError "Failed to parse message:"]; reflexivity].
  intros []. constructor; simpl; try assumption.
  - intros k Hk. apply map_keys_delete in Hk. now apply inv_keys0.
  - now apply map_keys_delete_NoDup.
  - intros k Hk. apply map_keys_delete in Hk. now apply inv_registered0.
  - intros k Hk. apply map_keys_delete in Hk. now apply inv_fresh0.
  - intros t d id' m p Hin. destruct (inv_timers0 _ _ _ _ _ Hin) as (Hb & Hz & Hm).
    unfold timer_ok. simpl. split; [exact Hb|]. split; [exact Hz|].
    destruct (Z.eq_dec id' id) as [-> | Hne].
    + rewrite map_get_delete_same. now left.
    + rewrite map_get_delete_other by exact Hne.
      destruct (map_get id' (pendingRequests w)); [exact Hm | now right].
Qed.

Lemma extends_trace_refl : forall w, extends_trace w w.
Proof. intros w. now exists []. Qed.

Lemma extends_trace_trans : forall w1 w2 w3,
  extends_trace w1 w2 -> extends_trace w2 w3 -> extends_trace w1 w3.
Proof.
  intros w1 w2 w3 (d & Hd) (d' & Hd').
  exists (d' ++ d)%list. unfold trace_grows in *. rewrite Hd', Hd. now rewrite app_assoc.
Qed.

Lemma extends_trace_settle : forall via p o w, extends_trace w (settle via p o w).
Proof.
  intros via p o w. destruct (settle_trace via p o w) as (d & Hd & _).
  eexists; exact Hd.
Qed.

Lemma ws_send_quiet : forall frame w, quiet_step w (fst (ws_send frame w)).
Proof.
  intros frame w. unfold ws_send.
  destruct (ws w) as [s|]; [|apply quiet_step_refl].
  destruct (readyState w s) as [[]|]; simpl; try apply quiet_step_refl.
  now apply quiet_step_log.
Qed.

Lemma ws_close_quiet : forall s w, quiet_step w (ws_close s w).
Proof.
  intros s w. unfold ws_close.
  destruct (readyState (log (CloseCalled s) w) s) as [[]|];
    repeat split; exists [CloseCalled s]; split; reflexivity.
Qed.

Lemma open_socket_quiet : forall k w, quiet_step w (open_socket k w).
Proof.
  intros k w. unfold open_socket. destruct k; repeat split; exists []; split; reflexivity.
Qed.

Lemma promise_all_quiet : forall c members w, quiet_step w (promise_all c members w).
Proof.
  intros c members w. unfold promise_all.
  set (w1 := set_combinators _ w).
  assert (H1 : quiet_step w w1) by (repeat split; exists []; split; reflexivity).
  destruct members; [|exact H1].
  eapply quiet_step_trans; [exact H1 | now apply quiet_step_settle_plain].
Qed.

(** *** [request] *)

Lemma request_body_unfold : forall method params p w,
  request_body method params p w =
  let id := requestId w + 1 in
  let w3 := set_pendingRequests
              (map_set id (mkPending p (Some (nextTimer w))) (pendingRequests w))
              (setTimeout (RequestTimeout id method p) (opt_timeout (options w))
                 (log (AssignedId id) (set_requestId id w))) in
  match ws_send (WireRequest (mkJrpcRequest method params id)) w3 with
  | (w4, None) => w4
  | (w4, Some e) => settle BySendFailure p (Rejected e) w4
  end.
Proof. reflexivity. Qed.

Lemma register_request_preserves : forall method p w,
  preserves w
    (set_pendingRequests
       (map_set (requestId w + 1) (mkPending p (Some (nextTimer w))) (pendingRequests w))
       (setTimeout (RequestTimeout (requestId w + 1) method p) (opt_timeout (options w))
          (log (AssignedId (requestId w + 1)) (set_requestId (requestId w + 1) w)))).
Proof.
  intros method p w. split; [|exists [AssignedId (requestId w + 1)]; reflexivity].
  intros []. constructor; simpl; try assumption.
  - lia.
  - constructor; [assumption|]. apply Forall_forall. intros y Hy.
    specialize (inv_assigned0 y Hy). lia.
  - reflexivity.
  - intros id [<- | Hid]; [lia|]. specialize (inv_assigned0 id Hid). lia.
  - intros k Hk. apply map_keys_set in Hk. destruct Hk as [-> | Hk]; [lia|].
    specialize (inv_keys0 k Hk). lia.
  - now apply map_keys_set_NoDup.
  - intros k Hk. apply map_keys_set in Hk. destruct Hk as [-> | Hk]; [now left | right; auto].
  - intros k Hk. apply map_keys_set in Hk. unfold invocations. simpl.
    destruct Hk as [-> | Hk]; [apply inv_future0; lia | now apply inv_fresh0].
  - intros k Hk. unfold invocations. simpl. apply inv_future0. lia.
  - intros t d id m q Hin. apply in_app_iff in Hin. destruct Hin as [Hin | [Hin | []]].
    + destruct (inv_timers0 _ _ _ _ _ Hin) as (Hb & Hz & Hm).
      unfold timer_ok. simpl. split; [lia|]. split; [exact Hz|].
      rewrite map_get_set_other by lia.
      destruct (map_get id (pendingRequests w)); [exact Hm | now right].
    + injection Hin as <- _ <- _ <-. unfold timer_ok. simpl.
      split; [lia|]. split; [apply inv_future0; lia|]. now rewrite map_get_set_same.
  - intros t1 d1 m1 p1 t2 d2 m2 p2 id H1 H2.
    apply in_app_iff in H1. apply in_app_iff in H2.
    destruct H1 as [H1 | [H1 | []]]; destruct H2 as [H2 | [H2 | []]].
    + eauto.
    + injection H2 as _ _ <- _ _. destruct (inv_timers0 _ _ _ _ _ H1) as (Hb & _). lia.
    + injection H1 as _ _ <- _ _. destruct (inv_timers0 _ _ _ _ _ H2) as (Hb & _). lia.
    + congruence.
  - intros t Hin. rewrite map_app, in_app_iff in Hin. simpl in Hin.
    destruct Hin as [Hin | [<- | []]]; [|lia].
    specialize (inv_timer_ids0 t Hin). lia.
  - rewrite map_app. simpl. now apply NoDup_snoc_fresh.
Qed.

Lemma request_body_preserves : forall method params p w,
  preserves w (request_body method params p w).
Proof.
  intros method params p w. rewrite request_body_unfold. cbv zeta.
  set (w3 := set_pendingRequests _ _).
  pose proof (register_request_preserves method p w) as H3. fold w3 in H3.
  pose proof (ws_send_quiet (WireRequest (mkJrpcRequest method params (requestId w + 1))) w3) as H4.
  destruct (ws_send _ w3) as [w4 [e|]]; simpl in H4.
  - eapply preserves_trans; [exact H3|].
    eapply preserves_trans; [apply quiet_step_preserves, H4|].
    apply quiet_step_preserves. now apply quiet_step_settle.
  - eapply preserves_trans; [exact H3|]. now apply quiet_step_preserves.
Qed.

Lemma newPromise_quiet : forall w, quiet_step w (newPromise w).
Proof. intros w. repeat split. exists []. split; reflexivity. Qed.

(** *** [batch] *)

Lemma assign_ids_spec : forall requests w,
  preserves w (snd (assign_ids requests w))
  /\ pendingRequests (snd (assign_ids requests w)) = pendingRequests w
  /\ timers (snd (assign_ids requests w)) = timers w
  /\ nextTimer (snd (assign_ids requests w)) = nextTimer w
  /\ requestId w <= requestId (snd (assign_ids requests w))
  /\ (forall k, invocations k (trace (snd (assign_ids requests w))) = invocations k (trace w))
  /\ (forall r, In r (fst (assign_ids requests w)) ->
        requestId w < req_id r <= requestId (snd (assign_ids requests w))
        /\ In (req_id r) (assigned (trace (snd (assign_ids requests w))))).
Proof.
  induction requests as [|[m ps] rest IH]; intros w; simpl.
  - split; [apply preserves_refl|].
    do 3 (split; [reflexivity|]). split; [lia|]. split; [reflexivity | tauto].
  - set (w1 := log (AssignedId (requestId w + 1)) (set_requestId (requestId w + 1) w)).
    specialize (IH w1). destruct (assign_ids rest w1) as [rs w2]. simpl in *.
    destruct IH as (Hpres & Hp & Ht & Hn & Hr & Hi & Hids).
    assert (H1 : preserves w w1).
    { split; [|exists [AssignedId (requestId w + 1)]; reflexivity].
      intros []. constructor; simpl; try assumption.
      - lia.
      - constructor; [assumption|]. apply Forall_forall. intros y Hy.
        specialize (inv_assigned0 y Hy). lia.
      - reflexivity.
      - intros id [<- | Hid]; [lia|]. specialize (inv_assigned0 id Hid). lia.
      - intros k Hk. specialize (inv_keys0 k Hk). lia.
      - intros k Hk. right. auto.
      - intros k Hk. apply inv_future0. lia.
      - intros t d id m' p Hin. destruct (inv_timers0 _ _ _ _ _ Hin) as (Hb & Hz & Hm).
        unfold timer_ok. simpl. split; [lia|]. split; [exact Hz|].
        destruct (map_get id (pendingRequests w)); [exact Hm | now right]. }
    split; [exact (preserves_trans H1 Hpres)|].
    do 3 (split; [assumption|]). split; [lia|]. split; [exact Hi|].
    intros r [<- | Hin]; simpl.
    + split; [lia|]. destruct Hpres as [_ (d & Hd)]. rewrite Hd, assigned_app.
      apply in_or_app. right. now left.
    + specialize (Hids r Hin). split; [lia | tauto].
Qed.

Lemma register_all_spec : forall rs w,
  (forall r, In r rs ->
     0 < req_id r <= requestId w /\ invocations (req_id r) (trace w) = O /\
     In (req_id r) (assigned (trace w)) /\
     forall t d m p, ~ In (t, (d, RequestTimeout (req_id r) m p)) (timers w)) ->
  (Inv w -> Inv (snd (register_all rs w))) /\ trace (snd (register_all rs w)) = trace w.
Proof.
  induction rs as [|r rs IH]; intros w Hpre; simpl.
  - tauto.
  - set (w1 := set_pendingRequests _ (newPromise w)).
    assert (Hpre1 : forall r', In r' rs ->
              0 < req_id r' <= requestId w1 /\ invocations (req_id r') (trace w1) = O /\
              In (req_id r') (assigned (trace w1)) /\
              forall t d m p, ~ In (t, (d, RequestTimeout (req_id r') m p)) (timers w1)).
    { intros r' Hr'. apply Hpre. now right. }
    specialize (IH w1 Hpre1). destruct (register_all rs w1) as [ps w2]. simpl in *.
    destruct IH as [IH1 IH2]. split; [|exact IH2].
    intros HI. apply IH1. clear IH1 IH2 Hpre1.
    destruct (Hpre r (or_introl eq_refl)) as (Hb & Hz & Has & Hnt).
    destruct HI. constructor; simpl; try assumption.
    + intros k Hk. apply map_keys_set in Hk. destruct Hk as [-> | Hk]; auto.
    + now apply map_keys_set_NoDup.
    + intros k Hk. apply map_keys_set in Hk. destruct Hk as [-> | Hk]; auto.
    + intros k Hk. apply map_keys_set in Hk. destruct Hk as [-> | Hk]; auto.
    + intros t d id m q Hin.
      destruct (Z.eq_dec id (req_id r)) as [-> | Hne].
      * exfalso. eapply Hnt; eauto.
      * destruct (inv_timers0 _ _ _ _ _ Hin) as (Hb' & Hz' & Hm').
        unfold timer_ok. simpl. rewrite map_get_set_other by congruence.
        split; [exact Hb'|]. split; [exact Hz' | exact Hm'].
Qed.

Lemma batch_body_preserves : forall requests c w,
  preserves w (batch_body requests c w).
Proof.
  intros requests c w. unfold batch_body.
  pose proof (assign_ids_spec requests w) as (Hpres & Hp & Ht & Hn & Hr & Hi & Hids).
  destruct (assign_ids requests w) as [rs w1]. simpl in *.
  assert (H2 : preserves w (snd (register_all rs w1))).
  { split.
    - intros HI.
      assert (Hpre : forall r, In r rs ->
                0 < req_id r <= requestId w1 /\ invocations (req_id r) (trace w1) = O /\
                In (req_id r) (assigned (trace w1)) /\
                forall t d m p, ~ In (t, (d, RequestTimeout (req_id r) m p)) (timers w1)).
      { intros r Hin. specialize (Hids r Hin). destruct HI.
        repeat split; try lia; try tauto.
        - rewrite Hi. apply inv_future0. lia.
        - intros t d m p Hti. rewrite Ht in Hti.
          destruct (inv_timers0 _ _ _ _ _ Hti) as (Hb & _). lia. }
      apply (register_all_spec rs w1 Hpre). now apply Hpres.
    - eapply extends_trace_trans; [apply Hpres|].
      assert (Hpre : trace (snd (register_all rs w1)) = trace w1).
      { clear. revert w1. induction rs as [|r rs IH]; intros w1; simpl; [reflexivity|].
        specialize (IH (set_pendingRequests
                          (map_set (req_id r) (mkPending (nextPromise w1) None) (pendingRequests w1))
                          (newPromise w1))).
        destruct (register_all rs _) as [ps w2]. exact IH. }
      exists []. exact Hpre. }
  destruct (register_all rs w1) as [promises w2]. simpl in H2.
  pose proof (ws_send_quiet (WireBatch rs) w2) as H3.
  destruct (ws_send (WireBatch rs) w2) as [w3 [e|]]; simpl in H3.
  - eapply preserves_trans; [exact H2|].
    eapply preserves_trans; [apply quiet_step_preserves, H3|].
    apply quiet_step_preserves. now apply quiet_step_settle.
  - eapply preserves_trans; [exact H2|].
    eapply preserves_trans; [apply quiet_step_preserves, H3|].
    apply quiet_step_preserves, promise_all_quiet.
Qed.

Lemma resume_preserves : forall k w, preserves w (resume k w).
Proof.
  intros [m ps p|reqs c|] w; simpl.
  - apply request_body_preserves.
  - apply batch_body_preserves.
  - apply preserves_refl.
Qed.

Lemma connect_preserves : forall k w, preserves w (connect k w).
Proof.
  intros k w. unfold connect. destruct (ws_open w).
  - destruct k as [k'|]; [apply resume_preserves | apply preserves_refl].
  - apply quiet_step_preserves, open_socket_quiet.
Qed.

Lemma request_preserves : forall method params w,
  preserves w (request method params w).
Proof.
  intros method params w. unfold request.
  eapply preserves_trans; [apply quiet_step_preserves, newPromise_quiet|].
  destruct (ws_open (newPromise w)).
  - apply request_body_preserves.
  - apply connect_preserves.
Qed.

Lemma batch_preserves : forall requests w, preserves w (batch requests w).
Proof.
  intros requests w. unfold batch.
  eapply preserves_trans; [apply quiet_step_preserves, newPromise_quiet|].
  destruct (ws_open (newPromise w)).
  - apply batch_body_preserves.
  - apply connect_preserves.
Qed.

(** *** Incoming frames *)

Lemma handleSingleMessage_preserves : forall msg w,
  preserves w (handleSingleMessage msg w).
Proof.
  intros msg w. unfold handleSingleMessage.
  destruct (msg_id msg) as [id|]; [|apply preserves_refl].
  destruct (map_get id (pendingRequests w)) as [pending|] eqn:Hget.
  - destruct (msg_error msg) as [err|]; now apply consume_preserves.
  - apply quiet_step_preserves. now apply quiet_step_log.
Qed.

(** What [handleSingleMessage] does to whatever value it is given. *)
Lemma handleSingleMessage_raw_handled : forall message w,
  handled w (handleSingleMessage_raw message w).
Proof.
  intros message w. unfold handleSingleMessage_raw.
  destruct (has_property "id" message) as [[|]|]; try constructor.
  unfold lookup_pending.
  destruct (Get message "id") as [| |b|n|str|items|fields]; try apply handled_warn.
  destruct (map_get n (pendingRequests w)) as [pending|] eqn:Hget;
    [|exact (handled_warn w (VNumber n))].
  destruct (truthy (Get message "error")).
  - destruct (ToString (Get (Get message "error") "message")) as [m|];
      [|now apply handled_drop with pending].
    destruct (ToString (Get (Get message "error") "code")) as [c|];
      [|now apply handled_drop with pending].
    unfold pending_reject. now apply handled_settle.
  - unfold pending_resolve. now apply handled_settle.
Qed.

Lemma handleMessage_Parsed : forall value w,
  handleMessage (Parsed value) w
  = caught match value with
           | VArray items => handleItems items w
           | _ => handleSingleMessage_raw value w
           end.
Proof. intros [] w; reflexivity. Qed.

(** A relation that every outcome of [handleSingleMessage] satisfies, the
    [catch] included, holds across a frame of any shape. *)
Lemma Parsed_rel : forall R : World -> World -> Prop,
  (forall w, R w w) ->
  (forall w1 w2 w3, R w1 w2 -> R w2 w3 -> R w1 w3) ->
  (forall w c, handled w c -> R w (caught c)) ->
  forall value w, R w (handleMessage (Parsed value) w).
Proof.
  intros R Hrefl Htrans Hone value w. rewrite handleMessage_Parsed.
  assert (Hitems : forall items w0, R w0 (caught (handleItems items w0))).
  { induction items as [|item items IH]; intros w0; simpl; [apply Hrefl|].
    pose proof (Hone w0 _ (handleSingleMessage_raw_handled item w0)) as H.
    destruct (handleSingleMessage_raw item w0) as [w'|w']; [|exact H].
    exact (Htrans _ _ _ H (IH w')). }
  destruct value; try apply Hone, handleSingleMessage_raw_handled. apply Hitems.
Qed.

Lemma warn_unknown_quiet : forall id, quiet (warn_unknown id) = true.
Proof. intros []; reflexivity. Qed.

Lemma handled_preserves : forall w c, handled w c -> preserves w (caught c).
Proof.
  intros w c [| |id|id pending o Hget|id pending Hget]; simpl.
  - apply preserves_refl.
  - apply quiet_step_preserves. now apply quiet_step_log.
  - apply quiet_step_preserves, quiet_step_log, warn_unknown_quiet.
  - now apply consume_preserves.
  - apply drop_preserves.
Qed.

Lemma handleMessage_preserves : forall data w, preserves w (handleMessage data w).
Proof.
  intros [|items|msg|value] w; [simpl .. |].
  - apply quiet_step_preserves. now apply quiet_step_log.
  - revert w. induction items as [|item items IH]; intros w; simpl.
    + apply preserves_refl.
    + eapply preserves_trans; [apply handleSingleMessage_preserves | apply IH].
  - apply handleSingleMessage_preserves.
  - apply Parsed_rel;
      [apply preserves_refl | apply preserves_trans | apply handled_preserves].
Qed.

(** *** Connection events *)

Lemma set_state_quiet : forall v w, quiet_step w (set_state v w).
Proof. intros v w. repeat split. exists []. split; reflexivity. Qed.

Lemma set_readyState_quiet : forall s r w, quiet_step w (set_readyState s r w).
Proof. intros s r w. repeat split. exists []. split; reflexivity. Qed.

Lemma set_reconnectTimer_quiet : forall v w, quiet_step w (set_reconnectTimer v w).
Proof. intros v w. repeat split. exists []. split; reflexivity. Qed.

Lemma set_ws_quiet : forall v w, quiet_step w (set_ws v w).
Proof. intros v w. repeat split. exists []. split; reflexivity. Qed.

Lemma set_awaiting_quiet : forall v w, quiet_step w (set_awaiting v w).
Proof. intros v w. repeat split. exists []. split; reflexivity. Qed.

Lemma handleDisconnect_preserves : forall w, preserves w (handleDisconnect w).
Proof.
  intros w. unfold handleDisconnect.
  destruct (opt_reconnect (options w) && negb (is_error (state w))); [|apply preserves_refl].
  eapply preserves_trans; [apply setTimeout_reconnect_preserves|].
  apply quiet_step_preserves, set_reconnectTimer_quiet.
Qed.

Lemma onclose_preserves : forall w, preserves w (onclose w).
Proof.
  intros w. unfold onclose.
  eapply preserves_trans; [apply quiet_step_preserves, set_state_quiet|].
  apply handleDisconnect_preserves.
Qed.

Lemma abort_preserves : forall e k w, preserves w (abort e k w).
Proof.
  intros e [m ps p|reqs c|] w; simpl; apply quiet_step_preserves.
  - now apply quiet_step_settle.
  - now apply quiet_step_settle.
  - now apply quiet_step_log.
Qed.

Lemma fold_preserves : forall (A : Type) (f : World -> A -> World) (l : list A) w,
  (forall a w', preserves w' (f w' a)) -> preserves w (fold_left f l w).
Proof.
  intros A f l. induction l as [|a l IH]; intros w Hf; simpl.
  - apply preserves_refl.
  - eapply preserves_trans; [apply Hf | now apply IH].
Qed.

Lemma settle_connect_preserves : forall s f w,
  (forall k w', preserves w' (f k w')) -> preserves w (settle_connect s f w).
Proof.
  intros s f w Hf. unfold settle_connect.
  apply preserves_trans
    with (set_awaiting (filter (fun sk => negb (Nat.eqb (fst sk) s)) (awaiting w)) w).
  - apply quiet_step_preserves, set_awaiting_quiet.
  - apply fold_preserves. intros sk w'. apply Hf.
Qed.

Lemma onopen_preserves : forall s w, preserves w (onopen s w).
Proof.
  intros s w. unfold onopen.
  set (w1 := set_state state_connected w).
  assert (H1 : preserves w w1) by apply quiet_step_preserves, set_state_quiet.
  eapply preserves_trans; [exact H1|].
  eapply preserves_trans; [|apply settle_connect_preserves, resume_preserves].
  destruct (reconnectTimer w1) as [t|]; [|apply preserves_refl].
  eapply preserves_trans; [apply clearTimeout_preserves|].
  apply quiet_step_preserves, set_reconnectTimer_quiet.
Qed.

Lemma onerror_preserves : forall s w, preserves w (onerror s w).
Proof.
  intros s w. unfold onerror.
  eapply preserves_trans; [apply quiet_step_preserves, set_state_quiet|].
  apply settle_connect_preserves. intros k w'. apply abort_preserves.
Qed.

(** *** Timers *)

Lemma run_timer_preserves : forall t d cb w,
  handle_get t (timers w) = Some (d, cb) ->
  preserves w (run_timer cb (clearTimeout t w)).
Proof.
  intros t d [id m p|] w Hget; simpl.
  - split.
    + intros HI.
      apply (@consume_preserves_gen w id (mkPending p (Some t)) (ByTimeout id) p
               (Rejected (Error ("Request timeout: " ++ m))) eq_refl); [|exact HI].
      intros _. pose proof (handle_get_In _ _ Hget) as Hin.
      destruct (inv_timers HI _ _ _ _ _ Hin) as (Hb & Hz & _).
      split; [exact Hb|]. split; [exact Hz|].
      intros t' d' m' q Hin'. simpl. f_equal. symmetry.
      exact (inv_timer_unique HI _ _ _ _ _ _ _ _ _ Hin Hin').
    + eapply extends_trace_trans; [|apply extends_trace_settle]. now exists [].
  - apply preserves_trans with (clearTimeout t w); [apply clearTimeout_preserves|].
    apply preserves_trans
      with (log (ConsoleLog "Attempting to reconnect...") (clearTimeout t w)).
    + apply quiet_step_preserves. now apply quiet_step_log.
    + apply connect_preserves.
Qed.

(** *** [disconnect] *)

Lemma settle_plain_set_pending : forall via p o X w,
  settle_plain via p o (set_pendingRequests X w) =
  set_pendingRequests X (settle_plain via p o w).
Proof.
  intros via p o X w. unfold settle_plain.
  change (promiseState (set_pendingRequests X w) p) with (promiseState w p).
  destruct (promiseState w p); reflexivity.
Qed.

Lemma react_set_pending : forall p o X rs w,
  react p o rs (set_pendingRequests X w) =
  (fst (react p o rs w), set_pendingRequests X (snd (react p o rs w))).
Proof.
  intros p o X rs. induction rs as [|r rs IH]; intros w; simpl; [reflexivity|].
  destruct (react_one p o r) as [r' out].
  assert (E : match out with
              | Some o' => settle_plain ByAll (all_target r) o' (set_pendingRequests X w)
              | None => set_pendingRequests X w
              end =
              set_pendingRequests X
                match out with
                | Some o' => settle_plain ByAll (all_target r) o' w
                | None => w
                end)
    by (destruct out; [apply settle_plain_set_pending | reflexivity]).
  rewrite E, IH.
  destruct (react p o rs _) as [rest' w2]. reflexivity.
Qed.

Lemma settle_set_pending : forall via p o X w,
  settle via p o (set_pendingRequests X w) = set_pendingRequests X (settle via p o w).
Proof.
  intros via p o X w. unfold settle.
  change (promiseState (set_pendingRequests X w) p) with (promiseState w p).
  destruct (promiseState w p); [reflexivity|].
  rewrite settle_plain_set_pending.
  change (combinators (set_pendingRequests X (settle_plain via p o w)))
    with (combinators (settle_plain via p o w)).
  rewrite react_set_pending.
  destruct (react p o _ (settle_plain via p o w)) as [rs w2]. reflexivity.
Qed.

Lemma pending_reject_set_pending : forall via pending e X w,
  pending_reject via pending e (set_pendingRequests X w) =
  set_pendingRequests X (pending_reject via pending e w).
Proof.
  intros via [p [t|]] e X w; unfold pending_reject; simpl;
    rewrite <- settle_set_pending; reflexivity.
Qed.

Lemma reject_entries_set_pending : forall entries X w,
  reject_entries entries (set_pendingRequests X w) =
  set_pendingRequests X (reject_entries entries w).
Proof.
  induction entries as [|kv entries IH]; intros X w; simpl; [reflexivity|].
  rewrite pending_reject_set_pending. apply IH.
Qed.

Lemma reject_entries_consume : forall entries X w,
  set_pendingRequests X (reject_entries entries w) =
  set_pendingRequests X (fold_left consume_entry entries w).
Proof.
  induction entries as [|kv entries IH]; intros X w; simpl; [reflexivity|].
  rewrite <- IH. unfold consume_entry.
  rewrite pending_reject_set_pending, reject_entries_set_pending. reflexivity.
Qed.

Lemma map_delete_absent : forall (V : Type) (m : list (Z * V)) k,
  ~ In k (map_keys m) -> map_delete k m = m.
Proof.
  induction m as [|[k' v'] m IH]; intros k Hnotin; simpl; [reflexivity|].
  simpl in Hnotin. destruct (k' =? k) eqn:E.
  - apply Z.eqb_eq in E. tauto.
  - simpl. f_equal. apply IH. tauto.
Qed.

Lemma consume_all : forall entries w,
  pendingRequests w = entries -> NoDup (map_keys entries) ->
  preserves w (fold_left consume_entry entries w) /\
  pendingRequests (fold_left consume_entry entries w) = [].
Proof.
  induction entries as [|[k v] entries IH]; intros w Hp Hnd; simpl.
  - split; [apply preserves_refl | exact Hp].
  - inversion Hnd as [|? ? Hnotin Hnd']; subst.
    assert (Hget : map_get k (pendingRequests w) = Some v)
      by (rewrite Hp; simpl; now rewrite Z.eqb_refl).
    pose proof (consume_preserves w (ByDisconnect k) (pend_promise v)
                  (Rejected (Error "Connection closed")) Hget eq_refl) as H1.
    change (settle _ _ _ _) with (consume_entry w (k, v)) in H1.
    assert (Hp1 : pendingRequests (consume_entry w (k, v)) = entries).
    { unfold consume_entry.
      destruct (pending_reject_kept (ByDisconnect (fst (k, v))) (snd (k, v))
                  (Error "Connection closed")
                  (set_pendingRequests (map_delete (fst (k, v)) (pendingRequests w)) w))
        as (_ & _ & -> & _).
      simpl. rewrite Hp. simpl. rewrite Z.eqb_refl. simpl.
      now apply map_delete_absent. }
    destruct (IH (consume_entry w (k, v)) Hp1 Hnd') as [H2 H3].
    split; [exact (preserves_trans H1 H2) | exact H3].
Qed.

Lemma disconnect_before_drain : forall w,
  disconnect w =
  set_pendingRequests [] (reject_entries (pendingRequests (before_drain w)) (before_drain w)).
Proof. reflexivity. Qed.

Lemma before_drain_preserves : forall w, preserves w (before_drain w).
Proof.
  intros w. unfold before_drain.
  set (w1 := match reconnectTimer w with Some t => _ | None => w end).
  assert (H1 : preserves w w1).
  { subst w1. destruct (reconnectTimer w) as [t|]; [|apply preserves_refl].
    apply preserves_trans with (clearTimeout t w); [apply clearTimeout_preserves|].
    apply quiet_step_preserves, set_reconnectTimer_quiet. }
  set (w2 := match ws w1 with Some s => _ | None => w1 end).
  assert (H2 : preserves w1 w2).
  { subst w2. destruct (ws w1) as [s|]; [|apply preserves_refl].
    apply preserves_trans with (ws_close s w1).
    - apply quiet_step_preserves, ws_close_quiet.
    - apply quiet_step_preserves, set_ws_quiet. }
  apply preserves_trans with w1; [exact H1|].
  apply preserves_trans with w2; [exact H2|].
  apply quiet_step_preserves, set_state_quiet.
Qed.

Lemma set_pendingRequests_same : forall w, set_pendingRequests (pendingRequests w) w = w.
Proof. intros []; reflexivity. Qed.

Lemma disconnect_preserves : forall w, preserves w (disconnect w).
Proof.
  intros w. rewrite disconnect_before_drain, reject_entries_consume.
  set (w3 := before_drain w).
  assert (Hcons : Inv w3 -> preserves w3 (fold_left consume_entry (pendingRequests w3) w3)
                            /\ pendingRequests (fold_left consume_entry (pendingRequests w3) w3) = []).
  { intros HI. apply consume_all; [reflexivity | apply (inv_nodup HI)]. }
  pose proof (before_drain_preserves w) as [HI3 Hext3]. fold w3 in HI3, Hext3.
  split.
  - intros HI. destruct (Hcons (HI3 HI)) as [[HIc _] Hempty].
    rewrite <- Hempty, set_pendingRequests_same. auto.
  - eapply extends_trace_trans; [exact Hext3|].
    assert (Hgen : forall entries w0, extends_trace w0 (fold_left consume_entry entries w0)).
    { induction entries as [|kv entries IH]; intros w0; simpl; [apply extends_trace_refl|].
      eapply extends_trace_trans; [|apply IH].
      unfold consume_entry, pending_reject.
      eapply extends_trace_trans; [|apply extends_trace_settle].
      exists []. destruct (snd kv) as [p [t|]]; reflexivity. }
    destruct (Hgen (pendingRequests w3) w3) as (d & Hd). exists d. exact Hd.
Qed.

(** *** Every event keeps the invariant *)

Lemma step_preserves : forall w e, preserves w (step w e).
Proof.
  intros w [| |m ps|reqs|s|s data|s|s|t]; simpl.
  - apply connect_preserves.
  - apply disconnect_preserves.
  - apply request_preserves.
  - apply batch_preserves.
  - destruct (readyState w s) as [[]|]; try apply preserves_refl.
    apply preserves_trans with (set_readyState s OPEN w).
    + apply quiet_step_preserves, set_readyState_quiet.
    + apply onopen_preserves.
  - destruct (readyState w s) as [[]|]; try apply preserves_refl.
    apply handleMessage_preserves.
  - destruct (readyState w s) as [[]|]; try apply preserves_refl;
      (apply preserves_trans with (set_readyState s CLOSED w);
       [apply quiet_step_preserves, set_readyState_quiet | apply onclose_preserves]).
  - destruct (readyState w s) as [[]|]; try apply preserves_refl;
      (apply preserves_trans with (set_readyState s CLOSED w);
       [apply quiet_step_preserves, set_readyState_quiet|];
       apply preserves_trans with (onerror s (set_readyState s CLOSED w));
       [apply onerror_preserves | apply onclose_preserves]).
  - destruct (handle_get t (timers w)) as [[d cb]|] eqn:Hget; [|apply preserves_refl].
    now apply run_timer_preserves with d.
Qed.

Lemma run_preserves : forall events w, preserves w (run w events).
Proof.
  induction events as [|e events IH]; intros w; simpl.
  - apply preserves_refl.
  - eapply preserves_trans; [apply step_preserves | apply IH].
Qed.

Lemma Inv_run : forall o events, Inv (run (initial o) events).
Proof. intros o events. apply (run_preserves events (initial o)), Inv_initial. Qed.

(** ** Request ids *)

Lemma StronglySorted_app_gt : forall (l1 l2 : list Z) (x y : Z),
  StronglySorted Z.gt (l1 ++ l2) -> In x l1 -> In y l2 -> x > y.
Proof.
  induction l1 as [|a l1 IH]; intros l2 x y Hs Hx Hy; simpl in *; [tauto|].
  inversion Hs as [|? ? Hs' Hall]; subst.
  destruct Hx as [<- | Hx]; [|eapply IH; eauto].
  rewrite Forall_forall in Hall. apply Hall. apply in_or_app. now right.
Qed.

Lemma StronglySorted_gt_NoDup : forall l, StronglySorted Z.gt l -> NoDup l.
Proof.
  induction l as [|a l IH]; intros Hs; [constructor|].
  inversion Hs as [|? ? Hs' Hall]; subst. constructor; [|now apply IH].
  intros Hin. rewrite Forall_forall in Hall. specialize (Hall a Hin). lia.
Qed.

(** An id assigned during an event is above the counter the event started
    from. *)
Lemma new_id_above_counter : forall w e id,
  Inv w ->
  In id (assigned (trace (step w e))) -> ~ In id (assigned (trace w)) ->
  requestId w < id.
Proof.
  intros w e id HI Hin Hnew.
  destruct (step_preserves w e) as [HI' (d & Hd)]. specialize (HI' HI).
  pose proof (inv_sorted HI') as Hs. pose proof (inv_assigned HI' id Hin) as Hpos.
  rewrite Hd, assigned_app in Hs, Hin.
  apply in_app_or in Hin. destruct Hin as [Hin | Hin]; [|tauto].
  pose proof (inv_head HI) as Hh.
  destruct (assigned (trace w)) as [|a l] eqn:Ea; simpl in Hh.
  - lia.
  - subst a. pose proof (@StronglySorted_app_gt _ _ _ _ Hs Hin (or_introl eq_refl)). lia.
Qed.

(** C8.  In every run of a client, whatever mix of [request] and [batch]
    calls, socket events and timers it consists of: the ids handed out by
    [++this.requestId] are strictly increasing in the order they were
    assigned (the trace lists them newest first), hence pairwise distinct;
    every key of [pendingRequests] is one of them; and an id assigned during
    the next event exceeds the counter, so it is no key of the table that
    event started from. *)
Theorem request_ids_strictly_increase : forall o events,
  let w := run (initial o) events in
  StronglySorted Z.gt (assigned (trace w))
  /\ NoDup (assigned (trace w))
  /\ (forall k, In k (map_keys (pendingRequests w)) -> In k (assigned (trace w)))
  /\ (forall e id,
        In id (assigned (trace (step w e))) -> ~ In id (assigned (trace w)) ->
        requestId w < id /\ map_get id (pendingRequests w) = None).
Proof.
  intros o events w.
  pose proof (Inv_run o events) as HI. fold w in HI.
  split; [apply (inv_sorted HI)|].
  split; [apply StronglySorted_gt_NoDup, (inv_sorted HI)|].
  split; [apply (inv_registered HI)|].
  intros e id Hin Hnew.
  pose proof (@new_id_above_counter w e id HI Hin Hnew) as Hlt.
  split; [exact Hlt|].
  destruct (map_get id (pendingRequests w)) as [pending|] eqn:Hget; [|reflexivity].
  assert (Hk : In id (map_keys (pendingRequests w))) by (apply map_get_keys; congruence).
  pose proof (inv_keys HI id Hk). lia.
Qed.

(** ** At most one settlement per pending call *)

(** C6.  In every run, the settling functions stored for a request id (the
    [resolve] and [reject] of its table entry, or the [reject] its timeout
    calls) run at most once in total.  A response whose id is not in the
    table only writes the warning: no settling function runs, the table, the
    timers and the promises are as before, and nothing is thrown. *)
Theorem pending_call_settles_at_most_once : forall o events id,
  let w := run (initial o) events in
  (invocations id (trace w) <= 1)%nat
  /\ (forall msg,
        msg_id msg = Some id -> map_get id (pendingRequests w) = None ->
        handleSingleMessage msg w =
        log (ConsoleWarn "Received response for unknown request:" id) w
        /\ settled (handleSingleMessage msg w) = settled w
        /\ pendingRequests (handleSingleMessage msg w) = pendingRequests w
        /\ invocations id (trace (handleSingleMessage msg w)) = invocations id (trace w)).
Proof.
  intros o events id w. split.
  - apply (inv_once (Inv_run o events)).
  - intros msg Hid Hget.
    assert (E : handleSingleMessage msg w =
                log (ConsoleWarn "Received response for unknown request:" id) w)
      by (unfold handleSingleMessage; now rewrite Hid, Hget).
    rewrite E. repeat split.
Qed.

(** ** Instances

    Each theorem above that has hypotheses, applied to a concrete run of a
    client with default options. *)

(** Three requests outstanding, then [disconnect()]: the promise of the
    second one is rejected with the connection-closed error. *)
Lemma disconnect_rejects_every_pending_call_witness :
  In (2, mkPending 1%nat (Some 1%nat)) (pendingRequests three_outstanding)
  /\ promiseState three_outstanding 1%nat = None
  /\ promiseState (disconnect three_outstanding) 1%nat
     = Some (Rejected (Error "Connection closed"))
  /\ pendingRequests (disconnect three_outstanding) = [].
Proof.
  assert (Hin : In (2, mkPending 1%nat (Some 1%nat)) (pendingRequests three_outstanding))
    by (vm_compute; tauto).
  assert (Hp : promiseState three_outstanding 1%nat = None)
    by (vm_compute; reflexivity).
  pose proof (@disconnect_rejects_every_pending_call three_outstanding 2
                (mkPending 1%nat (Some 1%nat)) Hin Hp) as (H1 & H2 & _).
  exact (conj Hin (conj Hp (conj H1 H2))).
Defined.


(** [setup_update] arrives while the ping is outstanding. *)
Lemma notification_leaves_the_table_alone_witness :
  msg_id setup_update = None
  /\ pendingRequests (step ping_outstanding (SocketMessage 0%nat (ParsedObject setup_update)))
     = pendingRequests ping_outstanding.
Proof.
  pose proof (@notification_leaves_the_table_alone ping_outstanding 0%nat setup_update eq_refl)
    as (_ & H & _).
  exact (conj eq_refl H).
Defined.

(** A fourth request after three: id 4 is new and not in the table. *)
Lemma request_ids_strictly_increase_witness :
  In 4 (assigned (trace (step three_outstanding ping)))
  /\ ~ In 4 (assigned (trace three_outstanding))
  /\ NoDup (assigned (trace three_outstanding))
  /\ map_get 4 (pendingRequests three_outstanding) = None.
Proof.
  pose proof (request_ids_strictly_increase default_options three_events)
    as (_ & Hnd & _ & Hnew).
  assert (Hin : In 4 (assigned (trace (step three_outstanding ping))))
    by (vm_compute; tauto).
  assert (Hold : ~ In 4 (assigned (trace three_outstanding)))
    by (vm_compute; intuition discriminate).
  exact (conj Hin (conj Hold (conj Hnd (proj2 (Hnew ping 4 Hin Hold))))).
Defined.

(** The response for id 1 delivered twice, then once more. *)
Lemma pending_call_settles_at_most_once_witness :
  msg_id (response 1 (VString "late")) = Some 1
  /\ map_get 1 (pendingRequests pong_twice) = None
  /\ (invocations 1 (trace pong_twice) <= 1)%nat
  /\ settled (handleSingleMessage (response 1 (VString "late")) pong_twice)
     = settled pong_twice.
Proof.
  pose proof (pending_call_settles_at_most_once default_options pong_twice_events 1)
    as (Hle & Hlate).
  assert (Hget : map_get 1 (pendingRequests pong_twice) = None) by (vm_compute; reflexivity).
  destruct (Hlate (response 1 (VString "late")) eq_refl Hget) as (_ & Hs & _).
  exact (conj eq_refl (conj Hget (conj Hle Hs))).
Defined.

(** ** Unexpected close *)

(** [ws.onclose] runs [handleDisconnect] only: table and promises stay as
    they are. *)
Lemma onclose_keeps_pending : forall w,
  pendingRequests (onclose w) = pendingRequests w /\ settled (onclose w) = settled w.
Proof.
  intros w. unfold onclose, handleDisconnect. simpl.
  destruct (opt_reconnect (options w)); split; reflexivity.
Qed.

Lemma close_event_keeps_pending : forall w s,
  pendingRequests (step w (SocketClose s)) = pendingRequests w
  /\ settled (step w (SocketClose s)) = settled w.
Proof.
  intros w s. simpl.
  destruct (readyState w s) as [[]|]; try (split; reflexivity);
    apply (onclose_keeps_pending (set_readyState s CLOSED w)).
Qed.

(** C1 (the code differs).  Socket 0 closes while [request("ping", {})] is
    outstanding: the entry for id 1 is still in the table and its promise is
    still pending after the close handler ran; the promise is settled only
    when the request's own timer expires, and then with the timeout error.
    In general a close event changes neither the table nor any promise. *)
Theorem close_leaves_the_request_pending :
  let w := step ping_outstanding (SocketClose 0%nat) in
  (map_get 1 (pendingRequests w) = Some (mkPending 0%nat (Some 0%nat))
   /\ promiseState w 0%nat = None
   /\ handle_get 0%nat (timers w) = Some (30000, RequestTimeout 1 "ping" 0%nat)
   /\ promiseState (step w (TimerFire 0%nat)) 0%nat
      = Some (Rejected (Error "Request timeout: ping")))
  /\ forall w0 s,
       pendingRequests (step w0 (SocketClose s)) = pendingRequests w0
       /\ settled (step w0 (SocketClose s)) = settled w0.
Proof.
  split.
  - vm_compute. repeat split; reflexivity.
  - apply close_event_keeps_pending.
Qed.

(** ** Timeouts *)

Lemma assign_ids_timers : forall requests w,
  timers (snd (assign_ids requests w)) = timers w
  /\ nextTimer (snd (assign_ids requests w)) = nextTimer w.
Proof.
  intros requests w. destruct (assign_ids_spec requests w) as (_ & _ & H1 & H2 & _).
  now split.
Qed.

Lemma register_all_timers : forall rs w,
  timers (snd (register_all rs w)) = timers w
  /\ nextTimer (snd (register_all rs w)) = nextTimer w
  /\ forall id pending,
       In (id, pending) (pendingRequests (snd (register_all rs w))) ->
       In (id, pending) (pendingRequests w) \/ pend_timer pending = None.
Proof.
  induction rs as [|r rs IH]; intros w; simpl.
  - repeat split. intros; now left.
  - set (w1 := set_pendingRequests _ (newPromise w)).
    specialize (IH w1). destruct (register_all rs w1) as [ps w2]. simpl in *.
    destruct IH as (H1 & H2 & H3). repeat split; try assumption.
    intros id pending Hin. destruct (H3 id pending Hin) as [Hold | Hnone]; [|now right].
    subst w1. simpl in Hold.
    clear - Hold. induction (pendingRequests w) as [|[k v] m IHm]; simpl in Hold.
    + destruct Hold as [[= <- <-] | []]. now right.
    + destruct (k =? req_id r).
      * destruct Hold as [[= <- <-] | Hold]; [now right | left; now right].
      * destruct Hold as [Hold | Hold]; [left; now left|].
        destruct (IHm Hold) as [H | H]; [left; now right | now right].
Qed.

Lemma batch_body_timers : forall requests c w,
  timers (batch_body requests c w) = timers w
  /\ nextTimer (batch_body requests c w) = nextTimer w.
Proof.
  intros requests c w. unfold batch_body.
  pose proof (assign_ids_timers requests w) as [A1 A2].
  destruct (assign_ids requests w) as [rs w1]. simpl in *.
  pose proof (register_all_timers rs w1) as (R1 & R2 & _).
  destruct (register_all rs w1) as [ps w2]. simpl in *.
  pose proof (ws_send_quiet (WireBatch rs) w2) as (_ & _ & S1 & S2 & _).
  destruct (ws_send (WireBatch rs) w2) as [w3 [e|]]; simpl in *.
  - destruct (quiet_step_settle BySendFailure c (Rejected e) w3 eq_refl) as (_ & _ & Q1 & Q2 & _).
    split; congruence.
  - destruct (promise_all_quiet c ps w3) as (_ & _ & Q1 & Q2 & _).
    split; congruence.
Qed.

(** [batch] arms no timer, whatever the state of the socket. *)
Lemma batch_arms_no_timer : forall requests w,
  timers (batch requests w) = timers w /\ nextTimer (batch requests w) = nextTimer w.
Proof.
  intros requests w. unfold batch.
  destruct (ws_open (newPromise w)) eqn:E.
  - apply (batch_body_timers requests (nextPromise w) (newPromise w)).
  - unfold connect. rewrite E.
    destruct (open_socket_quiet (Some (KBatch requests (nextPromise w))) (newPromise w))
      as (_ & _ & Q1 & Q2 & _). split; assumption.
Qed.

(** C4 (the code differs for batches).  A batch of two on an open socket:
    both entries are stored without a timeout handle and no timer exists, so
    nothing ever expires for ids 1 and 2; with no response their promises and
    the combined promise stay pending.  A [request] on the same socket does
    get its timer. *)
Theorem batch_elements_carry_no_timeout :
  let w := step connected_client (CallBatch [("a", VNull); ("b", VNull)]) in
  pendingRequests w = [(1, mkPending 1%nat None); (2, mkPending 2%nat None)]
  /\ timers w = []
  /\ promiseState w 0%nat = None /\ promiseState w 1%nat = None
  /\ promiseState w 2%nat = None
  /\ timers (step connected_client ping) = [(0%nat, (30000, RequestTimeout 1 "ping" 0%nat))]
  /\ forall requests w0, timers (batch requests w0) = timers w0.
Proof.
  split; [vm_compute; reflexivity|].
  split; [vm_compute; reflexivity|].
  split; [vm_compute; reflexivity|].
  split; [vm_compute; reflexivity|].
  split; [vm_compute; reflexivity|].
  split; [vm_compute; reflexivity|].
  intros requests w0. apply batch_arms_no_timer.
Qed.

(** What C4 says does hold for [request]: when the timer of a pending
    request expires, the entry leaves the table and the promise is rejected
    with the timeout error; a response that arrives afterwards only logs the
    warning. *)
Lemma request_timeout_expires : forall w t d id method p,
  Inv w ->
  handle_get t (timers w) = Some (d, RequestTimeout id method p) ->
  promiseState w p = None ->
  let w' := step w (TimerFire t) in
  map_get id (pendingRequests w') = None
  /\ promiseState w' p = Some (Rejected (Error ("Request timeout: " ++ method)))
  /\ forall msg, msg_id msg = Some id ->
       handleSingleMessage msg w' =
       log (ConsoleWarn "Received response for unknown request:" id) w'.
Proof.
  intros w t d id method p HI Hget Hp w'.
  assert (Hw' : w' = settle (ByTimeout id) p (Rejected (Error ("Request timeout: " ++ method)))
                       (set_pendingRequests (map_delete id (pendingRequests w)) (clearTimeout t w)))
    by (subst w'; simpl; rewrite Hget; reflexivity).
  assert (Htab : map_get id (pendingRequests w') = None).
  { rewrite Hw'.
    destruct (settle_only (ByTimeout id) p (Rejected (Error ("Request timeout: " ++ method)))
                (set_pendingRequests (map_delete id (pendingRequests w)) (clearTimeout t w)))
      as (st & cs & tr & ->).
    simpl. apply map_get_delete_same. }
  split; [exact Htab|]. split.
  - rewrite Hw'. now apply settle_pending.
  - intros msg Hid. unfold handleSingleMessage. now rewrite Hid, Htab.
Qed.

(** ** Reconnection after [disconnect] *)

(** C5 (the code differs).  A connected client with default options calls
    [disconnect()]: the reconnection timer is clear and socket 0 is closing.
    When the close event of that socket is delivered, [onclose] arms the
    reconnection timer again; when that timer expires, [connect] opens
    socket 1. *)
Theorem disconnect_is_followed_by_a_reconnect :
  let w := step connected_client CallDisconnect in
  let w1 := step w (SocketClose 0%nat) in
  let w2 := step w1 (TimerFire 0%nat) in
  (reconnectTimer w = None /\ timers w = [] /\ ws w = None
   /\ readyState w 0%nat = Some CLOSING /\ getState w = state_disconnected)
  /\ (reconnectTimer w1 = Some 0%nat /\ timers w1 = [(0%nat, (3000, ReconnectAttempt))])
  /\ (ws w2 = Some 1%nat /\ readyState w2 1%nat = Some CONNECTING
      /\ getState w2 = state_connecting).
Proof. vm_compute. repeat split; reflexivity. Qed.

(** ** Notifications and subscriptions *)

(** C3 as stated fails: after the subscription was confirmed, the
    notification [setup_update] reaches no callback. *)
Lemma notification_reaches_no_callback :
  promiseState subscribed 0%nat
  = Some (Fulfilled (VObject [("subscription_id", VString "abc")]))
  /\ callbacks (trace (step subscribed (SocketMessage 0%nat (ParsedObject setup_update))))
     <> [CallbackInvoked "setup_update" update_params].
Proof. split; [vm_compute; reflexivity | vm_compute; discriminate]. Qed.

(** C3, amended.  [SetupClient.subscribe(topic)] is the request
    [setup_subscribe] with [{topic}] and nothing else; the client keeps no
    callback, so no run ever invokes one, and a message without an id leaves
    the world as it was. *)
Theorem notifications_are_dropped : forall o events,
  let w := run (initial o) events in
  callbacks (trace w) = []
  /\ (forall s msg, msg_id msg = None ->
        step w (SocketMessage s (ParsedObject msg)) = w)
  /\ (forall topic,
        SetupClient_subscribe topic w =
        request "setup_subscribe"
          (VObject [("topic", match topic with Some t => VString t | None => VUndefined end)]) w).
Proof.
  intros o events w. split; [apply (inv_callbacks (Inv_run o events))|]. split.
  - intros s msg Hid. simpl. destruct (readyState w s) as [[]|]; try reflexivity.
    unfold onmessage, handleMessage, handleSingleMessage. now rewrite Hid.
  - reflexivity.
Qed.

(** [setup_update] arrives at a connected client. *)
Lemma notifications_are_dropped_witness :
  msg_id setup_update = None
  /\ callbacks (trace ping_outstanding) = []
  /\ step ping_outstanding (SocketMessage 0%nat (ParsedObject setup_update)) = ping_outstanding.
Proof.
  pose proof (notifications_are_dropped default_options ping_events) as (H1 & H2 & _).
  exact (conj eq_refl (conj H1 (H2 0%nat setup_update eq_refl))).
Defined.

(** ** The invariant of [Promise.all] *)

Lemma PInv_initial : forall o, PInv (initial o).
Proof.
  intros o. unfold PInv. constructor; simpl; try tauto; try reflexivity; constructor.
Qed.

Lemma PInvL_perm : forall aw aw' w, Permutation aw aw' -> PInvL aw w -> PInvL aw' w.
Proof.
  intros aw aw' w Hperm []. constructor; try assumption.
  - intros p Hp. apply pl_fresh_aw0. eapply Permutation_in; [symmetry|]; eassumption.
  - eapply Permutation_NoDup; [|eassumption]. now apply Permutation_app_tail.
  - intros p Hp. destruct (pl_table0 p Hp) as [H1 H2]. split; [|assumption].
    intros Hin. apply H1. eapply Permutation_in; [symmetry|]; eassumption.
  - intros p Hp. destruct (pl_timers0 p Hp) as [H1 H2]. split; [|assumption].
    intros Hin. apply H1. eapply Permutation_in; [symmetry|]; eassumption.
  - intros p Hp. destruct (pl_members0 p Hp) as [H1 H2]. split; [|assumption].
    intros Hin. apply H1. eapply Permutation_in; [symmetry|]; eassumption.
  - intros p Hp. apply pl_unsettled0. eapply Permutation_in; [symmetry|]; eassumption.
Qed.

Lemma same_promises_refl : forall w, same_promises w w.
Proof. intros w. repeat split; tauto. Qed.

Lemma same_promises_trans : forall w1 w2 w3,
  same_promises w1 w2 -> same_promises w2 w3 -> same_promises w1 w3.
Proof.
  intros w1 w2 w3 ((A1 & A1') & A2 & A3 & A4) ((B1 & B1') & B2 & B3 & B4).
  repeat split; try congruence; auto.
Qed.

(** The invariant moves to a world with the same promise store whose table
    and timers hold, besides promises of the old ones, only promises that
    no suspended call and no [Promise.all] holds. *)
Lemma PInvL_transfer : forall aw w w',
  PInvL aw w ->
  (forall q, In q (table_promises w') ->
     In q (table_promises w)
     \/ ((q < nextPromise w)%nat /\ ~ In q aw /\ ~ In q (targets w))) ->
  (forall q, In q (timer_promises w') ->
     In q (timer_promises w)
     \/ ((q < nextPromise w)%nat /\ ~ In q aw /\ ~ In q (targets w))) ->
  combinators w' = combinators w -> settled w' = settled w ->
  nextPromise w' = nextPromise w ->
  PInvL aw w'.
Proof.
  intros aw w w' [] Ht Htm Ec Es En.
  assert (Est : forall q, promiseState w' q = promiseState w q)
    by (intros q; unfold promiseState; now rewrite Es).
  assert (Etg : targets w' = targets w) by (unfold targets; now rewrite Ec).
  assert (Emb : members w' = members w) by (unfold members; now rewrite Ec).
  constructor; rewrite ?En, ?Etg, ?Emb; try assumption.
  - intros p Hp. destruct (Ht p Hp) as [H | H]; [auto | tauto].
  - intros p Hp. destruct (Htm p Hp) as [H | H]; [auto | tauto].
  - intros p Hp. rewrite Est. auto.
  - intros p Hp. destruct (Ht p Hp) as [H | H]; [auto | tauto].
  - intros p Hp. destruct (Htm p Hp) as [H | H]; [auto | tauto].
  - intros p Hp. rewrite Est. auto.
  - intros r Hr. rewrite Ec in Hr. specialize (pl_coherent0 r Hr).
    unfold coherent in *. destruct pl_coherent0 as [F T]. split.
    + eapply Forall2_impl; [|exact F]. intros m s Hs. simpl in Hs. now rewrite Est.
    + rewrite Est. destruct (promiseState w (all_target r)) as [[x|e]|].
      * exact T.
      * destruct T as (m & Hm & Hst). exists m. now rewrite Est.
      * destruct T as [T1 T2]. split; [|exact T2]. intros m e Hm. rewrite Est. auto.
Qed.

Lemma PInvL_same : forall aw w w', same_promises w w' -> PInvL aw w -> PInvL aw w'.
Proof.
  intros aw w w' ((Ht & Htm) & Ec & Es & En) HP.
  apply PInvL_transfer with w; auto.
Qed.

Lemma timer_promises_In : forall w t d id m p,
  In (t, (d, RequestTimeout id m p)) (timers w) -> In p (timer_promises w).
Proof.
  intros w t d id m p Hin. unfold timer_promises. apply in_flat_map.
  exists (t, (d, RequestTimeout id m p)). split; [exact Hin | now left].
Qed.

Lemma timer_promises_incl : forall w w',
  incl (timers w') (timers w) -> forall q, In q (timer_promises w') -> In q (timer_promises w).
Proof.
  intros w w' Hincl q Hq. unfold timer_promises in *. apply in_flat_map in Hq.
  destruct Hq as (x & Hx & Hq). apply in_flat_map. exists x. split; [now apply Hincl | exact Hq].
Qed.

Lemma handle_remove_incl : forall (V : Type) t (m : list (nat * V)), incl (handle_remove t m) m.
Proof. intros V t m x Hin. unfold handle_remove in Hin. apply filter_In in Hin. tauto. Qed.

Lemma clearTimeout_same : forall t w, same_promises w (clearTimeout t w).
Proof.
  intros t w. repeat split; [tauto|].
  apply timer_promises_incl. simpl. apply handle_remove_incl.
Qed.

Lemma clear_pending_timer_same : forall pending w,
  same_promises w (clear_pending_timer pending w).
Proof.
  intros [p [t|]] w; [apply clearTimeout_same | apply same_promises_refl].
Qed.

Lemma drop_entry_same : forall id w,
  same_promises w (set_pendingRequests (map_delete id (pendingRequests w)) w).
Proof.
  intros id w. repeat split; [|tauto].
  intros p Hp. unfold table_promises in *. simpl in Hp.
  apply in_map_iff in Hp. destruct Hp as ([k v] & <- & Hin).
  apply map_delete_In in Hin. apply in_map_iff. exists (k, v). tauto.
Qed.

(** Dropping the head of the in-flight list. *)
Lemma PInvL_drop : forall p aw w,
  PInvL (p :: aw) w ->
  PInvL aw w /\ ~ In p aw /\ ~ In p (targets w) /\ promiseState w p = None
  /\ (p < nextPromise w)%nat /\ ~ In p (table_promises w) /\ ~ In p (members w).
Proof.
  intros p aw w []. simpl in pl_nodup0.
  inversion pl_nodup0 as [|? ? Hnotin Hnd]; subst.
  split.
  { constructor; try assumption.
    - intros q Hq. apply pl_fresh_aw0. now right.
    - intros q Hq. destruct (pl_table0 q Hq) as [H1 H2]. split; [|assumption].
      intros Hin. apply H1. now right.
    - intros q Hq. destruct (pl_timers0 q Hq) as [H1 H2]. split; [|assumption].
      intros Hin. apply H1. now right.
    - intros q Hq. destruct (pl_members0 q Hq) as [H1 H2]. split; [|assumption].
      intros Hin. apply H1. now right.
    - intros q Hq. apply pl_unsettled0. now right. }
  split; [intros Hin; apply Hnotin; apply in_or_app; now left|].
  split; [intros Hin; apply Hnotin; apply in_or_app; now right|].
  split; [apply pl_unsettled0; now left|].
  split; [apply pl_fresh_aw0; now left|].
  split.
  - intros Hin. destruct (pl_table0 p Hin) as [H1 _]. apply H1. now left.
  - intros Hin. destruct (pl_members0 p Hin) as [H1 _]. apply H1. now left.
Qed.

Lemma PInvL_drop_timers : forall p aw w,
  PInvL (p :: aw) w -> ~ In p (timer_promises w).
Proof.
  intros p aw w HP Hin. destruct (pl_timers HP p Hin) as [H1 _]. apply H1. now left.
Qed.

(** *** What [react] does *)

Lemma react_one_target : forall p o r, all_target (fst (react_one p o r)) = all_target r.
Proof.
  intros p o r. unfold react_one. destruct (is_member p r); [|reflexivity].
  destruct o; reflexivity.
Qed.

Lemma react_one_members : forall p o r, all_members (fst (react_one p o r)) = all_members r.
Proof.
  intros p o r. unfold react_one. destruct (is_member p r); [|reflexivity].
  destruct o; reflexivity.
Qed.

Lemma react_records : forall p o rs w,
  fst (react p o rs w) = map (fun r => fst (react_one p o r)) rs.
Proof.
  intros p o rs. induction rs as [|r rs IH]; intros w; simpl; [reflexivity|].
  destruct (react_one p o r) as [r' out]. simpl.
  set (w1 := match out with Some o' => _ | None => w end).
  specialize (IH w1). destruct (react p o rs w1) as [rest' w2]. simpl in *.
  now rewrite IH.
Qed.

Lemma react_untouched : forall p o rs w q,
  ~ In q (map all_target rs) ->
  promiseState (snd (react p o rs w)) q = promiseState w q.
Proof.
  intros p o rs. induction rs as [|r rs IH]; intros w q Hq; simpl; [reflexivity|].
  simpl in Hq.
  destruct (react_one p o r) as [r' out].
  set (w1 := match out with Some o' => _ | None => w end).
  specialize (IH w1 q). destruct (react p o rs w1) as [rest' w2]. simpl in *.
  rewrite IH by tauto. subst w1. destruct out as [o'|]; [|reflexivity].
  rewrite promiseState_settle_plain.
  destruct (Nat.eqb (all_target r) q) eqn:E; [|reflexivity].
  apply Nat.eqb_eq in E. tauto.
Qed.

Lemma react_target : forall p o rs w r,
  NoDup (map all_target rs) -> In r rs ->
  promiseState (snd (react p o rs w)) (all_target r) =
  match snd (react_one p o r) with
  | Some o' =>
      match promiseState w (all_target r) with Some x => Some x | None => Some o' end
  | None => promiseState w (all_target r)
  end.
Proof.
  intros p o rs. induction rs as [|r0 rs IH]; intros w r Hnd Hin; simpl in *; [tauto|].
  inversion Hnd as [|? ? Hnotin Hnd']; subst.
  destruct (react_one p o r0) as [r0' out0] eqn:E0.
  set (w1 := match out0 with Some o' => _ | None => w end).
  pose proof (IH w1 r Hnd') as IHr.
  pose proof (react_untouched p o rs w1 (all_target r0) Hnotin) as Hun.
  destruct (react p o rs w1) as [rest' w2]. simpl in *.
  destruct Hin as [<- | Hin].
  - rewrite Hun, E0. simpl. subst w1. destruct out0 as [o'|]; [|reflexivity].
    rewrite promiseState_settle_plain, Nat.eqb_refl. reflexivity.
  - rewrite (IHr Hin).
    assert (Hne : all_target r0 <> all_target r).
    { intros Heq. apply Hnotin. rewrite Heq. now apply in_map. }
    assert (Hw1 : promiseState w1 (all_target r) = promiseState w (all_target r)).
    { subst w1. destruct out0 as [o'|]; [|reflexivity].
      rewrite promiseState_settle_plain.
      destruct (Nat.eqb (all_target r0) (all_target r)) eqn:E; [|reflexivity].
      apply Nat.eqb_eq in E. contradiction. }
    now rewrite Hw1.
Qed.

(** *** Coherence *)

Lemma Forall2_slots_ext : forall (st st' : PromiseId -> option Outcome) ms ss,
  Forall2 (fun m s => s = fulfilled_value (st m)) ms ss ->
  (forall m, In m ms -> fulfilled_value (st' m) = fulfilled_value (st m)) ->
  Forall2 (fun m s => s = fulfilled_value (st' m)) ms ss.
Proof.
  intros st st' ms ss F. induction F as [|m s ms ss Hs F IH]; intros Hm; constructor.
  - rewrite Hm; [assumption | now left].
  - apply IH. intros m' Hm'. apply Hm. now right.
Qed.

Lemma coherent_ext : forall (st st' : PromiseId -> option Outcome) r,
  (forall m, In m (all_members r) -> st' m = st m) ->
  st' (all_target r) = st (all_target r) ->
  coherent st r -> coherent st' r.
Proof.
  intros st st' r Hm Ht [F T]. split.
  - apply Forall2_slots_ext with st; [assumption|].
    intros m Hin. now rewrite Hm.
  - rewrite Ht. destruct (st (all_target r)) as [[x|e]|].
    + exact T.
    + destruct T as (m & Hin & Hst). exists m. split; [assumption|]. now rewrite Hm.
    + destruct T as [T1 T2]. split; [|exact T2]. intros m e Hin. rewrite Hm by assumption. auto.
Qed.

Lemma is_member_In : forall p r, is_member p r = true <-> In p (all_members r).
Proof.
  intros p r. unfold is_member. rewrite existsb_exists. split.
  - intros (x & Hin & E). apply Nat.eqb_eq in E. now subst.
  - intros Hin. exists p. split; [assumption | apply Nat.eqb_refl].
Qed.

(** A pending input keeps the array incomplete. *)
Lemma collect_pending_member : forall (st : PromiseId -> option Outcome) p ms ss,
  Forall2 (fun m s => s = fulfilled_value (st m)) ms ss ->
  In p ms -> fulfilled_value (st p) = None -> collect ss = None.
Proof.
  intros st p ms ss F. induction F as [|m s ms ss Hs F IH]; intros Hin Hp; simpl in *; [tauto|].
  destruct Hin as [-> | Hin].
  - rewrite Hs, Hp. reflexivity.
  - rewrite (IH Hin Hp). destruct s; reflexivity.
Qed.

Lemma fill_Forall2 : forall (st st' : PromiseId -> option Outcome) p v ms ss,
  Forall2 (fun m s => s = fulfilled_value (st m)) ms ss ->
  st' p = Some (Fulfilled v) ->
  (forall m, In m ms -> m <> p -> st' m = st m) ->
  Forall2 (fun m s => s = fulfilled_value (st' m)) ms (fill p v ms ss).
Proof.
  intros st st' p v ms ss F Hp Hother.
  induction F as [|m s ms ss Hs F IH]; simpl; constructor.
  - destruct (Nat.eqb m p) eqn:E.
    + apply Nat.eqb_eq in E. subst m. now rewrite Hp.
    + apply Nat.eqb_neq in E. rewrite Hother; [assumption | now left | assumption].
  - apply IH. intros m' Hm' Hne. apply Hother; [now right | assumption].
Qed.

(** One record after promise [p], pending so far, was settled with [o]:
    [st] is the store before, [st'] the store after all reactions. *)
Lemma react_one_coherent : forall (st st' : PromiseId -> option Outcome) p o r,
  coherent st r ->
  st p = None ->
  all_target r <> p ->
  (forall m, In m (all_members r) -> st' m = if Nat.eqb m p then Some o else st m) ->
  st' (all_target r) =
    match snd (react_one p o r) with
    | Some o' => match st (all_target r) with Some x => Some x | None => Some o' end
    | None => st (all_target r)
    end ->
  coherent st' (fst (react_one p o r)).
Proof.
  intros st st' p o r Hco Hp Hne Hm Ht.
  assert (Hother : forall m, In m (all_members r) -> m <> p -> st' m = st m).
  { intros m Hin Hmp. rewrite (Hm m Hin). apply Nat.eqb_neq in Hmp. now rewrite Hmp. }
  unfold react_one in *. destruct (is_member p r) eqn:Emem.
  - apply is_member_In in Emem.
    assert (Hp' : st' p = Some o) by (rewrite (Hm p Emem), Nat.eqb_refl; reflexivity).
    assert (Hold : collect (all_values r) = None).
    { destruct Hco as [F _]. eapply collect_pending_member; [exact F | exact Emem|].
      now rewrite Hp. }
    destruct Hco as [F T]. destruct o as [v|e]; simpl in *.
    + (* fulfilled *)
      split; [now apply fill_Forall2 with st|]. simpl.
      destruct (collect (fill p v (all_members r) (all_values r))) as [vs|] eqn:Ecol;
        rewrite Ht; destruct (st (all_target r)) as [[x|e]|].
      * destruct T as (vs0 & Hc & _). congruence.
      * destruct T as (m & Hin & Hst). exists m. split; [assumption|].
        rewrite Hother; [assumption | assumption | congruence].
      * exists vs. now split.
      * destruct T as (vs0 & Hc & _). congruence.
      * destruct T as (m & Hin & Hst). exists m. split; [assumption|].
        rewrite Hother; [assumption | assumption | congruence].
      * destruct T as [T1 _]. split; [|reflexivity].
        intros m e Hin. destruct (Nat.eq_dec m p) as [-> | Hmp].
        -- rewrite Hp'. discriminate.
        -- rewrite Hother by assumption. auto.
    + (* rejected *)
      split.
      * apply Forall2_slots_ext with st; [assumption|].
        intros m Hin. destruct (Nat.eq_dec m p) as [-> | Hmp].
        -- now rewrite Hp', Hp.
        -- now rewrite Hother.
      * rewrite Ht. destruct (st (all_target r)) as [[x|e']|].
        -- exact T.
        -- destruct T as (m & Hin & Hst). exists m. split; [assumption|].
           rewrite Hother; [assumption | assumption | congruence].
        -- exists p. now split.
  - simpl in *. apply coherent_ext with st; [|assumption|assumption].
    intros m Hin. apply Hother; [assumption|].
    intros ->. apply is_member_In in Hin. congruence.
Qed.

Lemma react_targets : forall p o rs,
  map all_target (map (fun r => fst (react_one p o r)) rs) = map all_target rs.
Proof.
  intros p o rs. rewrite map_map. apply map_ext. intros r. apply react_one_target.
Qed.

Lemma react_members : forall p o rs,
  flat_map all_members (map (fun r => fst (react_one p o r)) rs) = flat_map all_members rs.
Proof.
  intros p o rs. induction rs as [|r rs IH]; simpl; [reflexivity|].
  now rewrite react_one_members, IH.
Qed.

Lemma NoDup_app_disjoint : forall (l1 l2 : list nat),
  NoDup (l1 ++ l2) -> forall x, In x l1 -> In x l2 -> False.
Proof.
  induction l1 as [|a l1 IH]; intros l2 Hnd x H1 H2; simpl in *; [tauto|].
  inversion Hnd as [|? ? Hnotin Hnd']; subst.
  destruct H1 as [-> | H1]; [apply Hnotin, in_or_app; now right | eapply IH; eauto].
Qed.

Lemma In_members : forall w r m,
  In r (combinators w) -> In m (all_members r) -> In m (members w).
Proof.
  intros w r m Hr Hm. unfold members. apply in_flat_map. now exists r.
Qed.

Lemma In_targets : forall w r, In r (combinators w) -> In (all_target r) (targets w).
Proof. intros w r Hr. unfold targets. now apply in_map. Qed.

(** Settling a promise that is neither held by a suspended call nor a
    combined promise keeps the invariant. *)
Lemma PInvL_settle : forall aw via p o w,
  PInvL aw w -> (p < nextPromise w)%nat -> ~ In p aw -> ~ In p (targets w) ->
  PInvL aw (settle via p o w).
Proof.
  intros aw via p o w HP Hfresh Hnaw Hntg. unfold settle.
  destruct (promiseState w p) eqn:Hp.
  - apply PInvL_same with w; [|assumption]. repeat split; tauto.
  - set (w1 := settle_plain via p o w).
    assert (Hst1 : forall q, promiseState w1 q =
                             if Nat.eqb p q then Some o else promiseState w q).
    { intros q. subst w1. rewrite promiseState_settle_plain, Hp. reflexivity. }
    assert (Hc1 : combinators w1 = combinators w)
      by (subst w1; unfold settle_plain; rewrite Hp; reflexivity).
    assert (Hn1 : nextPromise w1 = nextPromise w)
      by (subst w1; unfold settle_plain; rewrite Hp; reflexivity).
    assert (Hp1 : pendingRequests w1 = pendingRequests w)
      by (subst w1; unfold settle_plain; rewrite Hp; reflexivity).
    assert (Hti1 : timers w1 = timers w)
      by (subst w1; unfold settle_plain; rewrite Hp; reflexivity).
    pose proof (react_records p o (combinators w1) w1) as Hrec.
    pose proof (react_only p o (combinators w1) w1) as (st & cs & tr & Hshape).
    pose proof (react_untouched p o (combinators w1) w1) as Hun.
    pose proof (react_target p o (combinators w1) w1) as Htg.
    destruct (react p o (combinators w1) w1) as [rs' w2]. simpl in *.
    rewrite Hc1 in *.
    assert (Hnd : NoDup (targets w)).
    { pose proof (pl_nodup HP) as H. apply NoDup_app_remove_l in H. exact H. }
    assert (Hst2 : forall q, ~ In q (targets w) ->
                   promiseState w2 q = if Nat.eqb p q then Some o else promiseState w q).
    { intros q Hq. rewrite Hun by exact Hq. apply Hst1. }
    assert (Hn2 : nextPromise w2 = nextPromise w) by (rewrite Hshape; simpl; exact Hn1).
    assert (Hp2 : pendingRequests w2 = pendingRequests w) by (rewrite Hshape; simpl; exact Hp1).
    assert (Htgs : targets (set_combinators rs' w2) = targets w).
    { unfold targets. simpl. rewrite Hrec. apply react_targets. }
    assert (Hmbs : members (set_combinators rs' w2) = members w).
    { unfold members. simpl. rewrite Hrec. apply react_members. }
    assert (Htab : table_promises (set_combinators rs' w2) = table_promises w).
    { unfold table_promises. simpl. now rewrite Hp2. }
    assert (Htim : timer_promises (set_combinators rs' w2) = timer_promises w).
    { unfold timer_promises. simpl. rewrite Hshape. simpl. now rewrite Hti1. }
    assert (Hneq : forall q, q <> p -> Nat.eqb p q = false).
    { intros q Hq. apply Nat.eqb_neq. congruence. }
    destruct HP.
    constructor; rewrite ?Htgs, ?Hmbs, ?Htab, ?Htim; simpl; rewrite ?Hn2; try assumption.
    + intros q Hq.
      change (promiseState w2 q = None).
      rewrite Hst2.
      * rewrite Hneq by lia. now apply pl_fresh_settled0.
      * intros Hin. specialize (pl_fresh_targets0 q Hin). lia.
    + intros q Hq.
      change (promiseState w2 q = None).
      rewrite Hst2.
      * rewrite Hneq by (intros ->; contradiction). now apply pl_unsettled0.
      * intros Hin. exact (NoDup_app_disjoint _ _ pl_nodup0 q Hq Hin).
    + intros r' Hr'. rewrite Hrec in Hr'. apply in_map_iff in Hr'.
      destruct Hr' as (r & <- & Hr).
      change (coherent (promiseState w2) (fst (react_one p o r))).
      apply react_one_coherent with (promiseState w).
      * now apply pl_coherent0.
      * exact Hp.
      * intros Heq. apply Hntg. rewrite <- Heq. now apply In_targets.
      * intros m Hm. rewrite Hst2.
        -- rewrite Nat.eqb_sym. reflexivity.
        -- apply (pl_members0 m). now apply In_members with r.
      * rewrite (Htg r Hnd Hr).
        assert (Ht1 : promiseState w1 (all_target r) = promiseState w (all_target r)).
        { rewrite Hst1, Hneq; [reflexivity|].
          intros Heq. apply Hntg. rewrite <- Heq. now apply In_targets. }
        now rewrite Ht1.
Qed.

(** *** Allocation and registration *)

Lemma PInvL_newPromise : forall aw w,
  PInvL aw w -> PInvL (nextPromise w :: aw) (newPromise w).
Proof.
  intros aw w []. constructor; simpl; try assumption.
  - intros p [<- | Hp]; [lia|]. specialize (pl_fresh_aw0 p Hp). lia.
  - intros p Hp. specialize (pl_fresh_table0 p Hp). lia.
  - intros p Hp. specialize (pl_fresh_timers0 p Hp). lia.
  - intros p Hp. specialize (pl_fresh_targets0 p Hp). lia.
  - intros p Hp. specialize (pl_fresh_members0 p Hp). lia.
  - intros p Hp. apply pl_fresh_settled0. lia.
  - constructor; [|assumption]. intros Hin. apply in_app_or in Hin.
    destruct Hin as [Hin | Hin].
    + specialize (pl_fresh_aw0 _ Hin). lia.
    + specialize (pl_fresh_targets0 _ Hin). lia.
  - intros p Hp. destruct (pl_table0 p Hp) as [H1 H2]. split; [|assumption].
    intros [<- | Hin]; [|tauto]. specialize (pl_fresh_table0 _ Hp). lia.
  - intros p Hp. destruct (pl_timers0 p Hp) as [H1 H2]. split; [|assumption].
    intros [<- | Hin]; [|tauto]. specialize (pl_fresh_timers0 _ Hp). lia.
  - intros p Hp. destruct (pl_members0 p Hp) as [H1 H2]. split; [|assumption].
    intros [<- | Hin]; [|tauto]. specialize (pl_fresh_members0 _ Hp). lia.
  - intros p [<- | Hp]; [apply pl_fresh_settled0; lia | exact (pl_unsettled0 p Hp)].
Qed.

Lemma table_promises_set : forall id pending m q,
  In q (map (fun kv : Z * Pending => pend_promise (snd kv)) (map_set id pending m)) ->
  q = pend_promise pending \/ In q (map (fun kv => pend_promise (snd kv)) m).
Proof.
  intros id pending m q. induction m as [|[k v] m IH]; simpl.
  - intros [<- | []]. now left.
  - destruct (k =? id); simpl.
    + intros [<- | Hin]; [now left | right; now right].
    + intros [<- | Hin]; [right; now left|].
      destruct (IH Hin) as [H | H]; [now left | right; now right].
Qed.

Lemma table_promises_delete : forall id (m : list (Z * Pending)) q,
  In q (map (fun kv => pend_promise (snd kv)) (map_delete id m)) ->
  In q (map (fun kv => pend_promise (snd kv)) m).
Proof.
  intros id m q Hin. apply in_map_iff in Hin. destruct Hin as ([k v] & <- & Hin).
  apply map_delete_In in Hin. apply in_map_iff. exists (k, v). tauto.
Qed.

Lemma table_promises_get : forall w id pending,
  map_get id (pendingRequests w) = Some pending ->
  In (pend_promise pending) (table_promises w).
Proof.
  intros w id pending Hget. unfold table_promises. apply in_map_iff.
  exists (id, pending). split; [reflexivity | now apply map_get_In].
Qed.

(** The promise of a running call is handed over to the table, and for
    [request] to the timeout armed for it. *)
Lemma PInvL_register : forall aw p w w',
  PInvL (p :: aw) w ->
  (forall q, In q (table_promises w') -> q = p \/ In q (table_promises w)) ->
  (forall q, In q (timer_promises w') -> q = p \/ In q (timer_promises w)) ->
  combinators w' = combinators w -> settled w' = settled w ->
  nextPromise w' = nextPromise w ->
  PInvL aw w'.
Proof.
  intros aw p w w' HP Ht Htm Ec Es En.
  destruct (PInvL_drop HP) as (HP' & Hnaw & Hntg & Hun & Hfr & _).
  apply PInvL_transfer with w; try assumption.
  - intros q Hq. destruct (Ht q Hq) as [-> | H]; [right; tauto | now left].
  - intros q Hq. destruct (Htm q Hq) as [-> | H]; [right; tauto | now left].
Qed.

Lemma register_all_PInvL : forall rs aw w,
  PInvL aw w ->
  PInvL aw (snd (register_all rs w))
  /\ combinators (snd (register_all rs w)) = combinators w
  /\ settled (snd (register_all rs w)) = settled w
  /\ awaiting (snd (register_all rs w)) = awaiting w
  /\ (nextPromise w <= nextPromise (snd (register_all rs w)))%nat
  /\ forall m, In m (fst (register_all rs w)) ->
       (nextPromise w <= m < nextPromise (snd (register_all rs w)))%nat.
Proof.
  induction rs as [|r rs IH]; intros aw w HP; simpl.
  - split; [assumption|]. do 3 (split; [reflexivity|]). split; [lia | tauto].
  - set (w1 := set_pendingRequests _ (newPromise w)).
    assert (HP1 : PInvL aw w1).
    { apply PInvL_register with (p := nextPromise w) (w := newPromise w);
        try reflexivity; [exact (PInvL_newPromise HP) | |].
      - intros q Hq. unfold table_promises in Hq. simpl in Hq.
        apply table_promises_set in Hq. exact Hq.
      - intros q Hq. now right. }
    specialize (IH aw w1 HP1). destruct (register_all rs w1) as [ps w2]. simpl in *.
    destruct IH as (H1 & H2 & H3 & H4 & H5 & H6).
    split; [assumption|]. split; [assumption|]. split; [assumption|].
    split; [assumption|]. split; [lia|].
    intros m [<- | Hm]; [lia|]. specialize (H6 m Hm). lia.
Qed.

Lemma assign_ids_same : forall requests w,
  same_promises w (snd (assign_ids requests w))
  /\ awaiting (snd (assign_ids requests w)) = awaiting w.
Proof.
  induction requests as [|[m ps] rest IH]; intros w; simpl.
  - split; [apply same_promises_refl | reflexivity].
  - set (w1 := log (AssignedId (requestId w + 1)) (set_requestId (requestId w + 1) w)).
    specialize (IH w1). destruct (assign_ids rest w1) as [rs w2]. simpl in *.
    destruct IH as [IH1 IH2]. split; [|exact IH2].
    apply same_promises_trans with w1; [|exact IH1]. repeat split; tauto.
Qed.

Lemma ws_send_same : forall frame w,
  same_promises w (fst (ws_send frame w)) /\ awaiting (fst (ws_send frame w)) = awaiting w.
Proof.
  intros frame w. unfold ws_send.
  destruct (ws w) as [s|]; [|split; [apply same_promises_refl | reflexivity]].
  destruct (readyState w s) as [[]|]; simpl;
    (split; [repeat split; tauto | reflexivity]).
Qed.

(** *** [Promise.all] over fresh inputs *)

Lemma collect_all_empty : forall (A : Type) (a : A) (l : list A),
  collect (map (fun _ => None) (a :: l)) = None.
Proof. reflexivity. Qed.

Lemma NoDup_snoc_general : forall (l : list nat) x,
  NoDup l -> ~ In x l -> NoDup (l ++ [x]).
Proof.
  induction l as [|a l IH]; intros x Hnd Hx; simpl.
  - constructor; [simpl; tauto | constructor].
  - inversion Hnd as [|? ? Hnotin Hnd']; subst. simpl in Hx. constructor.
    + intros Hin. apply in_app_or in Hin. destruct Hin as [Hin | [<- | []]]; tauto.
    + apply IH; tauto.
Qed.

Lemma PInvL_promise_all : forall aw c ms w,
  PInvL (c :: aw) w ->
  (forall m, In m ms ->
     ~ In m (c :: aw) /\ ~ In m (targets w) /\ promiseState w m = None
     /\ (m < nextPromise w)%nat) ->
  PInvL aw (promise_all c ms w).
Proof.
  intros aw c ms w HP Hms.
  destruct (PInvL_drop HP) as (HP' & Hnaw & Hntg & Hun & Hfr & Hntab & Hnmb).
  unfold promise_all.
  set (rnew := mkAll c ms (map (fun _ => None) ms)).
  set (w1 := set_combinators (combinators w ++ [rnew]) w).
  set (w' := match ms with [] => settle_plain ByAll c (Fulfilled (VArray [])) w1 | _ => w1 end).
  assert (Hst : forall q, q <> c -> promiseState w' q = promiseState w q).
  { intros q Hq. subst w'. destruct ms; [|reflexivity].
    rewrite promiseState_settle_plain.
    destruct (Nat.eqb c q) eqn:E; [apply Nat.eqb_eq in E; congruence | reflexivity]. }
  assert (Hstc : promiseState w' c =
                 match ms with [] => Some (Fulfilled (VArray [])) | _ => None end).
  { subst w'. destruct ms; [|exact Hun].
    rewrite promiseState_settle_plain, Nat.eqb_refl.
    change (promiseState w1 c) with (promiseState w c). now rewrite Hun. }
  assert (Hcs : combinators w' = (combinators w ++ [rnew])%list).
  { subst w'. destruct ms; [|reflexivity].
    unfold settle_plain. destruct (promiseState w1 c); reflexivity. }
  assert (Hn : nextPromise w' = nextPromise w).
  { subst w'. destruct ms; [|reflexivity].
    unfold settle_plain. destruct (promiseState w1 c); reflexivity. }
  assert (Htab : table_promises w' = table_promises w).
  { subst w'. destruct ms; [|reflexivity].
    unfold settle_plain. destruct (promiseState w1 c); reflexivity. }
  assert (Htim : timer_promises w' = timer_promises w).
  { subst w'. destruct ms; [|reflexivity].
    unfold settle_plain. destruct (promiseState w1 c); reflexivity. }
  pose proof (PInvL_drop_timers HP) as Hntim.
  assert (Htg : targets w' = (targets w ++ [c])%list).
  { unfold targets. rewrite Hcs, map_app. reflexivity. }
  assert (Hmb : members w' = (members w ++ ms)%list).
  { unfold members. rewrite Hcs, flat_map_app. simpl. now rewrite app_nil_r. }
  clearbody w'. clear w1.
  destruct HP'. constructor; rewrite ?Hn, ?Htab, ?Htim, ?Htg, ?Hmb; try assumption.
  - intros q Hq. apply in_app_or in Hq. destruct Hq as [Hq | [<- | []]]; auto.
  - intros q Hq. apply in_app_or in Hq. destruct Hq as [Hq | Hq]; auto.
    now apply Hms.
  - intros q Hq. rewrite Hst by lia. auto.
  - rewrite app_assoc. apply NoDup_snoc_general; [assumption|].
    intros Hin. apply in_app_or in Hin. tauto.
  - intros q Hq. destruct (pl_table0 q Hq) as [H1 H2]. split; [assumption|].
    intros Hin. apply in_app_or in Hin. destruct Hin as [Hin | [<- | []]]; tauto.
  - intros q Hq. destruct (pl_timers0 q Hq) as [H1 H2]. split; [assumption|].
    intros Hin. apply in_app_or in Hin. destruct Hin as [Hin | [<- | []]]; tauto.
  - intros q Hq. apply in_app_or in Hq. destruct Hq as [Hq | Hq].
    + destruct (pl_members0 q Hq) as [H1 H2]. split; [assumption|].
      intros Hin. apply in_app_or in Hin. destruct Hin as [Hin | [<- | []]]; tauto.
    + destruct (Hms q Hq) as (H1 & H2 & _). simpl in H1. split; [tauto|].
      intros Hin. apply in_app_or in Hin. destruct Hin as [Hin | [<- | []]]; tauto.
  - intros q Hq. rewrite Hst by (intros ->; contradiction). auto.
  - intros r Hr. rewrite Hcs in Hr. apply in_app_or in Hr.
    destruct Hr as [Hr | [<- | []]].
    + apply coherent_ext with (promiseState w).
      * intros m Hm. apply Hst. intros ->. apply Hnmb. now apply In_members with r.
      * apply Hst. intros Heq. apply Hntg. rewrite <- Heq. now apply In_targets.
      * now apply pl_coherent0.
    + split; simpl.
      * assert (Hall : forall m, In m ms -> promiseState w' m = None).
        { intros m Hm. destruct (Hms m Hm) as (H1 & _ & H3 & _).
          rewrite Hst; [assumption|]. intros ->. apply H1. now left. }
        clear - Hall. induction ms as [|m ms IH]; simpl; constructor.
        -- rewrite Hall; [reflexivity | now left].
        -- apply IH. intros m' Hm'. apply Hall. now right.
      * rewrite Hstc. destruct ms as [|m ms]; simpl.
        -- exists []. now split.
        -- split; [|reflexivity]. intros m' e Hm'.
           destruct (Hms m' Hm') as (H1 & _ & H3 & _).
           rewrite Hst; [congruence|]. intros ->. apply H1. now left.
Qed.

(** *** The methods keep the invariant *)

Lemma settle_awaiting : forall via p o w, awaiting (settle via p o w) = awaiting w.
Proof.
  intros via p o w. destruct (settle_only via p o w) as (st & cs & tr & ->). reflexivity.
Qed.

Lemma settle_nextPromise : forall via p o w, nextPromise (settle via p o w) = nextPromise w.
Proof.
  intros via p o w. destruct (settle_only via p o w) as (st & cs & tr & ->). reflexivity.
Qed.

Lemma request_body_PInvL : forall aw method params p w,
  PInvL (p :: aw) w ->
  PInvL aw (request_body method params p w)
  /\ awaiting (request_body method params p w) = awaiting w.
Proof.
  intros aw method params p w HP. rewrite request_body_unfold. cbv zeta.
  set (w3 := set_pendingRequests _ _).
  assert (HP3 : PInvL aw w3).
  { apply PInvL_register with (p := p) (w := w); try reflexivity; [exact HP | |].
    - intros q Hq. unfold table_promises in Hq. simpl in Hq.
      apply table_promises_set in Hq. exact Hq.
    - intros q Hq. unfold timer_promises in Hq. simpl in Hq.
      rewrite flat_map_app in Hq. apply in_app_or in Hq.
      destruct Hq as [Hq | [<- | []]]; [now right | now left]. }
  destruct (PInvL_drop HP) as (_ & Hnaw & Hntg & _ & Hfr & _).
  pose proof (ws_send_same (WireRequest (mkJrpcRequest method params (requestId w + 1))) w3)
    as [Hs Ha].
  destruct (ws_send _ w3) as [w4 [e|]]; simpl in *.
  - split.
    + apply PInvL_settle.
      * now apply PInvL_same with w3.
      * destruct Hs as (_ & _ & _ & ->). exact Hfr.
      * exact Hnaw.
      * unfold targets. destruct Hs as (_ & -> & _). exact Hntg.
    + rewrite settle_awaiting. exact Ha.
  - split; [now apply PInvL_same with w3 | exact Ha].
Qed.

Lemma batch_body_PInvL : forall aw requests c w,
  PInvL (c :: aw) w ->
  PInvL aw (batch_body requests c w)
  /\ awaiting (batch_body requests c w) = awaiting w.
Proof.
  intros aw requests c w HP. unfold batch_body.
  pose proof (assign_ids_same requests w) as [Hs1 Ha1].
  destruct (assign_ids requests w) as [rs w1]. simpl in *.
  assert (HP1 : PInvL (c :: aw) w1) by now apply PInvL_same with w.
  pose proof (register_all_PInvL rs HP1) as (HP2 & Hc2 & Hst2 & Ha2 & Hle2 & Hms).
  destruct (register_all rs w1) as [ps w2]. simpl in *.
  pose proof (ws_send_same (WireBatch rs) w2) as [Hs3 Ha3].
  destruct (ws_send (WireBatch rs) w2) as [w3 [e|]]; simpl in *.
  - assert (HP3 : PInvL (c :: aw) w3) by now apply PInvL_same with w2.
    destruct (PInvL_drop HP3) as (HP3' & Hnaw & Hntg & _ & Hfr & _).
    split; [now apply PInvL_settle|].
    rewrite settle_awaiting. congruence.
  - assert (HP3 : PInvL (c :: aw) w3) by now apply PInvL_same with w2.
    split.
    + apply PInvL_promise_all; [assumption|].
      intros m Hm. specialize (Hms m Hm).
      destruct Hs3 as (_ & Hc3 & Hst3 & Hn3).
      repeat split.
      * intros Hin. pose proof (pl_fresh_aw HP1 m Hin). lia.
      * intros Hin. unfold targets in Hin. rewrite Hc3, Hc2 in Hin.
        pose proof (pl_fresh_targets HP1 m Hin). lia.
      * unfold promiseState. rewrite Hst3, Hst2. apply (pl_fresh_settled HP1). lia.
      * rewrite Hn3. lia.
    + assert (Hq : awaiting (promise_all c ps w3) = awaiting w3).
      { unfold promise_all. destruct ps; [|reflexivity].
        unfold settle_plain. destruct (promiseState _ c); reflexivity. }
      congruence.
Qed.

Lemma resume_PInvL : forall k aw w,
  PInvL (continuation_promises k ++ aw) w ->
  PInvL aw (resume k w) /\ awaiting (resume k w) = awaiting w.
Proof.
  intros [m ps p|reqs c|] aw w HP; simpl in *.
  - now apply request_body_PInvL.
  - now apply batch_body_PInvL.
  - now split.
Qed.

Lemma abort_PInvL : forall e k aw w,
  PInvL (continuation_promises k ++ aw) w ->
  PInvL aw (abort e k w) /\ awaiting (abort e k w) = awaiting w.
Proof.
  intros e [m ps p|reqs c|] aw w HP; simpl in *.
  - destruct (PInvL_drop HP) as (HP' & Hnaw & Hntg & _ & Hfr & _).
    split; [now apply PInvL_settle | apply settle_awaiting].
  - destruct (PInvL_drop HP) as (HP' & Hnaw & Hntg & _ & Hfr & _).
    split; [now apply PInvL_settle | apply settle_awaiting].
  - split; [|reflexivity]. apply PInvL_same with w; [|assumption]. repeat split; tauto.
Qed.

Lemma fold_continuations_PInvL : forall (f : Continuation -> World -> World),
  (forall k aw w, PInvL (continuation_promises k ++ aw) w ->
                  PInvL aw (f k w) /\ awaiting (f k w) = awaiting w) ->
  forall l aw w,
    PInvL (awaiting_promises l ++ aw) w ->
    PInvL aw (fold_left (fun acc sk => f (snd sk) acc) l w)
    /\ awaiting (fold_left (fun acc sk => f (snd sk) acc) l w) = awaiting w.
Proof.
  intros f Hf l. induction l as [|[s k] l IH]; intros aw w HP; simpl in *.
  - now split.
  - rewrite <- app_assoc in HP.
    destruct (Hf k _ w HP) as [HP1 Ha1].
    destruct (IH aw (f k w) HP1) as [HP2 Ha2].
    split; [assumption | congruence].
Qed.

Lemma awaiting_promises_partition : forall (g : SocketId * Continuation -> bool) l,
  Permutation (awaiting_promises l)
    (awaiting_promises (filter g l) ++ awaiting_promises (filter (fun x => negb (g x)) l)).
Proof.
  intros g l. induction l as [|sk l IH]; simpl; [constructor|].
  destruct (g sk); simpl.
  - rewrite <- app_assoc. now apply Permutation_app_head.
  - eapply Permutation_trans; [apply Permutation_app_head, IH|].
    rewrite !app_assoc. apply Permutation_app_tail, Permutation_app_comm.
Qed.

Lemma settle_connect_PInv : forall s (f : Continuation -> World -> World) w,
  (forall k aw w', PInvL (continuation_promises k ++ aw) w' ->
                   PInvL aw (f k w') /\ awaiting (f k w') = awaiting w') ->
  PInv w -> PInv (settle_connect s f w).
Proof.
  intros s f w Hf HP. unfold settle_connect. cbv zeta. unfold PInv in *.
  set (mine := filter (fun sk => Nat.eqb (fst sk) s) (awaiting w)).
  set (others := filter (fun sk => negb (Nat.eqb (fst sk) s)) (awaiting w)).
  assert (HP0 : PInvL (awaiting_promises mine ++ awaiting_promises others)
                  (set_awaiting others w)).
  { apply PInvL_same with w; [repeat split; tauto|].
    eapply PInvL_perm; [|exact HP]. apply awaiting_promises_partition. }
  destruct (@fold_continuations_PInvL f Hf mine (awaiting_promises others)
              (set_awaiting others w) HP0) as [HP1 Ha1].
  match goal with
  | |- PInvL (awaiting_promises (awaiting ?x)) _ =>
      assert (E : awaiting x = others) by exact Ha1; rewrite E
  end.
  exact HP1.
Qed.

Lemma open_socket_PInv : forall k w,
  PInvL (match k with Some k' => continuation_promises k' | None => [] end
         ++ awaiting_promises (awaiting w)) w ->
  PInv (open_socket k w).
Proof.
  intros k w HP. unfold PInv, open_socket.
  destruct k as [k'|]; simpl.
  - unfold awaiting_promises at 1. rewrite flat_map_app. simpl. rewrite app_nil_r.
    apply PInvL_same with w; [repeat split; tauto|].
    eapply PInvL_perm; [|exact HP]. apply Permutation_app_comm.
  - apply PInvL_same with w; [repeat split; tauto | exact HP].
Qed.

Lemma connect_PInv : forall k w,
  PInvL (match k with Some k' => continuation_promises k' | None => [] end
         ++ awaiting_promises (awaiting w)) w ->
  PInv (connect k w).
Proof.
  intros k w HP. unfold connect.
  destruct (ws_open w) eqn:E; [|now apply open_socket_PInv].
  destruct k as [k'|]; [|exact HP].
  destruct (@resume_PInvL k' _ w HP) as [H1 H2]. unfold PInv. now rewrite H2.
Qed.

Lemma request_PInv : forall method params w, PInv w -> PInv (request method params w).
Proof.
  intros method params w HP. unfold request.
  pose proof (PInvL_newPromise HP) as HP1.
  destruct (ws_open (newPromise w)) eqn:E.
  - destruct (request_body_PInvL method params HP1) as [H1 H2].
    unfold PInv. rewrite H2. exact H1.
  - apply connect_PInv. exact HP1.
Qed.

Lemma batch_PInv : forall requests w, PInv w -> PInv (batch requests w).
Proof.
  intros requests w HP. unfold batch.
  pose proof (PInvL_newPromise HP) as HP1.
  destruct (ws_open (newPromise w)) eqn:E.
  - destruct (batch_body_PInvL requests HP1) as [H1 H2].
    unfold PInv. rewrite H2. exact H1.
  - apply connect_PInv. exact HP1.
Qed.

(** Settling a promise that the table or a timeout holds, as every consumer
    of the table does: a timeout is cleared first. *)
Lemma owned_settle_PInvL : forall aw via p pending o w0 w,
  PInvL aw w0 -> In p (table_promises w0) \/ In p (timer_promises w0) ->
  same_promises w0 w -> awaiting w = awaiting w0 ->
  PInvL aw (settle via p o (clear_pending_timer pending w))
  /\ awaiting (settle via p o (clear_pending_timer pending w)) = awaiting w0.
Proof.
  intros aw via p pending o w0 w HP Hin Hs Ha.
  assert (Hown : (p < nextPromise w0)%nat /\ ~ In p aw /\ ~ In p (targets w0)).
  { destruct Hin as [Hin | Hin].
    - split; [exact (pl_fresh_table HP _ Hin) | exact (pl_table HP _ Hin)].
    - split; [exact (pl_fresh_timers HP _ Hin) | exact (pl_timers HP _ Hin)]. }
  destruct Hown as (Hfr & Hnaw & Hntg).
  set (w1 := clear_pending_timer pending w).
  assert (Hs1 : same_promises w0 w1).
  { apply same_promises_trans with w; [assumption|].
    subst w1. apply clear_pending_timer_same. }
  assert (Ha1 : awaiting w1 = awaiting w0)
    by (subst w1; destruct pending as [q [t|]]; exact Ha).
  split.
  - apply PInvL_settle.
    + now apply PInvL_same with w0.
    + destruct Hs1 as (_ & _ & _ & ->). exact Hfr.
    + exact Hnaw.
    + unfold targets. destruct Hs1 as (_ & -> & _). exact Hntg.
  - now rewrite settle_awaiting.
Qed.

Lemma entry_settle_PInvL : forall aw via pending o w0 w,
  PInvL aw w0 -> In (pend_promise pending) (table_promises w0) ->
  same_promises w0 w -> awaiting w = awaiting w0 ->
  PInvL aw (settle via (pend_promise pending) o (clear_pending_timer pending w))
  /\ awaiting (settle via (pend_promise pending) o (clear_pending_timer pending w))
     = awaiting w0.
Proof.
  intros aw via pending o w0 w HP Hin Hs Ha.
  apply owned_settle_PInvL; [assumption | now left | assumption | assumption].
Qed.

Lemma handleSingleMessage_PInvL : forall aw msg w,
  PInvL aw w ->
  PInvL aw (handleSingleMessage msg w)
  /\ awaiting (handleSingleMessage msg w) = awaiting w.
Proof.
  intros aw msg w HP. unfold handleSingleMessage.
  destruct (msg_id msg) as [id|]; [|now split].
  destruct (map_get id (pendingRequests w)) as [pending|] eqn:Hget.
  - pose proof (drop_entry_same id w) as Hs.
    pose proof (table_promises_get w id Hget) as Hin.
    destruct (msg_error msg) as [err|]; unfold pending_reject, pending_resolve;
      now apply entry_settle_PInvL.
  - split; [|reflexivity]. apply PInvL_same with w; [|assumption]. repeat split; tauto.
Qed.

Lemma handled_PInvL : forall aw w c,
  handled w c -> PInvL aw w -> PInvL aw (caught c) /\ awaiting (caught c) = awaiting w.
Proof.
  intros aw w c [| |id|id pending o Hget|id pending Hget] HP; simpl.
  - now split.
  - split; [|reflexivity]. apply PInvL_same with w; [|assumption]. repeat split; tauto.
  - split; [|reflexivity]. apply PInvL_same with w; [|assumption]. repeat split; tauto.
  - apply entry_settle_PInvL; [assumption | | apply drop_entry_same | reflexivity].
    exact (table_promises_get w id Hget).
  - split; [|reflexivity].
    apply PInvL_same with (set_pendingRequests (map_delete id (pendingRequests w)) w).
    + repeat split; tauto.
    + apply PInvL_same with w; [apply drop_entry_same | assumption].
Qed.

Lemma handleMessage_PInv : forall data w, PInv w -> PInv (handleMessage data w).
Proof.
  intros data w HP. unfold PInv in *.
  assert (Hraw : forall value,
            PInvL (awaiting_promises (awaiting w)) (handleMessage (Parsed value) w)
            /\ awaiting (handleMessage (Parsed value) w) = awaiting w).
  { intros value.
    apply (@Parsed_rel (fun w0 w' =>
             PInvL (awaiting_promises (awaiting w)) w0 ->
             PInvL (awaiting_promises (awaiting w)) w' /\ awaiting w' = awaiting w0));
      [now split | | intros w0 c Hc H0; now apply handled_PInvL | exact HP].
    intros w1 w2 w3 H12 H23 H1. destruct (H12 H1) as [H2 Ha2].
    destruct (H23 H2) as [H3 Ha3]. split; [exact H3 | congruence]. }
  assert (Hgen : forall items w0,
            PInvL (awaiting_promises (awaiting w)) w0 -> awaiting w0 = awaiting w ->
            PInvL (awaiting_promises (awaiting w))
              (fold_left (fun acc item => handleSingleMessage item acc) items w0)
            /\ awaiting (fold_left (fun acc item => handleSingleMessage item acc) items w0)
               = awaiting w).
  { induction items as [|item items IH]; intros w0 H0 Ha0; simpl; [now split|].
    destruct (handleSingleMessage_PInvL item H0) as [H1 Ha1].
    apply IH; [assumption | congruence]. }
  destruct data as [|items|msg|value]; [simpl .. |].
  - apply PInvL_same with w; [|assumption]. repeat split; tauto.
  - destruct (Hgen items w HP eq_refl) as [H1 Ha1]. now rewrite Ha1.
  - destruct (handleSingleMessage_PInvL msg HP) as [H1 Ha1]. now rewrite Ha1.
  - destruct (Hraw value) as [H1 Ha1]. now rewrite Ha1.
Qed.

Lemma reject_entries_PInvL : forall entries aw w,
  PInvL aw w ->
  (forall kv, In kv entries -> In (pend_promise (snd kv)) (table_promises w)) ->
  PInvL aw (reject_entries entries w)
  /\ awaiting (reject_entries entries w) = awaiting w.
Proof.
  induction entries as [|kv entries IH]; intros aw w HP Hin; simpl.
  - now split.
  - assert (Hk : In (pend_promise (snd kv)) (table_promises w)) by (apply Hin; now left).
    destruct (@entry_settle_PInvL aw (ByDisconnect (fst kv)) (snd kv)
                (Rejected (Error "Connection closed")) w w HP Hk
                (same_promises_refl w) eq_refl) as [H1 Ha1].
    fold (pending_reject (ByDisconnect (fst kv)) (snd kv) (Error "Connection closed") w) in *.
    destruct (pending_reject_kept (ByDisconnect (fst kv)) (snd kv)
                (Error "Connection closed") w) as (_ & _ & Hp & _).
    set (w1 := pending_reject _ _ _ w) in *.
    assert (Hin1 : forall kv', In kv' entries ->
                   In (pend_promise (snd kv')) (table_promises w1)).
    { intros kv' Hkv'. unfold table_promises. rewrite Hp. apply Hin. now right. }
    destruct (IH aw w1 H1 Hin1) as [H2 Ha2].
    split; [exact H2 | congruence].
Qed.

Lemma disconnect_PInv : forall w, PInv w -> PInv (disconnect w).
Proof.
  intros w HP. rewrite disconnect_before_drain. unfold PInv in *.
  set (w3 := before_drain w).
  assert (Hs3 : same_promises w w3 /\ awaiting w3 = awaiting w).
  { subst w3. unfold before_drain.
    set (w1 := match reconnectTimer w with Some t => _ | None => w end).
    assert (H1 : same_promises w w1 /\ awaiting w1 = awaiting w /\ ws w1 = ws w).
    { subst w1. destruct (reconnectTimer w) as [t|].
      - split; [|split; reflexivity].
        apply same_promises_trans with (clearTimeout t w);
          [apply clearTimeout_same | repeat split; tauto].
      - repeat split; tauto. }
    destruct H1 as (S1 & A1 & W1).
    set (w2 := match ws w1 with Some s => _ | None => w1 end).
    assert (H2 : same_promises w1 w2 /\ awaiting w2 = awaiting w1).
    { subst w2. destruct (ws w1) as [s|]; [|repeat split; tauto].
      unfold ws_close. destruct (readyState (log (CloseCalled s) w1) s) as [[]|];
        repeat split; tauto. }
    destruct H2 as (S2 & A2).
    split.
    - apply same_promises_trans with w1; [assumption|].
      apply same_promises_trans with w2; [assumption|]. repeat split; tauto.
    - simpl. congruence. }
  destruct Hs3 as [Hs3 Ha3].
  assert (HP3 : PInvL (awaiting_promises (awaiting w)) w3) by now apply PInvL_same with w.
  destruct (@reject_entries_PInvL (pendingRequests w3) _ w3 HP3) as [H1 Ha1].
  { intros [k v] Hin. unfold table_promises. apply in_map_iff. now exists (k, v). }
  change (PInvL (awaiting_promises (awaiting (reject_entries (pendingRequests w3) w3)))
            (set_pendingRequests [] (reject_entries (pendingRequests w3) w3))).
  rewrite Ha1, Ha3.
  apply PInvL_same with (reject_entries (pendingRequests w3) w3); [|assumption].
  repeat split; try tauto. intros p Hp. unfold table_promises in Hp. simpl in Hp. tauto.
Qed.

Lemma handleDisconnect_same : forall w,
  same_promises w (handleDisconnect w) /\ awaiting (handleDisconnect w) = awaiting w.
Proof.
  intros w. unfold handleDisconnect.
  destruct (opt_reconnect (options w) && negb (is_error (state w)));
    repeat split; try tauto.
  intros p Hp. unfold timer_promises in Hp. simpl in Hp.
  rewrite flat_map_app in Hp. simpl in Hp. now rewrite app_nil_r in Hp.
Qed.

Lemma onclose_PInv : forall w, PInv w -> PInv (onclose w).
Proof.
  intros w HP. unfold PInv, onclose in *.
  destruct (handleDisconnect_same (set_state state_disconnected w)) as [Hs Ha].
  rewrite Ha. simpl.
  apply PInvL_same with (set_state state_disconnected w); [assumption|].
  apply PInvL_same with w; [repeat split; tauto | assumption].
Qed.

Lemma onopen_PInv : forall s w, PInv w -> PInv (onopen s w).
Proof.
  intros s w HP. unfold onopen.
  apply settle_connect_PInv; [intros k aw w'; apply resume_PInvL|].
  unfold PInv in *. simpl.
  destruct (reconnectTimer w) as [t|]; simpl.
  - apply PInvL_same with (clearTimeout t w); [repeat split; tauto|].
    apply PInvL_same with w; [apply clearTimeout_same | assumption].
  - apply PInvL_same with w; [repeat split; tauto | assumption].
Qed.

Lemma onerror_PInv : forall s w, PInv w -> PInv (onerror s w).
Proof.
  intros s w HP. unfold onerror.
  apply settle_connect_PInv; [intros k aw w'; apply abort_PInvL|].
  unfold PInv in *. simpl.
  apply PInvL_same with w; [repeat split; tauto | assumption].
Qed.

Lemma run_timer_PInv : forall t d cb w,
  Inv w -> handle_get t (timers w) = Some (d, cb) ->
  PInv w -> PInv (run_timer cb (clearTimeout t w)).
Proof.
  intros t d [id m p|] w HI Hget HP; simpl.
  - pose proof (timer_promises_In w _ _ _ _ _ (handle_get_In _ _ Hget)) as Hin.
    unfold PInv in *.
    set (w1 := set_pendingRequests _ (clearTimeout t w)).
    assert (Hs : same_promises w w1).
    { apply same_promises_trans with (clearTimeout t w); [apply clearTimeout_same|].
      subst w1. apply (drop_entry_same id (clearTimeout t w)). }
    destruct (@owned_settle_PInvL _ (ByTimeout id) p (mkPending p None)
                (Rejected (Error ("Request timeout: " ++ m))) w w1 HP (or_intror Hin) Hs eq_refl)
      as [H1 Ha1].
    match goal with
    | |- PInvL (awaiting_promises (awaiting ?x)) _ =>
        assert (E : awaiting x = awaiting w) by exact Ha1; rewrite E
    end.
    exact H1.
  - apply connect_PInv.
    simpl. unfold PInv in HP.
    apply PInvL_same with (clearTimeout t w); [repeat split; tauto|].
    apply PInvL_same with w; [apply clearTimeout_same | assumption].
Qed.

Lemma step_PInv : forall w e, Inv w -> PInv w -> PInv (step w e).
Proof.
  intros w [| |m ps|reqs|s|s data|s|s|t] HI HP; simpl.
  - apply connect_PInv. exact HP.
  - now apply disconnect_PInv.
  - now apply request_PInv.
  - now apply batch_PInv.
  - destruct (readyState w s) as [[]|]; try assumption.
    apply onopen_PInv. unfold PInv in *. simpl.
    apply PInvL_same with w; [repeat split; tauto | assumption].
  - destruct (readyState w s) as [[]|]; try assumption.
    now apply handleMessage_PInv.
  - assert (H : PInv (set_readyState s CLOSED w)).
    { unfold PInv in *. simpl.
      apply PInvL_same with w; [repeat split; tauto | assumption]. }
    destruct (readyState w s) as [[]|]; try assumption; now apply onclose_PInv.
  - assert (H : PInv (set_readyState s CLOSED w)).
    { unfold PInv in *. simpl.
      apply PInvL_same with w; [repeat split; tauto | assumption]. }
    destruct (readyState w s) as [[]|]; try assumption;
      now apply onclose_PInv, onerror_PInv.
  - destruct (handle_get t (timers w)) as [[d cb]|] eqn:Hget; [|assumption].
    now apply run_timer_PInv with d.
Qed.

Lemma PInv_run : forall o events, PInv (run (initial o) events).
Proof.
  intros o events.
  assert (H : forall evs w, Inv w -> PInv w -> PInv (run w evs)).
  { induction evs as [|e evs IH]; intros w HI HP; simpl; [assumption|].
    apply IH; [apply (step_preserves w e), HI | now apply step_PInv]. }
  apply H; [apply Inv_initial | apply PInv_initial].
Qed.

(** ** Batches *)





(** *** The record of a batch lists the elements in the order supplied *)

Lemma assign_ids_frame : forall requests w,
  ws (snd (assign_ids requests w)) = ws w
  /\ sockets (snd (assign_ids requests w)) = sockets w
  /\ nextPromise (snd (assign_ids requests w)) = nextPromise w
  /\ combinators (snd (assign_ids requests w)) = combinators w
  /\ length (fst (assign_ids requests w)) = length requests.
Proof.
  induction requests as [|[m ps] rest IH]; intros w; simpl.
  - repeat split.
  - set (w1 := log (AssignedId (requestId w + 1)) (set_requestId (requestId w + 1) w)).
    specialize (IH w1). destruct (assign_ids rest w1) as [rs w2]. simpl in *.
    destruct IH as (H1 & H2 & H3 & H4 & H5). repeat split; try assumption. now rewrite H5.
Qed.

Lemma assign_ids_nth : forall requests w i m ps,
  nth_error requests i = Some (m, ps) ->
  nth_error (fst (assign_ids requests w)) i
  = Some (mkJrpcRequest m ps (requestId w + 1 + Z.of_nat i)).
Proof.
  induction requests as [|[m0 ps0] rest IH]; intros w i m ps Hnth.
  - destruct i; discriminate.
  - simpl.
    set (w1 := log (AssignedId (requestId w + 1)) (set_requestId (requestId w + 1) w)).
    specialize (IH w1). destruct (assign_ids rest w1) as [rs w2]. simpl in *.
    destruct i as [|i]; simpl in *.
    + injection Hnth as -> ->. now rewrite Z.add_0_r.
    + rewrite (IH i m ps Hnth). subst w1. simpl. do 2 f_equal. lia.
Qed.

Lemma assign_ids_increasing : forall requests w,
  StronglySorted (fun a b => req_id a < req_id b) (fst (assign_ids requests w))
  /\ Forall (fun r => requestId w < req_id r) (fst (assign_ids requests w)).
Proof.
  induction requests as [|[m ps] rest IH]; intros w; simpl.
  - split; constructor.
  - set (w1 := log (AssignedId (requestId w + 1)) (set_requestId (requestId w + 1) w)).
    specialize (IH w1). destruct (assign_ids rest w1) as [rs w2]. simpl in *.
    destruct IH as [IH1 IH2]. subst w1. simpl in IH2. split.
    + constructor; [assumption|]. simpl.
      eapply Forall_impl; [|exact IH2]. intros r Hr. simpl in *. lia.
    + constructor; [simpl; lia|].
      eapply Forall_impl; [|exact IH2]. intros r Hr. simpl in *. lia.
Qed.

Lemma register_all_frame : forall rs w,
  ws (snd (register_all rs w)) = ws w
  /\ sockets (snd (register_all rs w)) = sockets w
  /\ fst (register_all rs w) = seq (nextPromise w) (length rs).
Proof.
  induction rs as [|r rs IH]; intros w; simpl.
  - repeat split.
  - set (w1 := set_pendingRequests _ (newPromise w)).
    specialize (IH w1). destruct (register_all rs w1) as [ps w2]. simpl in *.
    destruct IH as (H1 & H2 & H3). repeat split; try assumption. now rewrite H3.
Qed.

Lemma register_all_get_other : forall rs w k,
  Forall (fun r => req_id r <> k) rs ->
  map_get k (pendingRequests (snd (register_all rs w))) = map_get k (pendingRequests w).
Proof.
  induction rs as [|r rs IH]; intros w k Hne; simpl; [reflexivity|].
  inversion Hne as [|? ? Hr Hrs]; subst.
  set (w1 := set_pendingRequests _ (newPromise w)).
  specialize (IH w1 k Hrs). destruct (register_all rs w1) as [ps w2]. simpl in *.
  rewrite IH. subst w1. simpl. apply map_get_set_other. congruence.
Qed.

Lemma register_all_get : forall rs w i r,
  StronglySorted (fun a b => req_id a < req_id b) rs ->
  nth_error rs i = Some r ->
  map_get (req_id r) (pendingRequests (snd (register_all rs w)))
  = Some (mkPending (nextPromise w + i)%nat None).
Proof.
  induction rs as [|r0 rs IH]; intros w i r Hs Hnth.
  - destruct i; discriminate.
  - inversion Hs as [|? ? Hs' Hall]; subst. simpl.
    set (w1 := set_pendingRequests _ (newPromise w)).
    pose proof (IH w1) as IH1.
    pose proof (@register_all_get_other rs w1 (req_id r0)) as Hother.
    destruct (register_all rs w1) as [ps w2]. simpl in *.
    destruct i as [|i]; simpl in Hnth.
    + injection Hnth as <-. rewrite Hother.
      * subst w1. simpl. rewrite Nat.add_0_r. apply map_get_set_same.
      * eapply Forall_impl; [|exact Hall]. intros a Ha. simpl in Ha. lia.
    + rewrite (IH1 i r Hs' Hnth). subst w1. simpl. do 2 f_equal. lia.
Qed.

(** [batch] on an open socket: the combined promise is the one returned
    ([nextPromise w]); its inputs are the next promises in the order of
    [requests]; the element at position [i] gets the id [requestId + 1 + i]
    and is registered under it with the promise at position [i]. *)
Lemma batch_registers_in_order : forall requests w,
  ws_open w = true ->
  let w' := batch requests w in
  let inputs := seq (S (nextPromise w)) (length requests) in
  combinators w' = (combinators w ++ [mkAll (nextPromise w) inputs (map (fun _ => None) inputs)])%list
  /\ forall i m ps,
       nth_error requests i = Some (m, ps) ->
       map_get (requestId w + 1 + Z.of_nat i) (pendingRequests w')
       = Some (mkPending (S (nextPromise w) + i)%nat None).
Proof.
  intros requests w Hopen w' inputs. subst w'. unfold batch.
  change (ws_open (newPromise w)) with (ws_open w). rewrite Hopen.
  unfold batch_body.
  pose proof (assign_ids_frame requests (newPromise w)) as (A1 & A2 & A3 & A4 & A5).
  pose proof (fun i m ps => @assign_ids_nth requests (newPromise w) i m ps) as Anth.
  pose proof (assign_ids_increasing requests (newPromise w)) as [Ainc _].
  destruct (assign_ids requests (newPromise w)) as [rs w1]. simpl in *.
  pose proof (register_all_frame rs w1) as (R1 & R2 & R3).
  assert (Rc : combinators (snd (register_all rs w1)) = combinators w1).
  { clear. revert w1. induction rs as [|r rs IH]; intros w1; simpl; [reflexivity|].
    specialize (IH (set_pendingRequests
                      (map_set (req_id r) (mkPending (nextPromise w1) None) (pendingRequests w1))
                      (newPromise w1))).
    destruct (register_all rs _) as [ps w2]. exact IH. }
  pose proof (fun i r => @register_all_get rs w1 i r Ainc) as Rget.
  destruct (register_all rs w1) as [promises w2]. simpl in *.
  assert (Hopen2 : ws_open w2 = true).
  { unfold ws_open, readyState in *. now rewrite R1, R2, A1, A2. }
  unfold ws_send. unfold ws_open in Hopen2.
  destruct (ws w2) as [s|]; [|discriminate].
  destruct (readyState w2 s) as [[]|]; try discriminate.
  assert (Hin : promises = inputs) by (subst inputs; rewrite R3, A3, A5; reflexivity).
  rewrite Hin.
  set (w3 := log (Sent s (WireBatch rs)) w2).
  assert (Hc : combinators (promise_all (nextPromise w) inputs w3)
               = (combinators w3 ++ [mkAll (nextPromise w) inputs (map (fun _ => None) inputs)])%list).
  { unfold promise_all. destruct inputs; [|reflexivity].
    unfold settle_plain. destruct (promiseState _ (nextPromise w)); reflexivity. }
  assert (Hp : pendingRequests (promise_all (nextPromise w) inputs w3) = pendingRequests w2).
  { unfold promise_all. destruct inputs; [|reflexivity].
    unfold settle_plain. destruct (promiseState _ (nextPromise w)); reflexivity. }
  split.
  - rewrite Hc. subst w3. simpl. now rewrite Rc, A4.
  - intros i m ps Hnth. rewrite Hp.
    pose proof (Rget i _ (Anth i m ps Hnth)) as H. simpl in H.
    rewrite H. now rewrite A3.
Qed.

(** * Further properties of the client *)

(** ** Options, suspended calls and timers over a run *)

Ltac frame_step :=
  unfold shrinks; simpl;
  repeat match goal with
         | |- _ /\ _ => split
         | |- incl ?l ?l => apply incl_refl
         | |- (?n <= ?n)%nat => apply Nat.le_refl
         | |- ?x = ?x \/ _ => left; reflexivity
         | |- _ = None \/ _ => left; reflexivity
         | |- _ \/ None = None => right; reflexivity
         | |- ?x = ?x => reflexivity
         end.

Lemma shrinks_refl : forall w, shrinks w w.
Proof. intros w. frame_step. Qed.

Lemma shrinks_trans : forall w1 w2 w3, shrinks w1 w2 -> shrinks w2 w3 -> shrinks w1 w3.
Proof.
  intros w1 w2 w3 (A1 & A2 & A3 & A4 & A5) (B1 & B2 & B3 & B4 & B5).
  unfold shrinks. split; [congruence|]. split; [lia|].
  split; [eapply incl_tran; eassumption|].
  split; [eapply incl_tran; eassumption|].
  destruct B5 as [B5 | B5]; [rewrite B5; exact A5 | now right].
Qed.

Lemma ckeeps_refl : forall w, ckeeps w w.
Proof. intros w. unfold ckeeps. auto. Qed.

Lemma ckeeps_trans : forall w1 w2 w3, ckeeps w1 w2 -> ckeeps w2 w3 -> ckeeps w1 w3.
Proof.
  intros w1 w2 w3 (A1 & A2 & A3) (B1 & B2 & B3).
  unfold ckeeps. split; [congruence|]. split; [lia | auto].
Qed.

Lemma shrinks_ckeeps : forall w w', shrinks w w' -> ckeeps w w'.
Proof.
  intros w w' (Ho & Hs & Ha & Ht & Hr). unfold ckeeps.
  split; [exact Ho|]. split; [exact Hs|]. intros HC. split.
  - intros s k Hin. pose proof (c_awaiting HC s k (Ha _ Hin)). lia.
  - intros t d id m p Hin. rewrite Ho. exact (c_request_delay HC _ _ _ _ _ (Ht _ Hin)).
  - intros t d Hin. rewrite Ho. exact (c_reconnect_delay HC _ _ (Ht _ Hin)).
  - intros t Ht'. rewrite Ho. destruct Hr as [Hr | Hr]; [|congruence].
    rewrite Hr in Ht'. exact (@c_reconnectTimer _ HC _ Ht').
Qed.

Lemma promises_only_shrinks : forall w w', promises_only w w' -> shrinks w w'.
Proof. intros w w' (st & cs & tr & ->). frame_step. Qed.

Lemma settle_shrinks : forall via p o w, shrinks w (settle via p o w).
Proof. intros. apply promises_only_shrinks, settle_only. Qed.

Lemma settle_plain_shrinks : forall via p o w, shrinks w (settle_plain via p o w).
Proof. intros. apply promises_only_shrinks, settle_plain_only. Qed.

Lemma clearTimeout_shrinks : forall t w, shrinks w (clearTimeout t w).
Proof.
  intros t w. frame_step. intros x Hin. unfold handle_remove in Hin.
  apply filter_In in Hin. tauto.
Qed.

Lemma log_shrinks : forall e w, shrinks w (log e w).
Proof. intros. frame_step. Qed.

Lemma set_nth_length : forall (A : Type) n (x : A) l, length (set_nth n x l) = length l.
Proof.
  intros A n x l. revert n. induction l as [|y l IH]; intros [|n]; simpl; auto.
Qed.

Lemma set_readyState_shrinks : forall s r w, shrinks w (set_readyState s r w).
Proof. intros. frame_step. rewrite set_nth_length. apply Nat.le_refl. Qed.

Lemma ws_close_shrinks : forall s w, shrinks w (ws_close s w).
Proof.
  intros s w. unfold ws_close.
  destruct (readyState (log (CloseCalled s) w) s) as [[]|];
    try apply log_shrinks;
    (eapply shrinks_trans; [apply log_shrinks | apply set_readyState_shrinks]).
Qed.

Lemma ws_send_shrinks : forall frame w, shrinks w (fst (ws_send frame w)).
Proof.
  intros frame w. unfold ws_send. destruct (ws w) as [s|]; [|apply shrinks_refl].
  destruct (readyState w s) as [[]|]; simpl; try apply shrinks_refl. apply log_shrinks.
Qed.

Lemma clear_pending_timer_shrinks : forall pending w,
  shrinks w (clear_pending_timer pending w).
Proof.
  intros pending w. unfold clear_pending_timer.
  destruct (pend_timer pending); [apply clearTimeout_shrinks | apply shrinks_refl].
Qed.

Lemma pending_reject_shrinks : forall via pending e w,
  shrinks w (pending_reject via pending e w).
Proof.
  intros. unfold pending_reject.
  eapply shrinks_trans; [apply clear_pending_timer_shrinks | apply settle_shrinks].
Qed.

Lemma pending_resolve_shrinks : forall via pending v w,
  shrinks w (pending_resolve via pending v w).
Proof.
  intros. unfold pending_resolve.
  eapply shrinks_trans; [apply clear_pending_timer_shrinks | apply settle_shrinks].
Qed.

Lemma fold_shrinks : forall (A : Type) (f : World -> A -> World) (l : list A) w,
  (forall a w', shrinks w' (f w' a)) -> shrinks w (fold_left f l w).
Proof.
  intros A f l. induction l as [|a l IH]; intros w Hf; simpl; [apply shrinks_refl|].
  eapply shrinks_trans; [apply Hf | apply IH, Hf].
Qed.

Lemma fold_ckeeps : forall (A : Type) (f : World -> A -> World) (l : list A) w,
  (forall a w', ckeeps w' (f w' a)) -> ckeeps w (fold_left f l w).
Proof.
  intros A f l. induction l as [|a l IH]; intros w Hf; simpl; [apply ckeeps_refl|].
  eapply ckeeps_trans; [apply Hf | apply IH, Hf].
Qed.

Lemma set_pendingRequests_shrinks : forall X w, shrinks w (set_pendingRequests X w).
Proof. intros. frame_step. Qed.

Lemma disconnect_shrinks : forall w, shrinks w (disconnect w).
Proof.
  intros w. unfold disconnect.
  set (w1 := match reconnectTimer w with
             | Some t => set_reconnectTimer None (clearTimeout t w)
             | None => w
             end).
  assert (H1 : shrinks w w1).
  { subst w1. destruct (reconnectTimer w) as [t|]; [|apply shrinks_refl].
    frame_step. intros x Hin. unfold handle_remove in Hin. apply filter_In in Hin. tauto. }
  set (w2 := match ws w1 with Some s => set_ws None (ws_close s w1) | None => w1 end).
  assert (H2 : shrinks w1 w2).
  { subst w2. destruct (ws w1) as [s|]; [|apply shrinks_refl].
    apply shrinks_trans with (ws_close s w1); [apply ws_close_shrinks | frame_step]. }
  eapply shrinks_trans; [exact H1|]. eapply shrinks_trans; [exact H2|].
  eapply shrinks_trans; [|apply set_pendingRequests_shrinks].
  unfold reject_all. simpl.
  eapply shrinks_trans with (set_state state_disconnected w2); [frame_step|].
  apply fold_shrinks. intros a w'. apply pending_reject_shrinks.
Qed.

Lemma handleSingleMessage_shrinks : forall msg w, shrinks w (handleSingleMessage msg w).
Proof.
  intros msg w. unfold handleSingleMessage.
  destruct (msg_id msg) as [id|]; [|apply shrinks_refl].
  destruct (map_get id (pendingRequests w)) as [pending|]; [|apply log_shrinks].
  destruct (msg_error msg) as [err|].
  - eapply shrinks_trans; [apply set_pendingRequests_shrinks | apply pending_reject_shrinks].
  - eapply shrinks_trans; [apply set_pendingRequests_shrinks | apply pending_resolve_shrinks].
Qed.

Lemma handled_shrinks : forall w c, handled w c -> shrinks w (caught c).
Proof.
  intros w c [| |id|id pending o Hget|id pending Hget]; simpl.
  - apply shrinks_refl.
  - apply log_shrinks.
  - apply log_shrinks.
  - eapply shrinks_trans; [apply set_pendingRequests_shrinks|].
    eapply shrinks_trans; [apply clear_pending_timer_shrinks | apply settle_shrinks].
  - eapply shrinks_trans; [apply set_pendingRequests_shrinks | apply log_shrinks].
Qed.

Lemma handleMessage_shrinks : forall data w, shrinks w (handleMessage data w).
Proof.
  intros [|items|msg|value] w; [simpl .. |].
  - apply log_shrinks.
  - apply fold_shrinks. intros a w'. apply handleSingleMessage_shrinks.
  - apply handleSingleMessage_shrinks.
  - apply Parsed_rel; [apply shrinks_refl | apply shrinks_trans | apply handled_shrinks].
Qed.

Lemma CInv_initial : forall o, CInv (initial o).
Proof. intros o. split; simpl; intros; try tauto; discriminate. Qed.

Lemma setTimeout_request_ckeeps : forall id m p w,
  ckeeps w (setTimeout (RequestTimeout id m p) (opt_timeout (options w)) w).
Proof.
  intros id m p w. unfold ckeeps. simpl. split; [reflexivity|]. split; [lia|].
  intros HC. split; simpl.
  - apply (c_awaiting HC).
  - intros t d id' m' p' Hin. apply in_app_or in Hin. destruct Hin as [Hin | [Hin | []]].
    + exact (c_request_delay HC _ _ _ _ _ Hin).
    + congruence.
  - intros t d Hin. apply in_app_or in Hin. destruct Hin as [Hin | [Hin | []]].
    + exact (c_reconnect_delay HC _ _ Hin).
    + discriminate.
  - apply (c_reconnectTimer HC).
Qed.

Lemma handleDisconnect_ckeeps : forall w, ckeeps w (handleDisconnect w).
Proof.
  intros w. unfold handleDisconnect.
  destruct (opt_reconnect (options w)) eqn:Hr; simpl; [|apply ckeeps_refl].
  destruct (negb (is_error (state w))); [|apply ckeeps_refl].
  unfold ckeeps. simpl. split; [reflexivity|]. split; [lia|].
  intros HC. split; simpl.
  - apply (c_awaiting HC).
  - intros t d id' m' p' Hin. apply in_app_or in Hin. destruct Hin as [Hin | [Hin | []]].
    + exact (c_request_delay HC _ _ _ _ _ Hin).
    + discriminate.
  - intros t d Hin. apply in_app_or in Hin. destruct Hin as [Hin | [Hin | []]].
    + exact (c_reconnect_delay HC _ _ Hin).
    + injection Hin as _ <-. now split.
  - intros t _. exact Hr.
Qed.

Lemma open_socket_ckeeps : forall k w, ckeeps w (open_socket k w).
Proof.
  intros k w. unfold ckeeps, open_socket.
  destruct k as [k|]; simpl; (split; [reflexivity|]);
    (split; [rewrite length_app; simpl; lia|]);
    intros HC; split; simpl; try apply (c_request_delay HC);
    try apply (c_reconnect_delay HC); try apply (c_reconnectTimer HC);
    intros s k0 Hin; rewrite length_app; simpl.
  - apply in_app_or in Hin. destruct Hin as [Hin | [Hin | []]].
    + pose proof (c_awaiting HC _ _ Hin). lia.
    + injection Hin as <- _. lia.
  - pose proof (c_awaiting HC _ _ Hin). lia.
Qed.

Lemma assign_ids_shrinks : forall requests w, shrinks w (snd (assign_ids requests w)).
Proof.
  induction requests as [|[m ps] rest IH]; intros w; simpl; [apply shrinks_refl|].
  set (w1 := log (AssignedId (requestId w + 1)) (set_requestId (requestId w + 1) w)).
  specialize (IH w1). destruct (assign_ids rest w1) as [rs w2]. simpl in *.
  apply shrinks_trans with w1; [subst w1; frame_step | exact IH].
Qed.

Lemma register_all_shrinks : forall rs w, shrinks w (snd (register_all rs w)).
Proof.
  induction rs as [|r rs IH]; intros w; simpl; [apply shrinks_refl|].
  set (w1 := set_pendingRequests _ (newPromise w)).
  specialize (IH w1). destruct (register_all rs w1) as [ps w2]. simpl in *.
  apply shrinks_trans with w1; [subst w1; frame_step | exact IH].
Qed.

Lemma promise_all_shrinks : forall c ms w, shrinks w (promise_all c ms w).
Proof.
  intros c ms w. unfold promise_all.
  set (w1 := set_combinators _ w).
  assert (H1 : shrinks w w1) by (subst w1; frame_step).
  destruct ms; [|exact H1].
  eapply shrinks_trans; [exact H1 | apply settle_plain_shrinks].
Qed.

Lemma request_body_ckeeps : forall method params p w,
  ckeeps w (request_body method params p w).
Proof.
  intros method params p w. rewrite request_body_unfold. cbv zeta.
  set (id := requestId w + 1).
  set (w1 := log (AssignedId id) (set_requestId id w)).
  set (w2 := setTimeout (RequestTimeout id method p) (opt_timeout (options w)) w1).
  set (w3 := set_pendingRequests _ w2).
  assert (H3 : ckeeps w w3).
  { apply ckeeps_trans with w1; [apply shrinks_ckeeps; subst w1; frame_step|].
    apply ckeeps_trans with w2;
      [exact (setTimeout_request_ckeeps id method p w1)
      | apply shrinks_ckeeps, set_pendingRequests_shrinks]. }
  pose proof (ws_send_shrinks (WireRequest (mkJrpcRequest method params id)) w3) as H4.
  destruct (ws_send (WireRequest (mkJrpcRequest method params id)) w3) as [w4 [e|]];
    simpl in H4.
  - eapply ckeeps_trans; [exact H3|]. apply shrinks_ckeeps.
    eapply shrinks_trans; [exact H4 | apply settle_shrinks].
  - eapply ckeeps_trans; [exact H3 | apply shrinks_ckeeps, H4].
Qed.

Lemma batch_body_shrinks : forall requests c w, shrinks w (batch_body requests c w).
Proof.
  intros requests c w. unfold batch_body.
  pose proof (assign_ids_shrinks requests w) as H1.
  destruct (assign_ids requests w) as [rs w1]. simpl in H1.
  pose proof (register_all_shrinks rs w1) as H2.
  destruct (register_all rs w1) as [ps w2]. simpl in H2.
  pose proof (ws_send_shrinks (WireBatch rs) w2) as H3.
  destruct (ws_send (WireBatch rs) w2) as [w3 [e|]]; simpl in H3.
  - eapply shrinks_trans; [exact H1|]. eapply shrinks_trans; [exact H2|].
    eapply shrinks_trans; [exact H3 | apply settle_shrinks].
  - eapply shrinks_trans; [exact H1|]. eapply shrinks_trans; [exact H2|].
    eapply shrinks_trans; [exact H3 | apply promise_all_shrinks].
Qed.

Lemma resume_ckeeps : forall k w, ckeeps w (resume k w).
Proof.
  intros [method params p | requests c |] w; simpl.
  - apply request_body_ckeeps.
  - apply shrinks_ckeeps, batch_body_shrinks.
  - apply ckeeps_refl.
Qed.

Lemma connect_ckeeps : forall k w, ckeeps w (connect k w).
Proof.
  intros k w. unfold connect. destruct (ws_open w).
  - destruct k; [apply resume_ckeeps | apply ckeeps_refl].
  - apply open_socket_ckeeps.
Qed.

Lemma newPromise_shrinks : forall w, shrinks w (newPromise w).
Proof. intros. frame_step. Qed.

Lemma request_ckeeps : forall method params w, ckeeps w (request method params w).
Proof.
  intros method params w. unfold request.
  apply ckeeps_trans with (newPromise w); [apply shrinks_ckeeps, newPromise_shrinks|].
  destruct (ws_open (newPromise w)); [apply request_body_ckeeps | apply connect_ckeeps].
Qed.

Lemma batch_ckeeps : forall requests w, ckeeps w (batch requests w).
Proof.
  intros requests w. unfold batch.
  apply ckeeps_trans with (newPromise w); [apply shrinks_ckeeps, newPromise_shrinks|].
  destruct (ws_open (newPromise w));
    [apply shrinks_ckeeps, batch_body_shrinks | apply connect_ckeeps].
Qed.

Lemma abort_shrinks : forall e k w, shrinks w (abort e k w).
Proof.
  intros e [method params p | requests c |] w; simpl;
    [apply settle_shrinks | apply settle_shrinks | apply log_shrinks].
Qed.

Lemma settle_connect_ckeeps : forall s (f : Continuation -> World -> World) w,
  (forall k w', ckeeps w' (f k w')) -> ckeeps w (settle_connect s f w).
Proof.
  intros s f w Hf. unfold settle_connect. cbv zeta.
  set (others := filter (fun sk => negb (Nat.eqb (fst sk) s)) (awaiting w)).
  apply ckeeps_trans with (set_awaiting others w).
  - apply shrinks_ckeeps. frame_step. subst others. intros x Hin.
    apply filter_In in Hin. tauto.
  - apply fold_ckeeps. intros a w'. apply Hf.
Qed.

Lemma onopen_ckeeps : forall s w, ckeeps w (onopen s w).
Proof.
  intros s w. unfold onopen. cbv zeta.
  set (w1 := set_state state_connected w).
  set (w2 := match reconnectTimer w1 with
             | Some t => set_reconnectTimer None (clearTimeout t w1)
             | None => w1
             end).
  apply ckeeps_trans with w2.
  - apply shrinks_ckeeps. subst w2 w1. simpl.
    destruct (reconnectTimer w) as [t|]; frame_step.
    intros x Hin. unfold handle_remove in Hin. apply filter_In in Hin. tauto.
  - apply settle_connect_ckeeps. intros k w'. apply resume_ckeeps.
Qed.

Lemma onerror_ckeeps : forall s w, ckeeps w (onerror s w).
Proof.
  intros s w. unfold onerror.
  apply ckeeps_trans with (set_state state_error w); [apply shrinks_ckeeps; frame_step|].
  apply settle_connect_ckeeps. intros k w'. apply shrinks_ckeeps, abort_shrinks.
Qed.

Lemma onclose_ckeeps : forall w, ckeeps w (onclose w).
Proof.
  intros w. unfold onclose.
  apply ckeeps_trans with (set_state state_disconnected w);
    [apply shrinks_ckeeps; frame_step | apply handleDisconnect_ckeeps].
Qed.

Lemma run_timer_ckeeps : forall cb w, ckeeps w (run_timer cb w).
Proof.
  intros [id method p|] w; simpl.
  - apply shrinks_ckeeps.
    eapply shrinks_trans; [apply set_pendingRequests_shrinks | apply settle_shrinks].
  - eapply ckeeps_trans; [apply shrinks_ckeeps, log_shrinks | apply connect_ckeeps].
Qed.

Lemma step_ckeeps : forall w e, ckeeps w (step w e).
Proof.
  intros w [| | method params | requests | s | s data | s | s | t]; simpl.
  - apply connect_ckeeps.
  - apply shrinks_ckeeps, disconnect_shrinks.
  - apply request_ckeeps.
  - apply batch_ckeeps.
  - destruct (readyState w s) as [[]|]; try apply ckeeps_refl.
    eapply ckeeps_trans; [apply shrinks_ckeeps, set_readyState_shrinks | apply onopen_ckeeps].
  - destruct (readyState w s) as [[]|]; try apply ckeeps_refl.
    apply shrinks_ckeeps, handleMessage_shrinks.
  - destruct (readyState w s) as [[]|]; try apply ckeeps_refl;
      (eapply ckeeps_trans;
       [apply shrinks_ckeeps, set_readyState_shrinks | apply onclose_ckeeps]).
  - destruct (readyState w s) as [[]|]; try apply ckeeps_refl;
      (eapply ckeeps_trans; [apply shrinks_ckeeps, set_readyState_shrinks|];
       eapply ckeeps_trans; [apply onerror_ckeeps | apply onclose_ckeeps]).
  - destruct (handle_get t (timers w)) as [[d cb]|]; [|apply ckeeps_refl].
    eapply ckeeps_trans; [apply shrinks_ckeeps, clearTimeout_shrinks | apply run_timer_ckeeps].
Qed.

Lemma run_ckeeps : forall events w, ckeeps w (run w events).
Proof.
  unfold run. induction events as [|e events IH]; intros w; simpl; [apply ckeeps_refl|].
  eapply ckeeps_trans; [apply step_ckeeps | apply IH].
Qed.

Lemma CInv_run : forall o events, CInv (run (initial o) events).
Proof. intros o events. apply (run_ckeeps events (initial o)), CInv_initial. Qed.

Lemma options_run : forall o events, options (run (initial o) events) = o.
Proof. intros o events. apply (run_ckeeps events (initial o)). Qed.

(** X1.  A client built by the constructor arms every request timeout with the
    [timeout] option and every reconnect timer with the [reconnectDelay]
    option, in every run; an option the caller left out is 30000 and 3000
    milliseconds. *)
Theorem timers_carry_the_configured_delays : forall arg events t d cb,
  let w := run (JrpcWebSocketClient_new arg) events in
  In (t, (d, cb)) (timers w) ->
  match cb with
  | RequestTimeout _ _ _ =>
      d = match arg_timeout arg with Some x => x | None => 30000 end
  | ReconnectAttempt =>
      d = match arg_reconnectDelay arg with Some x => x | None => 3000 end
  end.
Proof.
  intros arg events t d cb w Hin. unfold JrpcWebSocketClient_new in w.
  pose proof (CInv_run (spread default_options arg) events) as HC.
  pose proof (options_run (spread default_options arg) events) as Ho.
  fold w in HC, Ho. destruct cb as [id m p|].
  - rewrite (c_request_delay HC _ _ _ _ _ Hin), Ho. reflexivity.
  - destruct (c_reconnect_delay HC _ _ Hin) as [-> _]. rewrite Ho. reflexivity.
Qed.

(** X2.  With [reconnect: false] no reconnect timer is ever armed: in every run
    the [reconnectTimer] field is null, the timer table holds request
    timeouts only, a close event arms nothing, and an expiring timer never
    opens a socket. *)
Theorem reconnect_disabled_arms_no_timer : forall arg events,
  arg_reconnect arg = Some false ->
  let w := run (JrpcWebSocketClient_new arg) events in
  reconnectTimer w = None
  /\ (forall t d, ~ In (t, (d, ReconnectAttempt)) (timers w))
  /\ (forall s, timers (step w (SocketClose s)) = timers w)
  /\ (forall t, sockets (step w (TimerFire t)) = sockets w).
Proof.
  intros arg events Hoff w. unfold JrpcWebSocketClient_new in w.
  pose proof (CInv_run (spread default_options arg) events) as HC.
  pose proof (options_run (spread default_options arg) events) as Ho.
  fold w in HC, Ho.
  assert (Hr : opt_reconnect (options w) = false)
    by (rewrite Ho; unfold spread; simpl; now rewrite Hoff).
  assert (Hno : forall t d, ~ In (t, (d, ReconnectAttempt)) (timers w)).
  { intros t d Hin. destruct (c_reconnect_delay HC _ _ Hin) as [_ H]. congruence. }
  split; [|split; [exact Hno | split]].
  - destruct (reconnectTimer w) as [t|] eqn:E; [|reflexivity].
    pose proof (@c_reconnectTimer _ HC _ E). congruence.
  - intros s. simpl. destruct (readyState w s) as [[]|]; try reflexivity;
      unfold onclose, handleDisconnect; simpl; rewrite Hr; reflexivity.
  - intros t. simpl. destruct (handle_get t (timers w)) as [[d cb]|] eqn:E; [|reflexivity].
    apply handle_get_In in E. destruct cb as [id m p|]; [|exfalso; exact (Hno _ _ E)].
    simpl.
    match goal with |- sockets (settle ?v ?q ?o ?x) = _ =>
      destruct (promises_only_kept (settle_only v q o x)) as (_ & _ & _ & _ & _ & _ & Hs & _);
      rewrite Hs end.
    reflexivity.
Qed.

(** ** The life of a request *)

Lemma map_set_fresh : forall (V : Type) (m : list (Z * V)) k v,
  ~ In k (map_keys m) -> map_set k v m = (m ++ [(k, v)])%list.
Proof.
  induction m as [|[k' v'] m IH]; intros k v Hnot; simpl; [reflexivity|].
  simpl in Hnot. destruct (k' =? k) eqn:E.
  - apply Z.eqb_eq in E. tauto.
  - f_equal. apply IH. tauto.
Qed.

Lemma map_delete_snoc : forall (V : Type) (m : list (Z * V)) k v,
  ~ In k (map_keys m) -> map_delete k (m ++ [(k, v)]) = m.
Proof.
  intros V m k v Hnot. unfold map_delete. rewrite filter_app. simpl.
  rewrite Z.eqb_refl. simpl. rewrite app_nil_r. now apply map_delete_absent.
Qed.

Lemma handle_remove_absent : forall (V : Type) (m : list (nat * V)) t,
  ~ In t (map fst m) -> handle_remove t m = m.
Proof.
  induction m as [|[t' x] m IH]; intros t Hnot; simpl; [reflexivity|].
  simpl in Hnot. destruct (Nat.eqb t' t) eqn:E.
  - apply Nat.eqb_eq in E. tauto.
  - simpl. f_equal. apply IH. tauto.
Qed.

Lemma handle_remove_snoc : forall (V : Type) (m : list (nat * V)) t x,
  ~ In t (map fst m) -> handle_remove t (m ++ [(t, x)]) = m.
Proof.
  intros V m t x Hnot. unfold handle_remove. rewrite filter_app. simpl.
  rewrite Nat.eqb_refl. simpl. rewrite app_nil_r. now apply handle_remove_absent.
Qed.

Lemma handle_get_snoc : forall (V : Type) (m : list (nat * V)) t x,
  ~ In t (map fst m) -> handle_get t (m ++ [(t, x)]) = Some x.
Proof.
  induction m as [|[t' y] m IH]; intros t x Hnot; simpl.
  - now rewrite Nat.eqb_refl.
  - simpl in Hnot. destruct (Nat.eqb t' t) eqn:E.
    + apply Nat.eqb_eq in E. tauto.
    + apply IH. tauto.
Qed.

Lemma Inv_fresh_id : forall w, Inv w -> ~ In (requestId w + 1) (map_keys (pendingRequests w)).
Proof. intros w HI Hin. pose proof (inv_keys HI _ Hin). lia. Qed.

Lemma Inv_fresh_timer : forall w, Inv w -> ~ In (nextTimer w) (map fst (timers w)).
Proof. intros w HI Hin. pose proof (inv_timer_ids HI _ Hin). lia. Qed.

Lemma PInv_fresh_promise : forall w, PInv w -> promiseState w (nextPromise w) = None.
Proof. intros w HP. apply (pl_fresh_settled HP). lia. Qed.

(** The world a [request] leaves on an open socket. *)
Lemma request_open : forall method params w s,
  ws w = Some s -> readyState w s = Some OPEN -> Inv w ->
  request method params w =
  log (Sent s (WireRequest (mkJrpcRequest method params (requestId w + 1))))
    (set_pendingRequests
       (pendingRequests w
        ++ [(requestId w + 1, mkPending (nextPromise w) (Some (nextTimer w)))])
       (setTimeout (RequestTimeout (requestId w + 1) method (nextPromise w))
          (opt_timeout (options w))
          (log (AssignedId (requestId w + 1))
             (set_requestId (requestId w + 1) (newPromise w))))).
Proof.
  intros method params w s Hws Hrs HI. unfold request.
  assert (Hopen : ws_open (newPromise w) = true)
    by (unfold ws_open, readyState in *; simpl; now rewrite Hws, Hrs).
  rewrite Hopen, request_body_unfold. cbv zeta.
  unfold ws_send, readyState in *. simpl. rewrite Hws, Hrs.
  rewrite (@map_set_fresh _ (pendingRequests w) (requestId w + 1) _ (Inv_fresh_id HI)).
  reflexivity.
Qed.

Lemma settle_timers : forall via p o w, timers (settle via p o w) = timers w.
Proof. intros. destruct (settle_only via p o w) as (st & cs & tr & ->). reflexivity. Qed.

Lemma settle_pendingRequests : forall via p o w,
  pendingRequests (settle via p o w) = pendingRequests w.
Proof. intros. destruct (settle_only via p o w) as (st & cs & tr & ->). reflexivity. Qed.

Lemma entry_settles : forall via pending o w,
  promiseState w (pend_promise pending) = None ->
  let w' := settle via (pend_promise pending) o (clear_pending_timer pending w) in
  promiseState w' (pend_promise pending) = Some o
  /\ pendingRequests w' = pendingRequests w
  /\ timers w' = match pend_timer pending with
                 | Some t => handle_remove t (timers w)
                 | None => timers w
                 end.
Proof.
  intros via pending o w Hp w'. subst w'. split; [|split].
  - apply settle_pending. now rewrite promiseState_clear_pending_timer.
  - rewrite settle_pendingRequests. unfold clear_pending_timer.
    destruct (pend_timer pending); reflexivity.
  - rewrite settle_timers. unfold clear_pending_timer.
    destruct (pend_timer pending); reflexivity.
Qed.

(** X3.  A [request] on an open socket and the response that carries its id.
    The call puts exactly one frame on the wire, [{method, params, id}] with
    the next id, and leaves the promise pending.  The response settles that
    promise, with the error if it has one and with the result otherwise, and
    takes both the table entry and the timeout away again: the table and
    the timers are what they were before the call. *)
Theorem response_settles_its_request : forall o events method params s msg,
  let w := run (initial o) events in
  ws w = Some s -> readyState w s = Some OPEN ->
  msg_id msg = Some (requestId w + 1) ->
  let w1 := step w (CallRequest method params) in
  let w2 := step w1 (SocketMessage s (ParsedObject msg)) in
  sent (trace w1)
  = (s, WireRequest (mkJrpcRequest method params (requestId w + 1))) :: sent (trace w)
  /\ promiseState w1 (nextPromise w) = None
  /\ promiseState w2 (nextPromise w)
     = Some (match msg_error msg with
             | Some err => Rejected (Error (error_text err))
             | None => Fulfilled (result_or_undefined msg)
             end)
  /\ pendingRequests w2 = pendingRequests w
  /\ timers w2 = timers w.
Proof.
  intros o events method params s msg w Hws Hrs Hid w1 w2.
  pose proof (Inv_run o events) as HI. pose proof (PInv_run o events) as HP.
  fold w in HI, HP.
  pose proof (PInv_fresh_promise HP) as Hfresh.
  assert (E1 : w1 = _) by exact (request_open method params Hws Hrs HI).
  set (id := requestId w + 1) in *.
  set (pending := mkPending (nextPromise w) (Some (nextTimer w))).
  assert (Hget : map_get id (pendingRequests w1) = Some pending).
  { rewrite E1. simpl. fold id. fold pending.
    rewrite <- (@map_set_fresh _ (pendingRequests w) id pending (Inv_fresh_id HI)).
    apply map_get_set_same. }
  assert (Hrs1 : readyState w1 s = Some OPEN) by (rewrite E1; exact Hrs).
  assert (E2 : w2 = handleSingleMessage msg w1).
  { subst w2. simpl. now rewrite Hrs1. }
  rewrite (handleSingleMessage_known w1 msg Hid Hget) in E2. cbv zeta in E2.
  set (w1' := set_pendingRequests (map_delete id (pendingRequests w1)) w1) in E2.
  assert (Hp1 : promiseState w1' (pend_promise pending) = None)
    by (subst w1'; rewrite E1; exact Hfresh).
  assert (Ht1 : pendingRequests w1' = pendingRequests w).
  { subst w1'. rewrite E1. simpl. fold id. fold pending.
    apply map_delete_snoc, (Inv_fresh_id HI). }
  assert (Htm : handle_remove (nextTimer w) (timers w1') = timers w).
  { subst w1'. rewrite E1. simpl. apply handle_remove_snoc, (Inv_fresh_timer HI). }
  split; [rewrite E1; reflexivity|].
  split; [rewrite E1; exact Hfresh|].
  unfold pending_reject, pending_resolve in E2.
  destruct (msg_error msg) as [err|]; rewrite E2.
  - destruct (@entry_settles (ByResponse id) pending (Rejected (Error (error_text err)))
                w1' Hp1) as (A & B & C).
    split; [exact A|]. split; [now rewrite B | now rewrite C].
  - destruct (@entry_settles (ByResponse id) pending (Fulfilled (result_or_undefined msg))
                w1' Hp1) as (A & B & C).
    split; [exact A|]. split; [now rewrite B | now rewrite C].
Qed.

Lemma settle_sockets : forall via p o w, sockets (settle via p o w) = sockets w.
Proof. intros. destruct (settle_only via p o w) as (st & cs & tr & ->). reflexivity. Qed.

Lemma map_get_absent : forall (V : Type) (m : list (Z * V)) k,
  ~ In k (map_keys m) -> map_get k m = None.
Proof.
  intros V m k Hnot. destruct (map_get k m) eqn:E; [|reflexivity].
  exfalso. apply Hnot, map_get_keys. congruence.
Qed.

(** X4.  A [request] on an open socket that gets no response.  Its timer carries
    the [timeout] option; when it expires the promise is rejected with
    [Request timeout: <method>] and the entry leaves the table.  A response
    that arrives afterwards finds no entry: it writes the warning and changes
    nothing else, so the promise stays rejected. *)
Theorem unanswered_request_times_out : forall o events method params s,
  let w := run (initial o) events in
  ws w = Some s -> readyState w s = Some OPEN ->
  let id := requestId w + 1 in
  let w1 := step w (CallRequest method params) in
  let w2 := step w1 (TimerFire (nextTimer w)) in
  handle_get (nextTimer w) (timers w1)
  = Some (opt_timeout o, RequestTimeout id method (nextPromise w))
  /\ promiseState w2 (nextPromise w)
     = Some (Rejected (Error ("Request timeout: " ++ method)))
  /\ pendingRequests w2 = pendingRequests w
  /\ timers w2 = timers w
  /\ forall msg, msg_id msg = Some id ->
       step w2 (SocketMessage s (ParsedObject msg))
       = log (ConsoleWarn "Received response for unknown request:" id) w2.
Proof.
  intros o events method params s w Hws Hrs id w1 w2.
  pose proof (Inv_run o events) as HI. pose proof (PInv_run o events) as HP.
  pose proof (options_run o events) as Ho.
  fold w in HI, HP, Ho.
  pose proof (PInv_fresh_promise HP) as Hfresh.
  assert (E1 : w1 = _) by exact (request_open method params Hws Hrs HI).
  fold id in E1.
  set (cb := RequestTimeout id method (nextPromise w)).
  assert (Hget : handle_get (nextTimer w) (timers w1) = Some (opt_timeout o, cb)).
  { rewrite E1. simpl. rewrite Ho. apply handle_get_snoc, (Inv_fresh_timer HI). }
  assert (E2 : w2 = run_timer cb (clearTimeout (nextTimer w) w1)).
  { subst w2. simpl. now rewrite Hget. }
  simpl in E2.
  match type of E2 with _ = settle ?v ?p ?x ?y => set (w1' := y) in E2 end.
  assert (Hp1 : promiseState w1' (nextPromise w) = None)
    by (subst w1'; rewrite E1; exact Hfresh).
  assert (Ht1 : pendingRequests w1' = pendingRequests w).
  { subst w1'. rewrite E1. simpl. apply map_delete_snoc, (Inv_fresh_id HI). }
  assert (Htm : timers w1' = timers w).
  { subst w1'. rewrite E1. simpl. apply handle_remove_snoc, (Inv_fresh_timer HI). }
  assert (Hs2 : readyState w2 s = Some OPEN).
  { unfold readyState. rewrite E2, settle_sockets. subst w1'. rewrite E1. exact Hrs. }
  assert (Hp2 : pendingRequests w2 = pendingRequests w)
    by (rewrite E2, settle_pendingRequests; exact Ht1).
  split; [exact Hget|].
  split; [rewrite E2; now apply settle_pending|].
  split; [exact Hp2|].
  split; [rewrite E2, settle_timers; exact Htm|].
  intros msg Hid. simpl. rewrite Hs2. unfold onmessage, handleMessage, handleSingleMessage.
  rewrite Hid. cbv beta iota. rewrite Hp2. unfold id.
  now rewrite (@map_get_absent _ _ _ (Inv_fresh_id HI)).
Qed.

(** ** Calls on a client that is not connected *)

Lemma sent_settle_plain : forall via p o w,
  sent (trace (settle_plain via p o w)) = sent (trace w).
Proof. intros. unfold settle_plain. destruct (promiseState w p); reflexivity. Qed.

Lemma sent_react : forall p o rs w, sent (trace (snd (react p o rs w))) = sent (trace w).
Proof.
  intros p o rs. induction rs as [|r rs IH]; intros w; simpl; [reflexivity|].
  destruct (react_one p o r) as [r' out].
  set (w1 := match out with
             | Some o' => settle_plain ByAll (all_target r) o' w
             | None => w
             end).
  assert (H1 : sent (trace w1) = sent (trace w))
    by (subst w1; destruct out; [apply sent_settle_plain | reflexivity]).
  specialize (IH w1). destruct (react p o rs w1) as [rest' w2]. simpl in *. congruence.
Qed.

Lemma sent_settle : forall via p o w, sent (trace (settle via p o w)) = sent (trace w).
Proof.
  intros via p o w. unfold settle. destruct (promiseState w p); [reflexivity|].
  pose proof (sent_react p o (combinators (settle_plain via p o w)) (settle_plain via p o w))
    as H.
  destruct (react p o (combinators (settle_plain via p o w)) (settle_plain via p o w))
    as [rs w2].
  simpl in *. rewrite H. apply sent_settle_plain.
Qed.

Lemma set_nth_snoc : forall (A : Type) (l : list A) x y,
  set_nth (length l) y (l ++ [x]) = (l ++ [y])%list.
Proof. induction l as [|a l IH]; intros x y; simpl; [reflexivity | now rewrite IH]. Qed.

Lemma nth_error_snoc : forall (A : Type) (l : list A) x,
  nth_error (l ++ [x]) (length l) = Some x.
Proof. induction l as [|a l IH]; intros x; simpl; [reflexivity | apply IH]. Qed.

Lemma filter_none : forall (A : Type) (f : A -> bool) (l : list A),
  (forall x, In x l -> f x = false) -> filter f l = [].
Proof.
  induction l as [|a l IH]; intros H; simpl; [reflexivity|].
  rewrite (H a (or_introl eq_refl)). apply IH. intros x Hx. apply H. now right.
Qed.

Lemma filter_all : forall (A : Type) (f : A -> bool) (l : list A),
  (forall x, In x l -> f x = true) -> filter f l = l.
Proof.
  induction l as [|a l IH]; intros H; simpl; [reflexivity|].
  rewrite (H a (or_introl eq_refl)). f_equal. apply IH. intros x Hx. apply H. now right.
Qed.

(** What awaits a socket that was just created is what the caller chained. *)
Lemma settle_connect_new : forall (f : Continuation -> World -> World) l k s w,
  (forall s' k', In (s', k') l -> s' <> s) ->
  awaiting w = (l ++ [(s, k)])%list ->
  settle_connect s f w = f k (set_awaiting l w).
Proof.
  intros f l k s w Hl Ha. unfold settle_connect. cbv zeta. rewrite Ha, !filter_app. simpl.
  rewrite Nat.eqb_refl. simpl. rewrite app_nil_r.
  rewrite filter_none, filter_all; [reflexivity | |].
  - intros [s' k'] Hin. simpl. apply negb_true_iff, Nat.eqb_neq. exact (Hl _ _ Hin).
  - intros [s' k'] Hin. simpl. apply Nat.eqb_neq. exact (Hl _ _ Hin).
Qed.

(** The world a [request] leaves on a client whose socket is not open. *)
Lemma request_closed : forall method params w,
  ws_open w = false ->
  request method params w =
  set_awaiting
    (awaiting w ++ [(length (sockets w), KRequest method params (nextPromise w))])
    (set_ws (Some (length (sockets w)))
       (set_sockets (sockets w ++ [CONNECTING])
          (set_state state_connecting (newPromise w)))).
Proof.
  intros method params w Hclosed. unfold request, connect.
  change (ws_open (newPromise w)) with (ws_open w). rewrite Hclosed. reflexivity.
Qed.

(** The client after the socket created by a suspended [request] opened,
    just before the rest of [request] runs. *)
Lemma opened_for_request : forall w method params,
  CInv w -> ws_open w = false ->
  let s := length (sockets w) in
  let w1 := request method params w in
  exists wc,
    step w1 (SocketOpen s) = request_body method params (nextPromise w) wc
    /\ ws wc = Some s /\ sockets wc = (sockets w ++ [OPEN])%list
    /\ requestId wc = requestId w /\ pendingRequests wc = pendingRequests w
    /\ trace wc = trace w /\ nextTimer wc = nextTimer w /\ settled wc = settled w
    /\ state wc = state_connected /\ reconnectTimer wc = None
    /\ options wc = options w.
Proof.
  intros w method params HC Hclosed s w1.
  assert (E1 : w1 = _) by exact (@request_closed method params w Hclosed).
  assert (Hrs1 : readyState w1 s = Some CONNECTING).
  { rewrite E1. unfold readyState. simpl. apply nth_error_snoc. }
  assert (E2 : step w1 (SocketOpen s) = onopen s (set_readyState s OPEN w1)).
  { simpl. now rewrite Hrs1. }
  rewrite E2. unfold onopen. cbv zeta.
  set (wa := set_state state_connected (set_readyState s OPEN w1)).
  set (wb := match reconnectTimer wa with
             | Some t => set_reconnectTimer None (clearTimeout t wa)
             | None => wa
             end).
  assert (Haw : awaiting wb
                = (awaiting w ++ [(s, KRequest method params (nextPromise w))])%list).
  { subst wb wa. rewrite E1. simpl. destruct (reconnectTimer w); reflexivity. }
  rewrite (@settle_connect_new resume (awaiting w)
             (KRequest method params (nextPromise w)) s wb).
  - exists (set_awaiting (awaiting w) wb). simpl. split; [reflexivity|].
    subst wb wa. rewrite E1. simpl.
    destruct (reconnectTimer w) eqn:Er; simpl; repeat split;
      try reflexivity; try assumption; apply set_nth_snoc.
  - intros s' k' Hin. pose proof (c_awaiting HC _ _ Hin). subst s. lia.
  - exact Haw.
Qed.

(** X5.  [request] on a client whose socket is not open.  The call creates a new
    socket, which becomes [this.ws], and suspends: no id is assigned, nothing
    is sent, no timer is armed and the promise is pending.  When that socket
    opens the state becomes connected and the suspended call goes on: it
    takes the next id, arms its timeout, registers the entry and sends the
    frame on the new socket. *)
Theorem request_connects_first : forall o events method params,
  let w := run (initial o) events in
  ws_open w = false ->
  let s := length (sockets w) in
  let p := nextPromise w in
  let id := requestId w + 1 in
  let w1 := step w (CallRequest method params) in
  let w2 := step w1 (SocketOpen s) in
  (ws w1 = Some s /\ readyState w1 s = Some CONNECTING
   /\ getState w1 = state_connecting
   /\ requestId w1 = requestId w /\ pendingRequests w1 = pendingRequests w
   /\ timers w1 = timers w /\ trace w1 = trace w /\ promiseState w1 p = None)
  /\ (getState w2 = state_connected
      /\ sent (trace w2)
         = (s, WireRequest (mkJrpcRequest method params id)) :: sent (trace w)
      /\ map_get id (pendingRequests w2) = Some (mkPending p (Some (nextTimer w)))
      /\ In (nextTimer w, (opt_timeout o, RequestTimeout id method p)) (timers w2)
      /\ promiseState w2 p = None).
Proof.
  intros o events method params w Hclosed s p id w1 w2.
  pose proof (PInv_run o events) as HP. pose proof (CInv_run o events) as HC.
  pose proof (options_run o events) as Ho.
  fold w in HP, HC, Ho.
  pose proof (PInv_fresh_promise HP) as Hfresh.
  assert (E1 : w1 = _) by exact (@request_closed method params w Hclosed).
  split.
  - rewrite E1. unfold readyState, getState. simpl.
    repeat split; try reflexivity; [apply nth_error_snoc | exact Hfresh].
  - destruct (@opened_for_request w method params HC Hclosed)
      as (wc & E2 & Hws & Hso & Hid & Hpe & Htr & Hnt & Hse & Hst & _ & Hop).
    change (w2 = request_body method params p wc) in E2.
    rewrite request_body_unfold in E2. cbv zeta in E2.
    rewrite Hid, Hnt, Hop, Ho in E2. fold id in E2.
    unfold ws_send, readyState in E2. simpl in E2.
    rewrite Hws, Hso in E2. subst s. rewrite nth_error_snoc in E2.
    rewrite E2. unfold getState, promiseState. simpl.
    rewrite Hst, Htr, Hse, Hnt.
    split; [reflexivity|]. split; [reflexivity|].
    split; [apply map_get_set_same|].
    split; [apply in_or_app; right; now left | exact Hfresh].
Qed.

(** ** Failing and closing sockets *)

Lemma abort_frame : forall e k w,
  let w' := abort e k w in
  ws w' = ws w /\ requestId w' = requestId w /\ pendingRequests w' = pendingRequests w
  /\ state w' = state w /\ options w' = options w
  /\ reconnectTimer w' = reconnectTimer w /\ sockets w' = sockets w
  /\ timers w' = timers w /\ nextTimer w' = nextTimer w
  /\ sent (trace w') = sent (trace w).
Proof.
  intros e [method params p | requests c |] w; simpl.
  - destruct (settle_only ByConnectFailure p (Rejected e) w) as (st & cs & tr & E).
    pose proof (sent_settle ByConnectFailure p (Rejected e) w) as Hs.
    rewrite E in *. simpl in *. repeat split; assumption.
  - destruct (settle_only ByConnectFailure c (Rejected e) w) as (st & cs & tr & E).
    pose proof (sent_settle ByConnectFailure c (Rejected e) w) as Hs.
    rewrite E in *. simpl in *. repeat split; assumption.
  - repeat split.
Qed.

Lemma fold_abort_frame : forall e (l : list (SocketId * Continuation)) w,
  let w' := fold_left (fun acc sk => abort e (snd sk) acc) l w in
  ws w' = ws w /\ requestId w' = requestId w /\ pendingRequests w' = pendingRequests w
  /\ state w' = state w /\ options w' = options w
  /\ reconnectTimer w' = reconnectTimer w /\ sockets w' = sockets w
  /\ timers w' = timers w /\ nextTimer w' = nextTimer w
  /\ sent (trace w') = sent (trace w).
Proof.
  intros e l. induction l as [|[s k] l IH]; intros w; simpl; [repeat split|].
  specialize (IH (abort e k w)). simpl in IH.
  destruct IH as (A1 & A2 & A3 & A4 & A5 & A6 & A7 & A8 & A9 & A10).
  destruct (abort_frame e k w) as (B1 & B2 & B3 & B4 & B5 & B6 & B7 & B8 & B9 & B10).
  repeat split; congruence.
Qed.

Lemma onerror_frame : forall s w,
  let w' := onerror s w in
  ws w' = ws w /\ requestId w' = requestId w /\ pendingRequests w' = pendingRequests w
  /\ state w' = state_error /\ options w' = options w
  /\ reconnectTimer w' = reconnectTimer w /\ sockets w' = sockets w
  /\ timers w' = timers w /\ nextTimer w' = nextTimer w
  /\ sent (trace w') = sent (trace w).
Proof.
  intros s w. unfold onerror, settle_connect. cbv zeta.
  match goal with |- context [fold_left _ ?l ?x] =>
    destruct (fold_abort_frame (Error "WebSocket error: [object Event]") l x)
      as (A1 & A2 & A3 & A4 & A5 & A6 & A7 & A8 & A9 & A10) end.
  repeat split; assumption.
Qed.

Lemma nth_error_set_nth : forall (A : Type) (l : list A) n x y,
  nth_error l n = Some y -> nth_error (set_nth n x l) n = Some x.
Proof.
  induction l as [|a l IH]; intros [|n] x y H; simpl in *; try discriminate; eauto.
Qed.

(** X6.  A socket that fails, whatever the client was doing.  The error handler
    sets the state to error, but the close handler that follows sets it to
    disconnected before it looks at it: the client ends disconnected, and
    with the [reconnect] option on a reconnect timer with the
    [reconnectDelay] option is armed also after an error; with the option
    off no timer is armed. *)
Theorem failed_socket_ends_disconnected : forall w s r,
  readyState w s = Some r -> r <> CLOSED ->
  let w' := step w (SocketFail s) in
  getState w' = state_disconnected
  /\ readyState w' s = Some CLOSED
  /\ (opt_reconnect (options w) = true ->
      reconnectTimer w' = Some (nextTimer w)
      /\ timers w'
         = (timers w ++ [(nextTimer w, (opt_reconnectDelay (options w), ReconnectAttempt))])%list)
  /\ (opt_reconnect (options w) = false ->
      reconnectTimer w' = reconnectTimer w /\ timers w' = timers w).
Proof.
  intros w s r Hrs Hr w'.
  assert (E : w' = onclose (onerror s (set_readyState s CLOSED w))).
  { subst w'. simpl. rewrite Hrs. destruct r; try reflexivity. congruence. }
  destruct (onerror_frame s (set_readyState s CLOSED w))
    as (A1 & A2 & A3 & A4 & A5 & A6 & A7 & A8 & A9 & A10).
  set (we := onerror s (set_readyState s CLOSED w)) in *.
  simpl in A5, A6, A7, A8, A9.
  assert (Hsock : readyState (onclose we) s = Some CLOSED).
  { unfold onclose, handleDisconnect, readyState. simpl.
    destruct (opt_reconnect (options we)); simpl; rewrite A7;
      eapply nth_error_set_nth; exact Hrs. }
  rewrite E. unfold getState. split; [|split; [exact Hsock|split]].
  - unfold onclose, handleDisconnect. simpl. destruct (opt_reconnect (options we)); reflexivity.
  - intros Hon. unfold onclose, handleDisconnect. simpl. rewrite A5, Hon. simpl.
    rewrite A8, A9. split; reflexivity.
  - intros Hoff. unfold onclose, handleDisconnect. simpl. rewrite A5, Hoff. simpl.
    split; assumption.
Qed.

Lemma onclose_frame : forall w,
  let w' := onclose w in
  state w' = state_disconnected /\ requestId w' = requestId w
  /\ pendingRequests w' = pendingRequests w /\ settled w' = settled w
  /\ trace w' = trace w /\ sockets w' = sockets w /\ options w' = options w
  /\ ws w' = ws w.
Proof.
  intros w. unfold onclose, handleDisconnect. simpl.
  destruct (opt_reconnect (options w)); simpl; repeat split.
Qed.

(** X7.  [request] on a client that is not connected, and the new socket fails:
    the promise the caller holds is rejected with the error of the
    connection, [WebSocket error: ...]; the request never got an id, nothing
    was sent, the table is as before, and the client is disconnected. *)
Theorem failed_connection_rejects_the_request : forall o events method params,
  let w := run (initial o) events in
  ws_open w = false ->
  let s := length (sockets w) in
  let w1 := step w (CallRequest method params) in
  let w2 := step w1 (SocketFail s) in
  (exists text,
     promiseState w2 (nextPromise w)
     = Some (Rejected (Error ("WebSocket error: " ++ text))))
  /\ requestId w2 = requestId w
  /\ pendingRequests w2 = pendingRequests w
  /\ sent (trace w2) = sent (trace w)
  /\ getState w2 = state_disconnected.
Proof.
  intros o events method params w Hclosed s w1 w2.
  pose proof (PInv_run o events) as HP. pose proof (CInv_run o events) as HC.
  fold w in HP, HC.
  pose proof (PInv_fresh_promise HP) as Hfresh.
  assert (E1 : w1 = _) by exact (@request_closed method params w Hclosed).
  assert (Hrs1 : readyState w1 s = Some CONNECTING).
  { rewrite E1. unfold readyState. simpl. apply nth_error_snoc. }
  assert (E2 : w2 = onclose (onerror s (set_readyState s CLOSED w1))).
  { subst w2. simpl. now rewrite Hrs1. }
  set (wa := set_state state_error (set_readyState s CLOSED w1)).
  assert (E3 : onerror s (set_readyState s CLOSED w1)
               = settle ByConnectFailure (nextPromise w)
                   (Rejected (Error "WebSocket error: [object Event]"))
                   (set_awaiting (awaiting w) wa)).
  { unfold onerror. fold wa.
    rewrite (@settle_connect_new (abort (Error "WebSocket error: [object Event]"))
               (awaiting w) (KRequest method params (nextPromise w)) s wa).
    - reflexivity.
    - intros s' k' Hin. pose proof (c_awaiting HC _ _ Hin). subst s. lia.
    - subst wa. rewrite E1. reflexivity. }
  destruct (onerror_frame s (set_readyState s CLOSED w1))
    as (_ & A2 & A3 & _ & _ & _ & _ & _ & _ & A10).
  destruct (onclose_frame (onerror s (set_readyState s CLOSED w1)))
    as (B1 & B2 & B3 & B4 & B5 & _).
  rewrite E2. unfold getState, promiseState. rewrite B1, B2, B3, B4, B5, A2, A3, A10.
  split; [|rewrite E1; repeat split].
  exists "[object Event]". rewrite E3.
  apply (@settle_pending ByConnectFailure (nextPromise w)
           (Rejected (Error "WebSocket error: [object Event]"))
           (set_awaiting (awaiting w) wa)).
  subst wa. rewrite E1. exact Hfresh.
Qed.

Lemma settle_connect_one : forall (f : Continuation -> World -> World) l1 l2 k s w,
  (forall s' k', In (s', k') (l1 ++ l2) -> s' <> s) ->
  awaiting w = (l1 ++ (s, k) :: l2)%list ->
  settle_connect s f w = f k (set_awaiting (l1 ++ l2) w).
Proof.
  intros f l1 l2 k s w Hl Ha. unfold settle_connect. cbv zeta.
  rewrite Ha, !filter_app. simpl. rewrite Nat.eqb_refl. simpl.
  assert (N1 : forall x, In x l1 -> Nat.eqb (fst x) s = false).
  { intros [s' k'] Hin. simpl. apply Nat.eqb_neq. apply (Hl s' k'), in_or_app. now left. }
  assert (N2 : forall x, In x l2 -> Nat.eqb (fst x) s = false).
  { intros [s' k'] Hin. simpl. apply Nat.eqb_neq. apply (Hl s' k'), in_or_app. now right. }
  match goal with
  | |- context [(?X ++ (s, k) :: ?Y)%list] =>
      assert (EX : X = []) by (apply filter_none; exact N1);
      assert (EY : Y = []) by (apply filter_none; exact N2);
      rewrite EX, EY
  end.
  match goal with
  | |- context [set_awaiting (?X ++ ?Y)%list w] =>
      assert (EX' : X = l1)
        by (apply filter_all; intros x Hx; apply negb_true_iff; exact (N1 x Hx));
      assert (EY' : Y = l2)
        by (apply filter_all; intros x Hx; apply negb_true_iff; exact (N2 x Hx));
      rewrite EX', EY'
  end.
  reflexivity.
Qed.

Lemma run_snoc : forall w events e, run w (events ++ [e]) = step (run w events) e.
Proof. intros. unfold run. now rewrite fold_left_app. Qed.

Lemma resume_request : forall method params p w,
  resume (KRequest method params p) w = request_body method params p w.
Proof. reflexivity. Qed.

(** The rest of [request] when [this.ws] is a socket that is still
    connecting: [send] throws after the entry was registered. *)
Lemma request_body_connecting : forall method params p wc s,
  ws wc = Some s -> readyState wc s = Some CONNECTING ->
  promiseState wc p = None ->
  let w' := request_body method params p wc in
  promiseState w' p = Some (Rejected (DOMException "InvalidStateError"))
  /\ sent (trace w') = sent (trace wc)
  /\ map_get (requestId wc + 1) (pendingRequests w')
     = Some (mkPending p (Some (nextTimer wc))).
Proof.
  intros method params p wc s Hws Hrs Hp w'. subst w'.
  rewrite request_body_unfold. cbv zeta.
  unfold ws_send, readyState in *. simpl. rewrite Hws, Hrs.
  split; [|split].
  - apply settle_pending. exact Hp.
  - rewrite sent_settle. reflexivity.
  - rewrite settle_pendingRequests. simpl. apply map_get_set_same.
Qed.

(** X8.  Two [request] calls in a row on a client that is not connected.  Each
    call creates a socket of its own, and [this.ws] is the second one.  When
    the first socket opens, the first call goes on, takes an id and hands its
    frame to [this.ws.send], which is the second socket and still
    connecting: [send] throws, the promise of the first call is rejected
    with that exception and nothing is sent, while its table entry and its
    timer stay behind. *)
Theorem request_while_connecting_replaces_the_socket :
  forall o events m1 ps1 m2 ps2,
  let w := run (initial o) events in
  ws_open w = false ->
  let s1 := length (sockets w) in
  let w2 := run w [CallRequest m1 ps1; CallRequest m2 ps2] in
  let w3 := step w2 (SocketOpen s1) in
  sockets w2 = (sockets w ++ [CONNECTING; CONNECTING])%list
  /\ ws w2 = Some (S s1)
  /\ promiseState w3 (nextPromise w) = Some (Rejected (DOMException "InvalidStateError"))
  /\ sent (trace w3) = sent (trace w)
  /\ map_get (requestId w + 1) (pendingRequests w3)
     = Some (mkPending (nextPromise w) (Some (nextTimer w))).
Proof.
  intros o events m1 ps1 m2 ps2 w Hclosed s1 w2 w3.
  pose proof (PInv_run o events) as HP. pose proof (CInv_run o events) as HC.
  fold w in HP, HC.
  pose proof (PInv_fresh_promise HP) as Hfresh.
  set (w1 := step w (CallRequest m1 ps1)).
  assert (E1 : w1 = _) by exact (@request_closed m1 ps1 w Hclosed).
  assert (Hclosed1 : ws_open w1 = false).
  { rewrite E1. unfold ws_open, readyState. simpl. now rewrite nth_error_snoc. }
  assert (E2 : w2 = _) by exact (@request_closed m2 ps2 w1 Hclosed1).
  assert (Hso : sockets w2 = (sockets w ++ [CONNECTING; CONNECTING])%list).
  { rewrite E2. simpl. rewrite E1. simpl. now rewrite <- app_assoc. }
  assert (Hrs : readyState w2 s1 = Some CONNECTING).
  { unfold readyState. rewrite Hso.
    change [CONNECTING; CONNECTING] with ([CONNECTING] ++ [CONNECTING])%list.
    rewrite app_assoc, nth_error_app1; [apply nth_error_snoc|].
    rewrite length_app. simpl. subst s1. lia. }
  assert (E3 : w3 = onopen s1 (set_readyState s1 OPEN w2)).
  { subst w3. simpl. now rewrite Hrs. }
  unfold onopen in E3. cbv zeta in E3.
  set (wa := set_state state_connected (set_readyState s1 OPEN w2)) in E3.
  set (wb := match reconnectTimer wa with
             | Some t => set_reconnectTimer None (clearTimeout t wa)
             | None => wa
             end) in E3.
  set (K2 := KRequest m2 ps2 (S (nextPromise w))).
  assert (Haw : awaiting wb
                = (awaiting w ++ (s1, KRequest m1 ps1 (nextPromise w)) :: [(S s1, K2)])%list).
  { subst wb wa. rewrite E2. simpl. rewrite E1. simpl.
    rewrite length_app, Nat.add_1_r. fold s1.
    destruct (reconnectTimer w); simpl; rewrite <- app_assoc; reflexivity. }
  rewrite (@settle_connect_one resume (awaiting w) [(S s1, K2)]
             (KRequest m1 ps1 (nextPromise w)) s1 wb) in E3; [|
    intros s' k' Hin; apply in_app_or in Hin; destruct Hin as [Hin | [Hin | []]];
      [pose proof (c_awaiting HC _ _ Hin); subst s1; lia
      | injection Hin as <- _; lia]
    | exact Haw].
  set (wc := set_awaiting (awaiting w ++ [(S s1, K2)]) wb) in E3.
  assert (F : ws wc = Some (S s1)
              /\ sockets wc = (sockets w ++ [OPEN; CONNECTING])%list
              /\ requestId wc = requestId w /\ nextTimer wc = nextTimer w
              /\ settled wc = settled w /\ trace wc = trace w).
  { subst wc wb wa. rewrite E2. simpl. rewrite E1. simpl.
    rewrite length_app, Nat.add_1_r. fold s1.
    assert (Hn : set_nth s1 OPEN ((sockets w ++ [CONNECTING]) ++ [CONNECTING])
                 = (sockets w ++ [OPEN; CONNECTING])%list).
    { subst s1. clear. induction (sockets w) as [|a l IH]; simpl; [reflexivity|].
      now rewrite IH. }
    destruct (reconnectTimer w); simpl; rewrite Hn; repeat split. }
  destruct F as (F1 & F2 & F3 & F4 & F5 & F6). clearbody wc.
  rewrite resume_request in E3.
  assert (Hnth : readyState wc (S s1) = Some CONNECTING).
  { unfold readyState. rewrite F2. subst s1. clear.
    induction (sockets w) as [|a l IH]; simpl; [reflexivity | exact IH]. }
  assert (Hpc : promiseState wc (nextPromise w) = None)
    by (unfold promiseState; rewrite F5; exact Hfresh).
  destruct (@request_body_connecting m1 ps1 (nextPromise w) wc (S s1) F1 Hnth Hpc)
    as (G1 & G2 & G3).
  split; [exact Hso|].
  split; [rewrite E2; simpl; rewrite E1; simpl; now rewrite length_app, Nat.add_1_r|].
  rewrite F3, F4 in G3. rewrite F6 in G2. clearbody w3. subst w3.
  split; [exact G1|]. split; [exact G2 | exact G3].
Qed.

(** ** Timers and [disconnect] *)


Lemma disconnect_fields : forall w,
  ws (disconnect w) = None /\ reconnectTimer (disconnect w) = None
  /\ state (disconnect w) = state_disconnected /\ pendingRequests (disconnect w) = [].
Proof.
  intros w. unfold disconnect. cbv zeta.
  set (w1 := match reconnectTimer w with
             | Some t => set_reconnectTimer None (clearTimeout t w)
             | None => w
             end).
  assert (H1 : reconnectTimer w1 = None).
  { subst w1. destruct (reconnectTimer w) eqn:E; [reflexivity | exact E]. }
  set (w2 := match ws w1 with Some s => set_ws None (ws_close s w1) | None => w1 end).
  assert (H2 : ws w2 = None /\ reconnectTimer w2 = None).
  { subst w2. destruct (ws w1) as [s|] eqn:E; [|now split].
    split; [reflexivity|]. simpl. unfold ws_close.
    destruct (readyState (log (CloseCalled s) w1) s) as [[]|]; exact H1. }
  rewrite reject_all_entries.
  destruct (reject_entries_kept (pendingRequests (set_state state_disconnected w2))
              (set_state state_disconnected w2))
    as (A1 & _ & _ & A4 & _ & A6 & _).
  simpl in *. destruct H2 as [H2 H3]. repeat split; congruence.
Qed.

(** The loop of [disconnect] clears the timeout of every entry. *)
Lemma reject_entries_clears : forall entries w k pending t x,
  In (k, pending) entries -> pend_timer pending = Some t ->
  ~ In (t, x) (timers (reject_entries entries w)).
Proof.
  induction entries as [|kv entries IH]; intros w k pending t x Hin Ht; simpl in *; [tauto|].
  destruct Hin as [-> | Hin]; [|now apply IH with k pending].
  set (w1 := pending_reject _ _ _ w).
  assert (H1 : ~ In (t, x) (timers w1)).
  { subst w1. unfold pending_reject. rewrite settle_timers. simpl.
    unfold clear_pending_timer. rewrite Ht. simpl.
    intros H. apply handle_remove_In in H. tauto. }
  intros H. apply H1.
  assert (Hs : shrinks w1 (reject_entries entries w1)).
  { unfold reject_entries. apply fold_shrinks. intros a w'. apply pending_reject_shrinks. }
  destruct Hs as (_ & _ & _ & Hincl & _). now apply Hincl.
Qed.

(** X10.  [disconnect()] on any client in any run leaves a clean client: no
    socket, state disconnected, no reconnect handle, an empty table, and the
    timeout of every entry cleared: a request timeout that is left belongs
    to a call whose entry was no longer in the table.  Calling
    [disconnect()] again changes nothing. *)
Theorem disconnect_leaves_a_clean_client : forall o events,
  let w0 := run (initial o) events in
  let w := disconnect w0 in
  ws w = None /\ getState w = state_disconnected /\ reconnectTimer w = None
  /\ pendingRequests w = []
  /\ (forall t d id m p,
        In (t, (d, RequestTimeout id m p)) (timers w) ->
        In (t, (d, RequestTimeout id m p)) (timers w0)
        /\ map_get id (pendingRequests w0) = None)
  /\ disconnect w = w.
Proof.
  intros o events w0 w.
  destruct (disconnect_fields w0) as (A1 & A2 & A3 & A4).
  fold w in A1, A2, A3, A4.
  split; [exact A1|]. split; [exact A3|]. split; [exact A2|]. split; [exact A4|]. split.
  - intros t d id m p Hin.
    assert (Hin0 : In (t, (d, RequestTimeout id m p)) (timers w0)).
    { destruct (disconnect_shrinks w0) as (_ & _ & _ & Hincl & _). now apply Hincl. }
    split; [exact Hin0|].
    destruct (map_get id (pendingRequests w0)) as [pending|] eqn:Hget; [|reflexivity].
    exfalso. pose proof (Inv_run o events) as HI. fold w0 in HI.
    destruct (inv_timers HI _ _ _ _ _ Hin0) as (_ & _ & Hm). rewrite Hget in Hm.
    destruct (disconnect_unfold w0) as (w3 & E & _). subst w. rewrite E in Hin.
    simpl in Hin. revert Hin.
    apply reject_entries_clears with id pending; [now apply map_get_In | now rewrite Hm].
  - clearbody w. destruct w. simpl in *. subst. reflexivity.
Qed.

(** ** Incoming frames *)

Lemma sent_clear_pending_timer : forall pending w,
  sent (trace (clear_pending_timer pending w)) = sent (trace w).
Proof. intros. unfold clear_pending_timer. destruct (pend_timer pending); reflexivity. Qed.

Lemma handleSingleMessage_frame : forall msg w,
  let w' := handleSingleMessage msg w in
  client_kept (set_pendingRequests (pendingRequests w') w) w'
  /\ sent (trace w') = sent (trace w)
  /\ incl (pendingRequests w') (pendingRequests w)
  /\ incl (timers w') (timers w)
  /\ keeps_settled w w'.
Proof.
  intros msg w. unfold handleSingleMessage.
  destruct (msg_id msg) as [id|];
    [|simpl; split; [rewrite set_pendingRequests_same; apply client_kept_refl|];
      repeat split; try apply incl_refl; apply keeps_settled_refl].
  destruct (map_get id (pendingRequests w)) as [pending|].
  - set (w1 := set_pendingRequests (map_delete id (pendingRequests w)) w).
    assert (Hincl : incl (pendingRequests w1) (pendingRequests w)).
    { subst w1. simpl. intros x Hx. unfold map_delete in Hx. apply filter_In in Hx. tauto. }
    destruct (msg_error msg) as [err|]; simpl.
    + pose proof (pending_reject_kept (ByResponse id) pending
                    (Error (message err ++ " (code: " ++ showZ (code err) ++ ")")) w1) as Hk.
      pose proof (pending_reject_shrinks (ByResponse id) pending
                    (Error (message err ++ " (code: " ++ showZ (code err) ++ ")")) w1)
        as (_ & _ & _ & Ht & _).
      pose proof (pending_reject_keeps (ByResponse id) pending
                    (Error (message err ++ " (code: " ++ showZ (code err) ++ ")")) w1) as Hs.
      set (w' := pending_reject _ _ _ w1) in *.
      assert (Hp : pendingRequests w' = pendingRequests w1) by apply Hk.
      split; [rewrite Hp; exact Hk|]. split.
      * subst w'. unfold pending_reject. now rewrite sent_settle, sent_clear_pending_timer.
      * split; [rewrite Hp; exact Hincl|]. split; [exact Ht | exact Hs].
    + pose proof (pending_resolve_kept (ByResponse id) pending
                    (match msg_result msg with Some v => v | None => VUndefined end) w1) as Hk.
      pose proof (pending_resolve_shrinks (ByResponse id) pending
                    (match msg_result msg with Some v => v | None => VUndefined end) w1)
        as (_ & _ & _ & Ht & _).
      pose proof (pending_resolve_keeps (ByResponse id) pending
                    (match msg_result msg with Some v => v | None => VUndefined end) w1) as Hs.
      set (w' := pending_resolve _ _ _ w1) in *.
      assert (Hp : pendingRequests w' = pendingRequests w1) by apply Hk.
      split; [rewrite Hp; exact Hk|]. split.
      * subst w'. unfold pending_resolve. now rewrite sent_settle, sent_clear_pending_timer.
      * split; [rewrite Hp; exact Hincl|]. split; [exact Ht | exact Hs].
  - simpl. split; [unfold client_kept; simpl; repeat split|].
    repeat split; try apply incl_refl. intros q x H. exact H.
Qed.

Lemma frame_kept_refl : forall w, frame_kept w w.
Proof.
  intros w. unfold frame_kept. repeat split; try apply incl_refl. apply keeps_settled_refl.
Qed.

Lemma frame_kept_trans : forall w1 w2 w3,
  frame_kept w1 w2 -> frame_kept w2 w3 -> frame_kept w1 w3.
Proof.
  intros w1 w2 w3 ((A1 & A2 & A3 & A4 & A5 & A6 & A7) & B & C & D & E)
    ((A1' & A2' & A3' & A4' & A5' & A6' & A7') & B' & C' & D' & E').
  unfold frame_kept.
  split; [repeat split; congruence|]. split; [congruence|].
  split; [eapply incl_tran; eassumption|].
  split; [eapply incl_tran; eassumption|].
  eapply keeps_settled_trans; eassumption.
Qed.

Lemma map_delete_incl : forall (V : Type) k (m : list (Z * V)), incl (map_delete k m) m.
Proof. intros V k m x Hx. unfold map_delete in Hx. apply filter_In in Hx. tauto. Qed.

Lemma handled_frame_kept : forall w c, handled w c -> frame_kept w (caught c).
Proof.
  intros w c [| |id|id pending o Hget|id pending Hget]; simpl.
  - apply frame_kept_refl.
  - unfold frame_kept. simpl. repeat split; try apply incl_refl. intros q x H. exact H.
  - unfold frame_kept. simpl.
    assert (E : sent (warn_unknown id :: trace w) = sent (trace w)) by (destruct id; reflexivity).
    repeat split; try apply incl_refl; [exact E | intros q x H; exact H].
  - set (w1 := set_pendingRequests (map_delete id (pendingRequests w)) w).
    set (w2 := clear_pending_timer pending w1).
    destruct (settle_only (ByResponse id) (pend_promise pending) o w2) as (st & cs & tr & E).
    assert (F : ws w2 = ws w /\ state w2 = state w /\ requestId w2 = requestId w
                /\ sockets w2 = sockets w /\ reconnectTimer w2 = reconnectTimer w
                /\ options w2 = options w /\ awaiting w2 = awaiting w
                /\ pendingRequests w2 = map_delete id (pendingRequests w))
      by (subst w2 w1; destruct pending as [q [t|]]; repeat split).
    destruct F as (F1 & F2 & F3 & F4 & F5 & F6 & F7 & F8).
    unfold frame_kept. split; [rewrite E; simpl; repeat split; assumption|].
    split; [rewrite sent_settle; unfold w2; now rewrite sent_clear_pending_timer|].
    split; [rewrite settle_pendingRequests, F8; apply map_delete_incl|].
    split.
    + rewrite settle_timers.
      destruct (clear_pending_timer_shrinks pending w1) as (_ & _ & _ & Hincl & _).
      exact Hincl.
    + intros q x H. apply settle_keeps. subst w2.
      now rewrite promiseState_clear_pending_timer.
  - unfold frame_kept. simpl. repeat split; try apply incl_refl;
      [apply map_delete_incl | intros q x H; exact H].
Qed.

Lemma Parsed_frame_kept : forall value w, frame_kept w (handleMessage (Parsed value) w).
Proof.
  intros value w.
  apply Parsed_rel; [apply frame_kept_refl | apply frame_kept_trans | apply handled_frame_kept].
Qed.

(** X11.  A frame from the device, whatever it holds, cannot touch the connection:
    [handleMessage] leaves the socket, the state, the id counter, the
    options, the reconnect handle and the suspended calls as they are and
    sends nothing.  It adds no table entry and no timer, and a promise that
    was settled keeps its outcome. *)
Theorem message_leaves_the_connection_alone : forall data w,
  let w' := handleMessage data w in
  (ws w' = ws w /\ getState w' = getState w /\ requestId w' = requestId w
   /\ sockets w' = sockets w /\ reconnectTimer w' = reconnectTimer w
   /\ options w' = options w /\ awaiting w' = awaiting w)
  /\ sent (trace w') = sent (trace w)
  /\ incl (pendingRequests w') (pendingRequests w)
  /\ incl (timers w') (timers w)
  /\ keeps_settled w w'.
Proof.
  assert (One : forall msg w,
    let w' := handleSingleMessage msg w in
    (ws w' = ws w /\ getState w' = getState w /\ requestId w' = requestId w
     /\ sockets w' = sockets w /\ reconnectTimer w' = reconnectTimer w
     /\ options w' = options w /\ awaiting w' = awaiting w)
    /\ sent (trace w') = sent (trace w)
    /\ incl (pendingRequests w') (pendingRequests w)
    /\ incl (timers w') (timers w)
    /\ keeps_settled w w').
  { intros msg w. destruct (handleSingleMessage_frame msg w) as (Hk & H2 & H3 & H4 & H5).
    destruct Hk as (K1 & K2 & _ & K4 & K5 & K6 & K7 & _ & _ & K10).
    simpl in *. unfold getState. repeat split; assumption. }
  intros [|items|msg|value] w; [simpl .. |].
  - unfold getState. repeat split; try apply incl_refl. intros q x H. exact H.
  - revert w. induction items as [|msg items IH]; intros w; simpl.
    + unfold getState. repeat split; try apply incl_refl. apply keeps_settled_refl.
    + destruct (One msg w) as ((A1 & A2 & A3 & A4 & A5 & A6 & A7) & B & C & D & E).
      destruct (IH (handleSingleMessage msg w))
        as ((A1' & A2' & A3' & A4' & A5' & A6' & A7') & B' & C' & D' & E').
      unfold getState in *.
      split; [repeat split; congruence|]. split; [congruence|].
      split; [eapply incl_tran; eassumption|].
      split; [eapply incl_tran; eassumption|].
      eapply keeps_settled_trans; eassumption.
  - apply One.
  - exact (Parsed_frame_kept value w).
Qed.

(** ** Batches on the wire *)

Lemma assign_ids_numbered : forall requests w,
  fst (assign_ids requests w) = numbered (requestId w + 1) requests
  /\ requestId (snd (assign_ids requests w)) = requestId w + Z.of_nat (length requests)
  /\ sent (trace (snd (assign_ids requests w))) = sent (trace w)
  /\ assigned (trace (snd (assign_ids requests w)))
     = (rev (map req_id (numbered (requestId w + 1) requests)) ++ assigned (trace w))%list.
Proof.
  induction requests as [|[m ps] rest IH]; intros w.
  - simpl. repeat split. lia.
  - cbn [assign_ids numbered length map rev].
    set (w1 := log (AssignedId (requestId w + 1)) (set_requestId (requestId w + 1) w)).
    specialize (IH w1). destruct (assign_ids rest w1) as [rs w2].
    cbn [fst snd] in *. destruct IH as (H1 & H2 & H3 & H4).
    subst w1. cbn [requestId set_requestId log set_trace trace] in *.
    split; [now rewrite H1|]. split; [rewrite H2; lia|]. split; [exact H3|].
    rewrite H4. cbn [req_id]. rewrite <- app_assoc. reflexivity.
Qed.

Lemma register_all_trace : forall rs w,
  trace (snd (register_all rs w)) = trace w
  /\ requestId (snd (register_all rs w)) = requestId w.
Proof.
  induction rs as [|r rs IH]; intros w; simpl; [now split|].
  set (w1 := set_pendingRequests _ (newPromise w)).
  specialize (IH w1). destruct (register_all rs w1) as [ps w2]. simpl in *. exact IH.
Qed.

Lemma promise_all_trace : forall c ms w,
  sent (trace (promise_all c ms w)) = sent (trace w)
  /\ assigned (trace (promise_all c ms w)) = assigned (trace w)
  /\ requestId (promise_all c ms w) = requestId w.
Proof.
  intros c ms w. unfold promise_all. destruct ms; [|repeat split].
  unfold settle_plain. destruct (promiseState _ c); repeat split.
Qed.

(** The world [batch] works in after numbering and registering. *)
Lemma batch_open : forall requests w s,
  ws w = Some s -> readyState w s = Some OPEN ->
  exists promises w2,
    batch requests w
    = promise_all (nextPromise w) promises
        (log (Sent s (WireBatch (numbered (requestId w + 1) requests))) w2)
    /\ trace w2 = trace (snd (assign_ids requests (newPromise w)))
    /\ requestId w2 = requestId w + Z.of_nat (length requests).
Proof.
  intros requests w s Hws Hrs. unfold batch.
  assert (Hopen : ws_open (newPromise w) = true)
    by (unfold ws_open, readyState in *; simpl; now rewrite Hws, Hrs).
  rewrite Hopen. unfold batch_body.
  pose proof (assign_ids_numbered requests (newPromise w)) as (N1 & N2 & _).
  pose proof (assign_ids_frame requests (newPromise w)) as (A1 & A2 & _).
  destruct (assign_ids requests (newPromise w)) as [rs w1]. cbn [fst snd] in *.
  pose proof (register_all_frame rs w1) as (R1 & R2 & _).
  pose proof (register_all_trace rs w1) as (T1 & T2).
  destruct (register_all rs w1) as [promises w2]. cbn [fst snd] in *.
  unfold ws_send, readyState in *. rewrite R1, R2, A1, A2. simpl. rewrite Hws, Hrs.
  exists promises, w2. rewrite N1. split; [reflexivity|]. split; [exact T1|].
  rewrite T2, N2. reflexivity.
Qed.

Lemma batch_sends_frame : forall requests w s,
  ws w = Some s -> readyState w s = Some OPEN ->
  sent (trace (batch requests w))
  = (s, WireBatch (numbered (requestId w + 1) requests)) :: sent (trace w).
Proof.
  intros requests w s Hws Hrs.
  destruct (@batch_open requests w s Hws Hrs) as (promises & w2 & E & Ht & _).
  pose proof (assign_ids_numbered requests (newPromise w)) as (_ & _ & N3 & _).
  rewrite E.
  destruct (promise_all_trace (nextPromise w) promises
              (log (Sent s (WireBatch (numbered (requestId w + 1) requests))) w2))
    as (P1 & _).
  rewrite P1. simpl. rewrite Ht, N3. reflexivity.
Qed.

(** X12.  [batch] on an open socket puts exactly one frame on the wire: the array
    of the requests in the order supplied, numbered with consecutive ids
    from the next id on.  The counter advances by the number of elements,
    and no timer is armed. *)
Theorem batch_sends_one_numbered_frame : forall requests w s,
  ws w = Some s -> readyState w s = Some OPEN ->
  let w' := batch requests w in
  sent (trace w')
  = (s, WireBatch (numbered (requestId w + 1) requests)) :: sent (trace w)
  /\ requestId w' = requestId w + Z.of_nat (length requests)
  /\ assigned (trace w')
     = (rev (map req_id (numbered (requestId w + 1) requests)) ++ assigned (trace w))%list
  /\ timers w' = timers w.
Proof.
  intros requests w s Hws Hrs w'.
  destruct (@batch_open requests w s Hws Hrs) as (promises & w2 & E & Ht & Hr).
  pose proof (assign_ids_numbered requests (newPromise w)) as (_ & _ & N3 & N4).
  subst w'. split; [|split; [|split]].
  - rewrite E. destruct (promise_all_trace (nextPromise w) promises
                           (log (Sent s (WireBatch (numbered (requestId w + 1) requests))) w2))
      as (P1 & _). rewrite P1. simpl. rewrite Ht, N3. reflexivity.
  - rewrite E. destruct (promise_all_trace (nextPromise w) promises
                           (log (Sent s (WireBatch (numbered (requestId w + 1) requests))) w2))
      as (_ & _ & P3). rewrite P3. exact Hr.
  - rewrite E. destruct (promise_all_trace (nextPromise w) promises
                           (log (Sent s (WireBatch (numbered (requestId w + 1) requests))) w2))
      as (_ & P2 & _). rewrite P2. simpl. rewrite Ht, N4. reflexivity.
  - apply batch_arms_no_timer.
Qed.

(** ** The results of a batch *)

Lemma settle_plain_combinators : forall via p o w,
  combinators (settle_plain via p o w) = combinators w.
Proof. intros. unfold settle_plain. destruct (promiseState w p); reflexivity. Qed.

Lemma settle_untouched : forall via p o w q,
  q <> p -> ~ In q (targets w) ->
  promiseState (settle via p o w) q = promiseState w q.
Proof.
  intros via p o w q Hne Hnt. unfold settle.
  destruct (promiseState w p) eqn:Hp; [reflexivity|].
  pose proof (@react_untouched p o (combinators (settle_plain via p o w))
                (settle_plain via p o w) q) as Hr.
  destruct (react p o (combinators (settle_plain via p o w)) (settle_plain via p o w))
    as [rs w2].
  cbn [snd] in Hr. rewrite promiseState_set_combinators, Hr.
  - rewrite promiseState_settle_plain.
    destruct (Nat.eqb p q) eqn:E; [apply Nat.eqb_eq in E; congruence | reflexivity].
  - rewrite settle_plain_combinators. exact Hnt.
Qed.

Lemma settle_shape : forall via p o w,
  map (fun r => (all_target r, all_members r)) (combinators (settle via p o w))
  = map (fun r => (all_target r, all_members r)) (combinators w).
Proof.
  intros via p o w. unfold settle. destruct (promiseState w p); [reflexivity|].
  pose proof (react_records p o (combinators (settle_plain via p o w))
                (settle_plain via p o w)) as Hr.
  destruct (react p o (combinators (settle_plain via p o w)) (settle_plain via p o w))
    as [rs w2].
  cbn [fst] in Hr. cbn [combinators set_combinators]. rewrite Hr, settle_plain_combinators.
  rewrite map_map. apply map_ext. intros r.
  now rewrite react_one_target, react_one_members.
Qed.

Lemma handleSingleMessage_shape : forall msg w,
  map (fun r => (all_target r, all_members r)) (combinators (handleSingleMessage msg w))
  = map (fun r => (all_target r, all_members r)) (combinators w).
Proof.
  intros msg w. unfold handleSingleMessage.
  destruct (msg_id msg) as [id|]; [|reflexivity].
  destruct (map_get id (pendingRequests w)) as [pending|]; [|reflexivity].
  destruct (msg_error msg) as [err|]; unfold pending_reject, pending_resolve;
    rewrite settle_shape; unfold clear_pending_timer;
    destruct (pend_timer pending); reflexivity.
Qed.

Lemma items_shape : forall items w,
  map (fun r => (all_target r, all_members r))
    (combinators (fold_left (fun acc item => handleSingleMessage item acc) items w))
  = map (fun r => (all_target r, all_members r)) (combinators w).
Proof.
  induction items as [|msg items IH]; intros w; simpl; [reflexivity|].
  now rewrite IH, handleSingleMessage_shape.
Qed.

Lemma items_keep : forall items w,
  keeps_settled w (fold_left (fun acc item => handleSingleMessage item acc) items w).
Proof.
  induction items as [|msg items IH]; intros w; simpl; [apply keeps_settled_refl|].
  eapply keeps_settled_trans; [|apply IH]. apply handleSingleMessage_frame.
Qed.

Lemma items_PInvL : forall items aw w,
  PInvL aw w -> PInvL aw (fold_left (fun acc item => handleSingleMessage item acc) items w).
Proof.
  induction items as [|msg items IH]; intros aw w HP; simpl; [exact HP|].
  apply IH. now apply handleSingleMessage_PInvL.
Qed.

(** A result response for a pending batch element fulfils its promise and
    no other promise of the table. *)
Lemma response_fulfils : forall aw w id v p,
  PInvL aw w ->
  map_get id (pendingRequests w) = Some (mkPending p None) ->
  promiseState w p = None ->
  let w' := handleSingleMessage (response id v) w in
  promiseState w' p = Some (Fulfilled v)
  /\ pendingRequests w' = map_delete id (pendingRequests w)
  /\ forall q, q <> p -> In q (table_promises w) -> promiseState w' q = promiseState w q.
Proof.
  intros aw w id v p HP Hget Hp w'.
  assert (E : w' = settle (ByResponse id) p (Fulfilled v)
                     (set_pendingRequests (map_delete id (pendingRequests w)) w)).
  { subst w'. rewrite (@handleSingleMessage_known w (response id v) id (mkPending p None)
                         eq_refl Hget).
    reflexivity. }
  rewrite E. split; [|split].
  - apply settle_pending. exact Hp.
  - now rewrite settle_pendingRequests.
  - intros q Hne Hin. rewrite settle_untouched; [reflexivity | exact Hne |].
    exact (proj2 (pl_table HP q Hin)).
Qed.

Lemma response_inj : forall id v id' v', response id v = response id' v' -> id = id' /\ v = v'.
Proof. intros id v id' v' H. injection H as -> ->. now split. Qed.

(** The responses of the elements of a batch, in any order and without
    repetition, fulfil the promises of the elements they name. *)
Lemma responses_fulfil : forall l aw first base w0,
  PInvL aw w0 ->
  NoDup (map msg_id l) ->
  (forall msg, In msg l -> exists i v,
      msg = response (first + Z.of_nat i) v
      /\ map_get (first + Z.of_nat i) (pendingRequests w0)
         = Some (mkPending (base + i)%nat None)
      /\ promiseState w0 (base + i)%nat = None) ->
  forall i v, In (response (first + Z.of_nat i) v) l ->
    promiseState (fold_left (fun acc item => handleSingleMessage item acc) l w0)
      (base + i)%nat = Some (Fulfilled v).
Proof.
  induction l as [|msg0 rest IH]; intros aw first base w0 HP Hnd Hall i v Hin;
    [destruct Hin|].
  destruct (Hall msg0 (or_introl eq_refl)) as (i0 & v0 & -> & Hget0 & Hp0).
  destruct (@response_fulfils aw w0 (first + Z.of_nat i0) v0 (base + i0)%nat HP Hget0 Hp0)
    as (F1 & F2 & F3).
  cbn [fold_left].
  set (w0' := handleSingleMessage (response (first + Z.of_nat i0) v0) w0) in *.
  inversion Hnd as [|? ? Hnotin Hnd']; subst.
  destruct Hin as [Heq | Hin].
  - apply response_inj in Heq. destruct Heq as [Hi ->].
    assert (i0 = i) by lia. subst i0.
    apply (items_keep rest w0'). exact F1.
  - apply (IH aw first base w0'); try assumption.
    + subst w0'. now apply handleSingleMessage_PInvL.
    + intros msg Hmsg. destruct (Hall msg (or_intror Hmsg)) as (j & u & -> & Hget & Hp).
      assert (Hne : j <> i0).
      { intros ->. apply Hnotin. apply in_map_iff.
        exists (response (first + Z.of_nat i0) u). split; [reflexivity | exact Hmsg]. }
      exists j, u. split; [reflexivity|]. split.
      * rewrite F2. rewrite map_get_delete_other; [exact Hget | lia].
      * rewrite F3; [exact Hp | lia |]. exact (table_promises_get _ _ Hget).
Qed.

Lemma In_responses : forall results first msg,
  In msg (responses first results) <->
  exists i v, nth_error results i = Some v /\ msg = response (first + Z.of_nat i) v.
Proof.
  induction results as [|v0 rest IH]; intros first msg; simpl.
  - split; [tauto | intros (i & v & H & _); destruct i; discriminate].
  - rewrite IH. split.
    + intros [<- | (i & v & Hn & ->)].
      * exists O, v0. split; [reflexivity|]. now rewrite Z.add_0_r.
      * exists (S i), v. split; [exact Hn|]. f_equal. lia.
    + intros ([|i] & v & Hn & ->); simpl in Hn.
      * injection Hn as <-. left. now rewrite Z.add_0_r.
      * right. exists i, v. split; [exact Hn|]. f_equal. lia.
Qed.

Lemma responses_ids : forall results first,
  map msg_id (responses first results)
  = map (fun i => Some (first + Z.of_nat i)) (seq 0 (length results)).
Proof.
  induction results as [|v0 rest IH]; intros first; simpl; [reflexivity|].
  rewrite Z.add_0_r. f_equal. rewrite IH, <- seq_shift, map_map.
  apply map_ext. intros i. f_equal. lia.
Qed.

Lemma responses_NoDup : forall results first, NoDup (map msg_id (responses first results)).
Proof.
  intros results first. rewrite responses_ids.
  apply Finite.Injective_map_NoDup; [|apply seq_NoDup].
  intros i j H. injection H as H. lia.
Qed.

Lemma collect_seq : forall (st : PromiseId -> option Outcome) results base ss,
  Forall2 (fun m s => s = fulfilled_value (st m)) (seq base (length results)) ss ->
  (forall i v, nth_error results i = Some v -> st (base + i)%nat = Some (Fulfilled v)) ->
  collect ss = Some results.
Proof.
  intros st results. induction results as [|v0 rest IH]; intros base ss F Hall; simpl in F.
  - inversion F. reflexivity.
  - inversion F as [|m s ms ss' Hs F']; subst. simpl.
    pose proof (Hall O v0 eq_refl) as H0. rewrite Nat.add_0_r in H0. rewrite H0. simpl.
    rewrite (IH (S base) ss' F'); [reflexivity|].
    intros i v Hn. rewrite <- (Hall (S i) v Hn). f_equal. lia.
Qed.

Lemma promise_all_frame : forall c ms w q,
  sockets (promise_all c ms w) = sockets w
  /\ (q <> c -> promiseState (promise_all c ms w) q = promiseState w q).
Proof.
  intros c ms w q. unfold promise_all. destruct ms; [|now split].
  split.
  - unfold settle_plain. destruct (promiseState _ c); reflexivity.
  - intros Hne. rewrite promiseState_settle_plain.
    destruct (Nat.eqb c q) eqn:E; [apply Nat.eqb_eq in E; congruence | reflexivity].
Qed.

(** [batch] on an open socket keeps the sockets and settles at most the
    promise it returns. *)
Lemma batch_frame : forall requests w s q,
  ws w = Some s -> readyState w s = Some OPEN ->
  sockets (batch requests w) = sockets w
  /\ (q <> nextPromise w -> promiseState (batch requests w) q = promiseState w q).
Proof.
  intros requests w s q Hws Hrs. unfold batch.
  assert (Hopen : ws_open (newPromise w) = true)
    by (unfold ws_open, readyState in *; simpl; now rewrite Hws, Hrs).
  rewrite Hopen. unfold batch_body.
  pose proof (assign_ids_frame requests (newPromise w)) as (A1 & A2 & _).
  pose proof (assign_ids_same requests (newPromise w)) as ((_ & _ & A3 & _) & _).
  destruct (assign_ids requests (newPromise w)) as [rs w1]. cbn [fst snd] in *.
  pose proof (register_all_frame rs w1) as (R1 & R2 & _).
  assert (R3 : settled (snd (register_all rs w1)) = settled w1).
  { clear. revert w1. induction rs as [|r rs IH]; intros w1; simpl; [reflexivity|].
    specialize (IH (set_pendingRequests
                      (map_set (req_id r) (mkPending (nextPromise w1) None) (pendingRequests w1))
                      (newPromise w1))).
    destruct (register_all rs _) as [ps w2]. exact IH. }
  destruct (register_all rs w1) as [promises w2]. cbn [fst snd] in *.
  unfold ws_send, readyState in *. rewrite R1, R2, A1, A2. simpl. rewrite Hws, Hrs.
  destruct (promise_all_frame (nextPromise w) promises (log (Sent s (WireBatch rs)) w2) q)
    as [P1 P2].
  split.
  - rewrite P1. simpl. now rewrite R2, A2.
  - intros Hne. rewrite (P2 Hne). unfold promiseState. simpl. now rewrite R3, A3.
Qed.

Lemma items_awaiting : forall items w,
  awaiting (fold_left (fun acc item => handleSingleMessage item acc) items w) = awaiting w.
Proof.
  induction items as [|msg items IH]; intros w; simpl; [reflexivity|].
  rewrite IH. destruct (handleSingleMessage_frame msg w) as (Hk & _).
  destruct Hk as (_ & _ & _ & _ & _ & _ & _ & _ & _ & K10). exact K10.
Qed.

(** X13.  A [batch] on an open socket that is answered in full.  Whatever the
    order in which the device lists the responses in its array, the promise
    [batch] returned is fulfilled with the array of the results in the order
    of the requests: the result at position [i] is the one whose response
    carried the id of the [i]-th request. *)
Theorem batch_results_follow_the_ids : forall o events requests results arrival s,
  let w := run (initial o) events in
  ws w = Some s -> readyState w s = Some OPEN ->
  length results = length requests ->
  Permutation arrival (responses (requestId w + 1) results) ->
  let w1 := step w (CallBatch requests) in
  let w2 := step w1 (SocketMessage s (ParsedArray arrival)) in
  promiseState w2 (nextPromise w) = Some (Fulfilled (VArray results)).
Proof.
  intros o events requests results arrival s w Hws Hrs Hlen Hperm w1 w2.
  pose proof (PInv_run o events) as HP. fold w in HP.
  assert (HP1 : PInv w1).
  { pose proof (PInv_run o (events ++ [CallBatch requests])) as H.
    now rewrite run_snoc in H. }
  assert (Hopen : ws_open w = true) by (unfold ws_open; now rewrite Hws, Hrs).
  destruct (@batch_registers_in_order requests w Hopen) as [Hcomb Hreg].
  change (batch requests w) with w1 in Hcomb, Hreg.
  set (c := nextPromise w) in *.
  set (first := requestId w + 1) in *.
  assert (Hsock : readyState w1 s = Some OPEN).
  { unfold readyState.
    destruct (@batch_frame requests w s c Hws Hrs) as [H _].
    change (batch requests w) with w1 in H. rewrite H. exact Hrs. }
  assert (Hpend : forall i, promiseState w1 (S c + i)%nat = None).
  { intros i. destruct (@batch_frame requests w s (S c + i)%nat Hws Hrs) as [_ H].
    change (batch requests w) with w1 in H. rewrite H; [|subst c; lia].
    apply (pl_fresh_settled HP). subst c. lia. }
  assert (E2 : w2 = fold_left (fun acc item => handleSingleMessage item acc) arrival w1).
  { subst w2. cbn [step]. rewrite Hsock. reflexivity. }
  assert (HP2 : PInv w2).
  { rewrite E2. unfold PInv. rewrite items_awaiting. apply items_PInvL. exact HP1. }
  assert (Hful : forall i v, nth_error results i = Some v ->
                   promiseState w2 (S c + i)%nat = Some (Fulfilled v)).
  { intros i v Hn. rewrite E2.
    apply (@responses_fulfil arrival (awaiting_promises (awaiting w1)) first (S c) w1).
    - exact HP1.
    - apply (Permutation_NoDup (l := map msg_id (responses first results))).
      + apply Permutation_map, Permutation_sym, Hperm.
      + apply responses_NoDup.
    - intros msg Hmsg. apply (Permutation_in _ Hperm) in Hmsg.
      apply In_responses in Hmsg. destruct Hmsg as (j & u & Hj & ->).
      exists j, u. split; [reflexivity|]. split; [|apply Hpend].
      assert (Hlt : (j < length requests)%nat).
      { rewrite <- Hlen. apply nth_error_Some. congruence. }
      destruct (nth_error requests j) as [[m ps]|] eqn:Hr;
        [|apply nth_error_None in Hr; lia].
      exact (Hreg j m ps Hr).
    - apply (Permutation_in _ (Permutation_sym Hperm)).
      apply In_responses. now exists i, v. }
  assert (Hrec : exists r, In r (combinators w2) /\ all_target r = c
                           /\ all_members r = seq (S c) (length results)).
  { pose proof (items_shape arrival w1) as Hs. rewrite <- E2 in Hs.
    rewrite Hcomb, map_app in Hs. cbn [map all_target all_members] in Hs.
    assert (Hin : In (c, seq (S c) (length requests))
                    (map (fun r => (all_target r, all_members r)) (combinators w2))).
    { rewrite Hs. apply in_or_app. right. now left. }
    apply in_map_iff in Hin. destruct Hin as (r & Hr & Hin).
    injection Hr as Ht Hm. exists r. rewrite Hlen. now repeat split. }
  destruct Hrec as (r & Hr & Ht & Hm).
  destruct (pl_coherent HP2 r Hr) as [F T]. rewrite Hm in F. rewrite Ht in T.
  pose proof (@collect_seq (promiseState w2) results (S c) (all_values r) F Hful) as Hc.
  destruct (promiseState w2 c) as [[x|e]|].
  - destruct T as (vs & Hvs & ->). congruence.
  - destruct T as (m & Hin & Hst). rewrite Hm in Hin. apply in_seq in Hin.
    assert (Hi : exists i, m = (S c + i)%nat /\ (i < length results)%nat)
      by (exists (m - S c)%nat; lia).
    destruct Hi as (i & -> & Hlt).
    destruct (nth_error results i) as [v|] eqn:Hn; [|apply nth_error_None in Hn; lia].
    rewrite (Hful i v Hn) in Hst. discriminate.
  - destruct T as [_ Hnone]. congruence.
Qed.

(** X14.  [batch([])] on an open socket: the empty array is sent as a frame, no id
    is used, the table stays as it is, and the promise is fulfilled with the
    empty array at once, without any response. *)
Theorem empty_batch_resolves_at_once : forall o events s,
  let w := run (initial o) events in
  ws w = Some s -> readyState w s = Some OPEN ->
  let w' := step w (CallBatch []) in
  promiseState w' (nextPromise w) = Some (Fulfilled (VArray []))
  /\ sent (trace w') = (s, WireBatch []) :: sent (trace w)
  /\ requestId w' = requestId w
  /\ pendingRequests w' = pendingRequests w.
Proof.
  intros o events s w Hws Hrs w'.
  pose proof (PInv_fresh_promise (PInv_run o events)) as Hfresh. fold w in Hfresh.
  assert (Hopen : ws_open (newPromise w) = true)
    by (unfold ws_open, readyState in *; simpl; now rewrite Hws, Hrs).
  assert (E : w' = settle_plain ByAll (nextPromise w) (Fulfilled (VArray []))
                     (set_combinators (combinators w ++ [mkAll (nextPromise w) [] []])
                        (log (Sent s (WireBatch [])) (newPromise w)))).
  { subst w'. cbn [step]. unfold batch. rewrite Hopen. unfold batch_body.
    cbn [assign_ids register_all]. unfold ws_send, readyState in *.
    cbn [ws sockets newPromise set_nextPromise]. rewrite Hws, Hrs. reflexivity. }
  rewrite E. split.
  - rewrite promiseState_settle_plain, Nat.eqb_refl.
    unfold promiseState in *. cbn. now rewrite Hfresh.
  - rewrite sent_settle_plain. unfold settle_plain.
    destruct (promiseState _ (nextPromise w)); repeat split.
Qed.

(** ** The setup domain client *)

Lemma request_open_frame : forall method params w s,
  ws w = Some s -> readyState w s = Some OPEN -> Inv w ->
  let w' := request method params w in
  ws w' = Some s /\ readyState w' s = Some OPEN /\ Inv w'
  /\ requestId w' = requestId w + 1
  /\ sent (trace w')
     = (s, WireRequest (mkJrpcRequest method params (requestId w + 1))) :: sent (trace w).
Proof.
  intros method params w s Hws Hrs HI w'.
  assert (HI' : Inv w') by (apply (request_preserves method params w), HI).
  subst w'. rewrite (request_open method params Hws Hrs HI) in *.
  split; [exact Hws|]. split; [exact Hrs|]. split; [exact HI'|]. split; reflexivity.
Qed.

(** The frames a sequence of [request] calls sends on an open socket. *)
Lemma requests_sent : forall requests w s,
  ws w = Some s -> readyState w s = Some OPEN -> Inv w ->
  sent (trace (fold_left (fun acc r => request (fst r) (snd r) acc) requests w))
  = (rev (map (fun r => (s, WireRequest r)) (numbered (requestId w + 1) requests))
     ++ sent (trace w))%list.
Proof.
  induction requests as [|[m ps] rest IH]; intros w s Hws Hrs HI; [reflexivity|].
  cbn [fold_left fst snd numbered map rev].
  destruct (@request_open_frame m ps w s Hws Hrs HI) as (A1 & A2 & A3 & A4 & A5).
  rewrite (IH _ s A1 A2 A3), A4, A5, <- app_assoc. reflexivity.
Qed.

Lemma wire_requests_single : forall (s : SocketId) rs,
  flat_map (fun sf : SocketId * Wire => frame_requests (snd sf))
    (map (fun r => (s, WireRequest r)) rs) = rs.
Proof. induction rs as [|r rs IH]; simpl; [reflexivity | now rewrite IH]. Qed.

(** A batch puts on the wire the requests that the same calls made one by
    one would put there, with the same ids, in one frame. *)
Lemma batch_is_requests_in_one_frame : forall requests w s,
  ws w = Some s -> readyState w s = Some OPEN -> Inv w ->
  let one_by_one := fold_left (fun acc r => request (fst r) (snd r) acc) requests w in
  let batched := batch requests w in
  wire_requests (trace batched)
  = (wire_requests (trace w) ++ numbered (requestId w + 1) requests)%list
  /\ wire_requests (trace one_by_one) = wire_requests (trace batched)
  /\ length (sent (trace batched)) = S (length (sent (trace w)))
  /\ length (sent (trace one_by_one)) = (length requests + length (sent (trace w)))%nat.
Proof.
  intros requests w s Hws Hrs HI one_by_one batched.
  pose proof (@batch_sends_frame requests w s Hws Hrs) as Hb. fold batched in Hb.
  pose proof (@requests_sent requests w s Hws Hrs HI) as Ho. fold one_by_one in Ho.
  assert (Hw : wire_requests (trace batched)
               = (wire_requests (trace w) ++ numbered (requestId w + 1) requests)%list).
  { unfold wire_requests. rewrite Hb. cbn [rev]. rewrite flat_map_app. simpl.
    now rewrite app_nil_r. }
  split; [exact Hw|]. split; [|split].
  - rewrite Hw. unfold wire_requests. rewrite Ho, rev_app_distr, rev_involutive, flat_map_app.
    now rewrite wire_requests_single.
  - now rewrite Hb.
  - rewrite Ho, length_app, length_rev, length_map. f_equal.
    clear. generalize (requestId w + 1). induction requests as [|[m ps] rest IH]; intros z;
      simpl; [reflexivity | now rewrite IH].
Qed.

Lemma fold_left_map : forall (A B C : Type) (f : A -> B -> A) (g : C -> B) l a,
  fold_left f (map g l) a = fold_left (fun acc x => f acc (g x)) l a.
Proof. induction l as [|x l IH]; intros a; simpl; [reflexivity | apply IH]. Qed.

(** X15.  [setup.batchGet(paths)] and [setup.batchSet(operations)] on an open
    socket send one frame each.  The frame of [batchGet] lists one
    [setup_get] request per path with the params [{path}], in the order of
    the paths and with consecutive ids; these are the very requests, ids
    included, that one [setup.get(path)] call per path would send in as many
    frames.  The same holds for [batchSet] and [setup.set(path, value)]. *)
Theorem setup_batches_are_single_frames : forall o events s,
  let w := run (initial o) events in
  ws w = Some s -> readyState w s = Some OPEN ->
  (forall paths,
     sent (trace (SetupClient_batchGet paths w))
     = (s, WireBatch
             (numbered (requestId w + 1)
                (map (fun path => ("setup_get", VObject [("path", VString path)])) paths)))
       :: sent (trace w)
     /\ wire_requests (trace (fold_left (fun acc path => SetupClient_get path acc) paths w))
        = wire_requests (trace (SetupClient_batchGet paths w))
     /\ length (sent (trace (fold_left (fun acc path => SetupClient_get path acc) paths w)))
        = (length paths + length (sent (trace w)))%nat)
  /\ (forall operations,
        sent (trace (SetupClient_batchSet operations w))
        = (s, WireBatch
                (numbered (requestId w + 1)
                   (map (fun op => ("setup_set",
                                    VObject [("path", VString (fst op)); ("value", snd op)]))
                      operations)))
          :: sent (trace w)
        /\ wire_requests
             (trace (fold_left (fun acc op => SetupClient_set (fst op) (snd op) acc)
                       operations w))
           = wire_requests (trace (SetupClient_batchSet operations w))
        /\ length (sent (trace (fold_left
                                  (fun acc op => SetupClient_set (fst op) (snd op) acc)
                                  operations w)))
           = (length operations + length (sent (trace w)))%nat).
Proof.
  intros o events s w Hws Hrs.
  pose proof (Inv_run o events) as HI. fold w in HI.
  split.
  - intros paths. unfold SetupClient_batchGet.
    set (requests := map (fun path => ("setup_get", VObject [("path", VString path)])) paths).
    destruct (@batch_is_requests_in_one_frame requests w s Hws Hrs HI) as (_ & B2 & _ & B4).
    pose proof (@batch_sends_frame requests w s Hws Hrs) as B1.
    subst requests. rewrite fold_left_map in B2, B4. rewrite length_map in B4.
    split; [exact B1|]. split; [exact B2 | exact B4].
  - intros operations. unfold SetupClient_batchSet.
    set (requests := map (fun op => ("setup_set",
                                     VObject [("path", VString (fst op)); ("value", snd op)]))
                       operations).
    destruct (@batch_is_requests_in_one_frame requests w s Hws Hrs HI) as (_ & B2 & _ & B4).
    pose proof (@batch_sends_frame requests w s Hws Hrs) as B1.
    subst requests. rewrite fold_left_map in B2, B4. rewrite length_map in B4.
    split; [exact B1|]. split; [exact B2 | exact B4].
Qed.

(** ** Reconnecting *)

Lemma handleDisconnect_on : forall w,
  opt_reconnect (options w) = true -> state w <> state_error ->
  handleDisconnect w
  = set_reconnectTimer (Some (nextTimer w))
      (setTimeout ReconnectAttempt (opt_reconnectDelay (options w)) w).
Proof.
  intros w Hon Hst. unfold handleDisconnect. rewrite Hon.
  destruct (state w); try reflexivity. congruence.
Qed.

(** X16.  The socket of the client closes while the [reconnect] option is on.
    The close handler sets the state to disconnected and arms one timer with
    the [reconnectDelay] option, whose handle it keeps in [reconnectTimer].
    When that timer expires, [connect] runs: a new socket is created, it
    becomes [this.ws], and the state is connecting. *)
Theorem closed_socket_is_reconnected : forall o events s r,
  let w := run (initial o) events in
  opt_reconnect o = true ->
  ws w = Some s -> readyState w s = Some r -> r <> CLOSED ->
  let w1 := step w (SocketClose s) in
  let w2 := step w1 (TimerFire (nextTimer w)) in
  let s' := length (sockets w) in
  (getState w1 = state_disconnected
   /\ reconnectTimer w1 = Some (nextTimer w)
   /\ timers w1
      = (timers w ++ [(nextTimer w, (opt_reconnectDelay o, ReconnectAttempt))])%list)
  /\ (ws w2 = Some s' /\ readyState w2 s' = Some CONNECTING
      /\ getState w2 = state_connecting
      /\ timers w2 = timers w
      /\ trace w2 = ConsoleLog "Attempting to reconnect..." :: trace w).
Proof.
  intros o events s r w Hon Hws Hrs Hr w1 w2 s'.
  pose proof (Inv_run o events) as HI. pose proof (options_run o events) as Ho.
  fold w in HI, Ho.
  set (wc := set_state state_disconnected (set_readyState s CLOSED w)).
  assert (E1 : w1 = set_reconnectTimer (Some (nextTimer w))
                      (setTimeout ReconnectAttempt (opt_reconnectDelay o) wc)).
  { subst w1. cbn [step]. rewrite Hrs.
    assert (E : onclose (set_readyState s CLOSED w)
                = set_reconnectTimer (Some (nextTimer w))
                    (setTimeout ReconnectAttempt (opt_reconnectDelay o) wc)).
    { unfold onclose. fold wc. rewrite handleDisconnect_on.
      - subst wc. cbn [options set_state set_readyState set_sockets nextTimer]. now rewrite Ho.
      - subst wc. cbn [options set_state set_readyState set_sockets]. now rewrite Ho.
      - subst wc. cbn [state set_state]. discriminate. }
    destruct r; try exact E. congruence. }
  assert (Hlen : length (sockets w1) = length (sockets w)).
  { rewrite E1. subst wc. cbn. apply set_nth_length. }
  assert (Hclosed : ws_open w1 = false).
  { rewrite E1. unfold ws_open, readyState. subst wc. cbn. rewrite Hws.
    now rewrite (@nth_error_set_nth _ (sockets w) s CLOSED r Hrs). }
  assert (Hget : handle_get (nextTimer w) (timers w1)
                 = Some (opt_reconnectDelay o, ReconnectAttempt)).
  { rewrite E1. subst wc. cbn. apply handle_get_snoc, (Inv_fresh_timer HI). }
  split.
  - rewrite E1. unfold getState. subst wc. cbn. repeat split.
  - set (wd := log (ConsoleLog "Attempting to reconnect...") (clearTimeout (nextTimer w) w1)).
    assert (Hclosed' : ws_open wd = false) by exact Hclosed.
    assert (E2 : w2 = open_socket (Some KReconnectCatch) wd).
    { subst w2. cbn [step]. rewrite Hget. cbn [run_timer]. fold wd.
      unfold connect. now rewrite Hclosed'. }
    assert (Hsd : sockets wd = sockets w1) by reflexivity.
    assert (Htd : timers wd = timers w).
    { subst wd. rewrite E1. subst wc. cbn. apply handle_remove_snoc, (Inv_fresh_timer HI). }
    assert (Hrd : trace wd = ConsoleLog "Attempting to reconnect..." :: trace w).
    { subst wd. rewrite E1. reflexivity. }
    clearbody wd. rewrite E2. unfold open_socket, getState, readyState. cbn.
    rewrite Hsd, Hlen, Htd, Hrd. fold s'.
    repeat split. subst s'. rewrite <- Hlen. apply nth_error_snoc.
Qed.

Lemma resume_catch : forall w, resume KReconnectCatch w = w.
Proof. reflexivity. Qed.

Lemma abort_catch : forall e w,
  abort e KReconnectCatch w = log (ConsoleError "Reconnection failed:") w.
Proof. reflexivity. Qed.

(** X17.  A reconnect timer expires on a client whose socket is not open.  The
    attempt is announced on the console and a new socket is created.  If
    that socket fails, the failure is written to the console, caught, and a
    new reconnect timer is armed: the client tries again after every
    [reconnectDelay], without a limit.  If it opens, the client is connected
    and holds no reconnect handle. *)
Theorem reconnect_attempt_is_retried : forall o events t d,
  let w := run (initial o) events in
  ws_open w = false ->
  handle_get t (timers w) = Some (d, ReconnectAttempt) ->
  let s := length (sockets w) in
  let w1 := step w (TimerFire t) in
  let failed := step w1 (SocketFail s) in
  let opened := step w1 (SocketOpen s) in
  (ws w1 = Some s /\ readyState w1 s = Some CONNECTING
   /\ getState w1 = state_connecting
   /\ trace w1 = ConsoleLog "Attempting to reconnect..." :: trace w)
  /\ (getState failed = state_disconnected
      /\ trace failed = ConsoleError "Reconnection failed:" :: trace w1
      /\ reconnectTimer failed = Some (nextTimer w)
      /\ In (nextTimer w, (opt_reconnectDelay o, ReconnectAttempt)) (timers failed))
  /\ (getState opened = state_connected
      /\ reconnectTimer opened = None
      /\ ws_open opened = true
      /\ trace opened = trace w1).
Proof.
  intros o events t d w Hclosed Hget s w1 failed opened.
  pose proof (CInv_run o events) as HC. pose proof (options_run o events) as Ho.
  fold w in HC, Ho.
  assert (Hon : opt_reconnect (options w) = true).
  { apply handle_get_In in Hget. exact (proj2 (c_reconnect_delay HC _ _ Hget)). }
  set (wd := log (ConsoleLog "Attempting to reconnect...") (clearTimeout t w)).
  assert (Hclosed' : ws_open wd = false) by exact Hclosed.
  assert (E1 : w1 = set_awaiting (awaiting w ++ [(s, KReconnectCatch)])
                      (set_ws (Some s)
                         (set_sockets (sockets w ++ [CONNECTING])
                            (set_state state_connecting wd)))).
  { subst w1. cbn [step]. rewrite Hget. cbn [run_timer]. fold wd.
    unfold connect. rewrite Hclosed'. reflexivity. }
  assert (Hrs1 : readyState w1 s = Some CONNECTING).
  { rewrite E1. unfold readyState. cbn. apply nth_error_snoc. }
  assert (Hfresh : forall s' k', In (s', k') (awaiting w) -> s' <> s).
  { intros s' k' Hin. pose proof (c_awaiting HC _ _ Hin). subst s. lia. }
  split; [|split].
  - rewrite E1. unfold getState, readyState. cbn. repeat split. apply nth_error_snoc.
  - set (wa := set_state state_error (set_readyState s CLOSED w1)).
    assert (Ea : onerror s (set_readyState s CLOSED w1)
                 = log (ConsoleError "Reconnection failed:") (set_awaiting (awaiting w) wa)).
    { unfold onerror. fold wa.
      rewrite (@settle_connect_new (abort (Error "WebSocket error: [object Event]"))
                 (awaiting w) KReconnectCatch s wa Hfresh);
        [apply abort_catch | subst wa; rewrite E1; reflexivity]. }
    set (we := log (ConsoleError "Reconnection failed:") (set_awaiting (awaiting w) wa)) in Ea.
    assert (F : options we = options w /\ nextTimer we = nextTimer w
                /\ trace we = ConsoleError "Reconnection failed:" :: trace w1).
    { subst we wa. rewrite E1. repeat split. }
    destruct F as (F1 & F2 & F3).
    assert (E2 : failed = set_reconnectTimer (Some (nextTimer w))
                            (setTimeout ReconnectAttempt (opt_reconnectDelay o)
                               (set_state state_disconnected we))).
    { subst failed. cbn [step]. rewrite Hrs1, Ea. unfold onclose.
      rewrite handleDisconnect_on.
      - cbn [options set_state nextTimer]. now rewrite F1, F2, Ho.
      - cbn [options set_state]. now rewrite F1.
      - cbn [state set_state]. discriminate. }
    clearbody we. rewrite E2. unfold getState. cbn. rewrite F2, F3.
    repeat split. apply in_or_app. right. now left.
  - set (wa := set_state state_connected (set_readyState s OPEN w1)).
    set (wb := match reconnectTimer wa with
               | Some t' => set_reconnectTimer None (clearTimeout t' wa)
               | None => wa
               end).
    assert (Haw : awaiting wb = (awaiting w ++ [(s, KReconnectCatch)])%list).
    { subst wb wa. rewrite E1. cbn. destruct (reconnectTimer w); reflexivity. }
    assert (E3 : opened = set_awaiting (awaiting w) wb).
    { subst opened. cbn [step]. rewrite Hrs1. unfold onopen. cbv zeta. fold wa. fold wb.
      rewrite (@settle_connect_new resume (awaiting w) KReconnectCatch s wb Hfresh Haw).
      apply resume_catch. }
    assert (G : state wb = state_connected /\ reconnectTimer wb = None
                /\ ws wb = Some s /\ sockets wb = (sockets w ++ [OPEN])%list
                /\ trace wb = trace w1).
    { subst wb wa. rewrite E1. cbn.
      destruct (reconnectTimer w) eqn:Er; cbn; repeat split;
        try (subst s; apply set_nth_snoc); exact Er. }
    destruct G as (G1 & G2 & G3 & G4 & G5).
    clearbody wb. rewrite E3. unfold getState, ws_open, readyState. cbn.
    rewrite G1, G2, G3, G4, G5. subst s. rewrite nth_error_snoc. repeat split.
Qed.

(** ** The ids on the wire *)

Lemma wire_quiet_refl : forall w, wire_quiet w w.
Proof. intros w. now split. Qed.

Lemma wire_quiet_trans : forall w1 w2 w3,
  wire_quiet w1 w2 -> wire_quiet w2 w3 -> wire_quiet w1 w3.
Proof. intros w1 w2 w3 [A1 A2] [B1 B2]. split; congruence. Qed.

Lemma wire_step_refl : forall w, wire_step w w.
Proof. intros w. split; [lia | auto]. Qed.

Lemma wire_step_trans : forall w1 w2 w3,
  wire_step w1 w2 -> wire_step w2 w3 -> wire_step w1 w3.
Proof.
  intros w1 w2 w3 [A1 A2] [B1 B2]. split; [lia|].
  intros H0 HW. apply B2; [lia | now apply A2].
Qed.

Lemma wire_quiet_step : forall w w', wire_quiet w w' -> wire_step w w'.
Proof.
  intros w w' [Hs Hr]. split; [lia|]. intros _ [S1 S2].
  unfold WInv, wire_ids, wire_requests in *. rewrite Hs, Hr. now split.
Qed.

Lemma StronglySorted_lt_app : forall (l1 l2 : list Z),
  StronglySorted Z.lt l1 -> StronglySorted Z.lt l2 ->
  (forall x y, In x l1 -> In y l2 -> x < y) ->
  StronglySorted Z.lt (l1 ++ l2).
Proof.
  induction l1 as [|a l1 IH]; intros l2 S1 S2 H; simpl; [exact S2|].
  inversion S1 as [|? ? S1' Ha]; subst. constructor.
  - apply IH; [exact S1' | exact S2 |]. intros x y Hx Hy. apply H; [now right | exact Hy].
  - apply Forall_app. split; [exact Ha|].
    apply Forall_forall. intros y Hy. apply H; [now left | exact Hy].
Qed.

Lemma numbered_ids : forall requests first,
  StronglySorted Z.lt (map req_id (numbered first requests))
  /\ forall id, In id (map req_id (numbered first requests)) ->
       first <= id < first + Z.of_nat (length requests).
Proof.
  induction requests as [|[m ps] rest IH]; intros first; simpl.
  - split; [constructor | tauto].
  - destruct (IH (first + 1)) as [S1 S2]. split.
    + constructor; [exact S1|]. apply Forall_forall. intros y Hy.
      pose proof (S2 y Hy). simpl. lia.
    + intros id [<- | Hin]; [lia|]. pose proof (S2 id Hin). lia.
Qed.

(** Sending a frame whose ids are increasing and above the old counter. *)
Lemma wire_send : forall w w' s f,
  sent (trace w') = (s, f) :: sent (trace w) ->
  StronglySorted Z.lt (map req_id (frame_requests f)) ->
  (forall id, In id (map req_id (frame_requests f)) -> requestId w < id <= requestId w') ->
  requestId w <= requestId w' ->
  wire_step w w'.
Proof.
  intros w w' s f Hs Hsorted Hids Hle. split; [exact Hle|]. intros H0 [S1 S2].
  assert (E : wire_ids (trace w') = (wire_ids (trace w) ++ map req_id (frame_requests f))%list).
  { unfold wire_ids, wire_requests. rewrite Hs. cbn [rev]. rewrite flat_map_app, map_app.
    simpl. now rewrite app_nil_r. }
  unfold WInv. rewrite E. split.
  - apply StronglySorted_lt_app; [exact S1 | exact Hsorted|].
    intros x y Hx Hy. pose proof (S2 x Hx). pose proof (Hids y Hy). lia.
  - intros id Hin. apply in_app_or in Hin. destruct Hin as [Hin | Hin].
    + pose proof (S2 id Hin). lia.
    + pose proof (Hids id Hin). lia.
Qed.

Lemma wire_bump : forall w w',
  sent (trace w') = sent (trace w) -> requestId w <= requestId w' -> wire_step w w'.
Proof.
  intros w w' Hs Hle. split; [exact Hle|]. intros _ [S1 S2].
  unfold WInv, wire_ids, wire_requests in *. rewrite Hs.
  split; [exact S1 | intros x Hx; pose proof (S2 x Hx); lia].
Qed.

Lemma settle_requestId : forall via p o w, requestId (settle via p o w) = requestId w.
Proof. intros. destruct (settle_only via p o w) as (st & cs & tr & ->). reflexivity. Qed.

Lemma sent_log_Sent : forall s f w,
  sent (trace (log (Sent s f) w)) = (s, f) :: sent (trace w).
Proof. reflexivity. Qed.

Lemma request_body_wire : forall method params p w,
  wire_step w (request_body method params p w).
Proof.
  intros method params p w. rewrite request_body_unfold. cbv zeta.
  set (id := requestId w + 1).
  set (w3 := set_pendingRequests _ _).
  assert (H3 : sent (trace w3) = sent (trace w)) by reflexivity.
  assert (H3' : requestId w3 = id) by reflexivity.
  assert (Hb : wire_step w w3) by (apply wire_bump; [exact H3 | rewrite H3'; subst id; lia]).
  assert (Hfail : forall e, wire_step w (settle BySendFailure p (Rejected e) w3)).
  { intros e. apply wire_step_trans with w3; [exact Hb|].
    apply wire_quiet_step. split; [apply sent_settle | apply settle_requestId]. }
  clearbody w3. unfold ws_send. destruct (ws w3) as [s|]; [|apply Hfail].
  destruct (readyState w3 s) as [[]|]; try exact Hb; [apply Hfail|].
  apply (@wire_send w _ s (WireRequest (mkJrpcRequest method params id))).
  - now rewrite sent_log_Sent, H3.
  - cbn. repeat constructor.
  - cbn [frame_requests map req_id]. intros x [<- | []].
    change (requestId (log (Sent s (WireRequest (mkJrpcRequest method params id))) w3))
      with (requestId w3).
    rewrite H3'. subst id. lia.
  - change (requestId (log (Sent s (WireRequest (mkJrpcRequest method params id))) w3))
      with (requestId w3).
    rewrite H3'. subst id. lia.
Qed.

Lemma requestId_log : forall e w, requestId (log e w) = requestId w.
Proof. reflexivity. Qed.

Lemma batch_body_wire : forall requests c w, wire_step w (batch_body requests c w).
Proof.
  intros requests c w. unfold batch_body.
  pose proof (assign_ids_numbered requests w) as (N1 & N2 & N3 & _).
  destruct (assign_ids requests w) as [rs w1]. cbn [fst snd] in *.
  pose proof (register_all_trace rs w1) as (T1 & T2).
  destruct (register_all rs w1) as [promises w2]. cbn [fst snd] in *.
  assert (Hs2 : sent (trace w2) = sent (trace w)) by now rewrite T1.
  assert (Hr2 : requestId w2 = requestId w + Z.of_nat (length requests)) by congruence.
  assert (Hb : wire_step w w2) by (apply wire_bump; [exact Hs2 | lia]).
  assert (Hall : forall w3, wire_step w w3 -> wire_step w (promise_all c promises w3)).
  { intros w3 H3. apply wire_step_trans with w3; [exact H3|].
    apply wire_quiet_step. destruct (promise_all_trace c promises w3) as (P1 & _ & P3).
    now split. }
  assert (Hfail : forall e, wire_step w (settle BySendFailure c (Rejected e) w2)).
  { intros e. apply wire_step_trans with w2; [exact Hb|].
    apply wire_quiet_step. split; [apply sent_settle | apply settle_requestId]. }
  unfold ws_send. destruct (ws w2) as [s|]; [|apply Hfail].
  destruct (readyState w2 s) as [[]|]; try (apply Hall; exact Hb); [apply Hfail|].
  apply Hall. destruct (numbered_ids requests (requestId w + 1)) as [S1 S2].
  apply (@wire_send w _ s (WireBatch rs)).
  - now rewrite sent_log_Sent, Hs2.
  - cbn [frame_requests]. now rewrite N1.
  - cbn [frame_requests]. rewrite N1. intros id Hin. pose proof (S2 id Hin).
    rewrite requestId_log. lia.
  - rewrite requestId_log. lia.
Qed.

Lemma resume_wire : forall k w, wire_step w (resume k w).
Proof.
  intros [method params p | requests c |] w; cbn [resume].
  - apply request_body_wire.
  - apply batch_body_wire.
  - apply wire_step_refl.
Qed.

Lemma open_socket_wire : forall k w, wire_quiet w (open_socket k w).
Proof. intros [k|] w; now split. Qed.

Lemma connect_wire : forall k w, wire_step w (connect k w).
Proof.
  intros k w. unfold connect. destruct (ws_open w).
  - destruct k; [apply resume_wire | apply wire_step_refl].
  - apply wire_quiet_step, open_socket_wire.
Qed.

Lemma request_wire : forall method params w, wire_step w (request method params w).
Proof.
  intros method params w. unfold request.
  apply wire_step_trans with (newPromise w); [apply wire_quiet_step; now split|].
  destruct (ws_open (newPromise w)); [apply request_body_wire | apply connect_wire].
Qed.

Lemma batch_wire : forall requests w, wire_step w (batch requests w).
Proof.
  intros requests w. unfold batch.
  apply wire_step_trans with (newPromise w); [apply wire_quiet_step; now split|].
  destruct (ws_open (newPromise w)); [apply batch_body_wire | apply connect_wire].
Qed.

Lemma fold_wire_step : forall (A : Type) (f : World -> A -> World) (l : list A) w,
  (forall a w', wire_step w' (f w' a)) -> wire_step w (fold_left f l w).
Proof.
  intros A f l. induction l as [|a l IH]; intros w Hf; simpl; [apply wire_step_refl|].
  eapply wire_step_trans; [apply Hf | apply IH, Hf].
Qed.

Lemma fold_wire_quiet : forall (A : Type) (f : World -> A -> World) (l : list A) w,
  (forall a w', wire_quiet w' (f w' a)) -> wire_quiet w (fold_left f l w).
Proof.
  intros A f l. induction l as [|a l IH]; intros w Hf; simpl; [apply wire_quiet_refl|].
  eapply wire_quiet_trans; [apply Hf | apply IH, Hf].
Qed.

Lemma pending_reject_wire : forall via pending e w,
  wire_quiet w (pending_reject via pending e w).
Proof.
  intros. unfold pending_reject. split.
  - now rewrite sent_settle, sent_clear_pending_timer.
  - rewrite settle_requestId. unfold clear_pending_timer.
    destruct (pend_timer pending); reflexivity.
Qed.

Lemma disconnect_wire : forall w, wire_quiet w (disconnect w).
Proof.
  intros w. unfold disconnect. cbv zeta.
  set (w1 := match reconnectTimer w with
             | Some t => set_reconnectTimer None (clearTimeout t w)
             | None => w
             end).
  assert (H1 : wire_quiet w w1) by (subst w1; destruct (reconnectTimer w); now split).
  set (w2 := match ws w1 with Some s => set_ws None (ws_close s w1) | None => w1 end).
  assert (H2 : wire_quiet w1 w2).
  { subst w2. destruct (ws w1) as [s|]; [|apply wire_quiet_refl].
    unfold ws_close. destruct (readyState (log (CloseCalled s) w1) s) as [[]|]; now split. }
  clearbody w2 w1.
  apply wire_quiet_trans with w1; [exact H1|]. apply wire_quiet_trans with w2; [exact H2|].
  apply wire_quiet_trans with (reject_all (set_state state_disconnected w2)); [|now split].
  apply wire_quiet_trans with (set_state state_disconnected w2); [now split|].
  unfold reject_all. apply fold_wire_quiet. intros a w'. apply pending_reject_wire.
Qed.

Lemma handleMessage_wire : forall data w, wire_quiet w (handleMessage data w).
Proof.
  assert (One : forall msg w, wire_quiet w (handleSingleMessage msg w)).
  { intros msg w. destruct (handleSingleMessage_frame msg w) as (Hk & Hs & _).
    split; [exact Hs|]. destruct Hk as (_ & K2 & _). exact K2. }
  intros [|items|msg|value] w; [cbn [handleMessage] .. |].
  - now split.
  - apply fold_wire_quiet. intros a w'. apply One.
  - apply One.
  - destruct (Parsed_frame_kept value w) as ((_ & _ & K & _) & Hs & _). now split.
Qed.

Lemma settle_connect_wire : forall s (f : Continuation -> World -> World) w,
  (forall k w', wire_step w' (f k w')) -> wire_step w (settle_connect s f w).
Proof.
  intros s f w Hf. unfold settle_connect. cbv zeta.
  match goal with |- wire_step _ (fold_left _ _ ?x) =>
    apply wire_step_trans with x; [apply wire_quiet_step; now split|] end.
  apply fold_wire_step. intros a w'. apply Hf.
Qed.

Lemma onopen_wire : forall s w, wire_step w (onopen s w).
Proof.
  intros s w. unfold onopen. cbv zeta.
  match goal with |- wire_step _ (settle_connect _ _ ?x) =>
    apply wire_step_trans with x end.
  - apply wire_quiet_step. cbn [reconnectTimer set_state].
    destruct (reconnectTimer w); now split.
  - apply settle_connect_wire. intros k w'. apply resume_wire.
Qed.

Lemma onerror_wire : forall s w, wire_quiet w (onerror s w).
Proof.
  intros s w. destruct (onerror_frame s w) as (_ & A2 & _ & _ & _ & _ & _ & _ & _ & A10).
  now split.
Qed.

Lemma onclose_wire : forall w, wire_quiet w (onclose w).
Proof.
  intros w. destruct (onclose_frame w) as (_ & A2 & _ & _ & A5 & _). split; [|exact A2].
  now rewrite A5.
Qed.

Lemma run_timer_wire : forall cb w, wire_step w (run_timer cb w).
Proof.
  intros [id method p|] w; cbn [run_timer].
  - apply wire_quiet_step. split; [now rewrite sent_settle | now rewrite settle_requestId].
  - eapply wire_step_trans; [|apply connect_wire]. apply wire_quiet_step. now split.
Qed.

Lemma step_wire : forall w e, wire_step w (step w e).
Proof.
  intros w [| | method params | requests | s | s data | s | s | t]; cbn [step].
  - apply connect_wire.
  - apply wire_quiet_step, disconnect_wire.
  - apply request_wire.
  - apply batch_wire.
  - destruct (readyState w s) as [[]|]; try apply wire_step_refl.
    eapply wire_step_trans; [|apply onopen_wire]. apply wire_quiet_step. now split.
  - destruct (readyState w s) as [[]|]; try apply wire_step_refl.
    apply wire_quiet_step, handleMessage_wire.
  - destruct (readyState w s) as [[]|]; try apply wire_step_refl;
      (eapply wire_step_trans; [|apply wire_quiet_step, onclose_wire];
       apply wire_quiet_step; now split).
  - destruct (readyState w s) as [[]|]; try apply wire_step_refl;
      (eapply wire_step_trans; [|apply wire_quiet_step, onclose_wire];
       eapply wire_step_trans; [|apply wire_quiet_step, onerror_wire];
       apply wire_quiet_step; now split).
  - destruct (handle_get t (timers w)) as [[d cb]|]; [|apply wire_step_refl].
    eapply wire_step_trans; [|apply run_timer_wire]. apply wire_quiet_step. now split.
Qed.

Lemma run_wire : forall events w, wire_step w (run w events).
Proof.
  unfold run. induction events as [|e events IH]; intros w; simpl; [apply wire_step_refl|].
  eapply wire_step_trans; [apply step_wire | apply IH].
Qed.

(** X18.  In every run the ids the client puts on the wire, over all frames and
    sockets and in the order of sending, are strictly increasing: no id is
    ever sent twice, whether by [request], by [batch], or after a
    reconnect, and none exceeds the counter. *)
Theorem wire_ids_strictly_increase : forall o events,
  let w := run (initial o) events in
  StronglySorted Z.lt (wire_ids (trace w))
  /\ NoDup (wire_ids (trace w))
  /\ forall id, In id (wire_ids (trace w)) -> 0 < id <= requestId w.
Proof.
  intros o events w.
  destruct (run_wire events (initial o)) as [_ H].
  assert (HW : WInv w).
  { apply H; [simpl; lia|]. split; [constructor | intros id []]. }
  destruct HW as [S1 S2]. split; [exact S1|]. split; [|exact S2].
  clear S2. induction S1 as [|a l S1 IH Ha]; constructor; [|exact IH].
  intros Hin. rewrite Forall_forall in Ha. pose proof (Ha a Hin). lia.
Qed.

(** ** [connect] *)

Lemma settle_connect_none : forall (f : Continuation -> World -> World) s w,
  (forall s' k', In (s', k') (awaiting w) -> s' <> s) ->
  settle_connect s f w = w.
Proof.
  intros f s w Hl. unfold settle_connect. cbv zeta.
  assert (N : forall x, In x (awaiting w) -> Nat.eqb (fst x) s = false).
  { intros [s' k'] Hin. apply Nat.eqb_neq. exact (Hl s' k' Hin). }
  match goal with
  | |- fold_left _ ?X (set_awaiting ?Y w) = w =>
      assert (EX : X = []) by (apply filter_none; exact N);
      assert (EY : Y = awaiting w)
        by (apply filter_all; intros x Hx; apply negb_true_iff; exact (N x Hx));
      rewrite EX, EY
  end.
  destruct w. reflexivity.
Qed.

(** X19.  [connect()] called directly.  On an open socket it returns at once and
    changes nothing.  Otherwise it creates a socket, makes it [this.ws] and
    sets the state to connecting; a second call before the open event
    creates a second socket, because only an open socket stops it.  Once the
    socket opens the client is connected, holds no reconnect handle, and a
    further [connect()] changes nothing. *)
Theorem connect_opens_a_socket_unless_open : forall o events,
  let w := run (initial o) events in
  (ws_open w = true -> step w CallConnect = w)
  /\ (ws_open w = false ->
      let s := length (sockets w) in
      let w1 := step w CallConnect in
      let w2 := step w1 (SocketOpen s) in
      (ws w1 = Some s /\ sockets w1 = (sockets w ++ [CONNECTING])%list
       /\ getState w1 = state_connecting /\ trace w1 = trace w)
      /\ sockets (step w1 CallConnect) = (sockets w ++ [CONNECTING; CONNECTING])%list
      /\ (ws_open w2 = true /\ getState w2 = state_connected
          /\ reconnectTimer w2 = None /\ step w2 CallConnect = w2)).
Proof.
  intros o events w. split.
  - intros Hopen. cbn [step]. unfold connect. now rewrite Hopen.
  - intros Hclosed s w1 w2.
    pose proof (CInv_run o events) as HC. fold w in HC.
    assert (E1 : w1 = set_ws (Some s)
                        (set_sockets (sockets w ++ [CONNECTING])
                           (set_state state_connecting w))).
    { subst w1. cbn [step]. unfold connect. now rewrite Hclosed. }
    assert (Hrs1 : readyState w1 s = Some CONNECTING).
    { rewrite E1. unfold readyState. cbn. apply nth_error_snoc. }
    assert (Hclosed1 : ws_open w1 = false).
    { rewrite E1. unfold ws_open, readyState. cbn. subst s. now rewrite nth_error_snoc. }
    split; [rewrite E1; now repeat split|]. split.
    + cbn [step]. unfold connect. rewrite Hclosed1. rewrite E1. cbn.
      now rewrite <- app_assoc.
    + set (wa := set_state state_connected (set_readyState s OPEN w1)).
      set (wb := match reconnectTimer wa with
                 | Some t => set_reconnectTimer None (clearTimeout t wa)
                 | None => wa
                 end).
      assert (G : state wb = state_connected /\ reconnectTimer wb = None
                  /\ ws wb = Some s /\ sockets wb = (sockets w ++ [OPEN])%list
                  /\ awaiting wb = awaiting w).
      { subst wb wa. rewrite E1. cbn.
        destruct (reconnectTimer w) eqn:Er; cbn; repeat split;
          try (subst s; apply set_nth_snoc); exact Er. }
      destruct G as (G1 & G2 & G3 & G4 & G5).
      assert (E2 : w2 = wb).
      { subst w2. cbn [step]. rewrite Hrs1. unfold onopen. cbv zeta. fold wa. fold wb.
        apply settle_connect_none. intros s' k' Hin. rewrite G5 in Hin.
        pose proof (c_awaiting HC _ _ Hin). subst s. lia. }
      clearbody wb. rewrite E2.
      assert (Hopen2 : ws_open wb = true).
      { unfold ws_open, readyState. rewrite G3, G4. subst s. now rewrite nth_error_snoc. }
      unfold getState. repeat split; try assumption.
      cbn [step]. unfold connect. now rewrite Hopen2.
Qed.

(** ** Calls that wait for the connection *)

Lemma disconnect_awaiting : forall w, awaiting (disconnect w) = awaiting w.
Proof.
  intros w. destruct (disconnect_unfold w) as (w3 & E & _ & _ & _ & _ & _ & _ & _ & _ & A & _).
  rewrite E. cbn [awaiting set_pendingRequests].
  destruct (reject_entries_kept (pendingRequests w) w3) as (_ & _ & _ & _ & _ & _ & _ & _ & _ & K).
  congruence.
Qed.

(** X20.  A [request] or [batch] call that is suspended at [await this.connect()]
    holds a pending promise, and [disconnect()] does not touch it: the call
    stays suspended and its promise stays pending, because [disconnect]
    rejects the entries of the table only and such a call has none yet. *)
Theorem disconnect_leaves_suspended_calls_pending : forall o events s k p,
  let w := run (initial o) events in
  In (s, k) (awaiting w) -> In p (continuation_promises k) ->
  promiseState w p = None
  /\ ~ In p (table_promises w)
  /\ In (s, k) (awaiting (disconnect w))
  /\ promiseState (disconnect w) p = None.
Proof.
  intros o events s k p w Hin Hp.
  pose proof (PInv_run o events) as HP. fold w in HP.
  pose proof (PInv_run o (events ++ [CallDisconnect])) as HP'.
  rewrite run_snoc in HP'. change (PInv (disconnect w)) in HP'.
  assert (Haw : forall w0, In (s, k) (awaiting w0) -> In p (awaiting_promises (awaiting w0))).
  { intros w0 H0. unfold awaiting_promises. apply in_flat_map. now exists (s, k). }
  split; [exact (pl_unsettled HP p (Haw w Hin))|]. split.
  - intros Ht. exact (proj1 (pl_table HP p Ht) (Haw w Hin)).
  - rewrite disconnect_awaiting. split; [exact Hin|].
    apply (pl_unsettled HP'). rewrite disconnect_awaiting. exact (Haw w Hin).
Qed.

(** ** Frames of any shape *)

Lemma handleSingleMessage_raw_typed : forall msg w,
  handleSingleMessage_raw (Message_value msg) w = Normal (handleSingleMessage msg w).
Proof.
  intros [[id|] [m|] [ps|] [r|] [[c text d]|]] w;
    unfold handleSingleMessage_raw, handleSingleMessage, lookup_pending;
    cbn [Message_value opt_field option_map msg_id msg_method msg_params msg_result
         msg_error app has_property field String.eqb Ascii.eqb Bool.eqb Get];
    try reflexivity;
    destruct (map_get id (pendingRequests w)) as [pending|]; reflexivity.
Qed.

Lemma handleItems_typed : forall items w,
  handleItems (map Message_value items) w
  = Normal (fold_left (fun acc item => handleSingleMessage item acc) items w).
Proof.
  induction items as [|msg items IH]; intros w; [reflexivity|].
  cbn [map handleItems fold_left]. rewrite handleSingleMessage_raw_typed. apply IH.
Qed.

(** X26.  A frame whose value has the declared type is handled as the type
    says: [handleMessage] does the same to the value itself, where
    [message.error] is tested for truthiness and the error text is built by
    string conversion, as to the record of type
    [JrpcResponse | JrpcNotification] it is read as.  So what is stated of
    typed frames holds of the frames a conforming device sends. *)
Theorem typed_frame_is_its_value : forall data w s,
  handleMessage (erase data) w = handleMessage data w
  /\ step w (SocketMessage s (erase data)) = step w (SocketMessage s data).
Proof.
  assert (H : forall data w, handleMessage (erase data) w = handleMessage data w).
  { intros [|items|msg|value] w; try reflexivity.
    - cbn [erase]. rewrite handleMessage_Parsed, handleItems_typed. reflexivity.
    - cbn [erase]. rewrite handleMessage_Parsed.
      change (caught (handleSingleMessage_raw (Message_value msg) w)
              = handleSingleMessage msg w).
      now rewrite handleSingleMessage_raw_typed. }
  intros data w s. split; [apply H|].
  cbn [step]. destruct (readyState w s) as [[]|]; try reflexivity.
  unfold onmessage. apply H.
Qed.

Lemma handleItems_app : forall pre rest w,
  handleItems (pre ++ rest) w
  = match handleItems pre w with
    | Normal w1 => handleItems rest w1
    | Thrown w1 => Thrown w1
    end.
Proof.
  induction pre as [|item pre IH]; intros rest w; [reflexivity|].
  cbn [app handleItems]. destruct (handleSingleMessage_raw item w) as [w'|w']; [apply IH|].
  reflexivity.
Qed.

Lemma handled_sockets : forall w c, handled w c -> sockets (caught c) = sockets w.
Proof.
  intros w c H. destruct (handled_frame_kept H) as ((_ & _ & _ & K & _) & _). exact K.
Qed.

(** Objects that are all handled without a throw: as one array and as
    single frames they leave the same client. *)
Lemma objects_as_single_frames : forall items w w1 s,
  readyState w s = Some OPEN ->
  Forall (fun item => exists fields, item = VObject fields) items ->
  handleItems items w = Normal w1 ->
  run w (map (fun item => SocketMessage s (Parsed item)) items) = w1.
Proof.
  induction items as [|item items IH]; intros w w1 s Hrs Hobj Hall.
  - injection Hall as <-. reflexivity.
  - inversion Hobj as [|? ? (fields & ->) Hobj']; subst.
    cbn [handleItems] in Hall.
    pose proof (handleSingleMessage_raw_handled (VObject fields) w) as Hh.
    destruct (handleSingleMessage_raw (VObject fields) w) as [w'|w'] eqn:E; [|discriminate].
    cbn [map]. unfold run. cbn [fold_left step]. rewrite Hrs. unfold onmessage.
    rewrite handleMessage_Parsed, E. cbn [caught].
    apply IH; [|exact Hobj' | exact Hall].
    pose proof (handled_sockets Hh) as Hs. cbn [caught] in Hs.
    unfold readyState in *. now rewrite Hs.
Qed.

(** X21.  An array frame is handled item by item, in order, until an item
    throws.  While the items are objects that are handled without a throw,
    the array has the effect of the same items arriving as single frames.
    An item that throws (a number, a string, a boolean or [null], on which
    ['id' in item] fails, or an error whose text cannot be built) ends the
    frame: the failure is logged and the items after it are not handled,
    whatever they are. *)
Theorem array_frame_stops_at_a_failing_item : forall pre post w w1 s,
  readyState w s = Some OPEN ->
  handleItems pre w = Normal w1 ->
  step w (SocketMessage s (Parsed (VArray pre))) = w1
  /\ (Forall (fun item => exists fields, item = VObject fields) pre ->
      run w (map (fun item => SocketMessage s (Parsed item)) pre) = w1)
  /\ (forall bad w2,
        handleSingleMessage_raw bad w1 = Thrown w2 ->
        step w (SocketMessage s (Parsed (VArray (pre ++ bad :: post))))
        = log (ConsoleError "Failed to parse message:") w2)
  /\ (forall bad,
        has_property "id" bad = None ->
        step w (SocketMessage s (Parsed (VArray (pre ++ bad :: post))))
        = log (ConsoleError "Failed to parse message:") w1).
Proof.
  intros pre post w w1 s Hrs Hpre.
  assert (Hbad : forall bad w2,
            handleSingleMessage_raw bad w1 = Thrown w2 ->
            step w (SocketMessage s (Parsed (VArray (pre ++ bad :: post))))
            = log (ConsoleError "Failed to parse message:") w2).
  { intros bad w2 Hthrow. cbn [step]. rewrite Hrs. unfold onmessage.
    rewrite handleMessage_Parsed, handleItems_app, Hpre.
    cbn [handleItems]. now rewrite Hthrow. }
  split; [|split; [|split]].
  - cbn [step]. rewrite Hrs. unfold onmessage. now rewrite handleMessage_Parsed, Hpre.
  - intros Hobj. now apply objects_as_single_frames.
  - exact Hbad.
  - intros bad Hprim. apply Hbad. unfold handleSingleMessage_raw. now rewrite Hprim.
Qed.

Lemma settle_targets : forall via p o w, targets (settle via p o w) = targets w.
Proof.
  intros via p o w. unfold targets.
  pose proof (settle_shape via p o w) as H.
  apply (f_equal (map fst)) in H. rewrite !map_map in H. exact H.
Qed.

(** The loop of [disconnect] settles the promises of the entries and, through
    [Promise.all], combined promises; no other promise. *)
Lemma reject_entries_untouched : forall entries w q,
  (forall kv, In kv entries -> pend_promise (snd kv) <> q) ->
  ~ In q (targets w) ->
  promiseState (reject_entries entries w) q = promiseState w q.
Proof.
  induction entries as [|kv entries IH]; intros w q Hne Hnt; [reflexivity|].
  cbn [reject_entries fold_left].
  set (w1 := pending_reject (ByDisconnect (fst kv)) (snd kv) (Error "Connection closed") w).
  fold (reject_entries entries w1).
  assert (Hc : targets (clear_pending_timer (snd kv) w) = targets w)
    by (destruct (snd kv) as [p0 [t|]]; reflexivity).
  assert (H1 : promiseState w1 q = promiseState w q).
  { subst w1. unfold pending_reject. rewrite settle_untouched.
    - apply promiseState_clear_pending_timer.
    - intros E. apply (Hne kv); [now left | now rewrite E].
    - now rewrite Hc. }
  rewrite IH; [exact H1 | intros kv' Hin; apply Hne; now right|].
  subst w1. unfold pending_reject. now rewrite settle_targets, Hc.
Qed.

(** X25.  A response to an outstanding request whose error is truthy but
    whose [message] or [code] cannot be converted to a string (an object
    with a property [toString], for one) is not delivered: the entry is
    deleted, then building the error text throws, so the promise is neither
    rejected nor resolved and ['Failed to parse message:'] is logged.  The
    timeout stays armed.  [disconnect()] no longer rejects the call, as it
    has no entry; what settles it is the timeout, with
    ['Request timeout: <method>']. *)
Theorem unprintable_error_drops_the_call : forall o events method params s fields,
  let w := run (initial o) events in
  ws w = Some s -> readyState w s = Some OPEN ->
  field "id" fields = Some (VNumber (requestId w + 1)) ->
  truthy (Get (VObject fields) "error") = true ->
  ToString (Get (Get (VObject fields) "error") "message") = None
  \/ ToString (Get (Get (VObject fields) "error") "code") = None ->
  let w1 := step w (CallRequest method params) in
  let w2 := step w1 (SocketMessage s (Parsed (VObject fields))) in
  map_get (requestId w + 1) (pendingRequests w2) = None
  /\ promiseState w2 (nextPromise w) = None
  /\ handle_get (nextTimer w) (timers w2)
     = Some (opt_timeout o, RequestTimeout (requestId w + 1) method (nextPromise w))
  /\ trace w2 = ConsoleError "Failed to parse message:" :: trace w1
  /\ promiseState (step w2 CallDisconnect) (nextPromise w) = None
  /\ promiseState (step w2 (TimerFire (nextTimer w))) (nextPromise w)
     = Some (Rejected (Error ("Request timeout: " ++ method))).
Proof.
  intros o events method params s fields w Hws Hrs Hid Ht Hno w1 w2.
  pose proof (Inv_run o events) as HI. pose proof (PInv_run o events) as HP.
  pose proof (options_run o events) as Ho.
  fold w in HI, HP, Ho.
  pose proof (PInv_fresh_promise HP) as Hfresh.
  assert (E1 : w1 = _) by exact (request_open method params Hws Hrs HI).
  set (id := requestId w + 1) in *.
  set (pending := mkPending (nextPromise w) (Some (nextTimer w))).
  set (cb := RequestTimeout id method (nextPromise w)).
  assert (Hget : map_get id (pendingRequests w1) = Some pending).
  { rewrite E1. simpl. fold id. fold pending.
    rewrite <- (@map_set_fresh _ (pendingRequests w) id pending (Inv_fresh_id HI)).
    apply map_get_set_same. }
  assert (Hrs1 : readyState w1 s = Some OPEN) by (rewrite E1; exact Hrs).
  assert (Hp1 : promiseState w1 (nextPromise w) = None) by (rewrite E1; exact Hfresh).
  assert (Ht1 : map_delete id (pendingRequests w1) = pendingRequests w).
  { rewrite E1. simpl. fold id. fold pending. apply map_delete_snoc, (Inv_fresh_id HI). }
  assert (Htm1 : timers w1 = (timers w ++ [(nextTimer w, (opt_timeout o, cb))])%list).
  { rewrite E1. simpl. now rewrite Ho. }
  assert (Hc1 : combinators w1 = combinators w) by (rewrite E1; reflexivity).
  assert (Eraw : handleSingleMessage_raw (VObject fields) w1
                 = Thrown (set_pendingRequests (map_delete id (pendingRequests w1)) w1)).
  { rewrite (handleSingleMessage_raw_known w1 fields Hid Hget). cbv zeta. rewrite Ht.
    destruct Hno as [Hno | Hno]; rewrite Hno; [reflexivity|].
    destruct (ToString (Get (Get (VObject fields) "error") "message")); reflexivity. }
  assert (E2 : w2 = log (ConsoleError "Failed to parse message:")
                      (set_pendingRequests (map_delete id (pendingRequests w1)) w1)).
  { subst w2. cbn [step]. rewrite Hrs1. unfold onmessage.
    rewrite handleMessage_Parsed, Eraw. reflexivity. }
  clearbody w1 w2. subst w2.
  assert (Hgt : handle_get (nextTimer w) (timers w1) = Some (opt_timeout o, cb))
    by (rewrite Htm1; apply handle_get_snoc, (Inv_fresh_timer HI)).
  split; [cbn [log set_trace set_pendingRequests pendingRequests]; apply map_get_delete_same|].
  split; [exact Hp1|]. split; [exact Hgt|]. split; [reflexivity|]. split.
  - cbn [step].
    match goal with |- promiseState (disconnect ?x) _ = _ => set (w2 := x) end.
    destruct (disconnect_unfold w2) as (w3 & Ed & Ep & Es & _ & _ & _ & Ec & _).
    rewrite Ed.
    change (promiseState (reject_entries (pendingRequests w2) w3) (nextPromise w) = None).
    rewrite reject_entries_untouched.
    + unfold promiseState. rewrite Es. exact Hp1.
    + intros kv Hin E.
      assert (Hin' : In (nextPromise w) (table_promises w)).
      { rewrite <- E. unfold table_promises. apply in_map_iff. exists kv.
        split; [reflexivity|].
        subst w2. cbn [log set_trace set_pendingRequests pendingRequests] in Hin.
        now rewrite Ht1 in Hin. }
      pose proof (pl_fresh_table HP _ Hin'). lia.
    + unfold targets. rewrite Ec. subst w2.
      cbn [log set_trace set_pendingRequests combinators]. rewrite Hc1.
      intros Hin. pose proof (pl_fresh_targets HP _ Hin). lia.
  - cbn [step].
    match goal with |- promiseState (match handle_get _ (timers ?x) with _ => _ end) _ = _ =>
      set (w2 := x) end.
    assert (Hgt2 : handle_get (nextTimer w) (timers w2) = Some (opt_timeout o, cb)) by exact Hgt.
    rewrite Hgt2. cbn [run_timer cb]. apply settle_pending. exact Hp1.
Qed.

Lemma assign_ids_state : forall requests w,
  state (snd (assign_ids requests w)) = state w.
Proof.
  induction requests as [|[m ps] rest IH]; intros w; simpl; [reflexivity|].
  set (w1 := log (AssignedId (requestId w + 1)) (set_requestId (requestId w + 1) w)).
  specialize (IH w1). destruct (assign_ids rest w1) as [rs w2]. exact IH.
Qed.

Lemma register_all_state : forall rs w, state (snd (register_all rs w)) = state w.
Proof.
  induction rs as [|r rs IH]; intros w; simpl; [reflexivity|].
  set (w1 := set_pendingRequests _ (newPromise w)).
  specialize (IH w1). destruct (register_all rs w1) as [ps w2]. exact IH.
Qed.

Lemma promise_all_state : forall c ms w, state (promise_all c ms w) = state w.
Proof.
  intros c ms w. unfold promise_all. destruct ms; [|reflexivity].
  unfold settle_plain. destruct (promiseState _ c); reflexivity.
Qed.

(** The rest of [batch] on an open socket. *)
Lemma batch_body_open : forall requests c w s,
  ws w = Some s -> readyState w s = Some OPEN ->
  let w' := batch_body requests c w in
  sent (trace w') = (s, WireBatch (numbered (requestId w + 1) requests)) :: sent (trace w)
  /\ requestId w' = requestId w + Z.of_nat (length requests)
  /\ state w' = state w.
Proof.
  intros requests c w s Hws Hrs w'. subst w'. unfold batch_body.
  pose proof (assign_ids_numbered requests w) as (N1 & N2 & N3 & _).
  pose proof (assign_ids_frame requests w) as (A1 & A2 & _).
  pose proof (assign_ids_state requests w) as A3.
  destruct (assign_ids requests w) as [rs w1]. cbn [fst snd] in *.
  pose proof (register_all_frame rs w1) as (R1 & R2 & _).
  pose proof (register_all_trace rs w1) as (T1 & T2).
  pose proof (register_all_state rs w1) as R3.
  destruct (register_all rs w1) as [promises w2]. cbn [fst snd] in *.
  unfold ws_send, readyState in *. rewrite R1, R2, A1, A2, Hws, Hrs.
  destruct (promise_all_trace c promises (log (Sent s (WireBatch rs)) w2)) as (P1 & _ & P3).
  rewrite P1, P3, promise_all_state, sent_log_Sent, requestId_log, N1.
  split; [now rewrite T1, N3|]. split; [congruence|].
  cbn [state log set_trace]. congruence.
Qed.

(** The client after the socket created for a suspended call opened, just
    before the rest of the call runs. *)
Lemma opened_for : forall w k,
  CInv w ->
  let s := length (sockets w) in
  let w1 := open_socket (Some k) w in
  exists wc,
    step w1 (SocketOpen s) = resume k wc
    /\ ws wc = Some s /\ readyState wc s = Some OPEN
    /\ requestId wc = requestId w /\ trace wc = trace w
    /\ state wc = state_connected.
Proof.
  intros w k HC s w1.
  assert (E1 : w1 = set_awaiting (awaiting w ++ [(s, k)])
                      (set_ws (Some s)
                         (set_sockets (sockets w ++ [CONNECTING])
                            (set_state state_connecting w)))) by reflexivity.
  assert (Hrs1 : readyState w1 s = Some CONNECTING).
  { rewrite E1. unfold readyState. cbn. apply nth_error_snoc. }
  assert (E2 : step w1 (SocketOpen s) = onopen s (set_readyState s OPEN w1)).
  { cbn [step]. now rewrite Hrs1. }
  rewrite E2. unfold onopen. cbv zeta.
  set (wa := set_state state_connected (set_readyState s OPEN w1)).
  set (wb := match reconnectTimer wa with
             | Some t => set_reconnectTimer None (clearTimeout t wa)
             | None => wa
             end).
  assert (Haw : awaiting wb = (awaiting w ++ [(s, k)])%list).
  { subst wb wa. rewrite E1. cbn. destruct (reconnectTimer w); reflexivity. }
  rewrite (@settle_connect_new resume (awaiting w) k s wb).
  - exists (set_awaiting (awaiting w) wb). split; [reflexivity|].
    unfold readyState. subst wb wa. rewrite E1. cbn.
    destruct (reconnectTimer w) eqn:Er; cbn; subst s;
      rewrite set_nth_snoc, nth_error_snoc; repeat split.
  - intros s' k' Hin. pose proof (c_awaiting HC _ _ Hin). subst s. lia.
  - exact Haw.
Qed.

Lemma resume_batch : forall requests c w,
  resume (KBatch requests c) w = batch_body requests c w.
Proof. reflexivity. Qed.

(** X22.  [batch] on a client whose socket is not open.  Like [request], the call
    creates a socket and suspends without using an id.  When the socket
    opens, the elements get consecutive ids from the next id on and go out
    in one frame on the new socket. *)
Theorem batch_connects_first : forall o events requests,
  let w := run (initial o) events in
  ws_open w = false ->
  let s := length (sockets w) in
  let w1 := step w (CallBatch requests) in
  let w2 := step w1 (SocketOpen s) in
  (ws w1 = Some s /\ readyState w1 s = Some CONNECTING
   /\ getState w1 = state_connecting
   /\ requestId w1 = requestId w /\ pendingRequests w1 = pendingRequests w
   /\ trace w1 = trace w /\ promiseState w1 (nextPromise w) = None)
  /\ (getState w2 = state_connected
      /\ sent (trace w2)
         = (s, WireBatch (numbered (requestId w + 1) requests)) :: sent (trace w)
      /\ requestId w2 = requestId w + Z.of_nat (length requests)).
Proof.
  intros o events requests w Hclosed s w1 w2.
  pose proof (PInv_run o events) as HP. pose proof (CInv_run o events) as HC.
  fold w in HP, HC.
  pose proof (PInv_fresh_promise HP) as Hfresh.
  assert (E1 : w1 = open_socket (Some (KBatch requests (nextPromise w))) (newPromise w)).
  { subst w1. cbn [step]. unfold batch, connect.
    change (ws_open (newPromise w)) with (ws_open w). now rewrite Hclosed. }
  split.
  - rewrite E1. unfold readyState, getState. cbn.
    repeat split; try reflexivity; [apply nth_error_snoc | exact Hfresh].
  - assert (HC' : CInv (newPromise w)).
    { apply (shrinks_ckeeps (newPromise_shrinks w)). exact HC. }
    destruct (@opened_for (newPromise w) (KBatch requests (nextPromise w)) HC')
      as (wc & E2 & Hws & Hrs & Hid & Htr & Hst).
    cbn [sockets newPromise set_nextPromise] in E2, Hws, Hrs. fold s in E2, Hws, Hrs.
    rewrite <- E1 in E2. change (w2 = resume (KBatch requests (nextPromise w)) wc) in E2.
    rewrite resume_batch in E2.
    destruct (@batch_body_open requests (nextPromise w) wc s Hws Hrs) as (B1 & B2 & B3).
    rewrite E2. unfold getState. rewrite B1, B2, B3, Hst, Htr, Hid. repeat split.
Qed.

(** ** Failing batches *)

(** A batch that was just sent on an open socket. *)
Lemma batch_outstanding : forall o events requests s,
  let w := run (initial o) events in
  ws w = Some s -> readyState w s = Some OPEN ->
  let w1 := step w (CallBatch requests) in
  let c := nextPromise w in
  PInv w1
  /\ readyState w1 s = Some OPEN
  /\ In (c, seq (S c) (length requests))
       (map (fun r => (all_target r, all_members r)) (combinators w1))
  /\ forall i, (i < length requests)%nat ->
       map_get (requestId w + 1 + Z.of_nat i) (pendingRequests w1)
       = Some (mkPending (S c + i)%nat None)
       /\ promiseState w1 (S c + i)%nat = None.
Proof.
  intros o events requests s w Hws Hrs w1 c.
  pose proof (PInv_run o events) as HP. fold w in HP.
  assert (HP1 : PInv w1).
  { pose proof (PInv_run o (events ++ [CallBatch requests])) as H.
    now rewrite run_snoc in H. }
  assert (Hopen : ws_open w = true) by (unfold ws_open; now rewrite Hws, Hrs).
  destruct (@batch_registers_in_order requests w Hopen) as [Hcomb Hreg].
  change (batch requests w) with w1 in Hcomb, Hreg. fold c in Hcomb, Hreg.
  split; [exact HP1|]. split; [|split].
  - unfold readyState. destruct (@batch_frame requests w s c Hws Hrs) as [H _].
    change (batch requests w) with w1 in H. rewrite H. exact Hrs.
  - rewrite Hcomb, map_app. apply in_or_app. right. now left.
  - intros i Hi. split.
    + destruct (nth_error requests i) as [[m ps]|] eqn:Hr;
        [exact (Hreg i m ps Hr) | apply nth_error_None in Hr; lia].
    + destruct (@batch_frame requests w s (S c + i)%nat Hws Hrs) as [_ H].
      change (batch requests w) with w1 in H. rewrite H; [|subst c; lia].
      apply (pl_fresh_settled HP). subst c. lia.
Qed.

(** The promise of [Promise.all] once an input is rejected and every
    rejected input has the same reason. *)
Lemma combined_rejected : forall w r m e,
  PInv w -> In r (combinators w) ->
  In m (all_members r) -> promiseState w m = Some (Rejected e) ->
  (forall m' e', In m' (all_members r) -> promiseState w m' = Some (Rejected e') -> e' = e) ->
  promiseState w (all_target r) = Some (Rejected e).
Proof.
  intros w r m e HP Hr Hm Hst Hsame.
  destruct (pl_coherent HP r Hr) as [F T].
  destruct (promiseState w (all_target r)) as [[x|e']|].
  - destruct T as (vs & Hc & _).
    assert (Hn : collect (all_values r) = None).
    { apply (@collect_pending_member (promiseState w) m (all_members r) (all_values r) F Hm).
      now rewrite Hst. }
    congruence.
  - destruct T as (m' & Hm' & Hst'). now rewrite (Hsame m' e' Hm' Hst').
  - destruct T as [Hno _]. exfalso. exact (Hno m e Hm Hst).
Qed.

Lemma In_shape : forall w c ms,
  In (c, ms) (map (fun r => (all_target r, all_members r)) (combinators w)) ->
  exists r, In r (combinators w) /\ all_target r = c /\ all_members r = ms.
Proof.
  intros w c ms Hin. apply in_map_iff in Hin. destruct Hin as (r & Hr & Hin).
  injection Hr as Ht Hm. now exists r.
Qed.

(** The error response for one element of an outstanding batch rejects the
    promise of that element only. *)
Lemma error_response_rejects : forall aw w msg id err p,
  PInvL aw w ->
  msg_id msg = Some id -> msg_error msg = Some err ->
  map_get id (pendingRequests w) = Some (mkPending p None) ->
  promiseState w p = None ->
  let w' := handleSingleMessage msg w in
  promiseState w' p = Some (Rejected (Error (error_text err)))
  /\ pendingRequests w' = map_delete id (pendingRequests w)
  /\ forall q, q <> p -> In q (table_promises w) -> promiseState w' q = promiseState w q.
Proof.
  intros aw w msg id err p HP Hid Herr Hget Hp w'.
  assert (E : w' = settle (ByResponse id) p (Rejected (Error (error_text err)))
                     (set_pendingRequests (map_delete id (pendingRequests w)) w)).
  { subst w'. rewrite (@handleSingleMessage_known w msg id (mkPending p None) Hid Hget).
    cbv zeta. rewrite Herr. reflexivity. }
  rewrite E. split; [|split].
  - apply settle_pending. exact Hp.
  - now rewrite settle_pendingRequests.
  - intros q Hne Hin. rewrite settle_untouched; [reflexivity | exact Hne |].
    exact (proj2 (pl_table HP q Hin)).
Qed.

(** X23.  A [batch] on an open socket one element of which is answered with an
    error.  The promise [batch] returned is rejected at once with the error
    of that element, [<message> (code: <code>)], while every other element
    is still pending and still in the table, where no timer will ever
    remove it. *)
Theorem batch_error_rejects_the_batch : forall o events requests s i msg err,
  let w := run (initial o) events in
  ws w = Some s -> readyState w s = Some OPEN ->
  (i < length requests)%nat ->
  msg_id msg = Some (requestId w + 1 + Z.of_nat i) -> msg_error msg = Some err ->
  let w1 := step w (CallBatch requests) in
  let w2 := step w1 (SocketMessage s (ParsedObject msg)) in
  promiseState w2 (nextPromise w) = Some (Rejected (Error (error_text err)))
  /\ forall j, (j < length requests)%nat -> j <> i ->
       promiseState w2 (S (nextPromise w) + j)%nat = None
       /\ map_get (requestId w + 1 + Z.of_nat j) (pendingRequests w2)
          = Some (mkPending (S (nextPromise w) + j)%nat None)
       /\ forall t d m p,
            ~ In (t, (d, RequestTimeout (requestId w + 1 + Z.of_nat j) m p)) (timers w2).
Proof.
  intros o events requests s i msg err w Hws Hrs Hi Hid Herr w1 w2.
  pose proof (@batch_outstanding o events requests s Hws Hrs) as H.
  cbv zeta in H. fold w in H. fold w1 in H. destruct H as (HP1 & Hrs1 & Hshape & Hel).
  set (c := nextPromise w) in *. set (first := requestId w + 1) in *.
  assert (E2 : w2 = handleSingleMessage msg w1).
  { subst w2. cbn [step]. now rewrite Hrs1. }
  destruct (Hel i Hi) as [Hgi Hpi].
  destruct (@error_response_rejects (awaiting_promises (awaiting w1)) w1 msg
              (first + Z.of_nat i) err (S c + i)%nat HP1 Hid Herr Hgi Hpi) as (F1 & F2 & F3).
  rewrite <- E2 in F1, F2, F3.
  assert (HP2 : PInv w2).
  { pose proof (PInv_run o ((events ++ [CallBatch requests])
                              ++ [SocketMessage s (ParsedObject msg)])) as H.
    now rewrite !run_snoc in H. }
  assert (Hothers : forall j, (j < length requests)%nat -> j <> i ->
                      promiseState w2 (S c + j)%nat = None).
  { intros j Hj Hne. destruct (Hel j Hj) as [Hgj Hpj].
    rewrite F3; [exact Hpj | lia | exact (table_promises_get _ _ Hgj)]. }
  split.
  - pose proof (handleSingleMessage_shape msg w1) as Hs. rewrite <- E2 in Hs.
    rewrite <- Hs in Hshape. destruct (In_shape _ _ _ Hshape) as (r & Hr & Ht & Hm).
    rewrite <- Ht.
    apply (@combined_rejected w2 r (S c + i)%nat (Error (error_text err)) HP2 Hr).
    + rewrite Hm. apply in_seq. lia.
    + exact F1.
    + intros m' e' Hm' Hst'. rewrite Hm in Hm'. apply in_seq in Hm'.
      destruct (Nat.eq_dec m' (S c + i)%nat) as [-> | Hne]; [congruence|].
      assert (Hj : exists j, m' = (S c + j)%nat /\ (j < length requests)%nat /\ j <> i)
        by (exists (m' - S c)%nat; lia).
      destruct Hj as (j & -> & Hj & Hji). rewrite (Hothers j Hj Hji) in Hst'. discriminate.
  - intros j Hj Hne. destruct (Hel j Hj) as [Hgj Hpj].
    split; [exact (Hothers j Hj Hne)|]. split.
    + rewrite F2, map_get_delete_other; [exact Hgj | lia].
    + intros t d m p Hin.
      pose proof (Inv_run o ((events ++ [CallBatch requests])
                               ++ [SocketMessage s (ParsedObject msg)])) as HI.
      rewrite !run_snoc in HI. change (Inv w2) in HI.
      destruct (inv_timers HI _ _ _ _ _ Hin) as (_ & _ & Hget).
      rewrite F2, map_get_delete_other in Hget; [|lia].
      rewrite Hgj in Hget. discriminate.
Qed.

Lemma disconnect_rejects_entry : forall w id pending,
  In (id, pending) (pendingRequests w) ->
  promiseState w (pend_promise pending) = None ->
  promiseState (disconnect w) (pend_promise pending) = Some (Rejected connection_closed).
Proof.
  intros w id pending Hin Hp.
  destruct (disconnect_unfold w) as (w3 & -> & Ep & Es & Hrest).
  change (promiseState (reject_entries (pendingRequests w) w3) (pend_promise pending)
          = Some (Rejected connection_closed)).
  assert (Hp3 : promiseState w3 (pend_promise pending) = None)
    by (unfold promiseState; now rewrite Es).
  destruct (reject_entries_reason (pendingRequests w) w3 (pend_promise pending))
    as [H | [_ H]]; [|exact H].
  exfalso. apply (reject_entries_settles (pendingRequests w) w3 (id, pending) Hin).
  simpl. congruence.
Qed.

Lemma reject_entries_shape : forall entries w,
  map (fun r => (all_target r, all_members r)) (combinators (reject_entries entries w))
  = map (fun r => (all_target r, all_members r)) (combinators w).
Proof.
  unfold reject_entries. induction entries as [|[id pending] entries IH]; intros w;
    cbn [fold_left]; [reflexivity|].
  rewrite IH. unfold pending_reject. rewrite settle_shape. unfold clear_pending_timer.
  cbn [snd]. destruct (pend_timer pending); reflexivity.
Qed.

Lemma disconnect_shape : forall w,
  map (fun r => (all_target r, all_members r)) (combinators (disconnect w))
  = map (fun r => (all_target r, all_members r)) (combinators w).
Proof.
  intros w.
  destruct (disconnect_unfold w) as (w3 & -> & _ & _ & _ & _ & _ & Hc & _).
  cbn [combinators set_pendingRequests]. now rewrite reject_entries_shape, Hc.
Qed.

(** X24.  [disconnect()] while a batch is outstanding: the promise [batch]
    returned is rejected with [Connection closed], because every element is
    rejected with it. *)
Theorem disconnect_rejects_an_outstanding_batch : forall o events requests s,
  let w := run (initial o) events in
  ws w = Some s -> readyState w s = Some OPEN ->
  requests <> [] ->
  let w1 := step w (CallBatch requests) in
  let w2 := step w1 CallDisconnect in
  promiseState w2 (nextPromise w) = Some (Rejected (Error "Connection closed"))
  /\ forall i, (i < length requests)%nat ->
       promiseState w2 (S (nextPromise w) + i)%nat
       = Some (Rejected (Error "Connection closed")).
Proof.
  intros o events requests s w Hws Hrs Hne w1 w2.
  pose proof (@batch_outstanding o events requests s Hws Hrs) as H.
  cbv zeta in H. fold w in H. fold w1 in H. destruct H as (HP1 & Hrs1 & Hshape & Hel).
  set (c := nextPromise w) in *.
  assert (HP2 : PInv w2).
  { pose proof (PInv_run o ((events ++ [CallBatch requests]) ++ [CallDisconnect])) as H.
    now rewrite !run_snoc in H. }
  assert (Hall : forall i, (i < length requests)%nat ->
                   promiseState w2 (S c + i)%nat = Some (Rejected connection_closed)).
  { intros i Hi. destruct (Hel i Hi) as [Hgi Hpi].
    apply (@disconnect_rejects_entry w1 _ (mkPending (S c + i)%nat None)
             (map_get_In _ _ Hgi) Hpi). }
  split; [|exact Hall].
  pose proof (disconnect_shape w1) as Hs. change (disconnect w1) with w2 in Hs.
  rewrite <- Hs in Hshape. destruct (In_shape _ _ _ Hshape) as (r & Hr & Ht & Hm).
  rewrite <- Ht.
  assert (H0 : (0 < length requests)%nat) by (destruct requests; [congruence | simpl; lia]).
  apply (@combined_rejected w2 r (S c + 0)%nat connection_closed HP2 Hr).
  - rewrite Hm. apply in_seq. lia.
  - exact (Hall O H0).
  - intros m' e' Hm' Hst'. rewrite Hm in Hm'. apply in_seq in Hm'.
    assert (Hj : exists j, m' = (S c + j)%nat /\ (j < length requests)%nat)
      by (exists (m' - S c)%nat; lia).
    destruct Hj as (j & -> & Hj). rewrite (Hall j Hj) in Hst'. congruence.
Qed.

(** ** What a batch relies on in every later world *)





































(** ** Instances of the further properties *)

(** A client built with [{timeout: 5000}]: the timer of its first request
    carries 5000. *)
Lemma timers_carry_the_configured_delays_witness :
  In (0%nat, (5000, RequestTimeout 1 "ping" 0%nat))
    (timers (run (JrpcWebSocketClient_new short_timeout) ping_events))
  /\ 5000 = match arg_timeout short_timeout with Some x => x | None => 30000 end.
Proof.
  assert (Hin : In (0%nat, (5000, RequestTimeout 1 "ping" 0%nat))
                  (timers (run (JrpcWebSocketClient_new short_timeout) ping_events)))
    by (vm_compute; left; reflexivity).
  exact (conj Hin (@timers_carry_the_configured_delays short_timeout ping_events
                     0%nat 5000 (RequestTimeout 1 "ping" 0%nat) Hin)).
Defined.

(** A client built with [{reconnect: false}] whose socket closed. *)
Lemma reconnect_disabled_arms_no_timer_witness :
  arg_reconnect no_reconnect = Some false
  /\ reconnectTimer (run (JrpcWebSocketClient_new no_reconnect) closed_events) = None.
Proof.
  pose proof (@reconnect_disabled_arms_no_timer no_reconnect closed_events eq_refl) as H.
  cbv zeta in H. exact (conj eq_refl (proj1 H)).
Defined.

(** [request("ping", {})] on a connected client, answered with "pong". *)
Lemma response_settles_its_request_witness :
  ws connected_client = Some 0%nat
  /\ readyState connected_client 0%nat = Some OPEN
  /\ msg_id (response 1 (VString "pong")) = Some (requestId connected_client + 1)
  /\ pendingRequests
       (step (step connected_client (CallRequest "ping" (VObject [])))
          (SocketMessage 0%nat (ParsedObject (response 1 (VString "pong")))))
     = pendingRequests connected_client.
Proof.
  assert (H1 : ws connected_client = Some 0%nat) by (vm_compute; reflexivity).
  assert (H2 : readyState connected_client 0%nat = Some OPEN) by (vm_compute; reflexivity).
  assert (H3 : msg_id (response 1 (VString "pong")) = Some (requestId connected_client + 1))
    by (vm_compute; reflexivity).
  pose proof (@response_settles_its_request default_options connected_events "ping"
                (VObject []) 0%nat (response 1 (VString "pong")) H1 H2 H3) as H.
  cbv zeta in H. destruct H as (_ & _ & _ & H & _).
  exact (conj H1 (conj H2 (conj H3 H))).
Defined.

(** [request("ping", {})] on a connected client, never answered. *)
Lemma unanswered_request_times_out_witness :
  ws connected_client = Some 0%nat
  /\ readyState connected_client 0%nat = Some OPEN
  /\ promiseState
       (step (step connected_client (CallRequest "ping" (VObject [])))
          (TimerFire (nextTimer connected_client)))
       (nextPromise connected_client)
     = Some (Rejected (Error ("Request timeout: " ++ "ping"))).
Proof.
  assert (H1 : ws connected_client = Some 0%nat) by (vm_compute; reflexivity).
  assert (H2 : readyState connected_client 0%nat = Some OPEN) by (vm_compute; reflexivity).
  pose proof (@unanswered_request_times_out default_options connected_events "ping"
                (VObject []) 0%nat H1 H2) as H.
  cbv zeta in H. destruct H as (_ & H & _).
  exact (conj H1 (conj H2 H)).
Defined.

(** [request("ping", {})] on a new client. *)
Lemma request_connects_first_witness :
  ws_open (run (initial default_options) []) = false
  /\ ws (step (run (initial default_options) []) (CallRequest "ping" (VObject [])))
     = Some (length (sockets (run (initial default_options) []))).
Proof.
  pose proof (@request_connects_first default_options [] "ping" (VObject []) eq_refl) as H.
  cbv zeta in H. destruct H as ((H & _) & _).
  exact (conj eq_refl H).
Defined.

(** The open socket of a connected client fails. *)
Lemma failed_socket_ends_disconnected_witness :
  readyState connected_client 0%nat = Some OPEN
  /\ OPEN <> CLOSED
  /\ getState (step connected_client (SocketFail 0%nat)) = state_disconnected.
Proof.
  assert (H1 : readyState connected_client 0%nat = Some OPEN) by (vm_compute; reflexivity).
  assert (H2 : OPEN <> CLOSED) by discriminate.
  pose proof (@failed_socket_ends_disconnected connected_client 0%nat OPEN H1 H2) as H.
  cbv zeta in H. exact (conj H1 (conj H2 (proj1 H))).
Defined.

(** [request("ping", {})] on a new client whose socket fails. *)
Lemma failed_connection_rejects_the_request_witness :
  ws_open (run (initial default_options) []) = false
  /\ requestId
       (step (step (run (initial default_options) []) (CallRequest "ping" (VObject [])))
          (SocketFail (length (sockets (run (initial default_options) [])))))
     = requestId (run (initial default_options) []).
Proof.
  pose proof (@failed_connection_rejects_the_request default_options [] "ping" (VObject [])
                eq_refl) as H.
  cbv zeta in H. destruct H as (_ & H & _).
  exact (conj eq_refl H).
Defined.

(** Two requests on a new client, then the first socket opens. *)
Lemma request_while_connecting_replaces_the_socket_witness :
  ws_open (run (initial default_options) []) = false
  /\ promiseState
       (step
          (run (run (initial default_options) [])
             [CallRequest "a" VNull; CallRequest "b" VNull])
          (SocketOpen (length (sockets (run (initial default_options) [])))))
       (nextPromise (run (initial default_options) []))
     = Some (Rejected (DOMException "InvalidStateError")).
Proof.
  pose proof (@request_while_connecting_replaces_the_socket default_options []
                "a" VNull "b" VNull eq_refl) as H.
  cbv zeta in H. destruct H as (_ & _ & H & _).
  exact (conj eq_refl H).
Defined.


(** A batch of three on a connected client. *)
Lemma batch_sends_one_numbered_frame_witness :
  ws connected_client = Some 0%nat
  /\ readyState connected_client 0%nat = Some OPEN
  /\ requestId (batch three_requests connected_client)
     = requestId connected_client + Z.of_nat (length three_requests).
Proof.
  assert (H1 : ws connected_client = Some 0%nat) by (vm_compute; reflexivity).
  assert (H2 : readyState connected_client 0%nat = Some OPEN) by (vm_compute; reflexivity).
  pose proof (@batch_sends_one_numbered_frame three_requests connected_client 0%nat H1 H2)
    as H.
  cbv zeta in H. destruct H as (_ & H & _).
  exact (conj H1 (conj H2 H)).
Defined.

(** A batch of three on a connected client, answered in the order c, a, b. *)
Lemma batch_results_follow_the_ids_witness :
  ws connected_client = Some 0%nat
  /\ readyState connected_client 0%nat = Some OPEN
  /\ promiseState
       (step (step connected_client (CallBatch three_requests))
          (SocketMessage 0%nat
             (ParsedArray [response 3 (VString "C"); response 1 (VString "A");
                           response 2 (VString "B")])))
       (nextPromise connected_client)
     = Some (Fulfilled (VArray [VString "A"; VString "B"; VString "C"])).
Proof.
  assert (H1 : ws connected_client = Some 0%nat) by (vm_compute; reflexivity).
  assert (H2 : readyState connected_client 0%nat = Some OPEN) by (vm_compute; reflexivity).
  assert (H3 : Permutation
                 [response 3 (VString "C"); response 1 (VString "A");
                  response 2 (VString "B")]
                 (responses (requestId connected_client + 1)
                    [VString "A"; VString "B"; VString "C"])).
  { vm_compute. eapply perm_trans; [apply perm_swap | apply perm_skip, perm_swap]. }
  pose proof (@batch_results_follow_the_ids default_options connected_events three_requests
                [VString "A"; VString "B"; VString "C"]
                [response 3 (VString "C"); response 1 (VString "A");
                 response 2 (VString "B")]
                0%nat H1 H2 eq_refl H3) as H.
  cbv zeta in H. exact (conj H1 (conj H2 H)).
Defined.

(** [batch([])] on a connected client. *)
Lemma empty_batch_resolves_at_once_witness :
  ws connected_client = Some 0%nat
  /\ readyState connected_client 0%nat = Some OPEN
  /\ promiseState (step connected_client (CallBatch [])) (nextPromise connected_client)
     = Some (Fulfilled (VArray [])).
Proof.
  assert (H1 : ws connected_client = Some 0%nat) by (vm_compute; reflexivity).
  assert (H2 : readyState connected_client 0%nat = Some OPEN) by (vm_compute; reflexivity).
  pose proof (@empty_batch_resolves_at_once default_options connected_events 0%nat H1 H2)
    as H.
  cbv zeta in H. exact (conj H1 (conj H2 (proj1 H))).
Defined.

(** [setup.batchGet(["/a", "/b"])] on a connected client. *)
Lemma setup_batches_are_single_frames_witness :
  ws connected_client = Some 0%nat
  /\ readyState connected_client 0%nat = Some OPEN
  /\ sent (trace (SetupClient_batchGet ["/a"; "/b"] connected_client))
     = (0%nat,
        WireBatch
          (numbered (requestId connected_client + 1)
             (map (fun path => ("setup_get", VObject [("path", VString path)]))
                ["/a"; "/b"])))
       :: sent (trace connected_client).
Proof.
  assert (H1 : ws connected_client = Some 0%nat) by (vm_compute; reflexivity).
  assert (H2 : readyState connected_client 0%nat = Some OPEN) by (vm_compute; reflexivity).
  pose proof (@setup_batches_are_single_frames default_options connected_events 0%nat H1 H2)
    as H.
  cbv zeta in H. destruct H as [H _].
  exact (conj H1 (conj H2 (proj1 (H ["/a"; "/b"])))).
Defined.

(** The socket of a connected client with default options closes. *)
Lemma closed_socket_is_reconnected_witness :
  opt_reconnect default_options = true
  /\ ws connected_client = Some 0%nat
  /\ readyState connected_client 0%nat = Some OPEN
  /\ OPEN <> CLOSED
  /\ getState (step connected_client (SocketClose 0%nat)) = state_disconnected.
Proof.
  assert (H1 : ws connected_client = Some 0%nat) by (vm_compute; reflexivity).
  assert (H2 : readyState connected_client 0%nat = Some OPEN) by (vm_compute; reflexivity).
  assert (H3 : OPEN <> CLOSED) by discriminate.
  pose proof (@closed_socket_is_reconnected default_options connected_events 0%nat OPEN
                eq_refl H1 H2 H3) as H.
  cbv zeta in H. destruct H as ((H & _) & _).
  exact (conj eq_refl (conj H1 (conj H2 (conj H3 H)))).
Defined.

(** The reconnect timer of a client whose socket closed expires. *)
Lemma reconnect_attempt_is_retried_witness :
  ws_open closed_client = false
  /\ handle_get 0%nat (timers closed_client) = Some (3000, ReconnectAttempt)
  /\ getState (step closed_client (TimerFire 0%nat)) = state_connecting.
Proof.
  assert (H1 : ws_open closed_client = false) by (vm_compute; reflexivity).
  assert (H2 : handle_get 0%nat (timers closed_client) = Some (3000, ReconnectAttempt))
    by (vm_compute; reflexivity).
  pose proof (@reconnect_attempt_is_retried default_options closed_events 0%nat 3000 H1 H2)
    as H.
  cbv zeta in H. destruct H as ((_ & _ & H & _) & _).
  exact (conj H1 (conj H2 H)).
Defined.

(** [request("ping", {})] on a new client, then [disconnect()]. *)
Lemma disconnect_leaves_suspended_calls_pending_witness :
  In (0%nat, KRequest "ping" (VObject []) 0%nat) (awaiting waiting_client)
  /\ In 0%nat (continuation_promises (KRequest "ping" (VObject []) 0%nat))
  /\ promiseState (disconnect waiting_client) 0%nat = None.
Proof.
  assert (H1 : In (0%nat, KRequest "ping" (VObject []) 0%nat) (awaiting waiting_client))
    by (vm_compute; left; reflexivity).
  assert (H2 : In 0%nat (continuation_promises (KRequest "ping" (VObject []) 0%nat)))
    by (left; reflexivity).
  pose proof (@disconnect_leaves_suspended_calls_pending default_options waiting_events
                0%nat (KRequest "ping" (VObject []) 0%nat) 0%nat H1 H2) as H.
  cbv zeta in H. destruct H as (_ & _ & _ & H).
  exact (conj H1 (conj H2 H)).
Defined.

(** The frame [[{"method": "setup_update", ...}, 7, {"id": 1, "result":
    "pong"}]] while the ping is outstanding: the notification is skipped,
    the number ends the frame, and the response after it is not handled. *)
Lemma array_frame_stops_at_a_failing_item_witness :
  readyState ping_outstanding 0%nat = Some OPEN
  /\ handleItems [Message_value setup_update] ping_outstanding = Normal ping_outstanding
  /\ step ping_outstanding
       (SocketMessage 0%nat
          (Parsed (VArray ([Message_value setup_update]
                           ++ VNumber 7 :: [Message_value (response 1 (VString "pong"))]))))
     = log (ConsoleError "Failed to parse message:") ping_outstanding.
Proof.
  assert (H1 : readyState ping_outstanding 0%nat = Some OPEN) by (vm_compute; reflexivity).
  assert (H2 : handleItems [Message_value setup_update] ping_outstanding
               = Normal ping_outstanding) by (vm_compute; reflexivity).
  pose proof (@array_frame_stops_at_a_failing_item [Message_value setup_update]
                [Message_value (response 1 (VString "pong"))]
                ping_outstanding ping_outstanding 0%nat H1 H2) as (_ & _ & _ & H).
  exact (conj H1 (conj H2 (H (VNumber 7) eq_refl))).
Defined.

(** The response [{"id": 1, "error": {"code": -32602, "message":
    {"toString": null}}}] to the outstanding ping: the call is settled by
    its timeout. *)
Lemma unprintable_error_drops_the_call_witness :
  ws connected_client = Some 0%nat
  /\ readyState connected_client 0%nat = Some OPEN
  /\ promiseState
       (step (step (step connected_client (CallRequest "ping" (VObject [])))
                (SocketMessage 0%nat (Parsed (unprintable_error 1))))
          (TimerFire (nextTimer connected_client)))
       (nextPromise connected_client)
     = Some (Rejected (Error ("Request timeout: " ++ "ping"))).
Proof.
  assert (H1 : ws connected_client = Some 0%nat) by (vm_compute; reflexivity).
  assert (H2 : readyState connected_client 0%nat = Some OPEN) by (vm_compute; reflexivity).
  assert (H3 : field "id"
                 [("id", VNumber 1);
                  ("error", VObject [("code", VNumber (-32602));
                                     ("message", VObject [("toString", VNull)])])]
               = Some (VNumber (requestId connected_client + 1)))
    by (vm_compute; reflexivity).
  pose proof (@unprintable_error_drops_the_call default_options connected_events "ping"
                (VObject []) 0%nat _ H1 H2 H3 eq_refl (or_introl eq_refl)) as H.
  cbv zeta in H. destruct H as (_ & _ & _ & _ & _ & H).
  exact (conj H1 (conj H2 H)).
Defined.

(** The timeout of a call dropped in this way has no entry in the table, and
    [disconnect()], which clears the timeouts of the entries of the table,
    leaves it armed. *)
Lemma dropped_call_keeps_its_timeout :
  let w := run connected_client
             [CallRequest "ping" (VObject []);
              SocketMessage 0%nat (Parsed (unprintable_error 1))] in
  pendingRequests w = []
  /\ timers w = [(0%nat, (30000, RequestTimeout 1 "ping" 0%nat))]
  /\ timers (disconnect w) = timers w.
Proof. vm_compute. repeat split. Qed.

(** A batch of three on a new client. *)
Lemma batch_connects_first_witness :
  ws_open (run (initial default_options) []) = false
  /\ requestId (step (run (initial default_options) []) (CallBatch three_requests))
     = requestId (run (initial default_options) []).
Proof.
  pose proof (@batch_connects_first default_options [] three_requests eq_refl) as H.
  cbv zeta in H. destruct H as ((_ & _ & _ & H & _) & _).
  exact (conj eq_refl H).
Defined.

(** A batch of three on a connected client; the second element is answered
    with an error. *)
Lemma batch_error_rejects_the_batch_witness :
  ws connected_client = Some 0%nat
  /\ readyState connected_client 0%nat = Some OPEN
  /\ (1 < length three_requests)%nat
  /\ msg_id (error_response 2) = Some (requestId connected_client + 1 + Z.of_nat 1)
  /\ promiseState
       (step (step connected_client (CallBatch three_requests))
          (SocketMessage 0%nat (ParsedObject (error_response 2))))
       (nextPromise connected_client)
     = Some (Rejected (Error (error_text invalid_params))).
Proof.
  assert (H1 : ws connected_client = Some 0%nat) by (vm_compute; reflexivity).
  assert (H2 : readyState connected_client 0%nat = Some OPEN) by (vm_compute; reflexivity).
  assert (H3 : (1 < length three_requests)%nat) by (repeat constructor).
  assert (H4 : msg_id (error_response 2)
               = Some (requestId connected_client + 1 + Z.of_nat 1))
    by (vm_compute; reflexivity).
  pose proof (@batch_error_rejects_the_batch default_options connected_events three_requests
                0%nat 1%nat (error_response 2) invalid_params H1 H2 H3 H4 eq_refl) as H.
  cbv zeta in H. exact (conj H1 (conj H2 (conj H3 (conj H4 (proj1 H))))).
Defined.

(** A batch of three on a connected client, then [disconnect()]. *)
Lemma disconnect_rejects_an_outstanding_batch_witness :
  ws connected_client = Some 0%nat
  /\ readyState connected_client 0%nat = Some OPEN
  /\ three_requests <> []
  /\ promiseState
       (step (step connected_client (CallBatch three_requests)) CallDisconnect)
       (nextPromise connected_client)
     = Some (Rejected (Error "Connection closed")).
Proof.
  assert (H1 : ws connected_client = Some 0%nat) by (vm_compute; reflexivity).
  assert (H2 : readyState connected_client 0%nat = Some OPEN) by (vm_compute; reflexivity).
  assert (H3 : three_requests <> []) by discriminate.
  pose proof (@disconnect_rejects_an_outstanding_batch default_options connected_events
                three_requests 0%nat H1 H2 H3) as H.
  cbv zeta in H. exact (conj H1 (conj H2 (conj H3 (proj1 H)))).
Defined.
